(** * Keplerian asteroid belt: orbit solver, body entity and quadtree

    A shallow embedding of [js/utils.js], [js/constants.js], [js/orbital.js],
    [js/asteroid.js], [js/selection.js], [js/camera.js], [js/minimap.js],
    [js/deltav-panel.js] and of the parts of [js/renderer.js] and
    [js/main.js] that decide what is drawn and when, with the properties of
    the specification that concern them and further properties of the code.

    Numbers.  In the first part of the file a JavaScript number is read as
    a real number: [+], [-], [*], [/], [Math.sqrt], [Math.sin], ... are the
    operations of [R], so rounding and overflow are abstracted away.  Three
    things follow and are kept in mind throughout:
    - a division whose divisor is zero yields [Infinity] or [NaN] in
      JavaScript and is outside this reading; statements about code that
      divides carry the hypothesis that keeps the divisor away from zero;
    - comparisons ([<], [<=], [>=]) are the boolean tests [Rltb], [Rleb]
      below, decided classically;
    - a statement in this reading is a statement about the running program
      up to rounding.  Where the rounding itself decides an outcome (a
      strict bound, an exact equality, whether a loop ends, whether an
      object is kept), the statement is made about the module [Binary64]
      instead, which embeds the same functions over the IEEE 754 binary64
      numbers, and is proved or refuted there by evaluation. *)

From Stdlib Require Import Floats.
From Stdlib Require Import Reals Lra Lia List Bool Arith ZArith Permutation.
From Stdlib Require Import Sorting.Sorted.
From Stdlib Require Import String RNsatz.
Import ListNotations.

(** A decimal literal of a binary64 number denotes the double nearest to
    it, as in JavaScript. *)
Set Warnings "-inexact-float".

Local Open Scope R_scope.

(** ** Comparisons of numbers as boolean tests *)

Definition Rltb (x y : R) : bool := if Rlt_dec x y then true else false.
Definition Rleb (x y : R) : bool := if Rle_dec x y then true else false.
Definition Reqb (x y : R) : bool := if Req_dec_T x y then true else false.

(** ** The functions of [Math] that the Standard Library does not name *)

Module JsMath.

(** [Math.atan2(y, x)], by the quadrant of [(x, y)]. *)
Definition atan2 (y x : R) : R :=
  if Rltb 0 x then atan (y / x)
  else if Rltb x 0 then
    if Rleb 0 y then atan (y / x) + PI else atan (y / x) - PI
  else if Rltb 0 y then PI / 2
  else if Rltb y 0 then - (PI / 2)
  else 0.

Definition max (x y : R) : R := if Rleb x y then y else x.
Definition min (x y : R) : R := if Rleb x y then x else y.

(** [Math.tan] has no value at the odd multiples of π/2.  No double is
    one of them: at the doubles next to them [Math.tan] returns a number of
    magnitude 1.6e16 or more, which the code multiplies by a ratio and hands
    to [Math.atan], whose result is then π/2 or -π/2 up to rounding.  The
    reading in real numbers keeps that: a tangent is a number or, at a pole,
    a sign. *)
Inductive Tangent : Type :=
| Slope (t : R)
| Pole (positive : bool).

Definition tan (x : R) : Tangent :=
  if Reqb (cos x) 0 then Pole (Rltb 0 (sin x)) else Slope (Rtrigo1.tan x).

(** [k * t] for a number [k] and a tangent [t].  The double that a pole
    stands for is finite, so its product with 0 is 0. *)
Definition times (k : R) (t : Tangent) : Tangent :=
  match t with
  | Slope t => Slope (k * t)
  | Pole positive =>
      if Reqb k 0 then Slope 0
      else Pole (if Rltb 0 k then positive else negb positive)
  end.

Definition atan (t : Tangent) : R :=
  match t with
  | Slope t => Ratan.atan t
  | Pole true => PI / 2
  | Pole false => - (PI / 2)
  end.

(** The integer part of a number, rounded towards zero. *)
Definition trunc (x : R) : Z :=
  if Rleb 0 x then Int_part x else (- Int_part (- x))%Z.

(** [x % m]: the remainder of the division truncated towards zero, so that
    it has the sign of [x]. *)
Definition rem (x m : R) : R := x - m * IZR (trunc (x / m)).

End JsMath.

(** ** js/utils.js *)

Module Utils.

(** [while (angle < 0) angle += 2 * Math.PI;] run for at most [n] rounds. *)
Fixpoint raiseLoop (n : nat) (angle : R) : R :=
  match n with
  | O => angle
  | S k => if Rltb angle 0 then raiseLoop k (angle + 2 * PI) else angle
  end.

(** [while (angle >= 2 * Math.PI) angle -= 2 * Math.PI;] run for at most [n]
    rounds. *)
Fixpoint lowerLoop (n : nat) (angle : R) : R :=
  match n with
  | O => angle
  | S k => if Rleb (2 * PI) angle then lowerLoop k (angle - 2 * PI) else angle
  end.

(** A number of rounds that the loops above never exhaust: the angle is
    within [loopBound angle] turns of the origin. *)
Definition loopBound (angle : R) : nat :=
  Z.to_nat (up (Rabs angle / (2 * PI))).

(** [normalizeAngle(angle)]: both loops, each given rounds enough to leave
    by its own test (lemma [normalizeAngle_range]).  In exact arithmetic
    every round brings the angle one turn nearer, so the loops end for every
    angle; in binary64 an angle of magnitude [1e17] is not changed by the
    addition of [2 * Math.PI] ([Binary64.Utils.normalizeAngle]). *)
Definition normalizeAngle (angle : R) : R :=
  let angle := raiseLoop (loopBound angle) angle in
  lowerLoop (loopBound angle) angle.

Definition magnitude (x y : R) : R := sqrt (x * x + y * y).

Definition dot (x1 y1 x2 y2 : R) : R := x1 * x2 + y1 * y2.

Definition cross (x1 y1 x2 y2 : R) : R := x1 * y2 - y1 * x2.

(** [randomRange(min, max)] with the result [rnd] of [Math.random()].  For
    [rnd < 1] the result is below [max] in exact arithmetic; in binary64 the
    sum can round to [max]. *)
Definition randomRange (rnd min max : R) : R := min + rnd * (max - min).

Definition randomPowerLaw (rnd min max : R) (power : nat) : R :=
  min + (max - min) * rnd ^ power.

Definition clamp (value min max : R) : R :=
  JsMath.max min (JsMath.min max value).

Definition lerp (a b t : R) : R := a + (b - a) * t.

Definition degToRad (degrees : R) : R := degrees * PI / 180.

Definition radToDeg (radians : R) : R := radians * 180 / PI.

Definition distance (x1 y1 x2 y2 : R) : R :=
  let dx := x2 - x1 in
  let dy := y2 - y1 in
  sqrt (dx * dx + dy * dy).

(** [normalize(x, y)]; the object [{ x, y }] is the pair [(x, y)]. *)
Definition normalize (x y : R) : R * R :=
  let mag := magnitude x y in
  if Reqb mag 0 then (0, 0) else (x / mag, y / mag).

(** [rotate(x, y, angle)]; the object [{ x, y }] is the pair [(x, y)]. *)
Definition rotate (x y angle : R) : R * R :=
  let cos := cos angle in
  let sin := sin angle in
  (x * cos - y * sin, x * sin + y * cos).

End Utils.

(** ** js/constants.js *)

Module Constants.

Definition MU : R := 1000.
Definition AU_TO_PIXELS : R := 150.
Definition BELT_INNER_RADIUS : R := 2.
Definition BELT_OUTER_RADIUS : R := 35 / 10.
Definition MIN_ASTEROID_RADIUS : R := 2.
Definition MAX_ASTEROID_RADIUS : R := 20.
Definition MIN_ECCENTRICITY : R := 0.
Definition MAX_ECCENTRICITY : R := 3 / 10.
Definition ORBIT_PATH_POINTS : nat := 100.
Definition CLICK_TOLERANCE : R := 8.
Definition KEPLER_MAX_ITERATIONS : nat := 50.
Definition KEPLER_TOLERANCE : R := / 100000000.
Definition ASTEROID_COUNT : nat := 1000.
Definition MIN_ZOOM : R := 1 / 10.
Definition MAX_ZOOM : R := 50.
Definition ZOOM_SPEED : R := 1 / 1000.
Definition MINIMAP_SIZE : R := 200.
Definition MAX_DELTA_V : R := 5.
Definition DELTA_V_SCALE : R := 1 / 10.
Definition TIME_SCALE : R := 1 / 1000.

End Constants.

(** ** js/orbital.js *)

Module Orbital.

Import Utils Constants.

Record OrbitalElements : Type := mkOrbit
  { a : R; e : R; omega : R; M0 : R }.

Record Position : Type := mkPosition { x : R; y : R }.

Record Velocity : Type := mkVelocity { vx : R; vy : R }.

(** [f] in [solveKeplerEquation]: what [E - e sin E] misses [M] by. *)
Definition keplerResidual (M ecc E : R) : R := E - ecc * sin E - M.

(** [deltaE] in [solveKeplerEquation]. *)
Definition newtonStep (M ecc E : R) : R :=
  (E - ecc * sin E - M) / (1 - ecc * cos E).

(** The Newton-Raphson loop of [solveKeplerEquation]; [n] is the number of
    rounds left, and the [break] is the first branch of the test. *)
Fixpoint newtonLoop (n : nat) (M ecc E : R) : R :=
  match n with
  | O => E
  | S k =>
      let sinE := sin E in
      let cosE := cos E in
      let f := E - ecc * sinE - M in
      let fPrime := 1 - ecc * cosE in
      let deltaE := f / fPrime in
      let E := E - deltaE in
      if Rltb (Rabs deltaE) KEPLER_TOLERANCE then E else newtonLoop k M ecc E
  end.

Definition solveKeplerEquation (M ecc : R) : R :=
  let M := normalizeAngle M in
  let E := if Rltb (8 / 10) ecc then PI else M in
  newtonLoop KEPLER_MAX_ITERATIONS M ecc E.

Definition trueAnomalyFromEccentric (E ecc : R) : R :=
  let sinHalfE := sin (E / 2) in
  let cosHalfE := cos (E / 2) in
  let sqrtOnePlusE := sqrt (1 + ecc) in
  let sqrtOneMinusE := sqrt (1 - ecc) in
  2 * JsMath.atan2 (sqrtOnePlusE * sinHalfE) (sqrtOneMinusE * cosHalfE).

Definition meanAnomalyAtTime (orbit : OrbitalElements) (t : R) : R :=
  let n := sqrt (MU / a orbit ^ 3) in
  normalizeAngle (M0 orbit + n * t).

Definition orbitalPeriod (a : R) : R :=
  2 * PI * sqrt (a ^ 3 / MU).

Definition getPositionFromTrueAnomaly (orbit : OrbitalElements) (theta : R)
  : Position :=
  let a := a orbit in
  let e := e orbit in
  let omega := omega orbit in
  let r := a * (1 - e * e) / (1 + e * cos theta) in
  let xOrbital := r * cos theta in
  let yOrbital := r * sin theta in
  let cosOmega := cos omega in
  let sinOmega := sin omega in
  {| x := xOrbital * cosOmega - yOrbital * sinOmega;
     y := xOrbital * sinOmega + yOrbital * cosOmega |}.

Definition getPositionAtTime (orbit : OrbitalElements) (t : R) : Position :=
  let M := meanAnomalyAtTime orbit t in
  let E := solveKeplerEquation M (e orbit) in
  let theta := trueAnomalyFromEccentric E (e orbit) in
  getPositionFromTrueAnomaly orbit theta.

Definition getVelocityAtTime (orbit : OrbitalElements) (t : R) : Velocity :=
  let M := meanAnomalyAtTime orbit t in
  let E := solveKeplerEquation M (e orbit) in
  let theta := trueAnomalyFromEccentric E (e orbit) in
  let a := a orbit in
  let e := e orbit in
  let omega := omega orbit in
  let r := a * (1 - e * e) / (1 + e * cos theta) in
  let vMag := sqrt (MU * (2 / r - 1 / a)) in
  let p := a * (1 - e * e) in
  let h := sqrt (MU * p) in
  let vr := MU / h * e * sin theta in
  let vTheta := MU / h * (1 + e * cos theta) in
  let vxOrbital := vr * cos theta - vTheta * sin theta in
  let vyOrbital := vr * sin theta + vTheta * cos theta in
  let cosOmega := cos omega in
  let sinOmega := sin omega in
  {| vx := vxOrbital * cosOmega - vyOrbital * sinOmega;
     vy := vxOrbital * sinOmega + vyOrbital * cosOmega |}.

(** The specific orbital energy that [computeOrbitFromStateVectors] tests. *)
Definition orbitalEnergy (r : Position) (v : Velocity) : R :=
  let rMag := magnitude (x r) (y r) in
  let vMag := magnitude (vx v) (vy v) in
  vMag * vMag / 2 - MU / rMag.

(** [null] is [None].  At the origin, [r = (0, 0)], the code divides by
    [rMag = 0]: its energy is [-Infinity], the test [energy >= 0] fails and
    it returns [{ a: 0, e: NaN, omega: NaN, M0: NaN }].  That is outside the
    reading in real numbers, in which the quotient is 0 and the result at
    the origin is [None]. *)
Definition computeOrbitFromStateVectors (r : Position) (v : Velocity)
  : option OrbitalElements :=
  let rx := x r in
  let ry := y r in
  let vx := vx v in
  let vy := vy v in
  let rMag := magnitude rx ry in
  let vMag := magnitude vx vy in
  let h := cross rx ry vx vy in
  let energy := vMag * vMag / 2 - MU / rMag in
  if Rleb 0 energy then None
  else
    let a := - MU / (2 * energy) in
    let rdotv := dot rx ry vx vy in
    let term1 := vMag * vMag - MU / rMag in
    let ex := (term1 * rx - rdotv * vx) / MU in
    let ey := (term1 * ry - rdotv * vy) / MU in
    let e := magnitude ex ey in
    let omega := JsMath.atan2 ey ex in
    let omega := if Rltb omega 0 then omega + 2 * PI else omega in
    let theta :=
      if Rltb e (/ 10000000000) then JsMath.atan2 ry rx - omega
      else
        let cosTheta := dot ex ey rx ry / (e * rMag) in
        let theta := acos (JsMath.max (-1) (JsMath.min 1 cosTheta)) in
        if Rltb rdotv 0 then 2 * PI - theta else theta in
    let tanHalfTheta := JsMath.tan (theta / 2) in
    let sqrtRatio := sqrt ((1 - e) / (1 + e)) in
    let E := 2 * JsMath.atan (JsMath.times sqrtRatio tanHalfTheta) in
    let M := E - e * sin E in
    let M0 := normalizeAngle M in
    Some {| a := a; e := e; omega := omega; M0 := M0 |}.

(** The loop [for (let i = 0; i <= numPoints; i++)] over [i = 0 .. numPoints].
    The last sample is taken at [2 * Math.PI], which is 2π in exact
    arithmetic and the double next to it in binary64. *)
Definition generateOrbitPath (orbit : OrbitalElements) (numPoints : nat)
  : list Position :=
  map (fun i : nat =>
         let theta := INR i / INR numPoints * 2 * PI in
         getPositionFromTrueAnomaly orbit theta)
      (seq 0 (S numPoints)).

Definition getTrueAnomalyAtTime (orbit : OrbitalElements) (t : R) : R :=
  let M := meanAnomalyAtTime orbit t in
  let E := solveKeplerEquation M (e orbit) in
  trueAnomalyFromEccentric E (e orbit).

(** *** The same code, cut into pieces for the statements below *)

(** [getVelocityAtTime] from the true anomaly on. *)
Definition getVelocityFromTrueAnomaly (orbit : OrbitalElements) (theta : R)
  : Velocity :=
  let a := a orbit in
  let e := e orbit in
  let omega := omega orbit in
  let r := a * (1 - e * e) / (1 + e * cos theta) in
  let vMag := sqrt (MU * (2 / r - 1 / a)) in
  let p := a * (1 - e * e) in
  let h := sqrt (MU * p) in
  let vr := MU / h * e * sin theta in
  let vTheta := MU / h * (1 + e * cos theta) in
  let vxOrbital := vr * cos theta - vTheta * sin theta in
  let vyOrbital := vr * sin theta + vTheta * cos theta in
  let cosOmega := cos omega in
  let sinOmega := sin omega in
  {| vx := vxOrbital * cosOmega - vyOrbital * sinOmega;
     vy := vxOrbital * sinOmega + vyOrbital * cosOmega |}.

(** The pieces of [computeOrbitFromStateVectors] after the energy test. *)
Definition eccentricityVector (r : Position) (v : Velocity) : R * R :=
  let rMag := magnitude (x r) (y r) in
  let vMag := magnitude (vx v) (vy v) in
  let rdotv := dot (x r) (y r) (vx v) (vy v) in
  let term1 := vMag * vMag - MU / rMag in
  ((term1 * x r - rdotv * vx v) / MU, (term1 * y r - rdotv * vy v) / MU).

Definition argumentOfPeriapsis (ex ey : R) : R :=
  let omega := JsMath.atan2 ey ex in
  if Rltb omega 0 then omega + 2 * PI else omega.

Definition trueAnomalyOf (r : Position) (v : Velocity) : R :=
  let '(ex, ey) := eccentricityVector r v in
  let e := magnitude ex ey in
  let rMag := magnitude (x r) (y r) in
  let rdotv := dot (x r) (y r) (vx v) (vy v) in
  if Rltb e (/ 10000000000)
  then JsMath.atan2 (y r) (x r) - argumentOfPeriapsis ex ey
  else
    let cosTheta := dot ex ey (x r) (y r) / (e * rMag) in
    let theta := acos (JsMath.max (-1) (JsMath.min 1 cosTheta)) in
    if Rltb rdotv 0 then 2 * PI - theta else theta.

Definition meanAnomalyOf (e theta : R) : R :=
  let tanHalfTheta := JsMath.tan (theta / 2) in
  let sqrtRatio := sqrt ((1 - e) / (1 + e)) in
  let E := 2 * JsMath.atan (JsMath.times sqrtRatio tanHalfTheta) in
  normalizeAngle (E - e * sin E).

End Orbital.

(** ** js/asteroid.js *)

Module Asteroid.

Import Utils Constants.
Import Orbital(OrbitalElements, Position).

(** The five results of [Math.random()] that the constructor consumes, in
    the order of the calls. *)
Record Draws : Type := mkDraws
  { rndA : R; rndE : R; rndOmega : R; rndM0 : R; rndRadius : R }.

Record Asteroid : Type := mkAsteroid
  { id : nat;
    orbit : OrbitalElements;
    radius : R;
    color : string;
    orbitPath : list Position;
    x : R;
    y : R;
    vx : R;
    vy : R;
    period : R }.

Section WithColors.

(** [generateAsteroidColor] of js/utils.js prints three numbers into a CSS
    string; the string is carried, never inspected. *)
Variable generateAsteroidColor : nat -> string.

(** [new Asteroid(id)] *)
Definition constructor (id0 : nat) (rnd : Draws) : Asteroid :=
  let aAU := randomRange (rndA rnd) BELT_INNER_RADIUS BELT_OUTER_RADIUS in
  let orbit0 :=
    {| Orbital.a := aAU * AU_TO_PIXELS;
       Orbital.e := randomRange (rndE rnd) MIN_ECCENTRICITY MAX_ECCENTRICITY;
       Orbital.omega := randomRange (rndOmega rnd) 0 (2 * PI);
       Orbital.M0 := randomRange (rndM0 rnd) 0 (2 * PI) |} in
  {| id := id0;
     orbit := orbit0;
     radius :=
       randomPowerLaw (rndRadius rnd) MIN_ASTEROID_RADIUS MAX_ASTEROID_RADIUS 3;
     color := generateAsteroidColor id0;
     orbitPath := Orbital.generateOrbitPath orbit0 ORBIT_PATH_POINTS;
     x := 0;
     y := 0;
     vx := 0;
     vy := 0;
     period := Orbital.orbitalPeriod (Orbital.a orbit0) |}.

(** [Asteroid.fromOrbit(id, orbit, radius, color)]; [{ ...orbit }] copies the
    four elements. *)
Definition fromOrbit (id0 : nat) (orbit0 : OrbitalElements) (radius0 : R)
    (color0 : string) (rnd : Draws) : Asteroid :=
  let asteroid := constructor id0 rnd in
  let orbit0 :=
    {| Orbital.a := Orbital.a orbit0; Orbital.e := Orbital.e orbit0;
       Orbital.omega := Orbital.omega orbit0;
       Orbital.M0 := Orbital.M0 orbit0 |} in
  {| id := asteroid.(id);
     orbit := orbit0;
     radius := radius0;
     color := color0;
     orbitPath := Orbital.generateOrbitPath orbit0 ORBIT_PATH_POINTS;
     x := asteroid.(x);
     y := asteroid.(y);
     vx := asteroid.(vx);
     vy := asteroid.(vy);
     period := Orbital.orbitalPeriod (Orbital.a orbit0) |}.

End WithColors.

Definition update (this : Asteroid) (t : R) : Asteroid :=
  let pos := Orbital.getPositionAtTime this.(orbit) t in
  let vel := Orbital.getVelocityAtTime this.(orbit) t in
  {| id := this.(id);
     orbit := this.(orbit);
     radius := this.(radius);
     color := this.(color);
     orbitPath := this.(orbitPath);
     x := Orbital.x pos;
     y := Orbital.y pos;
     vx := Orbital.vx vel;
     vy := Orbital.vy vel;
     period := this.(period) |}.

(** [applyDeltaV(dvx, dvy, t)]: the body after the call and the returned
    boolean. *)
Definition applyDeltaV (this : Asteroid) (dvx dvy t : R) : Asteroid * bool :=
  let newVx := this.(vx) + dvx in
  let newVy := this.(vy) + dvy in
  let newOrbit :=
    Orbital.computeOrbitFromStateVectors
      {| Orbital.x := this.(x); Orbital.y := this.(y) |}
      {| Orbital.vx := newVx; Orbital.vy := newVy |} in
  match newOrbit with
  | Some newOrbit =>
      ({| id := this.(id);
          orbit := newOrbit;
          radius := this.(radius);
          color := this.(color);
          orbitPath := Orbital.generateOrbitPath newOrbit ORBIT_PATH_POINTS;
          x := this.(x);
          y := this.(y);
          vx := newVx;
          vy := newVy;
          period := Orbital.orbitalPeriod (Orbital.a newOrbit) |}, true)
  | None => (this, false)
  end.

Definition setOrbit (this : Asteroid) (orbit0 : OrbitalElements) : Asteroid :=
  let orbit0 :=
    {| Orbital.a := Orbital.a orbit0; Orbital.e := Orbital.e orbit0;
       Orbital.omega := Orbital.omega orbit0;
       Orbital.M0 := Orbital.M0 orbit0 |} in
  {| id := this.(id);
     orbit := orbit0;
     radius := this.(radius);
     color := this.(color);
     orbitPath := Orbital.generateOrbitPath orbit0 ORBIT_PATH_POINTS;
     x := this.(x);
     y := this.(y);
     vx := this.(vx);
     vy := this.(vy);
     period := Orbital.orbitalPeriod (Orbital.a orbit0) |}.

Definition containsPoint (this : Asteroid) (wx wy tolerance : R) : bool :=
  let dx := wx - this.(x) in
  let dy := wy - this.(y) in
  let hitRadius := this.(radius) + tolerance in
  Rleb (dx * dx + dy * dy) (hitRadius * hitRadius).

(** The operations that a caller can apply to a body once it exists. *)
Inductive Operation : Type :=
| Update (t : R)
| ApplyDeltaV (dvx dvy t : R)
| SetOrbit (orbit0 : OrbitalElements).

Definition perform (this : Asteroid) (op : Operation) : Asteroid :=
  match op with
  | Update t => update this t
  | ApplyDeltaV dvx dvy t => fst (applyDeltaV this dvx dvy t)
  | SetOrbit orbit0 => setOrbit this orbit0
  end.

(** A body is created by one of the two constructors and then operated on. *)
Inductive Creation : Type :=
| New (id0 : nat) (rnd : Draws)
| FromOrbit (id0 : nat) (orbit0 : OrbitalElements) (radius0 : R)
    (color0 : string) (rnd : Draws).

Definition create (generateAsteroidColor : nat -> string) (c : Creation)
  : Asteroid :=
  match c with
  | New id0 rnd => constructor generateAsteroidColor id0 rnd
  | FromOrbit id0 orbit0 radius0 color0 rnd =>
      fromOrbit generateAsteroidColor id0 orbit0 radius0 color0 rnd
  end.

Definition lifetime (generateAsteroidColor : nat -> string) (c : Creation)
    (ops : list Operation) : Asteroid :=
  fold_left perform ops (create generateAsteroidColor c).

(** What the cached fields must be for the orbit a body holds. *)
Definition cachesConsistent (this : Asteroid) : Prop :=
  this.(orbitPath) = Orbital.generateOrbitPath this.(orbit) ORBIT_PATH_POINTS
  /\ this.(period) = Orbital.orbitalPeriod (Orbital.a this.(orbit)).

(** Every result of [Math.random()] lies in [[0, 1)]. *)
Definition validDraws (rnd : Draws) : Prop :=
  0 <= rnd.(rndA) < 1 /\ 0 <= rnd.(rndE) < 1 /\ 0 <= rnd.(rndOmega) < 1
  /\ 0 <= rnd.(rndM0) < 1 /\ 0 <= rnd.(rndRadius) < 1.

(** A body of the belt: its elements and its radius lie in the ranges of
    js/constants.js, ends included: in binary64 [randomRange] returns [max]
    itself for the largest draw. *)
Definition inBelt (this : Asteroid) : Prop :=
  BELT_INNER_RADIUS * AU_TO_PIXELS <= Orbital.a this.(orbit)
    <= BELT_OUTER_RADIUS * AU_TO_PIXELS
  /\ MIN_ECCENTRICITY <= Orbital.e this.(orbit) <= MAX_ECCENTRICITY
  /\ 0 <= Orbital.omega this.(orbit) <= 2 * PI
  /\ 0 <= Orbital.M0 this.(orbit) <= 2 * PI
  /\ MIN_ASTEROID_RADIUS <= this.(radius) <= MAX_ASTEROID_RADIUS.

End Asteroid.

(** ** js/selection.js *)

Module Selection.

Import Constants.

(** What the quadtree reads of an object: [obj.x], [obj.y], [obj.radius]. *)
Class Circular (A : Type) : Type :=
  { objX : A -> R; objY : A -> R; objRadius : A -> R }.

#[export] Instance asteroidCircular : Circular Asteroid.Asteroid :=
  {| objX := Asteroid.x; objY := Asteroid.y; objRadius := Asteroid.radius |}.

(** [{ x, y, width, height }] *)
Record Bounds : Type := mkBounds
  { x : R; y : R; width : R; height : R }.

(** [{ minX, minY, width, height }], the argument of [rebuildQuadtree]. *)
Record WorldBounds : Type := mkWorldBounds
  { minX : R; minY : R; worldWidth : R; worldHeight : R }.

(** [closestDist], which starts at [Infinity]. *)
Inductive Distance : Type :=
| Infinity
| Finite (d : R).

Definition ltDistance (d : R) (limit : Distance) : bool :=
  match limit with
  | Infinity => true
  | Finite l => Rltb d l
  end.

Section QuadTree.

Context {A : Type} `{Circular A}.

(** A node: [divided] is [false] and the four children are [null] in a
    [Leaf]; [divided] is [true] and the children are set in a [Divided]
    node ([subdivide] sets them together). *)
Inductive QuadTree : Type :=
| Leaf (bounds : Bounds) (capacity : nat) (objects : list A)
| Divided (bounds : Bounds) (capacity : nat) (objects : list A)
    (northeast northwest southeast southwest : QuadTree).

Definition bounds (this : QuadTree) : Bounds :=
  match this with
  | Leaf b _ _ | Divided b _ _ _ _ _ _ => b
  end.

Definition capacity (this : QuadTree) : nat :=
  match this with
  | Leaf _ c _ | Divided _ c _ _ _ _ _ => c
  end.

Definition objects (this : QuadTree) : list A :=
  match this with
  | Leaf _ _ objs | Divided _ _ objs _ _ _ _ => objs
  end.

(** [new QuadTree(bounds, capacity)] *)
Definition create (b : Bounds) (c : nat) : QuadTree := Leaf b c [].

Definition containsPoint (b : Bounds) (px py : R) : bool :=
  Rleb b.(x) px && Rltb px (b.(x) + b.(width))
  && Rleb b.(y) py && Rltb py (b.(y) + b.(height)).

Definition intersectsCircle (b : Bounds) (cx cy radius : R) : bool :=
  let closestX := JsMath.max b.(x) (JsMath.min cx (b.(x) + b.(width))) in
  let closestY := JsMath.max b.(y) (JsMath.min cy (b.(y) + b.(height))) in
  let dx := cx - closestX in
  let dy := cy - closestY in
  Rleb (dx * dx + dy * dy) (radius * radius).

(** The four children, in the order northeast, northwest, southeast,
    southwest. *)
Definition Children : Type := (QuadTree * QuadTree * QuadTree * QuadTree)%type.

(** [subdivide()]: the four children.  In exact arithmetic their bounds
    divide those of the parent; in binary64 [x + w] and [y + h] round, and
    a point of the parent can lie in no child. *)
Definition subdivide (b : Bounds) (c : nat) : Children :=
  let x0 := b.(x) in
  let y0 := b.(y) in
  let w := b.(width) / 2 in
  let h := b.(height) / 2 in
  (create {| x := x0 + w; y := y0; width := w; height := h |} c,
   create {| x := x0; y := y0; width := w; height := h |} c,
   create {| x := x0 + w; y := y0 + h; width := w; height := h |} c,
   create {| x := x0; y := y0 + h; width := w; height := h |} c).

(** A call that may exhaust its recursion budget: [None] stands for a call
    that did not return. *)
Definition bind {X Y : Type} (c : option X) (k : X -> option Y) : option Y :=
  match c with
  | Some v => k v
  | None => None
  end.

Notation "'let*' p ':=' c 'in' k" := (bind c (fun p => k))
  (at level 61, p pattern, c at next level, right associativity).

(** [northeast.insert(obj) || northwest.insert(obj) || southeast.insert(obj)
    || southwest.insert(obj)]: the children after the calls that were made,
    and the value of the disjunction. *)
Definition insertIntoChildren
    (insert : QuadTree -> A -> option (QuadTree * bool))
    (kids : Children) (obj : A) : option (Children * bool) :=
  let '(ne, nw, se, sw) := kids in
  let* (ne, ok) := insert ne obj in
  if ok then Some ((ne, nw, se, sw), true)
  else
    let* (nw, ok) := insert nw obj in
    if ok then Some ((ne, nw, se, sw), true)
    else
      let* (se, ok) := insert se obj in
      if ok then Some ((ne, nw, se, sw), true)
      else
        let* (sw, ok) := insert sw obj in
        Some ((ne, nw, se, sw), ok).

(** The loop [for (const existing of this.objects)] of [insert], which moves
    the objects of a node into its new children; the value of each
    disjunction is dropped. *)
Definition redistribute
    (insert : QuadTree -> A -> option (QuadTree * bool))
    (objs : list A) (kids : option Children) : option Children :=
  fold_left
    (fun acc existing =>
       let* kids := acc in
       let* (kids, _) := insertIntoChildren insert kids existing in
       Some kids)
    objs kids.

(** [insert(obj)]: the node after the call and the returned boolean.
    [fuel] bounds the depth of the recursion.  In exact arithmetic the
    recursion does not end for more objects at one position than a node
    can hold, and the result is [None] for every [fuel]; in binary64 it
    ends there, and for objects closer than the doubles can separate, with
    the result [false] and the objects dropped
    ([Binary64.Selection.insert]). *)
Fixpoint insert (fuel : nat) (this : QuadTree) (obj : A) {struct fuel}
  : option (QuadTree * bool) :=
  match fuel with
  | O => None
  | S fuel =>
      if negb (containsPoint (bounds this) (objX obj) (objY obj))
      then Some (this, false)
      else
        match this with
        | Leaf b c objs =>
            if (List.length objs <? c)%nat
            then Some (Leaf b c (objs ++ [obj]), true)
            else
              let* kids :=
                redistribute (insert fuel) objs (Some (subdivide b c)) in
              let* (kids, ok) := insertIntoChildren (insert fuel) kids obj in
              let '(ne, nw, se, sw) := kids in
              Some (Divided b c [] ne nw se sw, ok)
        | Divided b c objs ne nw se sw =>
            let* (kids, ok) :=
              insertIntoChildren (insert fuel) (ne, nw, se, sw) obj in
            let '(ne, nw, se, sw) := kids in
            Some (Divided b c objs ne nw se sw, ok)
        end
  end.

Definition inCircle (cx cy radius : R) (obj : A) : bool :=
  let dx := objX obj - cx in
  let dy := objY obj - cy in
  Rleb (dx * dx + dy * dy) (radius * radius).

(** [queryCircle(cx, cy, radius, found)]; [found.push(obj)] appends. *)
Fixpoint queryCircle (this : QuadTree) (cx cy radius : R) (found : list A)
  : list A :=
  if negb (intersectsCircle (bounds this) cx cy radius) then found
  else
    let found :=
      fold_left
        (fun found obj =>
           if inCircle cx cy radius obj then found ++ [obj] else found)
        (objects this) found in
    match this with
    | Leaf _ _ _ => found
    | Divided _ _ _ ne nw se sw =>
        let found := queryCircle ne cx cy radius found in
        let found := queryCircle nw cx cy radius found in
        let found := queryCircle se cx cy radius found in
        queryCircle sw cx cy radius found
    end.

(** The loop of [rebuildQuadtree]: [for (const asteroid of asteroids)
    this.quadtree.insert(asteroid)], the returned booleans dropped. *)
Definition insertAll (fuel : nat) (this : QuadTree) (asteroids : list A)
  : option QuadTree :=
  fold_left
    (fun acc asteroid =>
       let* tree := acc in
       let* (tree, _) := insert fuel tree asteroid in
       Some tree)
    asteroids (Some this).

(** [{ x: bounds.minX, y: bounds.minY, width: bounds.width, height:
    bounds.height }] *)
Definition worldBounds (world : WorldBounds) : Bounds :=
  {| x := world.(minX); y := world.(minY);
     width := world.(worldWidth); height := world.(worldHeight) |}.

(** [rebuildQuadtree(asteroids, bounds)]: the new value of [this.quadtree]. *)
Definition rebuildQuadtree (fuel : nat) (asteroids : list A)
    (world : WorldBounds) : option QuadTree :=
  insertAll fuel (create (worldBounds world) 8) asteroids.

(** The loop of [findAsteroidAt] over the candidates: [(closest,
    closestDist)] after one more candidate. *)
Definition closer (worldX worldY tolerance : R)
    (state : option A * Distance) (asteroid : A) : option A * Distance :=
  let dx := worldX - objX asteroid in
  let dy := worldY - objY asteroid in
  let dist := sqrt (dx * dx + dy * dy) in
  let hitRadius := objRadius asteroid + tolerance in
  if Rleb dist hitRadius && ltDistance dist (snd state)
  then (Some asteroid, Finite dist)
  else state.

(** [findAsteroidAt(worldX, worldY, tolerance)] with [this.quadtree] given;
    [null] is [None], for the tree and for the result. *)
Definition findAsteroidAt (quadtree : option QuadTree)
    (worldX worldY tolerance : R) : option A :=
  match quadtree with
  | None => None
  | Some quadtree =>
      let candidates :=
        queryCircle quadtree worldX worldY (tolerance + 50) [] in
      fst (fold_left (closer worldX worldY tolerance) candidates
             (None, Infinity))
  end.

(** The objects a tree holds, node by node in the order [queryCircle]
    visits them. *)
Fixpoint elements (this : QuadTree) : list A :=
  match this with
  | Leaf _ _ objs => objs
  | Divided _ _ objs ne nw se sw =>
      objs ++ elements ne ++ elements nw ++ elements se ++ elements sw
  end.

Fixpoint depth (this : QuadTree) : nat :=
  match this with
  | Leaf _ _ _ => O
  | Divided _ _ _ ne nw se sw =>
      S (Nat.max (Nat.max (depth ne) (depth nw))
                 (Nat.max (depth se) (depth sw)))
  end.

(** [obj] lies within the bounds, as [insert] tests it. *)
Definition inside (b : Bounds) (obj : A) : Prop :=
  containsPoint b (objX obj) (objY obj) = true.

(** The state of a tree that [insert] builds from [create b c]: every node
    has capacity [c]; a leaf holds at most [c] objects, all within its
    bounds; a divided node holds none itself and its children have the
    bounds that [subdivide] gives them. *)
Fixpoint wellFormed (c : nat) (this : QuadTree) : Prop :=
  match this with
  | Leaf b c' objs =>
      c' = c /\ (List.length objs <= c)%nat /\ Forall (inside b) objs
  | Divided b c' objs ne nw se sw =>
      c' = c /\ objs = []
      /\ (let '(ne0, nw0, se0, sw0) := subdivide b c in
          bounds ne = bounds ne0 /\ bounds nw = bounds nw0
          /\ bounds se = bounds se0 /\ bounds sw = bounds sw0)
      /\ wellFormed c ne /\ wellFormed c nw
      /\ wellFormed c se /\ wellFormed c sw
  end.

(** Two objects at different positions. *)
Definition distinctPositions (p q : A) : Prop :=
  objX p <> objX q \/ objY p <> objY q.

(** Two objects too far apart for one node [n] levels below a node of
    bounds [b] to contain both. *)
Definition apart (n : nat) (b : Bounds) (p q : A) : Prop :=
  b.(width) / 2 ^ n <= Rabs (objX p - objX q)
  \/ b.(height) / 2 ^ n <= Rabs (objY p - objY q).

(** *** Vocabulary of the statements about the tree *)

Definition insideb (b : Bounds) (obj : A) : bool :=
  containsPoint b (objX obj) (objY obj).

Definition childrenElements (kids : Children) : list A :=
  let '(ne, nw, se, sw) := kids in
  elements ne ++ elements nw ++ elements se ++ elements sw.

Definition childrenFormed (c : nat) (b : Bounds) (kids : Children) : Prop :=
  let '(ne, nw, se, sw) := kids in
  (let '(ne0, nw0, se0, sw0) := subdivide b c in
   bounds ne = bounds ne0 /\ bounds nw = bounds nw0
   /\ bounds se = bounds se0 /\ bounds sw = bounds sw0)
  /\ wellFormed c ne /\ wellFormed c nw /\ wellFormed c se /\ wellFormed c sw.

Definition isLeaf (c : nat) (t : QuadTree) : Prop :=
  exists b objs, t = Leaf b c objs.

Definition allLeaves (c : nat) (kids : Children) : Prop :=
  let '(ne, nw, se, sw) := kids in
  isLeaf c ne /\ isLeaf c nw /\ isLeaf c se /\ isLeaf c sw.

(** What a terminating call [ins t obj] of [insert] guarantees. *)
Definition Sound (c : nat) (ins : QuadTree -> A -> option (QuadTree * bool))
  : Prop :=
  forall (t : QuadTree) (obj : A) (t' : QuadTree) (ok : bool),
    wellFormed c t ->
    ins t obj = Some (t', ok) ->
    wellFormed c t' /\ bounds t' = bounds t
    /\ (ok = true <-> inside (bounds t) obj)
    /\ Permutation (elements t') (if ok then obj :: elements t else elements t).

(** [ins'] returns whatever [ins] returns. *)
Definition Extends (ins ins' : QuadTree -> A -> option (QuadTree * bool))
  : Prop :=
  forall t obj r, ins t obj = Some r -> ins' t obj = Some r.

(** [dist] in [findAsteroidAt]. *)
Definition distanceTo (wx wy : R) (p : A) : R :=
  sqrt ((wx - objX p) * (wx - objX p) + (wy - objY p) * (wy - objY p)).

(** [dist <= hitRadius] in [findAsteroidAt]. *)
Definition hits (wx wy tol : R) (p : A) : Prop :=
  distanceTo wx wy p <= objRadius p + tol.

(** What the loop of [findAsteroidAt] knows after the candidates [seen]. *)
Definition nearestOf (wx wy tol : R) (seen : list A)
    (state : option A * Distance) : Prop :=
  match state with
  | (None, Infinity) => forall p, In p seen -> ~ hits wx wy tol p
  | (Some a, Finite d) =>
      d = distanceTo wx wy a /\ In a seen /\ hits wx wy tol a
      /\ forall p, In p seen -> hits wx wy tol p -> d <= distanceTo wx wy p
  | _ => False
  end.

(** The circle contains every point of the closed rectangle. *)
Definition covers (cx cy radius : R) (b : Bounds) : Prop :=
  forall px py : R,
    b.(x) <= px <= b.(x) + b.(width) ->
    b.(y) <= py <= b.(y) + b.(height) ->
    (px - cx) * (px - cx) + (py - cy) * (py - cy) <= radius * radius.

End QuadTree.

Arguments QuadTree A : clear implicits.
Arguments Children A : clear implicits.

End Selection.

(** ** js/camera.js *)

Module Camera.

Import Utils Constants.

(** What the camera reads of its canvas element: [canvas.width],
    [canvas.height], and the corner [rect.left], [rect.top] of
    [canvas.getBoundingClientRect()].  The element is shared with the
    renderer, which resizes it, so every function that reads it takes its
    current state. *)
Record Canvas : Type := mkCanvas
  { width : R; height : R; left : R; top : R }.

(** What the handlers read of a mouse or wheel event. *)
Record MouseEvent : Type := mkMouseEvent
  { button : Z; clientX : R; clientY : R; deltaY : R }.

Record Camera : Type := mkCamera
  { x : R;
    y : R;
    zoom : R;
    isPanning : bool;
    hasDragged : bool;
    lastMouseX : R;
    lastMouseY : R }.

(** [{ minX, minY, maxX, maxY, width, height }] *)
Record VisibleBounds : Type := mkVisibleBounds
  { minX : R; minY : R; maxX : R; maxY : R;
    visibleWidth : R; visibleHeight : R }.

(** [new Camera(canvas)] *)
Definition constructor : Camera :=
  {| x := 0; y := 0; zoom := 1; isPanning := false; hasDragged := false;
     lastMouseX := 0; lastMouseY := 0 |}.

(** [worldToScreen(worldX, worldY)]; the object [{ x, y }] is the pair. *)
Definition worldToScreen (canvas : Canvas) (this : Camera) (worldX worldY : R)
  : R * R :=
  let screenX := (worldX - this.(x)) * this.(zoom) + canvas.(width) / 2 in
  let screenY := (worldY - this.(y)) * this.(zoom) + canvas.(height) / 2 in
  (screenX, screenY).

Definition screenToWorld (canvas : Canvas) (this : Camera) (screenX screenY : R)
  : R * R :=
  let worldX := (screenX - canvas.(width) / 2) / this.(zoom) + this.(x) in
  let worldY := (screenY - canvas.(height) / 2) / this.(zoom) + this.(y) in
  (worldX, worldY).

Definition isVisible (canvas : Canvas) (screenX screenY margin : R) : bool :=
  Rleb (- margin) screenX
  && Rleb screenX (canvas.(width) + margin)
  && Rleb (- margin) screenY
  && Rleb screenY (canvas.(height) + margin).

Definition getVisibleBounds (canvas : Canvas) (this : Camera) : VisibleBounds :=
  let topLeft := screenToWorld canvas this 0 0 in
  let bottomRight :=
    screenToWorld canvas this canvas.(width) canvas.(height) in
  {| minX := fst topLeft;
     minY := snd topLeft;
     maxX := fst bottomRight;
     maxY := snd bottomRight;
     visibleWidth := fst bottomRight - fst topLeft;
     visibleHeight := snd bottomRight - snd topLeft |}.

Definition handleZoom (canvas : Canvas) (this : Camera) (e : MouseEvent)
  : Camera :=
  let mouseX := e.(clientX) - canvas.(left) in
  let mouseY := e.(clientY) - canvas.(top) in
  let worldBefore := screenToWorld canvas this mouseX mouseY in
  let delta := - e.(deltaY) * ZOOM_SPEED in
  let newZoom := clamp (this.(zoom) * (1 + delta)) MIN_ZOOM MAX_ZOOM in
  let this :=
    {| x := this.(x); y := this.(y); zoom := newZoom;
       isPanning := this.(isPanning); hasDragged := this.(hasDragged);
       lastMouseX := this.(lastMouseX); lastMouseY := this.(lastMouseY) |} in
  let worldAfter := screenToWorld canvas this mouseX mouseY in
  {| x := this.(x) + (fst worldBefore - fst worldAfter);
     y := this.(y) + (snd worldBefore - snd worldAfter);
     zoom := this.(zoom);
     isPanning := this.(isPanning); hasDragged := this.(hasDragged);
     lastMouseX := this.(lastMouseX); lastMouseY := this.(lastMouseY) |}.

Definition handlePan (this : Camera) (e : MouseEvent) : Camera :=
  let dx := e.(clientX) - this.(lastMouseX) in
  let dy := e.(clientY) - this.(lastMouseY) in
  {| x := this.(x) - dx / this.(zoom);
     y := this.(y) - dy / this.(zoom);
     zoom := this.(zoom);
     isPanning := this.(isPanning); hasDragged := this.(hasDragged);
     lastMouseX := e.(clientX); lastMouseY := e.(clientY) |}.

Definition centerOn (this : Camera) (worldX worldY : R) : Camera :=
  {| x := worldX; y := worldY; zoom := this.(zoom);
     isPanning := this.(isPanning); hasDragged := this.(hasDragged);
     lastMouseX := this.(lastMouseX); lastMouseY := this.(lastMouseY) |}.

Definition reset (this : Camera) : Camera :=
  {| x := 0; y := 0; zoom := 1;
     isPanning := this.(isPanning); hasDragged := this.(hasDragged);
     lastMouseX := this.(lastMouseX); lastMouseY := this.(lastMouseY) |}.

Definition setZoom (this : Camera) (zoom0 : R) : Camera :=
  {| x := this.(x); y := this.(y); zoom := clamp zoom0 MIN_ZOOM MAX_ZOOM;
     isPanning := this.(isPanning); hasDragged := this.(hasDragged);
     lastMouseX := this.(lastMouseX); lastMouseY := this.(lastMouseY) |}.

Definition getZoom (this : Camera) : R := this.(zoom).

(** *** The listeners of [setupEventListeners] *)

(** [canvas.addEventListener('wheel', ...)] *)
Definition onWheel (canvas : Canvas) (this : Camera) (e : MouseEvent)
  : Camera :=
  handleZoom canvas this e.

(** [canvas.addEventListener('mousedown', ...)] *)
Definition onMouseDown (this : Camera) (e : MouseEvent) : Camera :=
  if (e.(button) =? 0)%Z
  then {| x := this.(x); y := this.(y); zoom := this.(zoom);
          isPanning := true; hasDragged := false;
          lastMouseX := e.(clientX); lastMouseY := e.(clientY) |}
  else this.

(** [window.addEventListener('mouseup', ...)] *)
Definition onMouseUp (this : Camera) : Camera :=
  {| x := this.(x); y := this.(y); zoom := this.(zoom);
     isPanning := false; hasDragged := this.(hasDragged);
     lastMouseX := this.(lastMouseX); lastMouseY := this.(lastMouseY) |}.

(** [window.addEventListener('mousemove', ...)] *)
Definition onMouseMove (this : Camera) (e : MouseEvent) : Camera :=
  if this.(isPanning)
  then
    let dx := e.(clientX) - this.(lastMouseX) in
    let dy := e.(clientY) - this.(lastMouseY) in
    let this :=
      if Rltb 3 (Rabs dx) || Rltb 3 (Rabs dy)
      then {| x := this.(x); y := this.(y); zoom := this.(zoom);
              isPanning := this.(isPanning); hasDragged := true;
              lastMouseX := this.(lastMouseX);
              lastMouseY := this.(lastMouseY) |}
      else this in
    handlePan this e
  else this.

(** What can happen to a camera once it exists: the four listeners and the
    methods that other components call. *)
Inductive Action : Type :=
| Wheel (e : MouseEvent)
| MouseDown (e : MouseEvent)
| MouseUp
| MouseMove (e : MouseEvent)
| CenterOn (worldX worldY : R)
| Reset
| SetZoom (zoom0 : R).

Definition perform (canvas : Canvas) (this : Camera) (action : Action)
  : Camera :=
  match action with
  | Wheel e => onWheel canvas this e
  | MouseDown e => onMouseDown this e
  | MouseUp => onMouseUp this
  | MouseMove e => onMouseMove this e
  | CenterOn worldX worldY => centerOn this worldX worldY
  | Reset => reset this
  | SetZoom zoom0 => setZoom this zoom0
  end.

(** A camera's life: each action finds the canvas in some state. *)
Definition lifetime (actions : list (Canvas * Action)) : Camera :=
  fold_left (fun this '(canvas, action) => perform canvas this action)
    actions constructor.

(** The [mousemove] events of one drag, given by the successive positions
    of the mouse. *)
Definition drag (this : Camera) (positions : list (R * R)) : Camera :=
  fold_left
    (fun this '(mx, my) =>
       onMouseMove this
         {| button := 0; clientX := mx; clientY := my; deltaY := 0 |})
    positions this.

(** *** Vocabulary of the statements about a drag *)

(** A move of the mouse by more than 3 pixels along an axis. *)
Definition bigStep (from to : R * R) : Prop :=
  3 < Rabs (fst to - fst from) \/ 3 < Rabs (snd to - snd from).

(** The moves of a drag that starts at [from] and goes through
    [positions]. *)
Fixpoint steps (from : R * R) (positions : list (R * R))
  : list ((R * R) * (R * R)) :=
  match positions with
  | [] => []
  | to :: rest => (from, to) :: steps to rest
  end.

End Camera.

(** ** js/minimap.js *)

Module Minimap.

Import Constants.

Record Minimap : Type := mkMinimap
  { worldRadius : R;
    scale : R;
    centerX : R;
    centerY : R;
    isDragging : bool }.

(** [new Minimap(canvas, mainCamera)] *)
Definition constructor : Minimap :=
  let worldRadius := BELT_OUTER_RADIUS * AU_TO_PIXELS * (12 / 10) in
  {| worldRadius := worldRadius;
     scale := MINIMAP_SIZE / (worldRadius * 2);
     centerX := MINIMAP_SIZE / 2;
     centerY := MINIMAP_SIZE / 2;
     isDragging := false |}.

(** [handleClick(e)]: the main camera after the call; [canvas] is the
    minimap's own canvas. *)
Definition handleClick (this : Minimap) (canvas : Camera.Canvas)
    (e : Camera.MouseEvent) (mainCamera : Camera.Camera) : Camera.Camera :=
  let x := Camera.clientX e - Camera.left canvas in
  let y := Camera.clientY e - Camera.top canvas in
  let worldX := (x - this.(centerX)) / this.(scale) in
  let worldY := (y - this.(centerY)) / this.(scale) in
  Camera.centerOn mainCamera worldX worldY.

Definition worldToMinimap (this : Minimap) (worldX worldY : R) : R * R :=
  (this.(centerX) + worldX * this.(scale),
   this.(centerY) + worldY * this.(scale)).

(** [renderViewport()]: the arguments [x, y, w, h] of its call of
    [ctx.strokeRect]; [mainCanvas] is the canvas of the main camera. *)
Definition renderViewport (this : Minimap) (mainCanvas : Camera.Canvas)
    (mainCamera : Camera.Camera) : R * R * R * R :=
  let bounds := Camera.getVisibleBounds mainCanvas mainCamera in
  let topLeft :=
    worldToMinimap this (Camera.minX bounds) (Camera.minY bounds) in
  let bottomRight :=
    worldToMinimap this (Camera.maxX bounds) (Camera.maxY bounds) in
  let width := fst bottomRight - fst topLeft in
  let height := snd bottomRight - snd topLeft in
  let x := JsMath.max 0 (JsMath.min (MINIMAP_SIZE - 2) (fst topLeft)) in
  let y := JsMath.max 0 (JsMath.min (MINIMAP_SIZE - 2) (snd topLeft)) in
  let w := JsMath.min (MINIMAP_SIZE - x) (JsMath.max 4 width) in
  let h := JsMath.min (MINIMAP_SIZE - y) (JsMath.max 4 height) in
  (x, y, w, h).

End Minimap.

(** ** js/selection.js: the selection manager *)

Module SelectionManager.

Import Constants Selection.

Section Manager.

(** [A] is the type of the references to the objects that are indexed and
    selected; what is read of an object ([x], [y], [radius]) is read through
    [Circular A] at the time of the call. *)
Context {A : Type} `{Circular A}.

(** [===] on values that are [null] or a reference. *)
Variable same : forall p q : option A, {p = q} + {p <> q}.

(** [onSelectionChange] is [null] ([false]) or a callback ([true]);
    [notified] lists the arguments of the calls of the callback so far, the
    oldest first. *)
Record SelectionManager : Type := mkSelectionManager
  { quadtree : option (QuadTree A);
    selectedAsteroid : option A;
    onSelectionChange : bool;
    notified : list (option A) }.

(** [new SelectionManager()] *)
Definition constructor : SelectionManager :=
  {| quadtree := None; selectedAsteroid := None; onSelectionChange := false;
     notified := [] |}.

(** [this.selectionManager.onSelectionChange = (asteroid) => ...] of
    main.js. *)
Definition setOnSelectionChange (this : SelectionManager) : SelectionManager :=
  {| quadtree := this.(quadtree);
     selectedAsteroid := this.(selectedAsteroid);
     onSelectionChange := true;
     notified := this.(notified) |}.

(** [rebuildQuadtree(asteroids, bounds)]; [None] when a call of [insert]
    does not return within [fuel] levels. *)
Definition rebuildQuadtree (fuel : nat) (this : SelectionManager)
    (asteroids : list A) (world : WorldBounds) : option SelectionManager :=
  match Selection.rebuildQuadtree fuel asteroids world with
  | Some tree =>
      Some {| quadtree := Some tree;
              selectedAsteroid := this.(selectedAsteroid);
              onSelectionChange := this.(onSelectionChange);
              notified := this.(notified) |}
  | None => None
  end.

Definition findAsteroidAt (this : SelectionManager)
    (worldX worldY tolerance : R) : option A :=
  Selection.findAsteroidAt this.(quadtree) worldX worldY tolerance.

Definition select (this : SelectionManager) (asteroid : option A)
  : SelectionManager :=
  let changed :=
    if same this.(selectedAsteroid) asteroid then false else true in
  {| quadtree := this.(quadtree);
     selectedAsteroid := asteroid;
     onSelectionChange := this.(onSelectionChange);
     notified :=
       if changed && this.(onSelectionChange)
       then this.(notified) ++ [asteroid]
       else this.(notified) |}.

Definition deselect (this : SelectionManager) : SelectionManager :=
  select this None.

Definition getSelected (this : SelectionManager) : option A :=
  this.(selectedAsteroid).

Definition isSelected (this : SelectionManager) (asteroid : option A) : bool :=
  if same this.(selectedAsteroid) asteroid then true else false.

Definition handleClick (this : SelectionManager) (screenX screenY : R)
    (canvas : Camera.Canvas) (camera : Camera.Camera) : SelectionManager :=
  let world := Camera.screenToWorld canvas camera screenX screenY in
  let tolerance := CLICK_TOLERANCE / Camera.zoom camera in
  let asteroid := findAsteroidAt this (fst world) (snd world) tolerance in
  select this asteroid.

(** What the simulation does to the manager once it has set the callback. *)
Inductive Action : Type :=
| Rebuild (fuel : nat) (asteroids : list A) (world : WorldBounds)
| Select (asteroid : option A)
| Deselect
| HandleClick (screenX screenY : R) (canvas : Camera.Canvas)
    (camera : Camera.Camera).

(** A call of [rebuildQuadtree] that does not return leaves nothing to go
    on with. *)
Definition perform (this : SelectionManager) (action : Action)
  : option SelectionManager :=
  match action with
  | Rebuild fuel asteroids world => rebuildQuadtree fuel this asteroids world
  | Select asteroid => Some (select this asteroid)
  | Deselect => Some (deselect this)
  | HandleClick screenX screenY canvas camera =>
      Some (handleClick this screenX screenY canvas camera)
  end.

Definition lifetime (actions : list Action) : option SelectionManager :=
  fold_left
    (fun this action =>
       match this with
       | Some this => perform this action
       | None => None
       end)
    actions (Some (setOnSelectionChange constructor)).

(** *** Vocabulary of the statements about the notifications *)

(** Each call of the callback passes a value other than the one before it;
    [previous] is the value before the first call. *)
Fixpoint changes (previous : option A) (calls : list (option A)) : Prop :=
  match calls with
  | [] => True
  | call :: rest => call <> previous /\ changes call rest
  end.

(** The callback is set, it was last called with the current selection, and
    it was called on changes only. *)
Definition tracked (this : SelectionManager) : Prop :=
  this.(onSelectionChange) = true
  /\ last this.(notified) None = this.(selectedAsteroid)
  /\ changes None this.(notified).

End Manager.

Arguments SelectionManager A : clear implicits.
Arguments Action A : clear implicits.

End SelectionManager.

(** ** js/renderer.js *)

Module Renderer.

Import Selection.

Section Renderer.

(** References to asteroids, as in the selection manager. *)
Context {A : Type} `{Circular A}.

(** [!==] on a reference and a value that is [null] or a reference. *)
Variable same : forall p q : option A, {p = q} + {p <> q}.

(** [visible.sort((a, b) => a.radius - b.radius)].  Array.prototype.sort is
    stable, and on a comparator that orders by a number the stable
    arrangement is unique: it is the one that insertion from the right
    builds. *)
Fixpoint insertByRadius (a : A) (sorted : list A) : list A :=
  match sorted with
  | [] => [a]
  | b :: rest =>
      if Rleb (objRadius a - objRadius b) 0
      then a :: b :: rest
      else b :: insertByRadius a rest
  end.

Definition sortByRadius (l : list A) : list A :=
  fold_right insertByRadius [] l.

(** The order that the comparator of [sort] asks for. *)
Definition smallerFirst (a b : A) : Prop := objRadius a <= objRadius b.

(** The test of [asteroids.filter(a => ...)] in [renderAsteroids]. *)
Definition inView (bounds : Camera.VisibleBounds) (a : A) : bool :=
  let margin := objRadius a + 20 in
  Rleb (Camera.minX bounds - margin) (objX a)
  && Rleb (objX a) (Camera.maxX bounds + margin)
  && Rleb (Camera.minY bounds - margin) (objY a)
  && Rleb (objY a) (Camera.maxY bounds + margin).

(** [renderAsteroids(asteroids, camera, selectedAsteroid)]: the calls
    [asteroid.render(ctx, camera, isSelected)] that it makes, in order, each
    given by its receiver and the value of [isSelected]. *)
Definition renderAsteroids (canvas : Camera.Canvas) (camera : Camera.Camera)
    (asteroids : list A) (selectedAsteroid : option A) : list (A * bool) :=
  let bounds := Camera.getVisibleBounds canvas camera in
  let visible := filter (inView bounds) asteroids in
  let visible := sortByRadius visible in
  map (fun asteroid => (asteroid, false))
      (filter
         (fun asteroid =>
            if same (Some asteroid) selectedAsteroid then false else true)
         visible)
  ++ match selectedAsteroid with
     | Some selected => [(selected, true)]
     | None => []
     end.

End Renderer.

(** What [renderOrbitPath] does with the canvas context. *)
Inductive PathCommand : Type :=
| MoveTo (sx sy : R)
| LineTo (sx sy : R).

(** [renderOrbitPath(path, camera, color, dashed)]: its calls of
    [ctx.moveTo] and [ctx.lineTo], in order; [null] is [None]. *)
Definition renderOrbitPath (canvas : Camera.Canvas) (camera : Camera.Camera)
    (path : option (list Orbital.Position)) : list PathCommand :=
  match path with
  | None => []
  | Some path =>
      if (List.length path <? 2)%nat then []
      else
        match path with
        | [] => []
        | p0 :: rest =>
            let first :=
              Camera.worldToScreen canvas camera
                (Orbital.x p0) (Orbital.y p0) in
            MoveTo (fst first) (snd first)
            :: map (fun p =>
                      let point :=
                        Camera.worldToScreen canvas camera
                          (Orbital.x p) (Orbital.y p) in
                      LineTo (fst point) (snd point))
                   rest
        end
  end.

End Renderer.

(** ** js/deltav-panel.js *)

Module DeltaVPanel.

Import Utils Constants.
Import Orbital(OrbitalElements, Position).

(** What [updateProjectedInfo] writes into the projected-info section:
    nothing, the escape notice, or the rows of an orbit. *)
Inductive ProjectedInfo : Type :=
| NoInfo
| EscapeInfo
| OrbitInfo (orbit : OrbitalElements).

Section Panel.

(** References to asteroids.  The panel keeps a reference to the selected
    asteroid, which the simulation goes on updating; [heap] gives the state
    of the referenced object at the time of a call. *)
Context {Ref : Type}.

(** [applyDisabled] is [applyButton.disabled]; [sliderDirection] is
    [directionSlider.value]; [projectionChanges] lists the arguments of the
    calls of [onProjectionChange] so far, the oldest first (main.js keeps the
    latest as the projected path that it draws). *)
Record DeltaVPanel : Type := mkDeltaVPanel
  { magnitude : R;
    direction : R;
    projectedOrbit : option OrbitalElements;
    projectedPath : option (list Position);
    asteroid : option Ref;
    sliderDirection : R;
    projectedInfo : ProjectedInfo;
    applyDisabled : bool;
    projectionChanges : list (option (list Position)) }.

(** [new DeltaVPanel(panelElement, onProjectionChange, onApply)] with both
    callbacks given, as main.js does; the document decides what the
    projected-info section and the apply button start as. *)
Definition constructor (sliderDirection0 : R) (projectedInfo0 : ProjectedInfo)
    (applyDisabled0 : bool) : DeltaVPanel :=
  {| magnitude := 0; direction := 0; projectedOrbit := None;
     projectedPath := None; asteroid := None;
     sliderDirection := sliderDirection0;
     projectedInfo := projectedInfo0;
     applyDisabled := applyDisabled0;
     projectionChanges := [] |}.

(** [updateProjectedInfo(orbit, escape)] *)
Definition updateProjectedInfo (this : DeltaVPanel)
    (orbit : option OrbitalElements) (escape : bool) : DeltaVPanel :=
  {| magnitude := this.(magnitude); direction := this.(direction);
     projectedOrbit := this.(projectedOrbit);
     projectedPath := this.(projectedPath);
     asteroid := this.(asteroid);
     sliderDirection := this.(sliderDirection);
     projectedInfo :=
       match orbit with
       | None => if escape then EscapeInfo else NoInfo
       | Some orbit => OrbitInfo orbit
       end;
     applyDisabled :=
       match orbit with
       | None => true
       | Some _ => false
       end;
     projectionChanges := this.(projectionChanges) |}.

(** [this.projectedOrbit = ...; this.projectedPath = ...;] *)
Definition setProjection (this : DeltaVPanel)
    (orbit : option OrbitalElements) (path : option (list Position))
  : DeltaVPanel :=
  {| magnitude := this.(magnitude); direction := this.(direction);
     projectedOrbit := orbit;
     projectedPath := path;
     asteroid := this.(asteroid);
     sliderDirection := this.(sliderDirection);
     projectedInfo := this.(projectedInfo);
     applyDisabled := this.(applyDisabled);
     projectionChanges := this.(projectionChanges) |}.

(** [this.onProjectionChange(path)] *)
Definition onProjectionChange (this : DeltaVPanel)
    (path : option (list Position)) : DeltaVPanel :=
  {| magnitude := this.(magnitude); direction := this.(direction);
     projectedOrbit := this.(projectedOrbit);
     projectedPath := this.(projectedPath);
     asteroid := this.(asteroid);
     sliderDirection := this.(sliderDirection);
     projectedInfo := this.(projectedInfo);
     applyDisabled := this.(applyDisabled);
     projectionChanges := this.(projectionChanges) ++ [path] |}.

Definition setMagnitude (this : DeltaVPanel) (magnitude0 : R) : DeltaVPanel :=
  {| magnitude := magnitude0; direction := this.(direction);
     projectedOrbit := this.(projectedOrbit);
     projectedPath := this.(projectedPath);
     asteroid := this.(asteroid);
     sliderDirection := this.(sliderDirection);
     projectedInfo := this.(projectedInfo);
     applyDisabled := this.(applyDisabled);
     projectionChanges := this.(projectionChanges) |}.

Definition setDirection (this : DeltaVPanel) (direction0 : R) : DeltaVPanel :=
  {| magnitude := this.(magnitude); direction := direction0;
     projectedOrbit := this.(projectedOrbit);
     projectedPath := this.(projectedPath);
     asteroid := this.(asteroid);
     sliderDirection := this.(sliderDirection);
     projectedInfo := this.(projectedInfo);
     applyDisabled := this.(applyDisabled);
     projectionChanges := this.(projectionChanges) |}.

Definition setAsteroid (this : DeltaVPanel) (asteroid0 : option Ref)
  : DeltaVPanel :=
  {| magnitude := this.(magnitude); direction := this.(direction);
     projectedOrbit := this.(projectedOrbit);
     projectedPath := this.(projectedPath);
     asteroid := asteroid0;
     sliderDirection := this.(sliderDirection);
     projectedInfo := this.(projectedInfo);
     applyDisabled := this.(applyDisabled);
     projectionChanges := this.(projectionChanges) |}.

(** [updateDirectionDisplay()] *)
Definition updateDirectionDisplay (this : DeltaVPanel) : DeltaVPanel :=
  let degrees := radToDeg this.(direction) in
  let normalizedDegrees := JsMath.rem (JsMath.rem degrees 360 + 360) 360 in
  {| magnitude := this.(magnitude); direction := this.(direction);
     projectedOrbit := this.(projectedOrbit);
     projectedPath := this.(projectedPath);
     asteroid := this.(asteroid);
     sliderDirection := normalizedDegrees;
     projectedInfo := this.(projectedInfo);
     applyDisabled := this.(applyDisabled);
     projectionChanges := this.(projectionChanges) |}.

(** [updateProjection()] *)
Definition updateProjection (heap : Ref -> Asteroid.Asteroid)
    (this : DeltaVPanel) : DeltaVPanel :=
  match this.(asteroid) with
  | Some ref =>
      if Reqb this.(magnitude) 0
      then
        let this := setProjection this None None in
        let this := updateProjectedInfo this None false in
        onProjectionChange this None
      else
        let dvMagnitude := this.(magnitude) * DELTA_V_SCALE in
        let dvx := dvMagnitude * cos this.(direction) in
        let dvy := dvMagnitude * sin this.(direction) in
        let newVx := Asteroid.vx (heap ref) + dvx in
        let newVy := Asteroid.vy (heap ref) + dvy in
        let newOrbit :=
          Orbital.computeOrbitFromStateVectors
            {| Orbital.x := Asteroid.x (heap ref);
               Orbital.y := Asteroid.y (heap ref) |}
            {| Orbital.vx := newVx; Orbital.vy := newVy |} in
        let this :=
          match newOrbit with
          | Some newOrbit =>
              if Rltb 0 (Orbital.a newOrbit) && Rltb (Orbital.e newOrbit) 1
              then
                let path :=
                  Orbital.generateOrbitPath newOrbit ORBIT_PATH_POINTS in
                let this := setProjection this (Some newOrbit) (Some path) in
                updateProjectedInfo this (Some newOrbit) false
              else
                let this := setProjection this None None in
                updateProjectedInfo this None true
          | None =>
              let this := setProjection this None None in
              updateProjectedInfo this None true
          end in
        onProjectionChange this this.(projectedPath)
  | None =>
      let this := setProjection this None None in
      let this := updateProjectedInfo this None false in
      onProjectionChange this None
  end.

(** The [input] listener of the magnitude slider; [value] is
    [parseFloat(this.magnitudeSlider.value)]. *)
Definition onMagnitudeInput (heap : Ref -> Asteroid.Asteroid)
    (this : DeltaVPanel) (value : R) : DeltaVPanel :=
  updateProjection heap (setMagnitude this value).

(** The [input] listener of the direction slider; [value] is
    [parseFloat(this.directionSlider.value)]. *)
Definition onDirectionInput (heap : Ref -> Asteroid.Asteroid)
    (this : DeltaVPanel) (value : R) : DeltaVPanel :=
  updateProjection heap (setDirection this (degToRad value)).

Definition setPrograde (heap : Ref -> Asteroid.Asteroid) (this : DeltaVPanel)
  : DeltaVPanel :=
  match this.(asteroid) with
  | None => this
  | Some ref =>
      let this :=
        setDirection this
          (JsMath.atan2 (Asteroid.vy (heap ref)) (Asteroid.vx (heap ref))) in
      updateProjection heap (updateDirectionDisplay this)
  end.

Definition setRetrograde (heap : Ref -> Asteroid.Asteroid) (this : DeltaVPanel)
  : DeltaVPanel :=
  match this.(asteroid) with
  | None => this
  | Some ref =>
      let this :=
        setDirection this
          (JsMath.atan2 (- Asteroid.vy (heap ref))
             (- Asteroid.vx (heap ref))) in
      updateProjection heap (updateDirectionDisplay this)
  end.

Definition setRadialIn (heap : Ref -> Asteroid.Asteroid) (this : DeltaVPanel)
  : DeltaVPanel :=
  match this.(asteroid) with
  | None => this
  | Some ref =>
      let this :=
        setDirection this
          (JsMath.atan2 (- Asteroid.y (heap ref)) (- Asteroid.x (heap ref))) in
      updateProjection heap (updateDirectionDisplay this)
  end.

Definition setRadialOut (heap : Ref -> Asteroid.Asteroid) (this : DeltaVPanel)
  : DeltaVPanel :=
  match this.(asteroid) with
  | None => this
  | Some ref =>
      let this :=
        setDirection this
          (JsMath.atan2 (Asteroid.y (heap ref)) (Asteroid.x (heap ref))) in
      updateProjection heap (updateDirectionDisplay this)
  end.

(** [reset()] *)
Definition reset (this : DeltaVPanel) : DeltaVPanel :=
  let this := setMagnitude this 0 in
  let this := setProjection this None None in
  let this := updateProjectedInfo this None false in
  onProjectionChange this None.

(** [show(asteroid)]; [updateAsteroidInfo] only writes the info section. *)
Definition show (heap : Ref -> Asteroid.Asteroid) (this : DeltaVPanel)
    (asteroid0 : Ref) : DeltaVPanel :=
  let this := setAsteroid this (Some asteroid0) in
  let this := reset this in
  setPrograde heap this.

(** [hide()] *)
Definition hide (this : DeltaVPanel) : DeltaVPanel :=
  let this := setAsteroid this None in
  reset this.

(** The [click] listener of the apply button: the panel after it, and the
    arguments of the call of [onApply] if it makes one. *)
Definition onApplyClick (this : DeltaVPanel)
  : DeltaVPanel * option (Ref * OrbitalElements) :=
  match this.(asteroid), this.(projectedOrbit) with
  | Some ref, Some orbit => (reset this, Some (ref, orbit))
  | _, _ => (this, None)
  end.

Definition getDirection (this : DeltaVPanel) : R := this.(direction).

Definition getMagnitude (this : DeltaVPanel) : R := this.(magnitude).

Definition getProjectedPath (this : DeltaVPanel) : option (list Position) :=
  this.(projectedPath).

(** What the user and the simulation do to the panel. *)
Inductive Action : Type :=
| MagnitudeInput (value : R)
| DirectionInput (value : R)
| Prograde
| Retrograde
| RadialIn
| RadialOut
| ApplyClick
| Show (asteroid0 : Ref)
| Hide
| ResetPanel.

Definition perform (heap : Ref -> Asteroid.Asteroid) (this : DeltaVPanel)
    (action : Action) : DeltaVPanel :=
  match action with
  | MagnitudeInput value => onMagnitudeInput heap this value
  | DirectionInput value => onDirectionInput heap this value
  | Prograde => setPrograde heap this
  | Retrograde => setRetrograde heap this
  | RadialIn => setRadialIn heap this
  | RadialOut => setRadialOut heap this
  | ApplyClick => fst (onApplyClick this)
  | Show asteroid0 => show heap this asteroid0
  | Hide => hide this
  | ResetPanel => reset this
  end.

(** Each action finds the asteroids in some state. *)
Definition run (this : DeltaVPanel)
    (actions : list ((Ref -> Asteroid.Asteroid) * Action)) : DeltaVPanel :=
  fold_left (fun this '(heap, action) => perform heap this action)
    actions this.

(** *** Vocabulary of the statements about the panel *)

(** The projected path is the path of the projected orbit, the simulation
    was told of it last, the apply button is enabled exactly when there is a
    projected orbit, and a projected orbit is an ellipse projected for a
    selected asteroid and a delta-v that is not zero. *)
Definition consistent (this : DeltaVPanel) : Prop :=
  this.(projectedPath)
  = option_map
      (fun orbit => Orbital.generateOrbitPath orbit ORBIT_PATH_POINTS)
      this.(projectedOrbit)
  /\ last this.(projectionChanges) None = this.(projectedPath)
  /\ match this.(projectedOrbit) with
     | Some orbit =>
         this.(applyDisabled) = false
         /\ this.(projectedInfo) = OrbitInfo orbit
         /\ 0 < Orbital.a orbit /\ Orbital.e orbit < 1
         /\ this.(magnitude) <> 0
         /\ this.(asteroid) <> None
     | None =>
         this.(applyDisabled) = true
         /\ (this.(projectedInfo) = NoInfo
             \/ this.(projectedInfo) = EscapeInfo)
     end.

End Panel.

Arguments DeltaVPanel Ref : clear implicits.
Arguments Action Ref : clear implicits.

End DeltaVPanel.

(** ** js/main.js *)

Module Simulation.

Import Constants Selection.

(** [generateAsteroids()]; [rnd i] holds the results of the calls of
    [Math.random()] that [new Asteroid(i)] makes. *)
Definition generateAsteroids (generateAsteroidColor : nat -> string)
    (rnd : nat -> Asteroid.Draws) : list Asteroid.Asteroid :=
  map (fun i : nat => Asteroid.constructor generateAsteroidColor i (rnd i))
      (seq 0 ASTEROID_COUNT).

(** [worldRadius] in [update()] *)
Definition worldRadius : R := BELT_OUTER_RADIUS * AU_TO_PIXELS * 2.

(** The bounds that [update()] hands to [rebuildQuadtree]. *)
Definition world : Selection.WorldBounds :=
  {| Selection.minX := - worldRadius;
     Selection.minY := - worldRadius;
     Selection.worldWidth := worldRadius * 2;
     Selection.worldHeight := worldRadius * 2 |}.

(** [update()]: the asteroids after the loop, and the quadtree that
    [rebuildQuadtree] builds from them. *)
Definition update (fuel : nat) (asteroids : list Asteroid.Asteroid)
    (time : R)
  : list Asteroid.Asteroid * option (Selection.QuadTree Asteroid.Asteroid) :=
  let asteroids :=
    map (fun asteroid => Asteroid.update asteroid time) asteroids in
  (asteroids, Selection.rebuildQuadtree fuel asteroids world).

(** [applyOrbitChange(asteroid, newOrbit)], on the state of the asteroid. *)
Definition applyOrbitChange (asteroid : Asteroid.Asteroid)
    (newOrbit : Orbital.OrbitalElements) : Asteroid.Asteroid :=
  Asteroid.setOrbit asteroid newOrbit.

(** The clock of the simulation. *)
Record Clock : Type := mkClock
  { time : R; lastFrameTime : R; fps : R; paused : bool }.

(** [start()]; [now] is [performance.now()], and [time] and [fps] are what
    the constructor set. *)
Definition start (now : R) : Clock :=
  {| time := 0; lastFrameTime := now; fps := 60; paused := false |}.

(** The [keydown] listener on the key [' ']. *)
Definition togglePause (this : Clock) : Clock :=
  {| time := this.(time); lastFrameTime := this.(lastFrameTime);
     fps := this.(fps); paused := negb this.(paused) |}.

(** What [gameLoop(timestamp)] does to the clock. *)
Definition gameLoop (this : Clock) (timestamp : R) : Clock :=
  let deltaTime := timestamp - this.(lastFrameTime) in
  {| time :=
       if negb this.(paused)
       then this.(time) + deltaTime * TIME_SCALE
       else this.(time);
     lastFrameTime := timestamp;
     fps := 1000 / deltaTime;
     paused := this.(paused) |}.

(** What happens to the clock between two frames or at a frame. *)
Inductive Tick : Type :=
| Frame (timestamp : R)
| Space.

Definition tick (this : Clock) (t : Tick) : Clock :=
  match t with
  | Frame timestamp => gameLoop this timestamp
  | Space => togglePause this
  end.

End Simulation.

(** * The same code in binary64

    The modules above read a number as a real.  The program runs on IEEE 754
    binary64 numbers, and for some of its functions the rounding decides an
    outcome: which side of 1 an eccentricity lands on, whether a loop makes
    progress, whether a point of a node lies within one of its children,
    whether two points are the same.  [Binary64] is the embedding of those
    functions over the binary64 numbers themselves ([float], with the
    operations of [PrimFloat]), for the statements that are about such an
    outcome.  The definitions follow the source line by line, as above. *)

Module Binary64.

Local Open Scope float_scope.

Module JsMath.

(** [Math.PI] *)
Definition PI : float := 0x1.921fb54442d18p+1.

(** [Math.max] and [Math.min]: [NaN] when an argument is [NaN]; [+0] is
    larger than [-0]. *)
Definition max (x y : float) : float :=
  if is_nan x then x
  else if is_nan y then y
  else if x <? y then y
  else if y <? x then x
  else if get_sign x then y else x.

Definition min (x y : float) : float :=
  if is_nan x then x
  else if is_nan y then y
  else if x <? y then x
  else if y <? x then y
  else if get_sign x then x else y.

(** [Math.sin], [Math.cos], [Math.tan], [Math.atan], [Math.atan2] and
    [Math.acos].  Binary64 arithmetic does not define them (ECMAScript
    leaves their results to the implementation), so the functions that call
    them take them as an argument. *)
Record Math : Type := mkMath
  { sin : float -> float;
    cos : float -> float;
    tan : float -> float;
    atan : float -> float;
    atan2 : float -> float -> float;
    acos : float -> float }.

End JsMath.

Module Constants.

Definition MU : float := 1000.
Definition ORBIT_PATH_POINTS : nat := 100.

End Constants.

Module Utils.

Import JsMath.

(** A loop that may not end: [None] stands for a run that is still in the
    loop after [fuel] rounds. *)
Definition bind {X Y : Type} (c : option X) (k : X -> option Y) : option Y :=
  match c with
  | Some v => k v
  | None => None
  end.

(** [while (angle < 0) angle += 2 * Math.PI;] *)
Fixpoint raiseLoop (fuel : nat) (angle : float) : option float :=
  match fuel with
  | O => None
  | S fuel =>
      if angle <? 0 then raiseLoop fuel (angle + 2 * PI) else Some angle
  end.

(** [while (angle >= 2 * Math.PI) angle -= 2 * Math.PI;] *)
Fixpoint lowerLoop (fuel : nat) (angle : float) : option float :=
  match fuel with
  | O => None
  | S fuel =>
      if 2 * PI <=? angle then lowerLoop fuel (angle - 2 * PI) else Some angle
  end.

(** [normalizeAngle(angle)], each loop run for at most [fuel] rounds. *)
Definition normalizeAngle (fuel : nat) (angle : float) : option float :=
  bind (raiseLoop fuel angle) (lowerLoop fuel).

(** [randomRange(min, max)] with the result [rnd] of [Math.random()]. *)
Definition randomRange (rnd min max : float) : float :=
  min + rnd * (max - min).

Definition magnitude (x y : float) : float := PrimFloat.sqrt (x * x + y * y).

Definition dot (x1 y1 x2 y2 : float) : float := x1 * x2 + y1 * y2.

Definition cross (x1 y1 x2 y2 : float) : float := x1 * y2 - y1 * x2.

End Utils.

Module Orbital.

Import JsMath Constants Utils.

Record OrbitalElements : Type := mkOrbitalElements
  { a : float; e : float; omega : float; M0 : float }.

Record Position : Type := mkPosition { x : float; y : float }.

Record Velocity : Type := mkVelocity { vx : float; vy : float }.

Definition getPositionFromTrueAnomaly (math : Math) (orbit : OrbitalElements)
    (theta : float) : Position :=
  let a := orbit.(a) in
  let e := orbit.(e) in
  let omega := orbit.(omega) in
  let r := a * (1 - e * e) / (1 + e * math.(cos) theta) in
  let xOrbital := r * math.(cos) theta in
  let yOrbital := r * math.(sin) theta in
  let cosOmega := math.(cos) omega in
  let sinOmega := math.(sin) omega in
  {| x := xOrbital * cosOmega - yOrbital * sinOmega;
     y := xOrbital * sinOmega + yOrbital * cosOmega |}.

(** The value of the loop variable [i] after [n] rounds of [i++] from 0. *)
Fixpoint counter (n : nat) : float :=
  match n with
  | O => 0
  | S n => counter n + 1
  end.

(** [generateOrbitPath(orbit, numPoints)]: the samples for [i = 0, ...,
    numPoints], in the order they are pushed. *)
Definition generateOrbitPath (math : Math) (orbit : OrbitalElements)
    (numPoints : nat) : list Position :=
  map (fun i : nat =>
         let theta := counter i / counter numPoints * 2 * PI in
         getPositionFromTrueAnomaly math orbit theta)
      (seq 0 (S numPoints)).

(** [computeOrbitFromStateVectors(r, v)].  The outer [None] stands for a
    call that is still in a loop of [normalizeAngle] after [fuel] rounds;
    [null] is [Some None]. *)
Definition computeOrbitFromStateVectors (math : Math) (fuel : nat)
    (r : Position) (v : Velocity) : option (option OrbitalElements) :=
  let rx := r.(x) in
  let ry := r.(y) in
  let vx := v.(vx) in
  let vy := v.(vy) in
  let rMag := magnitude rx ry in
  let vMag := magnitude vx vy in
  let h := cross rx ry vx vy in
  let energy := vMag * vMag / 2 - MU / rMag in
  if 0 <=? energy then Some None
  else
    let a := - MU / (2 * energy) in
    let rdotv := dot rx ry vx vy in
    let term1 := vMag * vMag - MU / rMag in
    let ex := (term1 * rx - rdotv * vx) / MU in
    let ey := (term1 * ry - rdotv * vy) / MU in
    let e := magnitude ex ey in
    let omega := math.(atan2) ey ex in
    let omega := if omega <? 0 then omega + 2 * PI else omega in
    let theta :=
      if e <? 1e-10
      then math.(atan2) ry rx - omega
      else
        let cosTheta := dot ex ey rx ry / (e * rMag) in
        let theta := math.(acos) (max (-1) (min 1 cosTheta)) in
        if rdotv <? 0 then 2 * PI - theta else theta in
    let tanHalfTheta := math.(tan) (theta / 2) in
    let sqrtRatio := PrimFloat.sqrt ((1 - e) / (1 + e)) in
    let E := 2 * math.(atan) (sqrtRatio * tanHalfTheta) in
    let M := E - e * math.(sin) E in
    bind (normalizeAngle fuel M)
      (fun M0 => Some (Some {| a := a; e := e; omega := omega; M0 := M0 |})).

(** *** The same code, cut into pieces for the statements below *)

(** [energy] in [computeOrbitFromStateVectors]. *)
Definition orbitalEnergy (r : Position) (v : Velocity) : float :=
  let rMag := magnitude r.(x) r.(y) in
  let vMag := magnitude v.(vx) v.(vy) in
  vMag * vMag / 2 - MU / rMag.




End Orbital.

Module Selection.

Import JsMath.

(** What the quadtree reads of an object: [obj.x], [obj.y], [obj.radius]. *)
Class Circular (A : Type) : Type :=
  { objX : A -> float; objY : A -> float; objRadius : A -> float }.

(** [{ x, y, width, height }] *)
Record Bounds : Type := mkBounds
  { x : float; y : float; width : float; height : float }.

(** [{ minX, minY, width, height }], the argument of [rebuildQuadtree]. *)
Record WorldBounds : Type := mkWorldBounds
  { minX : float; minY : float; worldWidth : float; worldHeight : float }.

Section QuadTree.

Context {A : Type} `{Circular A}.

Inductive QuadTree : Type :=
| Leaf (bounds : Bounds) (capacity : nat) (objects : list A)
| Divided (bounds : Bounds) (capacity : nat) (objects : list A)
    (northeast northwest southeast southwest : QuadTree).

Definition bounds (this : QuadTree) : Bounds :=
  match this with
  | Leaf b _ _ | Divided b _ _ _ _ _ _ => b
  end.

Definition objects (this : QuadTree) : list A :=
  match this with
  | Leaf _ _ objs | Divided _ _ objs _ _ _ _ => objs
  end.

(** [new QuadTree(bounds, capacity)] *)
Definition create (b : Bounds) (c : nat) : QuadTree := Leaf b c [].

Definition containsPoint (b : Bounds) (px py : float) : bool :=
  (b.(x) <=? px) && (px <? b.(x) + b.(width))
  && (b.(y) <=? py) && (py <? b.(y) + b.(height)).

Definition intersectsCircle (b : Bounds) (cx cy radius : float) : bool :=
  let closestX := max b.(x) (min cx (b.(x) + b.(width))) in
  let closestY := max b.(y) (min cy (b.(y) + b.(height))) in
  let dx := cx - closestX in
  let dy := cy - closestY in
  dx * dx + dy * dy <=? radius * radius.

Definition Children : Type := (QuadTree * QuadTree * QuadTree * QuadTree)%type.

Definition subdivide (b : Bounds) (c : nat) : Children :=
  let x0 := b.(x) in
  let y0 := b.(y) in
  let w := b.(width) / 2 in
  let h := b.(height) / 2 in
  (create {| x := x0 + w; y := y0; width := w; height := h |} c,
   create {| x := x0; y := y0; width := w; height := h |} c,
   create {| x := x0 + w; y := y0 + h; width := w; height := h |} c,
   create {| x := x0; y := y0 + h; width := w; height := h |} c).

(** A call that may exhaust its recursion budget: [None] stands for a call
    that did not return within it. *)
Definition bind {X Y : Type} (c : option X) (k : X -> option Y) : option Y :=
  match c with
  | Some v => k v
  | None => None
  end.

Notation "'let*' p ':=' c 'in' k" := (bind c (fun p => k))
  (at level 61, p pattern, c at next level, right associativity).

(** [northeast.insert(obj) || northwest.insert(obj) || southeast.insert(obj)
    || southwest.insert(obj)]: the children after the calls that were made
    (a call that returns [false] may have changed its node), and the value
    of the disjunction. *)
Definition insertIntoChildren
    (insert : QuadTree -> A -> option (QuadTree * bool))
    (kids : Children) (obj : A) : option (Children * bool) :=
  let '(ne, nw, se, sw) := kids in
  let* (ne, ok) := insert ne obj in
  if ok then Some ((ne, nw, se, sw), true)
  else
    let* (nw, ok) := insert nw obj in
    if ok then Some ((ne, nw, se, sw), true)
    else
      let* (se, ok) := insert se obj in
      if ok then Some ((ne, nw, se, sw), true)
      else
        let* (sw, ok) := insert sw obj in
        Some ((ne, nw, se, sw), ok).

(** The loop [for (const existing of this.objects)] of [insert]; the value
    of each disjunction is dropped, and with it an object that no child
    accepted. *)
Definition redistribute
    (insert : QuadTree -> A -> option (QuadTree * bool))
    (objs : list A) (kids : option Children) : option Children :=
  fold_left
    (fun acc existing =>
       let* kids := acc in
       let* (kids, _) := insertIntoChildren insert kids existing in
       Some kids)
    objs kids.

(** [insert(obj)]: the node after the call and the returned boolean.
    [fuel] bounds the depth of the recursion. *)
Fixpoint insert (fuel : nat) (this : QuadTree) (obj : A) {struct fuel}
  : option (QuadTree * bool) :=
  match fuel with
  | O => None
  | S fuel =>
      if negb (containsPoint (bounds this) (objX obj) (objY obj))
      then Some (this, false)
      else
        match this with
        | Leaf b c objs =>
            if (List.length objs <? c)%nat
            then Some (Leaf b c (objs ++ [obj]), true)
            else
              let* kids :=
                redistribute (insert fuel) objs (Some (subdivide b c)) in
              let* (kids, ok) := insertIntoChildren (insert fuel) kids obj in
              let '(ne, nw, se, sw) := kids in
              Some (Divided b c [] ne nw se sw, ok)
        | Divided b c objs ne nw se sw =>
            let* (kids, ok) :=
              insertIntoChildren (insert fuel) (ne, nw, se, sw) obj in
            let '(ne, nw, se, sw) := kids in
            Some (Divided b c objs ne nw se sw, ok)
        end
  end.

Definition inCircle (cx cy radius : float) (obj : A) : bool :=
  let dx := objX obj - cx in
  let dy := objY obj - cy in
  dx * dx + dy * dy <=? radius * radius.

(** [queryCircle(cx, cy, radius, found)]; [found.push(obj)] appends. *)
Fixpoint queryCircle (this : QuadTree) (cx cy radius : float)
    (found : list A) : list A :=
  if negb (intersectsCircle (bounds this) cx cy radius) then found
  else
    let found :=
      fold_left
        (fun found obj =>
           if inCircle cx cy radius obj then found ++ [obj] else found)
        (objects this) found in
    match this with
    | Leaf _ _ _ => found
    | Divided _ _ _ ne nw se sw =>
        let found := queryCircle ne cx cy radius found in
        let found := queryCircle nw cx cy radius found in
        let found := queryCircle se cx cy radius found in
        queryCircle sw cx cy radius found
    end.

(** The loop of [rebuildQuadtree]: [for (const asteroid of asteroids)
    this.quadtree.insert(asteroid)].  The code drops the returned booleans;
    they are kept here, in the order of the calls, for the statements about
    them. *)
Fixpoint insertEach (fuel : nat) (this : QuadTree) (asteroids : list A)
  : option (QuadTree * list bool) :=
  match asteroids with
  | [] => Some (this, [])
  | asteroid :: rest =>
      let* (tree, ok) := insert fuel this asteroid in
      let* (tree, oks) := insertEach fuel tree rest in
      Some (tree, ok :: oks)
  end.

Definition worldBounds (world : WorldBounds) : Bounds :=
  {| x := world.(minX); y := world.(minY);
     width := world.(worldWidth); height := world.(worldHeight) |}.

(** [rebuildQuadtree(asteroids, bounds)]: the new value of [this.quadtree]. *)
Definition rebuildQuadtree (fuel : nat) (asteroids : list A)
    (world : WorldBounds) : option QuadTree :=
  let* (tree, _) := insertEach fuel (create (worldBounds world) 8) asteroids in
  Some tree.

(** The objects a tree holds, node by node in the order [queryCircle]
    visits them. *)
Fixpoint elements (this : QuadTree) : list A :=
  match this with
  | Leaf _ _ objs => objs
  | Divided _ _ objs ne nw se sw =>
      objs ++ elements ne ++ elements nw ++ elements se ++ elements sw
  end.

(** [l] holds nothing that [l'] does not hold, counted with repetitions. *)
Definition Contained (l l' : list A) : Prop :=
  exists rest : list A, Permutation (l ++ rest) l'.

(** The objects below the four children of a divided node. *)
Definition kidsElements (kids : Children) : list A :=
  let '(ne, nw, se, sw) := kids in
  elements ne ++ elements nw ++ elements se ++ elements sw.

(** A call of [insert] that returns leaves in the node only what was there
    and, if it returned [true], the object once. *)
Definition Keeps (ins : QuadTree -> A -> option (QuadTree * bool)) : Prop :=
  forall (t : QuadTree) (obj : A) (t' : QuadTree) (ok : bool),
    ins t obj = Some (t', ok) ->
    Contained (elements t') (if ok then obj :: elements t else elements t).

End QuadTree.

Arguments QuadTree A : clear implicits.
Arguments Children A : clear implicits.

End Selection.

(** ** Values for the worked instances *)

Module Samples.

Import Orbital Selection.

(** The results of [Math.sin] and [Math.cos] at the two angles that close
    an orbit path, [0] and [2 * Math.PI]: [sin 0 = 0] and [cos 0 = 1] as
    ECMAScript requires, and at the double [2 * Math.PI], which lies
    [2.449e-16] below 2π, the doubles nearest to its sine and cosine, which
    is what V8, SpiderMonkey and JavaScriptCore return.  The instances
    below ask for nothing else; the table answers [NaN] there. *)
Definition math : JsMath.Math :=
  {| JsMath.sin := fun x =>
       if x =? 0 then x
       else if x =? 2 * JsMath.PI then -0x1.1a62633145c07p-52
       else nan;
     JsMath.cos := fun x =>
       if x =? 0 then 1
       else if x =? 2 * JsMath.PI then 1
       else nan;
     JsMath.tan := fun _ => nan;
     JsMath.atan := fun _ => nan;
     JsMath.atan2 := fun _ _ => nan;
     JsMath.acos := fun _ => nan |}.

(** The orbit of the end-to-end scenario of the specification. *)
Definition circularOrbit : OrbitalElements :=
  {| a := 500; e := 0; omega := 0; M0 := 0 |}.

(** An object of the quadtree: [{ x, y, radius }]. *)
Record Body : Type := mkBody { bodyX : float; bodyY : float; bodyRadius : float }.

#[export] Instance bodyCircular : Circular Body :=
  {| objX := bodyX; objY := bodyY; objRadius := bodyRadius |}.

Definition square : Bounds :=
  {| Selection.x := -100; Selection.y := -100; width := 200; height := 200 |}.

(** Two bodies within [square], one unit in the last place apart. *)
Definition leftBody : Body :=
  {| bodyX := 12.3; bodyY := 45.6; bodyRadius := 5 |}.

Definition rightBody : Body :=
  {| bodyX := next_up 12.3; bodyY := 45.6; bodyRadius := 5 |}.

(** A body in another quadrant of [square]. *)
Definition awayBody : Body :=
  {| bodyX := 60; bodyY := -70; bodyRadius := 5 |}.

(** The world of main.js: [worldRadius = BELT_OUTER_RADIUS * AU_TO_PIXELS
    * 2]. *)
Definition world : WorldBounds :=
  {| minX := -1050; minY := -1050; worldWidth := 2100; worldHeight := 2100 |}.

(** The double [k] units in the last place above [x]. *)
Fixpoint above (k : nat) (x : float) : float :=
  match k with
  | O => x
  | S k => next_up (above k x)
  end.

(** Nine bodies within [world], each one unit in the last place above the
    one before. *)
Definition column : list Body :=
  map (fun k : nat => {| bodyX := 300; bodyY := above k 10; bodyRadius := 5 |})
      (seq 0 9).

End Samples.

End Binary64.

(** ** Sample data for the worked instances *)

Module Samples.

Import Asteroid.

(** A body at [(px, py)], at rest, whose caches fit its orbit. *)
Definition bodyAt (id0 : nat) (px py radius0 : R) : Asteroid.Asteroid :=
  let orbit0 :=
    {| Orbital.a := 500; Orbital.e := 0; Orbital.omega := 0;
       Orbital.M0 := 0 |} in
  {| id := id0;
     orbit := orbit0;
     radius := radius0;
     color := EmptyString;
     orbitPath := Orbital.generateOrbitPath orbit0 Constants.ORBIT_PATH_POINTS;
     x := px;
     y := py;
     vx := 0;
     vy := 0;
     period := Orbital.orbitalPeriod (Orbital.a orbit0) |}.

Definition restingBody : Asteroid.Asteroid := bodyAt 7 1 0 5.

(** A body wider than the margin of [findAsteroidAt]. *)
Definition largeBody : Asteroid.Asteroid := bodyAt 1 55 0 60.

Definition world : Selection.WorldBounds :=
  {| Selection.minX := -100; Selection.minY := -100;
     Selection.worldWidth := 200; Selection.worldHeight := 200 |}.

Definition twoBodies : list Asteroid.Asteroid :=
  [bodyAt 1 10 10 5; bodyAt 2 (-20) 30 5].

(** The tree of capacity 1 that holds [twoBodies], each in a child of the
    root. *)
Definition dividedTree : Selection.QuadTree Asteroid.Asteroid :=
  let b := Selection.worldBounds world in
  let '(ne, nw, se, sw) := Selection.subdivide b 1 in
  Selection.Divided b 1 [] ne nw
    (Selection.Leaf (Selection.bounds se) 1 [bodyAt 1 10 10 5])
    (Selection.Leaf (Selection.bounds sw) 1 [bodyAt 2 (-20) 30 5]).

(** Two bodies of radius 20, at 10 and at 3 from the origin. *)
Definition farBody : Asteroid.Asteroid := bodyAt 4 10 0 20.

Definition nearBody : Asteroid.Asteroid := bodyAt 5 3 0 20.

(** A body at [(100, 0)] that moves at [(0, 3)]. *)
Definition movingBody : Asteroid.Asteroid :=
  let orbit0 :=
    {| Orbital.a := 500; Orbital.e := 0; Orbital.omega := 0;
       Orbital.M0 := 0 |} in
  {| id := 3;
     orbit := orbit0;
     radius := 5;
     color := EmptyString;
     orbitPath := Orbital.generateOrbitPath orbit0 Constants.ORBIT_PATH_POINTS;
     x := 100;
     y := 0;
     vx := 0;
     vy := 3;
     period := Orbital.orbitalPeriod (Orbital.a orbit0) |}.

(** Results of [Math.random()] that are all one half. *)
Definition evenDraws : Asteroid.Draws :=
  {| rndA := 1 / 2; rndE := 1 / 2; rndOmega := 1 / 2; rndM0 := 1 / 2;
     rndRadius := 1 / 2 |}.

(** Results of [Math.random()] that differ from one asteroid to the next. *)
Definition spreadDraws (i : nat) : Asteroid.Draws :=
  {| rndA := 1 / 2; rndE := 1 / 2; rndOmega := 1 / 2;
     rndM0 := / (INR i + 2); rndRadius := 1 / 2 |}.

(** A panel that shows the asteroid [ref], its magnitude slider at 1. *)
Definition panelOn (ref : nat) : DeltaVPanel.DeltaVPanel nat :=
  {| DeltaVPanel.magnitude := 1;
     DeltaVPanel.direction := 0;
     DeltaVPanel.projectedOrbit := None;
     DeltaVPanel.projectedPath := None;
     DeltaVPanel.asteroid := Some ref;
     DeltaVPanel.sliderDirection := 0;
     DeltaVPanel.projectedInfo := DeltaVPanel.NoInfo;
     DeltaVPanel.applyDisabled := true;
     DeltaVPanel.projectionChanges := [] |}.

(** A canvas of 800 by 600 pixels at the corner of the page. *)
Definition canvas : Camera.Canvas :=
  {| Camera.width := 800; Camera.height := 600; Camera.left := 0;
     Camera.top := 0 |}.

End Samples.

(** * Properties *)

(** ** The boolean tests *)

Lemma Rltb_true (x y : R) : x < y -> Rltb x y = true.
Proof. intros Hlt. unfold Rltb. destruct (Rlt_dec x y); [reflexivity | contradiction]. Qed.

Lemma Rltb_false (x y : R) : y <= x -> Rltb x y = false.
Proof. intros Hle. unfold Rltb. destruct (Rlt_dec x y); [lra | reflexivity]. Qed.

Lemma Rleb_true (x y : R) : x <= y -> Rleb x y = true.
Proof. intros Hle. unfold Rleb. destruct (Rle_dec x y); [reflexivity | contradiction]. Qed.

Lemma Rleb_false (x y : R) : y < x -> Rleb x y = false.
Proof. intros Hlt. unfold Rleb. destruct (Rle_dec x y); [lra | reflexivity]. Qed.

Lemma Rltb_spec (x y : R) : reflect (x < y) (Rltb x y).
Proof. unfold Rltb. destruct (Rlt_dec x y); constructor; assumption. Qed.

Lemma Rleb_spec (x y : R) : reflect (x <= y) (Rleb x y).
Proof. unfold Rleb. destruct (Rle_dec x y); constructor; assumption. Qed.

Lemma Reqb_spec (x y : R) : reflect (x = y) (Reqb x y).
Proof. unfold Reqb. destruct (Req_dec_T x y); constructor; assumption. Qed.

(** Decide every comparison in the goal whose outcome [lra] can settle. *)
Ltac decide_tests :=
  repeat match goal with
    | |- context [Rltb ?x ?y] =>
        first [ rewrite (Rltb_true x y) by lra
              | rewrite (Rltb_false x y) by lra ]
    | |- context [Rleb ?x ?y] =>
        first [ rewrite (Rleb_true x y) by lra
              | rewrite (Rleb_false x y) by lra ]
    end.

(** Split on every comparison in the goal, keeping its outcome. *)
Ltac split_tests :=
  repeat match goal with
    | |- context [Rltb ?x ?y] => destruct (Rltb_spec x y)
    | |- context [Rleb ?x ?y] => destruct (Rleb_spec x y)
    end.

(** ** [normalizeAngle] *)

Section NormalizeAngle.

Import Utils.

Lemma raiseLoop_spec (n : nat) :
  forall angle : R,
    - (INR n * (2 * PI)) <= angle ->
    (angle < 0 -> 0 <= raiseLoop n angle < 2 * PI)
    /\ (0 <= angle -> raiseLoop n angle = angle)
    /\ exists k : Z, raiseLoop n angle = angle + IZR k * (2 * PI).
Proof.
  pose proof PI_RGT_0 as Hpi.
  induction n as [|n IH]; intros angle Hlow.
  - simpl in *. split; [lra | split; [reflexivity|]]. exists 0%Z. lra.
  - rewrite S_INR in Hlow. cbn [raiseLoop].
    destruct (Rltb_spec angle 0) as [Hneg | Hpos].
    + destruct (IH (angle + 2 * PI)) as (Hraise & Hkeep & k & Hk); [lra|].
      split; [intros _ | split; [lra|]].
      * destruct (Rlt_dec (angle + 2 * PI) 0); [now apply Hraise|].
        rewrite Hkeep; lra.
      * exists (k + 1)%Z. rewrite Hk, plus_IZR. lra.
    + split; [lra | split; [reflexivity|]]. exists 0%Z. lra.
Qed.

Lemma lowerLoop_spec (n : nat) :
  forall angle : R,
    0 <= angle < INR n * (2 * PI) ->
    0 <= lowerLoop n angle < 2 * PI
    /\ exists k : Z, lowerLoop n angle = angle + IZR k * (2 * PI).
Proof.
  pose proof PI_RGT_0 as Hpi.
  induction n as [|n IH]; intros angle Hrange.
  - simpl in Hrange. lra.
  - rewrite S_INR in Hrange. cbn [lowerLoop].
    destruct (Rleb_spec (2 * PI) angle) as [Hbig | Hsmall].
    + destruct (IH (angle - 2 * PI)) as (Hin & k & Hk); [lra|].
      split; [exact Hin|]. exists (k - 1)%Z. rewrite Hk, minus_IZR. lra.
    + split; [lra|]. exists 0%Z. lra.
Qed.

Lemma loopBound_spec (angle : R) : Rabs angle < INR (loopBound angle) * (2 * PI).
Proof.
  pose proof PI_RGT_0 as Hpi. unfold loopBound.
  set (q := Rabs angle / (2 * PI)).
  assert (Hq : 0 <= q).
  { unfold q. apply Rmult_le_pos; [apply Rabs_pos|].
    apply Rlt_le, Rinv_0_lt_compat. lra. }
  destruct (archimed q) as [Hup _].
  assert (Hz : (0 <= up q)%Z) by (apply le_IZR; lra).
  rewrite INR_IZR_INZ, Z2Nat.id by exact Hz.
  assert (Heq : Rabs angle = q * (2 * PI)) by (unfold q; field; lra).
  rewrite Heq. apply Rmult_lt_compat_r; lra.
Qed.

(** The loops of [normalizeAngle] end by their own tests: the result is in
    [[0, 2π)], where neither test holds, and it is the argument shifted by
    whole turns. *)
Lemma normalizeAngle_range (angle : R) :
  0 <= normalizeAngle angle < 2 * PI
  /\ exists k : Z, normalizeAngle angle = angle + IZR k * (2 * PI).
Proof.
  pose proof PI_RGT_0 as Hpi. unfold normalizeAngle.
  pose proof (loopBound_spec angle) as Hb1.
  destruct (raiseLoop_spec (loopBound angle) angle) as (Hraise & Hkeep & k1 & Hk1).
  { unfold Rabs in Hb1. destruct (Rcase_abs angle); lra. }
  set (raised := raiseLoop (loopBound angle) angle) in *.
  assert (Hpos : 0 <= raised).
  { destruct (Rlt_dec angle 0); [now apply Hraise|]. rewrite Hkeep; lra. }
  pose proof (loopBound_spec raised) as Hb2.
  rewrite (Rabs_pos_eq _ Hpos) in Hb2.
  destruct (lowerLoop_spec (loopBound raised) raised) as (Hin & k2 & Hk2); [lra|].
  split; [exact Hin|].
  exists (k1 + k2)%Z. rewrite Hk2, Hk1, plus_IZR. lra.
Qed.

Lemma normalizeAngle_fixed (angle : R) :
  0 <= angle < 2 * PI -> normalizeAngle angle = angle.
Proof.
  intros Hrange. unfold normalizeAngle.
  destruct (raiseLoop_spec (loopBound angle) angle) as (_ & Hkeep & _).
  { pose proof (loopBound_spec angle) as Hb. unfold Rabs in Hb.
    destruct (Rcase_abs angle); lra. }
  rewrite Hkeep by lra.
  destruct (loopBound angle) as [|n]; [reflexivity|].
  cbn [lowerLoop]. now rewrite Rleb_false by lra.
Qed.

End NormalizeAngle.

(** ** State vectors to elements *)

Section StateVectors.

Import Utils Constants Orbital.

Lemma magnitude_sqr (p q : R) : magnitude p q * magnitude p q = p * p + q * q.
Proof. unfold magnitude. apply sqrt_sqrt. nra. Qed.

Lemma magnitude_nonneg (p q : R) : 0 <= magnitude p q.
Proof. apply sqrt_pos. Qed.

(** The squared length of the eccentricity vector, from the energy and the
    angular momentum: [|e|² = 1 + 2 h² ε / μ²]. *)
Lemma eccentricity_identity (rx ry vx vy rho i : R) :
  rho * rho = rx * rx + ry * ry -> rho * i = 1 ->
  let V := vx * vx + vy * vy in
  let d := dot rx ry vx vy in
  let h := cross rx ry vx vy in
  let term1 := V - MU * i in
  let ex := (term1 * rx - d * vx) / MU in
  let ey := (term1 * ry - d * vy) / MU in
  ex * ex + ey * ey = 1 + 2 * (h * h) * (V / 2 - MU * i) / (MU * MU).
Proof.
  intros Hrho Hi. unfold dot, cross, MU. cbv zeta.
  assert (Hi2 : i * i * (rx * rx + ry * ry) = 1).
  { rewrite <- Hrho.
    replace (i * i * (rho * rho)) with ((rho * i) * (rho * i)) by ring.
    rewrite Hi. ring. }
  field_simplify_eq. nra.
Qed.

(** The elements of a successful conversion, read off the code. *)
Lemma computeOrbit_some (r : Position) (v : Velocity) (el : OrbitalElements) :
  computeOrbitFromStateVectors r v = Some el ->
  let rMag := magnitude (x r) (y r) in
  let vMag := magnitude (vx v) (vy v) in
  let term1 := vMag * vMag - MU / rMag in
  let rdotv := dot (x r) (y r) (vx v) (vy v) in
  orbitalEnergy r v < 0
  /\ a el = - MU / (2 * orbitalEnergy r v)
  /\ e el = magnitude ((term1 * x r - rdotv * vx v) / MU)
                      ((term1 * y r - rdotv * vy v) / MU).
Proof.
  unfold computeOrbitFromStateVectors, orbitalEnergy. cbv zeta.
  destruct (Rleb_spec 0
    (magnitude (vx v) (vy v) * magnitude (vx v) (vy v) / 2
     - MU / magnitude (x r) (y r))) as [Hesc | Hbound]; [discriminate|].
  intros Heq. injection Heq as <-. cbn [a e]. repeat split. lra.
Qed.

(** C2.  The conversion returns [null] exactly when the specific orbital
    energy [|v|²/2 - μ/|r|] that it computes is not negative.  The embedded
    function is total: [null] is its only way to fail. *)
Theorem computeOrbit_null_iff_energy (r : Position) (v : Velocity) :
  computeOrbitFromStateVectors r v = None <-> 0 <= orbitalEnergy r v.
Proof.
  unfold computeOrbitFromStateVectors, orbitalEnergy. cbv zeta.
  destruct (Rleb_spec 0
    (magnitude (vx v) (vy v) * magnitude (vx v) (vy v) / 2
     - MU / magnitude (x r) (y r))) as [Hesc | Hbound].
  - split; [intros _; exact Hesc | reflexivity].
  - split; [discriminate | intros Hesc; contradiction].
Qed.


(** A speed above the escape speed: the conversion returns [null]. *)
Lemma computeOrbit_escape :
  computeOrbitFromStateVectors {| x := 1; y := 0 |} {| vx := 0; vy := 100 |}
  = None.
Proof.
  unfold computeOrbitFromStateVectors. cbn [x y vx vy]. cbv zeta.
  rewrite magnitude_sqr.
  assert (H1 : magnitude 1 0 = 1).
  { unfold magnitude. replace (1 * 1 + 0 * 0) with 1 by ring. apply sqrt_1. }
  rewrite H1. unfold MU. now rewrite Rleb_true by lra.
Qed.

(** In exact arithmetic and away from the origin, a conversion that does not
    return [null] yields [a > 0] and [0 <= e <= 1], and the eccentricity is
    below 1 exactly when the angular momentum [r × v] is not zero.  (In
    binary64 the last bits of [e] decide on which side of 1 it lands.) *)
Lemma computeOrbit_elements_range (r : Position) (v : Velocity)
    (el : OrbitalElements) :
  x r <> 0 \/ y r <> 0 ->
  computeOrbitFromStateVectors r v = Some el ->
  0 < a el
  /\ 0 <= e el <= 1
  /\ (e el < 1 <-> cross (x r) (y r) (vx v) (vy v) <> 0).
Proof.
  intros Hr Hsome.
  destruct (computeOrbit_some r v el Hsome) as (Hneg & Ha & He).
  cbv zeta in He.
  set (rho := magnitude (x r) (y r)) in *.
  assert (Hrho2 : rho * rho = x r * x r + y r * y r) by apply magnitude_sqr.
  assert (Hrho : 0 < rho).
  { destruct (magnitude_nonneg (x r) (y r)) as [Hlt | Heq]; [exact Hlt|].
    exfalso. fold rho in Heq. rewrite <- Heq in Hrho2. nra. }
  assert (Hinv : rho * / rho = 1) by (apply Rinv_r; lra).
  pose proof (eccentricity_identity (x r) (y r) (vx v) (vy v) rho (/ rho)
                Hrho2 Hinv) as Hid.
  cbv zeta in Hid.
  unfold orbitalEnergy in Hneg, Ha. cbv zeta in Hneg. fold rho in Hneg, Ha.
  rewrite magnitude_sqr in Hneg, Ha, He.
  set (h := cross (x r) (y r) (vx v) (vy v)) in *.
  set (eps := (vx v * vx v + vy v * vy v) / 2 - MU / rho) in *.
  change ((vx v * vx v + vy v * vy v) / 2 - MU * / rho) with eps in Hid.
  unfold magnitude in He.
  match type of He with
  | _ = sqrt ?s => set (sq := s) in *; change (sq = 1 + 2 * (h * h) * eps / (MU * MU)) in Hid
  end.
  assert (Hmu : 0 < / (MU * MU)) by (apply Rinv_0_lt_compat; unfold MU; lra).
  assert (Hh : 0 <= h * h) by nra.
  assert (Hsq0 : 0 <= sq).
  { unfold sq. apply Rplus_le_le_0_compat; apply Rle_0_sqr. }
  assert (Hsq1 : sq <= 1).
  { rewrite Hid. unfold Rdiv. 
    assert (Hnum : 2 * (h * h) * eps <= 0) by nra.
    pose proof (Rmult_le_compat_r (/ (MU * MU)) _ 0 (Rlt_le _ _ Hmu) Hnum).
    lra. }
  split; [|split; [split|]].
  - rewrite Ha. unfold Rdiv.
    assert (/ (2 * eps) < 0) by (apply Rinv_lt_0_compat; lra).
    unfold MU. nra.
  - rewrite He. apply sqrt_pos.
  - rewrite He, <- sqrt_1. now apply sqrt_le_1_alt.
  - rewrite He, <- sqrt_1. split.
    + intros Hlt Hzero. apply sqrt_lt_0_alt in Hlt.
      rewrite Hid, Hzero in Hlt. lra.
    + intros Hnz. apply sqrt_lt_1_alt. split; [exact Hsq0|].
      rewrite Hid. unfold Rdiv.
      assert (0 < h * h) by (destruct (Rtotal_order h 0) as [?|[?|?]]; [nra|contradiction|nra]).
      assert (Hnum : 2 * (h * h) * eps < 0) by nra.
      pose proof (Rmult_lt_compat_r (/ (MU * MU)) _ 0 Hmu Hnum). lra.
Qed.



End StateVectors.

(** ** The orbit path *)

Section OrbitPath.

Import Orbital.

Lemma getPosition_full_turn (orbit : OrbitalElements) :
  getPositionFromTrueAnomaly orbit (2 * PI)
  = getPositionFromTrueAnomaly orbit 0.
Proof.
  unfold getPositionFromTrueAnomaly.
  now rewrite cos_2PI, sin_2PI, cos_0, sin_0.
Qed.

Lemma generateOrbitPath_length (orbit : OrbitalElements) (numPoints : nat) :
  List.length (generateOrbitPath orbit numPoints) = S numPoints.
Proof. unfold generateOrbitPath. now rewrite length_map, length_seq. Qed.

Lemma generateOrbitPath_nth (orbit : OrbitalElements) (numPoints i : nat)
    (d : Position) :
  (i <= numPoints)%nat ->
  nth i (generateOrbitPath orbit numPoints) d
  = getPositionFromTrueAnomaly orbit (INR i / INR numPoints * 2 * PI).
Proof.
  intros Hi. unfold generateOrbitPath.
  rewrite (nth_indep _ d
             (getPositionFromTrueAnomaly orbit
                (INR 0 / INR numPoints * 2 * PI)))
    by (rewrite length_map, length_seq; lia).
  rewrite (map_nth (fun i : nat =>
                      getPositionFromTrueAnomaly orbit
                        (INR i / INR numPoints * 2 * PI))).
  rewrite seq_nth by lia. reflexivity.
Qed.

(** C7, as the code has it.  For [numPoints >= 1] the path has
    [numPoints + 1] samples; the first is the position at true anomaly 0,
    the last the position at true anomaly 2π, and in exact arithmetic the
    two are the same point.  (In binary64 the two samples differ by the
    rounding of [Math.sin] at [2 * Math.PI].) *)
Theorem generateOrbitPath_closes (orbit : OrbitalElements) (numPoints : nat)
    (d : Position) :
  (1 <= numPoints)%nat ->
  let path := generateOrbitPath orbit numPoints in
  List.length path = S numPoints
  /\ hd d path = getPositionFromTrueAnomaly orbit 0
  /\ last path d = getPositionFromTrueAnomaly orbit (2 * PI)
  /\ hd d path = last path d.
Proof.
  intros Hn path.
  assert (Hnz : INR numPoints <> 0) by (apply not_0_INR; lia).
  assert (Hhd : hd d path = getPositionFromTrueAnomaly orbit 0).
  { unfold path, generateOrbitPath. cbn [seq map hd].
    f_equal. cbn [INR]. unfold Rdiv. ring. }
  assert (Hlast : last path d = getPositionFromTrueAnomaly orbit (2 * PI)).
  { unfold path, generateOrbitPath.
    rewrite seq_S, map_app. cbn [map Nat.add]. rewrite last_last.
    f_equal. field. exact Hnz. }
  split; [apply generateOrbitPath_length|].
  split; [exact Hhd|]. split; [exact Hlast|].
  rewrite Hhd, Hlast. symmetry. apply getPosition_full_turn.
Qed.

Lemma generateOrbitPath_closes_witness :
  let orbit := {| a := 500; e := 0; omega := 0; M0 := 0 |} in
  let d := {| x := 0; y := 0 |} in
  let path := generateOrbitPath orbit 100 in
  List.length path = 101%nat
  /\ hd d path = getPositionFromTrueAnomaly orbit 0
  /\ last path d = getPositionFromTrueAnomaly orbit (2 * PI)
  /\ hd d path = last path d.
Proof.
  intros orbit d. apply (generateOrbitPath_closes orbit 100 d). lia.
Defined.

End OrbitPath.

(** ** The body *)

Section Body.

Import Asteroid.

Variable generateAsteroidColor : nat -> string.

Lemma create_consistent (c : Creation) :
  cachesConsistent (create generateAsteroidColor c).
Proof. destruct c; split; reflexivity. Qed.

Lemma perform_consistent (this : Asteroid.Asteroid) (op : Operation) :
  cachesConsistent this -> cachesConsistent (perform this op).
Proof.
  intros [Hpath Hperiod]. destruct op as [t | dvx dvy t | orbit0]; cbn [perform].
  - split; [exact Hpath | exact Hperiod].
  - unfold applyDeltaV.
    destruct (Orbital.computeOrbitFromStateVectors _ _) as [newOrbit|];
      cbn [fst]; split; try reflexivity; assumption.
  - split; reflexivity.
Qed.

(** C4.  Whichever way a body is created and whatever operations are then
    applied to it, its cached path is the path of the orbit it holds and its
    cached period is the period of that orbit's semi-major axis. *)
Theorem caches_follow_orbit (c : Creation) (ops : list Operation) :
  cachesConsistent (lifetime generateAsteroidColor c ops).
Proof.
  unfold lifetime.
  generalize (create generateAsteroidColor c) (create_consistent c).
  induction ops as [|op ops IH]; intros this Hthis; cbn [fold_left].
  - exact Hthis.
  - apply IH, perform_consistent, Hthis.
Qed.

(** C3.  When the conversion of the body's position and incremented velocity
    returns [null], [applyDeltaV] returns [false] and the body is the one it
    was, field for field. *)
Theorem applyDeltaV_escape_unchanged (this : Asteroid.Asteroid)
    (dvx dvy t : R) :
  Orbital.computeOrbitFromStateVectors
    {| Orbital.x := this.(x); Orbital.y := this.(y) |}
    {| Orbital.vx := this.(vx) + dvx; Orbital.vy := this.(vy) + dvy |}
  = None ->
  applyDeltaV this dvx dvy t = (this, false).
Proof.
  intros Hnull. unfold applyDeltaV. now rewrite Hnull.
Qed.

Lemma applyDeltaV_escape_unchanged_witness :
  applyDeltaV Samples.restingBody 0 100 0 = (Samples.restingBody, false).
Proof.
  apply (applyDeltaV_escape_unchanged Samples.restingBody 0 100 0).
  cbn [Samples.restingBody Samples.bodyAt x y vx vy].
  replace (0 + 0) with 0 by ring. replace (0 + 100) with 100 by ring.
  exact computeOrbit_escape.
Defined.

End Body.

(** ** The quadtree *)

Section QuadTreeFacts.

Import Selection.

Context {A : Type} `{Circular A}.



(** *** Geometry of the bounds *)

Lemma containsPoint_true (b : Bounds) (px py : R) :
  containsPoint b px py = true
  <-> b.(x) <= px < b.(x) + b.(width) /\ b.(y) <= py < b.(y) + b.(height).
Proof.
  unfold containsPoint. rewrite !andb_true_iff.
  destruct (Rleb_spec b.(x) px), (Rltb_spec px (b.(x) + b.(width))),
    (Rleb_spec b.(y) py), (Rltb_spec py (b.(y) + b.(height)));
    intuition (try discriminate; try lra).
Qed.

Lemma inside_iff (b : Bounds) (obj : A) :
  inside b obj
  <-> b.(x) <= objX obj < b.(x) + b.(width)
      /\ b.(y) <= objY obj < b.(y) + b.(height).
Proof. apply containsPoint_true. Qed.

Lemma JsMax_spec (p q : R) : JsMath.max p q = Rmax p q.
Proof.
  unfold JsMath.max, Rmax. destruct (Rleb_spec p q), (Rle_dec p q); lra.
Qed.

Lemma JsMin_spec (p q : R) : JsMath.min p q = Rmin p q.
Proof.
  unfold JsMath.min, Rmin. destruct (Rleb_spec p q), (Rle_dec p q); lra.
Qed.

(** The clamped coordinate is the nearest one of the interval. *)
Lemma clamp_nearest (lo w c p : R) :
  lo <= p <= lo + w ->
  let q := JsMath.max lo (JsMath.min c (lo + w)) in
  (c - q) * (c - q) <= (p - c) * (p - c).
Proof.
  intros Hp. cbv zeta. rewrite JsMax_spec, JsMin_spec.
  assert (Hsq : forall u v : R, 0 <= u <= v -> u * u <= v * v) by (intros; nra).
  unfold Rmax, Rmin.
  destruct (Rle_dec c (lo + w)); destruct (Rle_dec lo _).
  - replace ((c - c) * (c - c)) with 0 by ring. apply Rle_0_sqr.
  - replace ((c - lo) * (c - lo)) with ((lo - c) * (lo - c)) by ring.
    apply Hsq. lra.
  - replace ((p - c) * (p - c)) with ((c - p) * (c - p)) by ring.
    apply Hsq. lra.
  - lra.
Qed.

(** A circle that misses the rectangle, as [intersectsCircle] tests it,
    contains none of its points. *)
Lemma intersectsCircle_prunes (b : Bounds) (cx cy radius : R) (obj : A) :
  intersectsCircle b cx cy radius = false ->
  b.(x) <= objX obj <= b.(x) + b.(width) ->
  b.(y) <= objY obj <= b.(y) + b.(height) ->
  inCircle cx cy radius obj = false.
Proof.
  unfold intersectsCircle, inCircle. cbv zeta. intros Hmiss Hx Hy.
  pose proof (clamp_nearest _ _ cx _ Hx) as Hcx.
  pose proof (clamp_nearest _ _ cy _ Hy) as Hcy.
  cbv zeta in Hcx, Hcy.
  destruct (Rleb_spec
    ((cx - JsMath.max b.(x) (JsMath.min cx (b.(x) + b.(width))))
     * (cx - JsMath.max b.(x) (JsMath.min cx (b.(x) + b.(width))))
     + (cy - JsMath.max b.(y) (JsMath.min cy (b.(y) + b.(height))))
       * (cy - JsMath.max b.(y) (JsMath.min cy (b.(y) + b.(height)))))
    (radius * radius)) as [|Hfar]; [discriminate|].
  apply Rleb_false. lra.
Qed.

Lemma covers_intersects (b : Bounds) (cx cy radius : R) :
  0 <= b.(width) -> 0 <= b.(height) ->
  covers cx cy radius b -> intersectsCircle b cx cy radius = true.
Proof.
  intros Hw Hh Hcov. unfold intersectsCircle. cbv zeta.
  apply Rleb_true.
  rewrite !JsMax_spec, !JsMin_spec.
  set (qx := Rmax b.(x) (Rmin cx (b.(x) + b.(width)))).
  set (qy := Rmax b.(y) (Rmin cy (b.(y) + b.(height)))).
  assert (Hqx : b.(x) <= qx <= b.(x) + b.(width)).
  { unfold qx, Rmax, Rmin.
    destruct (Rle_dec cx _); destruct (Rle_dec b.(x) _); lra. }
  assert (Hqy : b.(y) <= qy <= b.(y) + b.(height)).
  { unfold qy, Rmax, Rmin.
    destruct (Rle_dec cy _); destruct (Rle_dec b.(y) _); lra. }
  pose proof (Hcov qx qy Hqx Hqy). nra.
Qed.


(** *** Children *)

Lemma subdivide_formed (c : nat) (b : Bounds) :
  childrenFormed c b (subdivide (A:=A) b c)
  /\ childrenElements (subdivide (A:=A) b c) = [].
Proof.
  unfold subdivide, create, childrenFormed, childrenElements. cbn.
  repeat split; try lia; constructor.
Qed.

(** The four quadrants partition the bounds. *)
Lemma quadrants_partition (c : nat) (b : Bounds) (ne nw se sw : QuadTree A)
    (obj : A) :
  (let '(ne0, nw0, se0, sw0) := subdivide (A:=A) b c in
   bounds ne = bounds ne0 /\ bounds nw = bounds nw0
   /\ bounds se = bounds se0 /\ bounds sw = bounds sw0) ->
  inside b obj
  <-> inside (bounds ne) obj \/ inside (bounds nw) obj
      \/ inside (bounds se) obj \/ inside (bounds sw) obj.
Proof.
  unfold subdivide, create. cbn [bounds].
  intros (-> & -> & -> & ->). rewrite !inside_iff. cbn [x y width height].
  split.
  - intros [Hx Hy].
    destruct (Rlt_dec (objX obj) (b.(x) + b.(width) / 2));
      destruct (Rlt_dec (objY obj) (b.(y) + b.(height) / 2)); lra.
  - intros [Hq | [Hq | [Hq | Hq]]]; lra.
Qed.

Lemma Permutation_insert_second (obj : A) (l1 l2 l2' l3 : list A) :
  Permutation l2' (obj :: l2) ->
  Permutation (l1 ++ l2' ++ l3) (obj :: l1 ++ l2 ++ l3).
Proof.
  intros Hp. rewrite Hp. cbn [app]. symmetry. apply Permutation_middle.
Qed.

Lemma Permutation_insert_third (obj : A) (l1 l2 l3 l3' l4 : list A) :
  Permutation l3' (obj :: l3) ->
  Permutation (l1 ++ l2 ++ l3' ++ l4) (obj :: l1 ++ l2 ++ l3 ++ l4).
Proof.
  intros Hp. rewrite !(app_assoc l1 l2).
  now apply Permutation_insert_second.
Qed.

Lemma Permutation_insert_fourth (obj : A) (l1 l2 l3 l4 l4' : list A) :
  Permutation l4' (obj :: l4) ->
  Permutation (l1 ++ l2 ++ l3 ++ l4') (obj :: l1 ++ l2 ++ l3 ++ l4).
Proof.
  intros Hp. rewrite !(app_assoc l2 l3).
  rewrite <- (app_nil_r l4'), <- (app_nil_r l4).
  now apply Permutation_insert_third.
Qed.

Lemma insertIntoChildren_sound (c : nat)
    (ins : QuadTree A -> A -> option (QuadTree A * bool)) (b : Bounds)
    (kids kids' : Children A) (obj : A) (ok : bool) :
  Sound c ins ->
  childrenFormed c b kids ->
  insertIntoChildren ins kids obj = Some (kids', ok) ->
  childrenFormed c b kids'
  /\ (ok = true <-> inside b obj)
  /\ Permutation (childrenElements kids')
       (if ok then obj :: childrenElements kids else childrenElements kids).
Proof.
  intros Hsound.
  destruct kids as [[[ne nw] se] sw].
  intros (Hb & Hne & Hnw & Hse & Hsw).
  pose proof (quadrants_partition c b ne nw se sw obj Hb) as Hpart.
  unfold insertIntoChildren, bind.
  destruct (ins ne obj) as [[ne' ok1]|] eqn:E1; [|discriminate].
  destruct (Hsound _ _ _ _ Hne E1) as (Hne' & Hbne & Hok1 & Hp1).
  destruct ok1.
  { intros [= <- <-]. cbn [childrenFormed childrenElements].
    rewrite Hbne. split; [tauto | split].
    - split; [intros _ | reflexivity]. apply Hpart. left. now apply Hok1.
    - rewrite Hp1. reflexivity. }
  destruct (ins nw obj) as [[nw' ok2]|] eqn:E2; [|discriminate].
  destruct (Hsound _ _ _ _ Hnw E2) as (Hnw' & Hbnw & Hok2 & Hp2).
  destruct ok2.
  { intros [= <- <-]. cbn [childrenFormed childrenElements].
    rewrite Hbne, Hbnw. split; [tauto | split].
    - split; [intros _ | reflexivity].
      apply Hpart. right. left. now apply Hok2.
    - rewrite Hp1. now apply Permutation_insert_second. }
  destruct (ins se obj) as [[se' ok3]|] eqn:E3; [|discriminate].
  destruct (Hsound _ _ _ _ Hse E3) as (Hse' & Hbse & Hok3 & Hp3).
  destruct ok3.
  { intros [= <- <-]. cbn [childrenFormed childrenElements].
    rewrite Hbne, Hbnw, Hbse. split; [tauto | split].
    - split; [intros _ | reflexivity].
      apply Hpart. right. right. left. now apply Hok3.
    - rewrite Hp1, Hp2. now apply Permutation_insert_third. }
  destruct (ins sw obj) as [[sw' ok4]|] eqn:E4; [|discriminate].
  destruct (Hsound _ _ _ _ Hsw E4) as (Hsw' & Hbsw & Hok4 & Hp4).
  intros [= <- <-]. cbn [childrenFormed childrenElements].
  rewrite Hbne, Hbnw, Hbse, Hbsw. split; [tauto | split].
  - split.
    + intros ->. apply Hpart. right. right. right. now apply Hok4.
    + intros Hin. apply Hpart in Hin.
      destruct Hin as [Hin | [Hin | [Hin | Hin]]].
      * apply Hok1 in Hin. discriminate.
      * apply Hok2 in Hin. discriminate.
      * apply Hok3 in Hin. discriminate.
      * now apply Hok4.
  - rewrite Hp1, Hp2, Hp3. destruct ok4.
    + now apply Permutation_insert_fourth.
    + now rewrite Hp4.
Qed.


(** *** [insert] keeps the tree well formed and adds the object once *)

Lemma redistribute_none
    (ins : QuadTree A -> A -> option (QuadTree A * bool)) (objs : list A) :
  redistribute ins objs None = None.
Proof. induction objs as [|o objs IH]; [reflexivity | exact IH]. Qed.

Lemma redistribute_cons
    (ins : QuadTree A -> A -> option (QuadTree A * bool)) (o : A)
    (objs : list A) (kids : Children A) :
  redistribute ins (o :: objs) (Some kids)
  = redistribute ins objs
      (bind (insertIntoChildren ins kids o) (fun '(kids, _) => Some kids)).
Proof. reflexivity. Qed.

Lemma redistribute_sound (c : nat)
    (ins : QuadTree A -> A -> option (QuadTree A * bool)) (b : Bounds) :
  Sound c ins ->
  forall (objs : list A) (kids kids' : Children A),
    childrenFormed c b kids ->
    Forall (inside b) objs ->
    redistribute ins objs (Some kids) = Some kids' ->
    childrenFormed c b kids'
    /\ Permutation (childrenElements kids') (objs ++ childrenElements kids).
Proof.
  intros Hsound. induction objs as [|o objs IH]; intros kids kids' Hkids Hin.
  - intros [= <-]. split; [exact Hkids | reflexivity].
  - rewrite redistribute_cons.
    destruct (insertIntoChildren ins kids o) as [[kids1 ok]|] eqn:E;
      cbn [bind]; [|now rewrite redistribute_none].
    intros Hrest.
    destruct (insertIntoChildren_sound c ins b kids kids1 o ok Hsound Hkids E)
      as (Hkids1 & Hok & Hp1).
    destruct (IH kids1 kids' Hkids1 (Forall_inv_tail Hin) Hrest)
      as (Hkids' & Hp).
    split; [exact Hkids'|].
    assert (ok = true) as -> by (apply Hok; exact (Forall_inv Hin)).
    rewrite Hp, Hp1. cbn [app]. symmetry. apply Permutation_middle.
Qed.

Lemma insert_unfold (fuel : nat) (this : QuadTree A) (obj : A) :
  insert (S fuel) this obj
  = if negb (containsPoint (bounds this) (objX obj) (objY obj))
    then Some (this, false)
    else
      match this with
      | Leaf b c objs =>
          if (List.length objs <? c)%nat
          then Some (Leaf b c (objs ++ [obj]), true)
          else
            bind (redistribute (insert fuel) objs (Some (subdivide b c)))
              (fun kids =>
            bind (insertIntoChildren (insert fuel) kids obj)
              (fun '(kids, ok) =>
            let '(ne, nw, se, sw) := kids in
            Some (Divided b c [] ne nw se sw, ok)))
      | Divided b c objs ne nw se sw =>
          bind (insertIntoChildren (insert fuel) (ne, nw, se, sw) obj)
            (fun '(kids, ok) =>
          let '(ne, nw, se, sw) := kids in
          Some (Divided b c objs ne nw se sw, ok))
      end.
Proof. reflexivity. Qed.

Lemma insert_sound (c : nat) (fuel : nat) : Sound c (insert fuel).
Proof.
  induction fuel as [|fuel IH]; intros t obj t' ok Hwf; [discriminate|].
  rewrite insert_unfold.
  destruct (containsPoint (bounds t) (objX obj) (objY obj)) eqn:Hin;
    cbn [negb].
  2:{ intros [= <- <-]. split; [exact Hwf | split; [reflexivity | split]].
      - split; [discriminate|]. unfold inside. rewrite Hin. discriminate.
      - reflexivity. }
  destruct t as [b c' objs | b c' objs ne nw se sw]; cbn [bounds] in Hin.
  - destruct Hwf as (-> & Hlen & Hobjs).
    destruct (Nat.ltb_spec (List.length objs) c) as [Hroom | Hfull].
    + intros [= <- <-]. cbn [wellFormed bounds elements].
      split; [|split; [reflexivity | split]].
      * split; [reflexivity | split].
        -- rewrite length_app. cbn [List.length]. lia.
        -- apply Forall_app. split; [exact Hobjs|]. now constructor.
      * split; [intros _; exact Hin | reflexivity].
      * symmetry. apply Permutation_cons_append.
    + destruct (subdivide_formed c b) as (Hformed & Hempty).
      destruct (redistribute (insert fuel) objs (Some (subdivide b c)))
        as [kids1|] eqn:E1; [|discriminate].
      destruct (redistribute_sound c _ b IH objs _ _ Hformed Hobjs E1)
        as (Hkids1 & Hp1).
      cbn [bind].
      destruct (insertIntoChildren (insert fuel) kids1 obj)
        as [[kids2 ok2]|] eqn:E2; [|discriminate].
      destruct (insertIntoChildren_sound c _ b _ _ _ _ IH Hkids1 E2)
        as (Hkids2 & Hok2 & Hp2).
      cbn [bind]. destruct kids2 as [[[ne2 nw2] se2] sw2].
      intros [= <- <-]. cbn [wellFormed bounds elements].
      destruct Hkids2 as (Hb2 & Hwf2).
      split; [|split; [reflexivity | split]].
      * split; [reflexivity | split; [reflexivity | split; assumption]].
      * exact Hok2.
      * cbn [childrenElements] in Hp2. cbn [app]. rewrite Hp2.
        assert (ok2 = true) as -> by (now apply Hok2).
        rewrite Hp1, Hempty, app_nil_r. reflexivity.
  - destruct Hwf as (-> & -> & Hb & Hwf).
    assert (Hkids : childrenFormed c b (ne, nw, se, sw)) by (split; assumption).
    destruct (insertIntoChildren (insert fuel) (ne, nw, se, sw) obj)
      as [[kids2 ok2]|] eqn:E2; [|discriminate].
    destruct (insertIntoChildren_sound c _ b _ _ _ _ IH Hkids E2)
      as (Hkids2 & Hok2 & Hp2).
    cbn [bind]. destruct kids2 as [[[ne2 nw2] se2] sw2].
    intros [= <- <-]. cbn [wellFormed bounds elements].
    destruct Hkids2 as (Hb2 & Hwf2).
    split; [|split; [reflexivity | split]].
    + split; [reflexivity | split; [reflexivity | split; assumption]].
    + exact Hok2.
    + cbn [childrenElements] in Hp2. cbn [app]. exact Hp2.
Qed.


(** *** More fuel changes nothing *)

Lemma insertIntoChildren_mono
    (ins ins' : QuadTree A -> A -> option (QuadTree A * bool))
    (kids : Children A) (obj : A) (r : Children A * bool) :
  Extends ins ins' ->
  insertIntoChildren ins kids obj = Some r ->
  insertIntoChildren ins' kids obj = Some r.
Proof.
  intros Hext. destruct kids as [[[ne nw] se] sw].
  unfold insertIntoChildren, bind.
  destruct (ins ne obj) as [[ne' ok1]|] eqn:E1; [|discriminate].
  rewrite (Hext _ _ _ E1). destruct ok1; [trivial|].
  destruct (ins nw obj) as [[nw' ok2]|] eqn:E2; [|discriminate].
  rewrite (Hext _ _ _ E2). destruct ok2; [trivial|].
  destruct (ins se obj) as [[se' ok3]|] eqn:E3; [|discriminate].
  rewrite (Hext _ _ _ E3). destruct ok3; [trivial|].
  destruct (ins sw obj) as [[sw' ok4]|] eqn:E4; [|discriminate].
  rewrite (Hext _ _ _ E4). trivial.
Qed.

Lemma redistribute_mono
    (ins ins' : QuadTree A -> A -> option (QuadTree A * bool)) :
  Extends ins ins' ->
  forall (objs : list A) (kids : option (Children A)) (r : Children A),
    redistribute ins objs kids = Some r ->
    redistribute ins' objs kids = Some r.
Proof.
  intros Hext. induction objs as [|o objs IH]; intros kids r; [trivial|].
  destruct kids as [kids|]; [|now rewrite redistribute_none].
  rewrite !redistribute_cons.
  destruct (insertIntoChildren ins kids o) as [[kids1 ok]|] eqn:E;
    cbn [bind]; [|now rewrite redistribute_none].
  rewrite (insertIntoChildren_mono _ _ _ _ _ Hext E). cbn [bind]. apply IH.
Qed.

Lemma insert_mono (fuel : nat) :
  forall fuel' : nat, (fuel <= fuel')%nat ->
    Extends (insert fuel) (insert fuel').
Proof.
  induction fuel as [|fuel IH]; intros fuel' Hle t obj r; [discriminate|].
  destruct fuel' as [|fuel']; [lia|].
  assert (Hext : Extends (insert fuel) (insert fuel')) by (apply IH; lia).
  rewrite !insert_unfold.
  destruct (negb (containsPoint (bounds t) (objX obj) (objY obj))); [trivial|].
  destruct t as [b c objs | b c objs ne nw se sw].
  - destruct (List.length objs <? c)%nat; [trivial|].
    destruct (redistribute (insert fuel) objs (Some (subdivide b c)))
      as [kids1|] eqn:E1; [|discriminate].
    rewrite (redistribute_mono _ _ Hext _ _ _ E1). cbn [bind].
    destruct (insertIntoChildren (insert fuel) kids1 obj) as [r2|] eqn:E2;
      [|discriminate].
    now rewrite (insertIntoChildren_mono _ _ _ _ _ Hext E2).
  - destruct (insertIntoChildren (insert fuel) (ne, nw, se, sw) obj)
      as [r2|] eqn:E2; [|discriminate].
    now rewrite (insertIntoChildren_mono _ _ _ _ _ Hext E2).
Qed.


(** *** Enough fuel: [insert] returns *)

Lemma insert_leaf_room (fuel : nat) (b : Bounds) (c : nat) (objs : list A)
    (obj : A) :
  (List.length objs < c)%nat ->
  insert (S fuel) (Leaf b c objs) obj
  = if containsPoint b (objX obj) (objY obj)
    then Some (Leaf b c (objs ++ [obj]), true)
    else Some (Leaf b c objs, false).
Proof.
  intros Hroom. rewrite insert_unfold. cbn [bounds].
  destruct (containsPoint b (objX obj) (objY obj)); cbn [negb]; [|reflexivity].
  destruct (Nat.ltb_spec (List.length objs) c); [reflexivity | lia].
Qed.

Lemma insertIntoChildren_leaves (fuel c : nat) (kids : Children A) (obj : A) :
  allLeaves c kids ->
  (List.length (childrenElements kids) < c)%nat ->
  exists kids' ok,
    insertIntoChildren (insert (S fuel)) kids obj = Some (kids', ok)
    /\ allLeaves c kids'
    /\ (List.length (childrenElements kids')
        <= S (List.length (childrenElements kids)))%nat.
Proof.
  destruct kids as [[[ne nw] se] sw].
  intros ((bne & one & ->) & (bnw & onw & ->) & (bse & ose & ->)
          & (bsw & osw & ->)).
  cbn [childrenElements elements]. rewrite !length_app. intros Hlen.
  unfold insertIntoChildren, bind.
  rewrite !insert_leaf_room by lia.
  destruct (containsPoint bne _ _);
    [|destruct (containsPoint bnw _ _);
      [|destruct (containsPoint bse _ _);
        [|destruct (containsPoint bsw _ _)]]];
    do 2 eexists; (split; [reflexivity|]);
    (split; [repeat split; do 2 eexists; reflexivity|]);
    cbn [childrenElements elements]; rewrite !length_app;
    cbn [List.length]; lia.
Qed.

Lemma redistribute_total (fuel c : nat) :
  forall (objs : list A) (kids : Children A),
    allLeaves c kids ->
    (List.length (childrenElements kids) + List.length objs <= c)%nat ->
    exists kids',
      redistribute (insert (S fuel)) objs (Some kids) = Some kids'
      /\ allLeaves c kids'.
Proof.
  induction objs as [|o objs IH]; intros kids Hleaves Hlen.
  - exists kids. split; [reflexivity | exact Hleaves].
  - cbn [List.length] in Hlen. rewrite redistribute_cons.
    destruct (insertIntoChildren_leaves fuel c kids o Hleaves)
      as (kids1 & ok & -> & Hleaves1 & Hlen1); [lia|].
    cbn [bind]. apply IH; [exact Hleaves1 | lia].
Qed.

Lemma insertIntoChildren_total
    (ins : QuadTree A -> A -> option (QuadTree A * bool))
    (ne nw se sw : QuadTree A) (obj : A) :
  (exists r, ins ne obj = Some r) -> (exists r, ins nw obj = Some r) ->
  (exists r, ins se obj = Some r) -> (exists r, ins sw obj = Some r) ->
  exists r, insertIntoChildren ins (ne, nw, se, sw) obj = Some r.
Proof.
  intros ([ne' ok1] & E1) ([nw' ok2] & E2) ([se' ok3] & E3) ([sw' ok4] & E4).
  unfold insertIntoChildren, bind. rewrite E1, E2, E3, E4.
  destruct ok1, ok2, ok3; eexists; reflexivity.
Qed.

Lemma apart_child (n c : nat) (b : Bounds) (kid ne nw se sw : QuadTree A)
    (p obj : A) :
  (let '(ne0, nw0, se0, sw0) := subdivide (A:=A) b c in
   bounds ne = bounds ne0 /\ bounds nw = bounds nw0
   /\ bounds se = bounds se0 /\ bounds sw = bounds sw0) ->
  kid = ne \/ kid = nw \/ kid = se \/ kid = sw ->
  inside b obj ->
  apart n b p obj -> apart (pred n) (bounds kid) p obj.
Proof.
  unfold subdivide, create. cbn [bounds]. intros (Hne & Hnw & Hse & Hsw) Hkid.
  rewrite inside_iff. intros [Hx Hy].
  assert (Hbk : (bounds kid).(width) = b.(width) / 2
                /\ (bounds kid).(height) = b.(height) / 2).
  { destruct Hkid as [-> | [-> | [-> | ->]]];
      [rewrite Hne | rewrite Hnw | rewrite Hse | rewrite Hsw]; split;
      reflexivity. }
  destruct Hbk as [Hw Hh]. unfold apart. rewrite Hw, Hh.
  destruct n as [|n]; cbn [pred pow].
  - unfold Rdiv. rewrite !Rinv_1, !Rmult_1_r. intros [Ha | Ha]; [left | right]; lra.
  - assert (Hpow : 0 < 2 ^ n) by (apply pow_lt; lra).
    assert (Heq : forall w, w / 2 / 2 ^ n = w / (2 * 2 ^ n))
      by (intros; field; lra).
    rewrite !Heq. trivial.
Qed.

Lemma In_childrenElements (ne nw se sw kid : QuadTree A) (p : A) :
  kid = ne \/ kid = nw \/ kid = se \/ kid = sw ->
  In p (elements kid) -> In p (childrenElements (ne, nw, se, sw)).
Proof.
  cbn [childrenElements]. rewrite !in_app_iff.
  intros [-> | [-> | [-> | ->]]]; tauto.
Qed.

Lemma allLeaves_depth (c : nat) (ne nw se sw kid : QuadTree A) :
  allLeaves c (ne, nw, se, sw) ->
  kid = ne \/ kid = nw \/ kid = se \/ kid = sw -> depth kid = O.
Proof.
  intros ((? & ? & ->) & (? & ? & ->) & (? & ? & ->) & (? & ? & ->)).
  intros [-> | [-> | [-> | ->]]]; reflexivity.
Qed.

Lemma insert_total (c : nat) :
  (1 <= c)%nat ->
  forall (fuel : nat) (t : QuadTree A) (obj : A) (n : nat),
    wellFormed c t ->
    (forall p, In p (elements t) -> apart n (bounds t) p obj) ->
    (depth t + n < fuel)%nat ->
    exists r, insert fuel t obj = Some r.
Proof.
  intros Hc. induction fuel as [|fuel IH]; intros t obj n Hwf Hapart Hfuel;
    [lia|].
  rewrite insert_unfold.
  destruct (containsPoint (bounds t) (objX obj) (objY obj)) eqn:Hin;
    cbn [negb]; [|eexists; reflexivity].
  destruct t as [b c' objs | b c' objs ne nw se sw];
    cbn [bounds depth elements] in *.
  - destruct Hwf as (-> & Hlen & Hobjs).
    destruct (Nat.ltb_spec (List.length objs) c) as [Hroom | Hfull];
      [eexists; reflexivity|].
    (* a full leaf: the object shares the bounds with a stored one, so
       they separate further down *)
    destruct objs as [|p0 objs0] eqn:Eobjs; [cbn in Hfull; lia|].
    rewrite <- Eobjs in *.
    assert (Hp0 : In p0 objs) by (rewrite Eobjs; now left).
    destruct n as [|n].
    { exfalso. pose proof (Hapart p0 Hp0) as Hfar.
      rewrite Forall_forall in Hobjs. pose proof (Hobjs p0 Hp0) as Hp0in.
      apply inside_iff in Hp0in. apply containsPoint_true in Hin.
      unfold apart in Hfar. cbn [pow] in Hfar.
      unfold Rdiv in Hfar. rewrite !Rinv_1, !Rmult_1_r in Hfar.
      unfold Rabs in Hfar.
      destruct (Rcase_abs (objX p0 - objX obj)),
        (Rcase_abs (objY p0 - objY obj)); lra. }
    destruct fuel as [|fuel']; [lia|].
    destruct (subdivide_formed c b) as (Hformed & Hempty).
    destruct (redistribute_total fuel' c objs (subdivide b c))
      as (kids1 & E1 & Hleaves).
    { unfold subdivide, create. repeat split; do 2 eexists; reflexivity. }
    { rewrite Hempty. cbn [List.length]. lia. }
    rewrite E1. cbn [bind].
    destruct (redistribute_sound c _ b (insert_sound c (S fuel')) objs _ _
                Hformed Hobjs E1) as (Hkids1 & Hp1).
    rewrite Hempty, app_nil_r in Hp1.
    destruct kids1 as [[[ne nw] se] sw].
    destruct Hkids1 as (Hb1 & Hne & Hnw & Hse & Hsw).
    assert (Hkid : forall kid, kid = ne \/ kid = nw \/ kid = se \/ kid = sw ->
                     wellFormed c kid ->
                     exists r, insert (S fuel') kid obj = Some r).
    { intros kid Hwhich Hwfk. apply (IH kid obj n Hwfk).
      - intros p Hp.
        apply (apart_child (S n) c b kid ne nw se sw p obj Hb1 Hwhich Hin).
        apply Hapart. apply (Permutation_in _ Hp1).
        now apply (In_childrenElements ne nw se sw kid).
      - rewrite (allLeaves_depth c ne nw se sw kid Hleaves Hwhich). lia. }
    destruct (insertIntoChildren_total (insert (S fuel')) ne nw se sw obj)
      as ([[[[ne2 nw2] se2] sw2] ok2] & ->);
      try (apply Hkid; tauto).
    cbn [bind]. eexists; reflexivity.
  - destruct Hwf as (-> & -> & Hb & Hne & Hnw & Hse & Hsw).
    assert (Hkid : forall kid, kid = ne \/ kid = nw \/ kid = se \/ kid = sw ->
                     wellFormed c kid ->
                     exists r, insert fuel kid obj = Some r).
    { intros kid Hwhich Hwfk. apply (IH kid obj (pred n) Hwfk).
      - intros p Hp.
        apply (apart_child n c b kid ne nw se sw p obj Hb Hwhich Hin).
        apply Hapart. cbn [app].
        now apply (In_childrenElements ne nw se sw kid).
      - destruct Hwhich as [-> | [-> | [-> | ->]]]; lia. }
    destruct (insertIntoChildren_total (insert fuel) ne nw se sw obj)
      as ([[[[ne2 nw2] se2] sw2] ok2] & ->);
      try (apply Hkid; tauto).
    cbn [bind]. eexists; reflexivity.
Qed.


(** *** [queryCircle] filters the stored objects *)

Lemma elements_inside (c : nat) (t : QuadTree A) :
  wellFormed c t -> Forall (inside (bounds t)) (elements t).
Proof.
  induction t as [b c' objs | b c' objs ne IHne nw IHnw se IHse sw IHsw];
    cbn [wellFormed elements bounds].
  - intros (_ & _ & Hobjs). exact Hobjs.
  - intros (_ & -> & Hb & Hne & Hnw & Hse & Hsw). cbn [app].
    pose proof (fun p => quadrants_partition c b ne nw se sw p Hb) as Hpart.
    rewrite !Forall_app. repeat split;
      [specialize (IHne Hne) as Hk | specialize (IHnw Hnw) as Hk
       | specialize (IHse Hse) as Hk | specialize (IHsw Hsw) as Hk];
      rewrite Forall_forall in Hk |- *; intros p Hp; apply Hpart;
      specialize (Hk p Hp); tauto.
Qed.

Lemma fold_push (f : A -> bool) (l found : list A) :
  fold_left (fun found obj => if f obj then found ++ [obj] else found) l found
  = found ++ filter f l.
Proof.
  revert found. induction l as [|o l IH]; intros found; cbn [fold_left filter].
  - now rewrite app_nil_r.
  - rewrite IH. destruct (f o); [|reflexivity].
    now rewrite <- app_assoc.
Qed.

Lemma filter_none (f : A -> bool) (l : list A) :
  Forall (fun o => f o = false) l -> filter f l = [].
Proof.
  induction 1 as [|o l Ho _ IH]; cbn [filter]; [reflexivity|].
  now rewrite Ho.
Qed.

Lemma filter_all (f : A -> bool) (l : list A) :
  Forall (fun o => f o = true) l -> filter f l = l.
Proof.
  induction 1 as [|o l Ho _ IH]; cbn [filter]; [reflexivity|].
  now rewrite Ho, IH.
Qed.

Lemma queryCircle_filter (c : nat) (cx cy radius : R) (t : QuadTree A) :
  wellFormed c t ->
  forall found : list A,
    queryCircle t cx cy radius found
    = found ++ filter (inCircle cx cy radius) (elements t).
Proof.
  intros Hwf.
  assert (Hmiss : intersectsCircle (bounds t) cx cy radius = false ->
                  filter (inCircle cx cy radius) (elements t) = []).
  { intros Hfar. apply filter_none.
    eapply Forall_impl; [|exact (elements_inside c t Hwf)].
    intros p Hp. apply inside_iff in Hp.
    apply (intersectsCircle_prunes _ _ _ _ _ Hfar); lra. }
  revert Hwf Hmiss.
  induction t as [b c' objs | b c' objs ne IHne nw IHnw se IHse sw IHsw];
    intros Hwf Hmiss found; cbn [queryCircle bounds objects elements] in *.
  - destruct (intersectsCircle b cx cy radius); cbn [negb].
    + apply fold_push.
    + now rewrite Hmiss, app_nil_r.
  - destruct (intersectsCircle b cx cy radius) eqn:Hhit; cbn [negb].
    2:{ now rewrite Hmiss, app_nil_r. }
    destruct Hwf as (_ & -> & Hb & Hne & Hnw & Hse & Hsw).
    cbn [fold_left app].
    assert (Hsub : forall kid, wellFormed c kid ->
              intersectsCircle (bounds kid) cx cy radius = false ->
              filter (inCircle cx cy radius) (elements kid) = []).
    { intros kid Hk Hfar. apply filter_none.
      eapply Forall_impl; [|exact (elements_inside c kid Hk)].
      intros p Hp. apply inside_iff in Hp.
      apply (intersectsCircle_prunes _ _ _ _ _ Hfar); lra. }
    rewrite IHsw, IHse, IHnw, IHne by auto.
    now rewrite !filter_app, <- !app_assoc.
Qed.

(** *** Distinct positions separate at some depth *)

Lemma apart_mono (n m : nat) (b : Bounds) (p q : A) :
  (n <= m)%nat -> apart n b p q -> apart m b p q.
Proof.
  intros Hnm. unfold apart.
  assert (Hshrink : forall w d : R, 0 <= d -> w / 2 ^ n <= d -> w / 2 ^ m <= d).
  { intros w d Hd Hw.
    assert (Hn : 0 < 2 ^ n) by (apply pow_lt; lra).
    assert (Hm : 0 < 2 ^ m) by (apply pow_lt; lra).
    assert (Hle : 2 ^ n <= 2 ^ m) by (apply Rle_pow; [lra | exact Hnm]).
    destruct (Rle_dec 0 w) as [Hpos | Hneg].
    - apply Rle_trans with (w / 2 ^ n); [|exact Hw].
      unfold Rdiv. apply Rmult_le_compat_l; [exact Hpos|].
      now apply Rinv_le_contravar.
    - apply Rle_trans with 0; [|exact Hd].
      unfold Rdiv. assert (0 < / 2 ^ m) by now apply Rinv_0_lt_compat.
      nra. }
  intros [Hx | Hy]; [left | right]; (eapply Hshrink; [apply Rabs_pos | eassumption]).
Qed.

Lemma shrink_below (w d : R) : 0 < d -> exists n : nat, w / 2 ^ n <= d.
Proof.
  intros Hd.
  destruct (Pow_x_infinity 2) with (b := w / d) as [N HN].
  { rewrite Rabs_pos_eq; lra. }
  exists N. specialize (HN N (Nat.le_refl N)).
  assert (Hpow : 0 < 2 ^ N) by (apply pow_lt; lra).
  rewrite Rabs_pos_eq in HN by lra.
  apply Rmult_le_reg_r with (2 ^ N); [exact Hpow|].
  unfold Rdiv. rewrite Rmult_assoc, Rinv_l, Rmult_1_r by lra.
  apply Rge_le in HN.
  apply (Rmult_le_compat_r d) in HN; [|lra].
  unfold Rdiv in HN. rewrite Rmult_assoc, Rinv_l, Rmult_1_r in HN by lra.
  lra.
Qed.

Lemma distinct_apart (b : Bounds) (p q : A) :
  distinctPositions p q -> exists n : nat, apart n b p q.
Proof.
  intros [Hx | Hy].
  - destruct (shrink_below b.(width) (Rabs (objX p - objX q))) as [n Hn].
    { apply Rabs_pos_lt. lra. }
    exists n. now left.
  - destruct (shrink_below b.(height) (Rabs (objY p - objY q))) as [n Hn].
    { apply Rabs_pos_lt. lra. }
    exists n. now right.
Qed.

Lemma all_apart (b : Bounds) (obj : A) (l : list A) :
  Forall (fun p => distinctPositions p obj) l ->
  exists n : nat, forall p, In p l -> apart n b p obj.
Proof.
  induction 1 as [|p l Hp _ (n & Hn)].
  - exists O. intros p [].
  - destruct (distinct_apart b p obj Hp) as [m Hm].
    exists (Nat.max n m). intros p' [<- | Hin].
    + apply (apart_mono m); [lia | exact Hm].
    + apply (apart_mono n); [lia | now apply Hn].
Qed.


(** *** The rebuild loop *)

Lemma insertAll_none (fuel : nat) (objs : list A) :
  fold_left
    (fun acc asteroid =>
       bind acc (fun tree =>
       bind (insert fuel tree asteroid) (fun '(tree, _) => Some tree)))
    objs None = None.
Proof. induction objs as [|o objs IH]; [reflexivity | exact IH]. Qed.

Lemma insertAll_cons (fuel : nat) (t : QuadTree A) (o : A) (objs : list A) :
  insertAll fuel t (o :: objs)
  = bind (insert fuel t o) (fun '(tree, _) => insertAll fuel tree objs).
Proof.
  unfold insertAll. cbn [fold_left bind].
  destruct (insert fuel t o) as [[t1 ok]|]; cbn [bind];
    [reflexivity | apply insertAll_none].
Qed.

Lemma insertAll_sound (c fuel : nat) :
  forall (objs : list A) (t t' : QuadTree A),
    wellFormed c t ->
    insertAll fuel t objs = Some t' ->
    wellFormed c t' /\ bounds t' = bounds t
    /\ Permutation (elements t') (elements t ++ filter (insideb (bounds t)) objs).
Proof.
  induction objs as [|o objs IH]; intros t t' Hwf.
  - intros [= <-]. split; [exact Hwf | split; [reflexivity|]].
    cbn [filter]. now rewrite app_nil_r.
  - rewrite insertAll_cons.
    destruct (insert fuel t o) as [[t1 ok]|] eqn:E; [|discriminate].
    cbn [bind]. intros Hrest.
    destruct (insert_sound c fuel t o t1 ok Hwf E) as (Hwf1 & Hb1 & Hok & Hp1).
    destruct (IH t1 t' Hwf1 Hrest) as (Hwf' & Hb' & Hp').
    split; [exact Hwf' | split; [congruence|]].
    rewrite Hp', Hb1. cbn [filter]. unfold insideb at 2.
    destruct ok.
    + assert (Hin : inside (bounds t) o) by now apply Hok.
      unfold inside in Hin. rewrite Hin, Hp1. cbn [app].
      apply Permutation_middle.
    + destruct (containsPoint (bounds t) (objX o) (objY o)) eqn:Hin.
      * assert (false = true) by now apply Hok. discriminate.
      * now rewrite Hp1.
Qed.

Lemma distinctPositions_sym (p q : A) :
  distinctPositions p q -> distinctPositions q p.
Proof. unfold distinctPositions. intros [Hx | Hy]; [left | right]; auto. Qed.

Lemma insertAll_total (c : nat) :
  (1 <= c)%nat ->
  forall (objs : list A) (t : QuadTree A),
    wellFormed c t ->
    ForallOrdPairs distinctPositions objs ->
    Forall (fun o => Forall (fun p => distinctPositions p o) (elements t)) objs ->
    exists (fuel : nat) (t' : QuadTree A),
      forall fuel' : nat, (fuel <= fuel')%nat ->
        insertAll fuel' t objs = Some t'.
Proof.
  intros Hc. induction objs as [|o objs IH]; intros t Hwf Hpairs Hfresh.
  - exists O, t. reflexivity.
  - inversion Hpairs as [|? ? Ho Hrest]; subst.
    destruct (all_apart (bounds t) o (elements t) (Forall_inv Hfresh))
      as [n Hn].
    destruct (insert_total c Hc (S (depth t + n)) t o n Hwf Hn)
      as ([t1 ok] & E1); [lia|].
    destruct (insert_sound c _ t o t1 ok Hwf E1) as (Hwf1 & Hb1 & Hok & Hp1).
    destruct (IH t1 Hwf1 Hrest) as (fuel2 & t' & Hall).
    { apply Forall_forall. intros o' Ho'. apply Forall_forall. intros p Hp.
      assert (Hp' : In p (o :: elements t)).
      { destruct ok; [now apply (Permutation_in _ Hp1) |].
        right. now apply (Permutation_in _ Hp1). }
      destruct Hp' as [<- | Hp'].
      - rewrite Forall_forall in Ho. now apply Ho.
      - pose proof (Forall_inv_tail Hfresh) as Hfr.
        rewrite Forall_forall in Hfr. specialize (Hfr o' Ho').
        rewrite Forall_forall in Hfr. now apply Hfr. }
    exists (Nat.max (S (depth t + n)) fuel2), t'. intros fuel' Hfuel.
    rewrite insertAll_cons.
    rewrite (insert_mono (S (depth t + n)) fuel' ltac:(lia) _ _ _ E1).
    cbn [bind]. apply Hall. lia.
Qed.

Lemma create_wellFormed (b : Bounds) (c : nat) : wellFormed c (create b c).
Proof. cbn. repeat split; [lia | constructor]. Qed.

(** In exact arithmetic the quadtree is complete.  Objects at pairwise
    distinct positions, all within the bounds, are inserted one after the
    other into a fresh quadtree of capacity at least 1.  Every call of
    [insert] returns (any recursion budget from some [fuel] on gives the
    same tree); the tree holds exactly the inserted objects, each once; a
    query circle that covers the bounds returns them all, each once; a
    query circle that contains none of them returns nothing.  (Halving a
    cell is exact here.  In binary64 it is not, and the last part of this
    file has objects that the running code loses.) *)
Lemma quadtree_complete (c : nat) (b : Bounds) (objs : list A) :
  (1 <= c)%nat ->
  ForallOrdPairs distinctPositions objs ->
  Forall (inside b) objs ->
  exists (fuel : nat) (tree : QuadTree A),
    (forall fuel' : nat, (fuel <= fuel')%nat ->
       insertAll fuel' (create b c) objs = Some tree)
    /\ Permutation (elements tree) objs
    /\ (forall cx cy radius : R,
          covers cx cy radius b ->
          Permutation (queryCircle tree cx cy radius []) objs)
    /\ (forall cx cy radius : R,
          Forall (fun obj => inCircle cx cy radius obj = false) objs ->
          queryCircle tree cx cy radius [] = []).
Proof.
  intros Hc Hpairs Hin.
  destruct (insertAll_total c Hc objs (create b c) (create_wellFormed b c) Hpairs)
    as (fuel & tree & Hall).
  { apply Forall_forall. intros o _. constructor. }
  exists fuel, tree. split; [exact Hall|].
  destruct (insertAll_sound c fuel objs (create b c) tree
              (create_wellFormed b c) (Hall fuel (Nat.le_refl fuel)))
    as (Hwf & Hb & Hp).
  cbn [create elements bounds app] in Hp.
  rewrite filter_all in Hp by exact Hin.
  split; [exact Hp | split].
  - intros cx cy radius Hcov.
    rewrite (queryCircle_filter c cx cy radius tree Hwf). cbn [app].
    rewrite filter_all; [exact Hp|].
    apply Forall_forall. intros p Hp'.
    apply (Permutation_in _ Hp) in Hp'.
    rewrite Forall_forall in Hin. specialize (Hin p Hp').
    apply inside_iff in Hin. unfold inCircle. apply Rleb_true.
    apply Hcov; lra.
  - intros cx cy radius Hout.
    rewrite (queryCircle_filter c cx cy radius tree Hwf). cbn [app].
    apply filter_none. apply Forall_forall. intros p Hp'.
    apply (Permutation_in _ Hp) in Hp'.
    rewrite Forall_forall in Hout. now apply Hout.
Qed.


(** *** The half-open bounds *)


(** *** Picking the nearest body *)

Lemma closer_keeps (wx wy tol : R) (seen : list A)
    (state : option A * Distance) (p : A) :
  nearestOf wx wy tol seen state ->
  nearestOf wx wy tol (seen ++ [p]) (closer wx wy tol state p).
Proof.
  unfold closer. fold (distanceTo wx wy p).
  destruct state as [[a|] [|d]]; cbn [nearestOf snd ltDistance];
    try contradiction.
  - intros (Hd & Hin & Hhit & Hmin).
    destruct (Rleb_spec (distanceTo wx wy p) (objRadius p + tol)) as [Hp | Hp];
      cbn [andb].
    + destruct (Rltb_spec (distanceTo wx wy p) d) as [Hlt | Hge];
        cbn [nearestOf].
      * split; [reflexivity | split; [|split; [exact Hp|]]].
        -- apply in_or_app. right. now left.
        -- intros q Hq Hqhit. apply in_app_or in Hq.
           destruct Hq as [Hq | [<- | []]]; [|lra].
           specialize (Hmin q Hq Hqhit). lra.
      * split; [exact Hd | split; [|split; [exact Hhit|]]].
        -- apply in_or_app. now left.
        -- intros q Hq Hqhit. apply in_app_or in Hq.
           destruct Hq as [Hq | [<- | []]]; [now apply Hmin | lra].
    + cbn [nearestOf].
      split; [exact Hd | split; [|split; [exact Hhit|]]].
      * apply in_or_app. now left.
      * intros q Hq Hqhit. apply in_app_or in Hq.
        destruct Hq as [Hq | [<- | []]]; [now apply Hmin|].
        unfold hits in Hqhit. lra.
  - intros Hnone.
    destruct (Rleb_spec (distanceTo wx wy p) (objRadius p + tol)) as [Hp | Hp];
      cbn [andb nearestOf].
    + split; [reflexivity | split; [|split; [exact Hp|]]].
      * apply in_or_app. right. now left.
      * intros q Hq Hqhit. apply in_app_or in Hq.
        destruct Hq as [Hq | [<- | []]]; [|lra].
        exfalso. exact (Hnone q Hq Hqhit).
    + intros q Hq Hqhit. apply in_app_or in Hq.
      destruct Hq as [Hq | [<- | []]]; [exact (Hnone q Hq Hqhit)|].
      unfold hits in Hqhit. lra.
Qed.

Lemma closer_fold (wx wy tol : R) (candidates : list A) :
  forall (seen : list A) (state : option A * Distance),
    nearestOf wx wy tol seen state ->
    nearestOf wx wy tol (seen ++ candidates)
      (fold_left (closer wx wy tol) candidates state).
Proof.
  induction candidates as [|p candidates IH]; intros seen state Hstate.
  - now rewrite app_nil_r.
  - cbn [fold_left].
    replace (seen ++ p :: candidates) with ((seen ++ [p]) ++ candidates)
      by (now rewrite <- app_assoc).
    apply IH, closer_keeps, Hstate.
Qed.

(** A body whose hit circle reaches the point and whose radius is within
    the fixed margin is among the candidates. *)
Lemma hits_candidate (wx wy tol : R) (p : A) :
  objRadius p <= 50 -> hits wx wy tol p ->
  inCircle wx wy (tol + 50) p = true.
Proof.
  unfold hits, distanceTo, inCircle. intros Hr Hhit. apply Rleb_true.
  set (s := (wx - objX p) * (wx - objX p) + (wy - objY p) * (wy - objY p))
    in *.
  assert (Hs : 0 <= s)
    by (unfold s; apply Rplus_le_le_0_compat; apply Rle_0_sqr).
  pose proof (sqrt_pos s) as Hroot.
  pose proof (sqrt_sqrt s Hs) as Hsq.
  replace ((objX p - wx) * (objX p - wx) + (objY p - wy) * (objY p - wy))
    with s by (unfold s; ring).
  nra.
Qed.

(** C9, as the code has it.  The tree is any quadtree in the state that
    [insert] leaves one in, and the indexed bodies are the objects it holds.
    The candidates of [findAsteroidAt], the result of its call of
    [queryCircle], are the indexed bodies within [tolerance + 50] of the
    query point.  Among the candidates whose distance to the point is at
    most [radius + tolerance] the result is one at the least distance,
    whatever the order in which they were found, and [null] when there is
    none.  A body of radius at most 50 that satisfies the distance bound is
    always a candidate. *)
Theorem findAsteroidAt_nearest_candidate (c : nat) (tree : QuadTree A)
    (wx wy tol : R) :
  wellFormed c tree ->
  let candidate p :=
    In p (elements tree) /\ inCircle wx wy (tol + 50) p = true in
  (forall p, In p (queryCircle tree wx wy (tol + 50) []) <-> candidate p)
  /\ match findAsteroidAt (Some tree) wx wy tol with
     | Some a =>
         candidate a /\ hits wx wy tol a
         /\ forall p, candidate p -> hits wx wy tol p ->
                      distanceTo wx wy a <= distanceTo wx wy p
     | None => forall p, candidate p -> ~ hits wx wy tol p
     end
  /\ (forall p, In p (elements tree) -> objRadius p <= 50 ->
                hits wx wy tol p -> candidate p).
Proof.
  intros Hwf. cbv zeta.
  split; [|split].
  - intros p. rewrite (queryCircle_filter c wx wy (tol + 50) tree Hwf).
    cbn [app]. apply filter_In.
  - unfold findAsteroidAt.
    rewrite (queryCircle_filter c wx wy (tol + 50) tree Hwf). cbn [app].
    pose proof (closer_fold wx wy tol
                  (filter (inCircle wx wy (tol + 50)) (elements tree))
                  [] (None, Infinity)) as Hfold.
    cbn [app] in Hfold.
    destruct (fold_left (closer wx wy tol) _ (None, Infinity))
      as [[a|] [|d]]; cbn [nearestOf fst] in *;
      try (exfalso; apply Hfold; intros ? []).
    + destruct Hfold as (Hd & Hin & Hhit & Hmin); [intros ? []|].
      split; [now apply filter_In in Hin | split; [exact Hhit|]].
      intros p Hcand Hphit. rewrite <- Hd. apply Hmin; [|exact Hphit].
      now apply filter_In.
    + intros p Hcand. apply Hfold; [intros ? [] | now apply filter_In].
  - intros p Hin Hr Hhit. split; [exact Hin|].
    now apply hits_candidate.
Qed.

(** A rebuilt quadtree is in that state, and the bodies it holds are among
    the given ones.  (In exact arithmetic they are all the given bodies
    within the world bounds; in binary64 the code can drop bodies that are
    too close for its subdivision.) *)
Lemma rebuildQuadtree_wellFormed (fuel : nat) (asteroids : list A)
    (world : WorldBounds) (tree : QuadTree A) :
  rebuildQuadtree fuel asteroids world = Some tree ->
  wellFormed 8 tree
  /\ forall p, In p (elements tree)
               <-> In p asteroids /\ inside (worldBounds world) p.
Proof.
  intros Hbuilt. unfold rebuildQuadtree in Hbuilt.
  destruct (insertAll_sound 8 fuel asteroids _ tree
              (create_wellFormed _ 8) Hbuilt) as (Hwf & Hb & Hp).
  cbn [create elements bounds app] in Hp.
  fold (worldBounds world) in Hp.
  split; [exact Hwf|].
  intros p. split.
  - intros Hin. apply (Permutation_in _ Hp) in Hin.
    apply filter_In in Hin. exact Hin.
  - intros Hin. apply (Permutation_in _ (Permutation_sym Hp)).
    apply filter_In. exact Hin.
Qed.

(** A single body within the world bounds is stored in the root. *)
Lemma rebuild_single (fuel : nat) (body : A) (world : WorldBounds) :
  inside (worldBounds world) body ->
  rebuildQuadtree (S fuel) [body] world
  = Some (Leaf (worldBounds world) 8 [body]).
Proof.
  intros Hin. unfold rebuildQuadtree, insertAll, create.
  cbn [fold_left bind]. rewrite insert_leaf_room by (cbn; lia).
  unfold inside in Hin. now rewrite Hin.
Qed.

End QuadTreeFacts.

(** ** Worked instances on asteroids *)

Section QuadTreeInstances.

Import Selection Samples.

Lemma twoBodies_complete :
  exists (fuel : nat) (tree : QuadTree Asteroid.Asteroid),
    (forall fuel' : nat, (fuel <= fuel')%nat ->
       insertAll fuel' (create (worldBounds world) 1) twoBodies = Some tree)
    /\ Permutation (elements tree) twoBodies
    /\ (forall cx cy radius : R,
          covers cx cy radius (worldBounds world) ->
          Permutation (queryCircle tree cx cy radius []) twoBodies)
    /\ (forall cx cy radius : R,
          Forall (fun obj => inCircle cx cy radius obj = false) twoBodies ->
          queryCircle tree cx cy radius [] = []).
Proof.
  apply (quadtree_complete 1 (worldBounds world) twoBodies).
  - lia.
  - constructor; [|constructor; constructor].
    constructor; [|constructor]. left. cbn. lra.
  - constructor; [|constructor; [|constructor]]; apply inside_iff; cbn; lra.
Qed.

(** Two bodies whose hit circles both reach the query point [(0, 0)]: the
    farther one is found first, the nearer one is returned. *)
Lemma findAsteroidAt_nearest_candidate_witness :
  let tree := Leaf (worldBounds world) 8 [farBody; nearBody] in
  let candidate p :=
    In p (elements tree) /\ inCircle 0 0 (0 + 50) p = true in
  findAsteroidAt (Some tree) 0 0 0 = Some nearBody
  /\ (forall p, In p (queryCircle tree 0 0 (0 + 50) []) <-> candidate p)
  /\ match findAsteroidAt (Some tree) 0 0 0 with
     | Some a =>
         candidate a /\ hits 0 0 0 a
         /\ forall p, candidate p -> hits 0 0 0 p ->
                      distanceTo 0 0 a <= distanceTo 0 0 p
     | None => forall p, candidate p -> ~ hits 0 0 0 p
     end
  /\ (forall p, In p (elements tree) -> objRadius p <= 50 ->
                hits 0 0 0 p -> candidate p).
Proof.
  intros tree candidate.
  assert (Hwf : wellFormed 8 tree).
  { unfold tree. cbn [wellFormed List.length].
    split; [reflexivity | split; [lia|]].
    constructor; [|constructor; [|constructor]]; apply inside_iff; cbn; lra. }
  pose proof (findAsteroidAt_nearest_candidate 8 tree 0 0 0 Hwf) as Hall.
  cbv zeta in Hall. fold candidate in Hall.
  split; [|exact Hall].
  destruct Hall as (_ & Hres & _).
  assert (Hfar : distanceTo 0 0 farBody = 10).
  { unfold distanceTo. cbn.
    replace ((0 - 10) * (0 - 10) + (0 - 0) * (0 - 0)) with (10 * 10)
      by ring.
    apply sqrt_square. lra. }
  assert (Hnear : distanceTo 0 0 nearBody = 3).
  { unfold distanceTo. cbn.
    replace ((0 - 3) * (0 - 3) + (0 - 0) * (0 - 0)) with (3 * 3) by ring.
    apply sqrt_square. lra. }
  assert (Hcand : candidate nearBody).
  { split; [right; left; reflexivity|].
    unfold inCircle. cbn. apply Rleb_true. lra. }
  assert (Hhit : hits 0 0 0 nearBody).
  { unfold hits. rewrite Hnear. cbn. lra. }
  destruct (findAsteroidAt (Some tree) 0 0 0) as [a|].
  - destruct Hres as ((Hin & _) & _ & Hmin).
    destruct Hin as [<- | [<- | []]]; [|reflexivity].
    specialize (Hmin nearBody Hcand Hhit). rewrite Hfar, Hnear in Hmin. lra.
  - exfalso. exact (Hres nearBody Hcand Hhit).
Defined.

(** C9, as stated, fails: a body of radius 60 whose centre is 55 away from
    the query point is indexed and within its hit radius, and
    [findAsteroidAt] returns [null], because the body is not within
    [tolerance + 50] of the point. *)
Lemma findAsteroidAt_misses_large_body :
  exists tree : QuadTree Asteroid.Asteroid,
    rebuildQuadtree 1 [largeBody] world = Some tree
    /\ In largeBody (elements tree)
    /\ hits 0 0 0 largeBody
    /\ findAsteroidAt (Some tree) 0 0 0 = None.
Proof.
  exists (Leaf (worldBounds world) 8 [largeBody]).
  split; [|split; [|split]].
  - apply rebuild_single. apply inside_iff. cbn. lra.
  - now left.
  - unfold hits, distanceTo. cbn.
    replace ((0 - 55) * (0 - 55) + (0 - 0) * (0 - 0)) with (55 * 55) by ring.
    rewrite sqrt_square; lra.
  - unfold findAsteroidAt.
    rewrite (queryCircle_filter 8).
    + cbn [app elements filter].
      assert (Hfar : inCircle 0 0 (0 + 50) largeBody = false).
      { unfold inCircle. cbn. apply Rleb_false. lra. }
      now rewrite Hfar.
    + cbn [wellFormed List.length]. split; [reflexivity | split; [lia|]].
      constructor; [|constructor]. apply inside_iff. cbn. lra.
Qed.

End QuadTreeInstances.

(** ** Kepler's equation *)

Section Calculus.

(** A function whose derivative is not negative on an interval does not
    decrease over it. *)
Lemma nondecreasing_on (f f' : R -> R) (a b : R) :
  a <= b ->
  (forall c, a <= c <= b -> derivable_pt_lim f c (f' c)) ->
  (forall c, a <= c <= b -> 0 <= f' c) ->
  f a <= f b.
Proof.
  intros [Hlt | ->] Hder Hpos; [|lra].
  destruct (MVT_cor2 f f' a b Hlt Hder) as (c & Heq & Hc).
  assert (0 <= f' c) by (apply Hpos; lra). nra.
Qed.

Lemma derive_sin_minus_x_cos (c : R) :
  derivable_pt_lim (fun x => sin x - x * cos x) c (c * sin c).
Proof.
  replace (c * sin c) with (cos c - (1 * cos c + c * - sin c)) by ring.
  apply (derivable_pt_lim_minus sin (fun x => x * cos x));
    [apply derivable_pt_lim_sin|].
  apply (derivable_pt_lim_mult id cos);
    [apply derivable_pt_lim_id | apply derivable_pt_lim_cos].
Qed.

(** [x cos x <= sin x] on [[0, π]]. *)
Lemma x_cos_le_sin (x : R) : 0 <= x <= PI -> x * cos x <= sin x.
Proof.
  intros Hx.
  pose proof (nondecreasing_on (fun x => sin x - x * cos x)
                (fun x => x * sin x) 0 x (proj1 Hx)) as Hmono.
  cbv beta in Hmono. rewrite sin_0, Rmult_0_l, Rminus_0_r in Hmono.
  assert (0 <= sin x - x * cos x); [|lra].
  apply Hmono.
  - intros c _. apply derive_sin_minus_x_cos.
  - intros c Hc. apply Rmult_le_pos; [lra|]. apply sin_ge_0; lra.
Qed.

(** The sine lies below each of its tangents over [[0, π]]. *)
Lemma sin_below_tangent (a b : R) :
  0 <= a <= PI -> 0 <= b <= PI -> sin a <= sin b + cos b * (a - b).
Proof.
  intros Ha Hb.
  assert (Hder : forall c, derivable_pt_lim
                   (fun t => sin b + cos b * (t - b) - sin t) c
                   (cos b - cos c)).
  { intros c.
    replace (cos b - cos c) with (0 + (0 * (c - b) + cos b * (1 - 0)) - cos c)
      by ring.
    apply (derivable_pt_lim_minus (fun t => sin b + cos b * (t - b)) sin);
      [|apply derivable_pt_lim_sin].
    apply (derivable_pt_lim_plus (fun _ => sin b) (fun t => cos b * (t - b)));
      [apply derivable_pt_lim_const|].
    apply (derivable_pt_lim_mult (fun _ => cos b) (fun t => t - b));
      [apply derivable_pt_lim_const|].
    apply (derivable_pt_lim_minus id (fun _ => b));
      [apply derivable_pt_lim_id | apply derivable_pt_lim_const]. }
  assert (Hder' : forall c, derivable_pt_lim
                    (fun t => - (sin b + cos b * (t - b) - sin t)) c
                    (- (cos b - cos c))).
  { intros c.
    apply (derivable_pt_lim_opp (fun t => sin b + cos b * (t - b) - sin t)),
      Hder. }
  destruct (Rle_dec a b) as [Hab | Hba].
  - (* the gap to the tangent shrinks towards [b] *)
    pose proof (nondecreasing_on _ _ a b Hab (fun c _ => Hder' c)) as Hmono.
    cbv beta in Hmono.
    assert (- (sin b + cos b * (a - b) - sin a)
            <= - (sin b + cos b * (b - b) - sin b)); [|lra].
    apply Hmono. intros c Hc.
    assert (cos b <= cos c) by (apply cos_decr_1; lra). lra.
  - pose proof (nondecreasing_on _ _ b a ltac:(lra) (fun c _ => Hder c))
      as Hmono.
    cbv beta in Hmono.
    assert (sin b + cos b * (b - b) - sin b
            <= sin b + cos b * (a - b) - sin a); [|lra].
    apply Hmono. intros c Hc.
    assert (cos c <= cos b) by (apply cos_decr_1; lra). lra.
Qed.

(** [sin x / x] does not increase over [[0, π]]. *)
Lemma sin_ratio (a b : R) : 0 <= a <= b -> b <= PI -> a * sin b <= b * sin a.
Proof.
  intros Hab Hb.
  assert (Hder : forall c, derivable_pt_lim
                   (fun t => t * sin a - a * sin t) c (sin a - a * cos c)).
  { intros c.
    replace (sin a - a * cos c)
      with ((1 * sin a + c * 0) - (0 * sin c + a * cos c)) by ring.
    apply (derivable_pt_lim_minus (fun t => t * sin a) (fun t => a * sin t)).
    - apply (derivable_pt_lim_mult id (fun _ => sin a));
        [apply derivable_pt_lim_id | apply derivable_pt_lim_const].
    - apply (derivable_pt_lim_mult (fun _ => a) sin);
        [apply derivable_pt_lim_const | apply derivable_pt_lim_sin]. }
  pose proof (nondecreasing_on _ _ a b (proj2 Hab) (fun c _ => Hder c))
    as Hmono.
  cbv beta in Hmono.
  assert (a * sin a - a * sin a <= b * sin a - a * sin b); [|lra].
  apply Hmono. intros c Hc.
  assert (cos c <= cos a) by (apply cos_decr_1; lra).
  assert (a * cos a <= sin a) by (apply x_cos_le_sin; lra).
  nra.
Qed.

(** [3 sin x <= x (2 + cos x)] on [[0, π]]. *)
Lemma three_sin (x : R) : 0 <= x <= PI -> 3 * sin x <= x * (2 + cos x).
Proof.
  intros Hx.
  assert (Hder1 : forall c, derivable_pt_lim
                    (fun t => 2 - 2 * cos t - t * sin t) c
                    (sin c - c * cos c)).
  { intros c.
    replace (sin c - c * cos c)
      with (0 - (0 * cos c + 2 * - sin c) - (1 * sin c + c * cos c)) by ring.
    apply (derivable_pt_lim_minus (fun t => 2 - 2 * cos t)
             (fun t => t * sin t)).
    - apply (derivable_pt_lim_minus (fun _ => 2) (fun t => 2 * cos t));
        [apply derivable_pt_lim_const|].
      apply (derivable_pt_lim_mult (fun _ => 2) cos);
        [apply derivable_pt_lim_const | apply derivable_pt_lim_cos].
    - apply (derivable_pt_lim_mult id sin);
        [apply derivable_pt_lim_id | apply derivable_pt_lim_sin]. }
  assert (Hder0 : forall c, derivable_pt_lim
                    (fun t => t * (2 + cos t) - 3 * sin t) c
                    (2 - 2 * cos c - c * sin c)).
  { intros c.
    replace (2 - 2 * cos c - c * sin c)
      with ((1 * (2 + cos c) + c * (0 + - sin c)) - (0 * sin c + 3 * cos c))
      by ring.
    apply (derivable_pt_lim_minus (fun t => t * (2 + cos t))
             (fun t => 3 * sin t)).
    - apply (derivable_pt_lim_mult id (fun t => 2 + cos t));
        [apply derivable_pt_lim_id|].
      apply (derivable_pt_lim_plus (fun _ => 2) cos);
        [apply derivable_pt_lim_const | apply derivable_pt_lim_cos].
    - apply (derivable_pt_lim_mult (fun _ => 3) sin);
        [apply derivable_pt_lim_const | apply derivable_pt_lim_sin]. }
  assert (Hslope : forall c, 0 <= c <= x -> 0 <= 2 - 2 * cos c - c * sin c).
  { intros c Hc.
    pose proof (nondecreasing_on _ _ 0 c (proj1 Hc) (fun t _ => Hder1 t))
      as Hmono.
    cbv beta in Hmono. rewrite cos_0, sin_0 in Hmono.
    assert (2 - 2 * 1 - 0 * 0 <= 2 - 2 * cos c - c * sin c); [|lra].
    apply Hmono. intros t Ht.
    assert (t * cos t <= sin t) by (apply x_cos_le_sin; lra). lra. }
  pose proof (nondecreasing_on _ _ 0 x (proj1 Hx) (fun t _ => Hder0 t) Hslope)
    as Hmono.
  cbv beta in Hmono. rewrite cos_0, sin_0 in Hmono. lra.
Qed.

(** The chord of the sine over [[a, b]] against the slope at [b]. *)
Lemma sin_chord (a b : R) :
  0 <= a <= b -> b <= PI ->
  3 * (sin b - sin a) <= (b - a) * (2 + cos b).
Proof.
  intros Hab Hb.
  destruct (Req_dec b 0) as [-> | Hnz].
  - assert (a = 0) as -> by lra. rewrite sin_0. lra.
  - assert (Hpos : 0 < b) by lra.
    pose proof (sin_ratio a b Hab Hb) as Hratio.
    pose proof (three_sin b ltac:(lra)) as Hthree.
    apply Rmult_le_reg_l with b; [exact Hpos|].
    assert (b * (3 * (sin b - sin a)) <= 3 * (b - a) * sin b) by nra.
    assert (3 * (b - a) * sin b <= (b - a) * (b * (2 + cos b))) by nra.
    nra.
Qed.


Lemma Rabs_between (u v : R) : Rabs u <= v -> - v <= u <= v.
Proof. unfold Rabs. destruct (Rcase_abs u); lra. Qed.

Lemma one_minus_cos (x : R) : 1 - cos x <= x * x / 2.
Proof.
  assert (Hpos : forall y, 0 <= y -> 1 - cos y <= y * y / 2).
  { intros y Hy.
    assert (Hder : forall c, derivable_pt_lim
                     (fun t => t * t / 2 - 1 + cos t) c (c - sin c)).
    { intros c.
      replace (c - sin c) with ((1 * c + c * 1) / 2 - 0 + - sin c) by field.
      apply (derivable_pt_lim_plus (fun t => t * t / 2 - 1) cos);
        [|apply derivable_pt_lim_cos].
      apply (derivable_pt_lim_minus (fun t => t * t / 2) (fun _ => 1));
        [|apply derivable_pt_lim_const].
      apply (derivable_pt_lim_div_scal (fun t => t * t) c _ 2).
      apply (derivable_pt_lim_mult id id); apply derivable_pt_lim_id. }
    pose proof (nondecreasing_on _ _ 0 y Hy (fun c _ => Hder c)) as Hmono.
    cbv beta in Hmono. rewrite cos_0 in Hmono.
    assert (0 * 0 / 2 - 1 + 1 <= y * y / 2 - 1 + cos y); [|lra].
    apply Hmono. intros c [Hc _].
    destruct Hc as [Hc | <-]; [|rewrite sin_0; lra].
    pose proof (sin_lt_x c Hc). lra. }
  destruct (Rle_dec 0 x) as [Hx | Hx]; [now apply Hpos|].
  rewrite <- (cos_neg x). replace (x * x) with (- x * - x) by ring.
  apply Hpos. lra.
Qed.

Lemma x_minus_sin (x : R) : 0 <= x -> 0 <= x - sin x <= x * x * x / 6.
Proof.
  intros Hx. split.
  - destruct Hx as [Hx | <-]; [|rewrite sin_0; lra].
    pose proof (sin_lt_x x Hx). lra.
  - assert (Hder : forall c, derivable_pt_lim
                     (fun t => t * t * t / 6 - t + sin t) c
                     (c * c / 2 - 1 + cos c)).
    { intros c.
      replace (c * c / 2 - 1 + cos c)
        with (((1 * c + c * 1) * c + c * c * 1) / 6 - 1 + cos c) by field.
      apply (derivable_pt_lim_plus (fun t => t * t * t / 6 - t) sin);
        [|apply derivable_pt_lim_sin].
      apply (derivable_pt_lim_minus (fun t => t * t * t / 6) id);
        [|apply derivable_pt_lim_id].
      apply (derivable_pt_lim_div_scal (fun t => t * t * t) c _ 6).
      apply (derivable_pt_lim_mult (fun t => t * t) id);
        [|apply derivable_pt_lim_id].
      apply (derivable_pt_lim_mult id id); apply derivable_pt_lim_id. }
    pose proof (nondecreasing_on _ _ 0 x Hx (fun c _ => Hder c)) as Hmono.
    cbv beta in Hmono. rewrite sin_0 in Hmono.
    assert (0 * 0 * 0 / 6 - 0 + 0 <= x * x * x / 6 - x + sin x); [|lra].
    apply Hmono. intros c _. pose proof (one_minus_cos c). lra.
Qed.

(** The second-order remainder of the sine, for a short step. *)
Lemma sin_step (E d : R) :
  Rabs d <= 1 ->
  Rabs (sin (E - d) - sin E + d * cos E) <= d * d.
Proof.
  intros Hd.
  replace (sin (E - d) - sin E + d * cos E)
    with (cos E * (d - sin d) - sin E * (1 - cos d))
    by (rewrite sin_minus; ring).
  pose proof (SIN_bound E) as HsE. pose proof (COS_bound E) as HcE.
  pose proof (one_minus_cos d) as Hc.
  pose proof (COS_bound d) as Hcd.
  assert (Hs : Rabs (d - sin d) <= d * d / 2).
  { destruct (Rle_dec 0 d) as [Hpos | Hneg].
    - rewrite Rabs_pos_eq in Hd by exact Hpos.
      destruct (x_minus_sin d Hpos) as [H0 H3].
      rewrite Rabs_pos_eq by exact H0. nra.
    - rewrite Rabs_left in Hd by lra.
      destruct (x_minus_sin (- d) ltac:(lra)) as [H0 H3].
      rewrite sin_neg in H0, H3.
      rewrite Rabs_left1 by lra. nra. }
  apply Rabs_le. apply Rabs_between in Hs. split; nra.
Qed.

End Calculus.

Section Kepler.

Import Utils Constants Orbital.

Lemma newtonLoop_S (n : nat) (M ecc E : R) :
  newtonLoop (S n) M ecc E
  = if Rltb (Rabs (newtonStep M ecc E)) KEPLER_TOLERANCE
    then E - newtonStep M ecc E
    else newtonLoop n M ecc (E - newtonStep M ecc E).
Proof. reflexivity. Qed.

Variables M ecc : R.
Hypothesis Hecc : 0 <= ecc < 1.

Lemma slope_pos (E : R) : 0 < 1 - ecc <= 1 - ecc * cos E.
Proof. pose proof (COS_bound E). split; [lra | nra]. Qed.

Lemma newtonStep_slope (E : R) :
  newtonStep M ecc E * (1 - ecc * cos E) = keplerResidual M ecc E.
Proof.
  unfold newtonStep, keplerResidual. field.
  pose proof (slope_pos E). lra.
Qed.

(** The residual after a step is [ecc] times the second-order remainder
    of the sine. *)
Lemma residual_after_step (E : R) :
  keplerResidual M ecc (E - newtonStep M ecc E)
  = - ecc * (sin (E - newtonStep M ecc E) - sin E
             + newtonStep M ecc E * cos E).
Proof.
  pose proof (newtonStep_slope E) as Hs. unfold keplerResidual in *. lra.
Qed.

Lemma residual_short_step (E : R) :
  Rabs (newtonStep M ecc E) < KEPLER_TOLERANCE ->
  Rabs (keplerResidual M ecc (E - newtonStep M ecc E))
  <= KEPLER_TOLERANCE * KEPLER_TOLERANCE.
Proof.
  intros Hshort. rewrite residual_after_step.
  set (d := newtonStep M ecc E) in *.
  assert (Htol : KEPLER_TOLERANCE < 1) by (unfold KEPLER_TOLERANCE; lra).
  pose proof (sin_step E d ltac:(lra)) as Hrem.
  pose proof (Rabs_pos d) as Hd0.
  assert (Hdd : d * d = Rabs d * Rabs d).
  { unfold Rabs. destruct (Rcase_abs d); ring. }
  rewrite Rabs_mult, Rabs_Ropp, (Rabs_pos_eq ecc) by lra.
  set (rem := Rabs (sin (E - d) - sin E + d * cos E)) in *.
  assert (0 <= rem) by apply Rabs_pos.
  nra.
Qed.

Hypothesis HM : 0 <= M.

(** One round of the loop from an iterate in [[0, π]] whose residual is not
    negative: the next iterate is to its left, still in [[0, π]], its
    residual is not negative and at most two thirds of the previous one. *)
Lemma descent_step (E : R) :
  0 <= E <= PI -> 0 <= keplerResidual M ecc E ->
  0 <= E - newtonStep M ecc E <= E
  /\ 0 <= keplerResidual M ecc (E - newtonStep M ecc E)
       <= 2 / 3 * keplerResidual M ecc E.
Proof.
  intros HE Hres.
  pose proof (slope_pos E) as Hslope.
  pose proof (newtonStep_slope E) as Hs.
  set (d := newtonStep M ecc E) in *.
  set (fp := 1 - ecc * cos E) in *.
  assert (Hd : 0 <= d).
  { destruct (Rle_dec 0 d) as [|Hneg]; [assumption|]. exfalso. nra. }
  assert (HdE : d <= E).
  { pose proof (x_cos_le_sin E HE) as Hx.
    assert (d * fp <= E * fp).
    { rewrite Hs. unfold keplerResidual, fp. nra. }
    apply Rmult_le_reg_r with fp; lra. }
  split; [lra|].
  pose proof (sin_below_tangent (E - d) E ltac:(lra) HE) as Htan.
  pose proof (sin_chord (E - d) E ltac:(lra) ltac:(lra)) as Hchord.
  rewrite residual_after_step. fold d. split; [nra|].
  assert (Hdiff : keplerResidual M ecc E
                  - - ecc * (sin (E - d) - sin E + d * cos E)
                  = d - ecc * (sin E - sin (E - d))).
  { rewrite <- Hs. unfold fp. ring. }
  assert (3 * (d - ecc * (sin E - sin (E - d))) >= keplerResidual M ecc E);
    [|lra].
  rewrite <- Hs. unfold fp.
  replace (E - (E - d)) with d in Hchord by ring. nra.
Qed.

Lemma descent (n : nat) :
  forall E : R,
    0 <= E <= PI -> 0 <= keplerResidual M ecc E ->
    0 <= keplerResidual M ecc (newtonLoop n M ecc E)
    /\ (keplerResidual M ecc (newtonLoop n M ecc E)
        <= (2 / 3) ^ n * keplerResidual M ecc E
        \/ keplerResidual M ecc (newtonLoop n M ecc E)
           <= KEPLER_TOLERANCE * KEPLER_TOLERANCE).
Proof.
  induction n as [|n IH]; intros E HE Hres.
  - cbn [newtonLoop pow]. split; [exact Hres | left; lra].
  - rewrite newtonLoop_S.
    destruct (descent_step E HE Hres) as (Hnext & Hres0 & Hres1).
    destruct (Rltb_spec (Rabs (newtonStep M ecc E)) KEPLER_TOLERANCE)
      as [Hshort | Hlong].
    + split; [exact Hres0 | right].
      pose proof (residual_short_step E Hshort) as Hsmall.
      apply Rabs_between in Hsmall. lra.
    + destruct (IH (E - newtonStep M ecc E) ltac:(lra) Hres0)
        as (Hfin0 & [Hfin | Hfin]); split; try assumption; [left | now right].
      cbn [pow].
      assert (0 <= (2 / 3) ^ n) by (apply pow_le; lra).
      nra.
Qed.


(** The first round from [E = M] when [ecc <= 0.8]: the step goes right,
    stays within [[0, π]] and lands where the residual is not negative. *)
Lemma first_step :
  ecc <= 8 / 10 -> M <= PI ->
  M <= M - newtonStep M ecc M <= PI
  /\ 0 <= keplerResidual M ecc (M - newtonStep M ecc M) <= PI - M.
Proof.
  intros He HMpi.
  pose proof (slope_pos M) as Hslope.
  pose proof (newtonStep_slope M) as Hs.
  assert (HsinM : 0 <= sin M) by (apply sin_ge_0; lra).
  set (d := newtonStep M ecc M) in *.
  unfold keplerResidual in Hs.
  assert (Hd : d <= 0).
  { destruct (Rle_dec d 0) as [|Hpos]; [assumption|]. exfalso. nra. }
  assert (Hstep : - d <= PI - M).
  { destruct (Rle_dec (PI / 2) M) as [Hfar | Hnear].
    - (* the slope is at least 1 and [sin M <= π - M] *)
      assert (HcosM : cos M <= 0) by (apply cos_le_0; lra).
      assert (Hsin : sin M <= PI - M).
      { replace (sin M) with (sin (PI - M)) by (rewrite sin_PI_x; reflexivity).
        destruct (Req_dec (PI - M) 0) as [-> | Hnz]; [rewrite sin_0; lra|].
        pose proof (sin_lt_x (PI - M) ltac:(lra)). lra. }
      assert (Hec : ecc * cos M <= 0) by nra.
      assert (Hes : ecc * sin M <= sin M) by nra.
      assert (Hdf : - d <= - d * (1 - ecc * cos M)) by nra.
      lra.
    - (* the step is at most 4/3, which is less than π/2 *)
      pose proof PI2_3_2 as Hpi.
      pose proof (sin2_cos2 M) as Hsq. unfold Rsqr in Hsq.
      assert (Hquad : (3 * (ecc * sin M)) * (3 * (ecc * sin M))
                      <= (4 * (1 - ecc * cos M)) * (4 * (1 - ecc * cos M))).
      { assert (0 <= (ecc * cos M - 16 / 25) * (ecc * cos M - 16 / 25))
          by apply Rle_0_sqr.
        assert (ecc * ecc <= 64 / 100) by nra.
        assert (Hss : ecc * sin M * (ecc * sin M)
                      = ecc * ecc * (1 - cos M * cos M)).
        { rewrite <- Hsq. ring. }
        nra. }
      assert (Hlin : 3 * (ecc * sin M) <= 4 * (1 - ecc * cos M)).
      { destruct (Rle_dec (3 * (ecc * sin M)) (4 * (1 - ecc * cos M)));
          [assumption|].
        exfalso. assert (0 <= ecc * sin M) by nra. nra. }
      assert (- d * (1 - ecc * cos M) = ecc * sin M) by lra.
      assert (- d <= 4 / 3); [|lra].
      apply Rmult_le_reg_r with (1 - ecc * cos M); lra. }
  split; [lra|].
  assert (HE1 : 0 <= M - d <= PI) by lra.
  pose proof (sin_below_tangent (M - d) M HE1 ltac:(lra)) as Htan.
  rewrite residual_after_step. fold d. split; [nra|].
  assert (0 <= sin (M - d)) by (apply sin_ge_0; lra).
  replace (- ecc * (sin (M - d) - sin M + d * cos M))
    with (M - d - ecc * sin (M - d) - M) by lra.
  nra.
Qed.

End Kepler.

Section KeplerRoundTrip.

Import Utils Constants Orbital.

Lemma sin_reflect (E : R) : sin (2 * PI - E) = - sin E.
Proof. rewrite sin_minus, sin_2PI, cos_2PI. ring. Qed.

Lemma cos_reflect (E : R) : cos (2 * PI - E) = cos E.
Proof. rewrite cos_minus, sin_2PI, cos_2PI. ring. Qed.

Lemma newtonStep_reflect (M ecc E : R) :
  newtonStep (2 * PI - M) ecc (2 * PI - E) = - newtonStep M ecc E.
Proof.
  unfold newtonStep. rewrite sin_reflect, cos_reflect.
  unfold Rdiv. ring.
Qed.

(** The loop commutes with the reflection [E ↦ 2π - E], [M ↦ 2π - M]. *)
Lemma newtonLoop_reflect (n : nat) (M ecc : R) :
  forall E : R,
    newtonLoop n (2 * PI - M) ecc (2 * PI - E)
    = 2 * PI - newtonLoop n M ecc E.
Proof.
  induction n as [|n IH]; intros E; [reflexivity|].
  rewrite !newtonLoop_S, newtonStep_reflect, Rabs_Ropp.
  replace (2 * PI - E - - newtonStep M ecc E)
    with (2 * PI - (E - newtonStep M ecc E)) by ring.
  destruct (Rltb _ _); [reflexivity | apply IH].
Qed.

Lemma keplerResidual_reflect (M ecc E : R) :
  keplerResidual (2 * PI - M) ecc (2 * PI - E) = - keplerResidual M ecc E.
Proof. unfold keplerResidual. rewrite sin_reflect. ring. Qed.

Lemma budget_49 : (2 / 3) ^ 49 * 4 < KEPLER_TOLERANCE.
Proof.
  unfold KEPLER_TOLERANCE, Rdiv. rewrite Rpow_mult_distr, pow_inv, !pow_IZR.
  set (p := (2 ^ Z.of_nat 49)%Z). set (q := (3 ^ Z.of_nat 49)%Z).
  vm_compute in p, q. subst p q. lra.
Qed.

Lemma tolerance_squared : KEPLER_TOLERANCE * KEPLER_TOLERANCE < KEPLER_TOLERANCE.
Proof. unfold KEPLER_TOLERANCE. lra. Qed.

(** The loop as [solveKeplerEquation] starts it, for [M] in [[0, π]]. *)
Lemma newtonLoop_residual_half (M ecc : R) :
  0 <= ecc < 1 -> 0 <= M <= PI ->
  Rabs (keplerResidual M ecc
          (newtonLoop KEPLER_MAX_ITERATIONS M ecc
             (if Rltb (8 / 10) ecc then PI else M)))
  < KEPLER_TOLERANCE.
Proof.
  intros Hecc HM. unfold KEPLER_MAX_ITERATIONS.
  pose proof budget_49 as Hbudget. pose proof tolerance_squared as Htol.
  pose proof PI_4 as Hpi4. pose proof PI_RGT_0 as Hpi0.
  assert (Hpow : 0 <= (2 / 3) ^ 49) by (apply pow_le; lra).
  destruct (Rltb_spec (8 / 10) ecc) as [Hhigh | Hlow].
  - (* from π, where the residual is π - M *)
    assert (Hres : keplerResidual M ecc PI = PI - M).
    { unfold keplerResidual. rewrite sin_PI. ring. }
    destruct (descent M ecc Hecc (proj1 HM) 50 PI ltac:(lra) ltac:(lra))
      as (H0 & [Hfin | Hfin]).
    + rewrite Rabs_pos_eq by exact H0. rewrite Hres in Hfin.
      change ((2 / 3) ^ 50) with (2 / 3 * (2 / 3) ^ 49) in Hfin. nra.
    + rewrite Rabs_pos_eq by exact H0. lra.
  - (* from M: one round to the right, then the descent *)
    rewrite newtonLoop_S.
    destruct (first_step M ecc Hecc (proj1 HM) ltac:(lra) (proj2 HM))
      as (HE1 & Hres1).
    destruct (Rltb_spec (Rabs (newtonStep M ecc M)) KEPLER_TOLERANCE)
      as [Hshort | Hlong].
    + pose proof (residual_short_step M ecc Hecc M Hshort). lra.
    + destruct (descent M ecc Hecc (proj1 HM) 49 (M - newtonStep M ecc M)
                  ltac:(lra) (proj1 Hres1)) as (H0 & [Hfin | Hfin]);
        rewrite Rabs_pos_eq by exact H0; [nra | lra].
Qed.

(** What [solveKeplerEquation] returns solves Kepler's equation up to the
    tolerance. *)
Lemma solveKeplerEquation_residual (M ecc : R) :
  0 <= ecc < 1 -> 0 <= M < 2 * PI ->
  Rabs (keplerResidual M ecc (solveKeplerEquation M ecc)) < KEPLER_TOLERANCE.
Proof.
  intros Hecc HM. unfold solveKeplerEquation. cbv zeta.
  rewrite (normalizeAngle_fixed M HM).
  destruct (Rle_dec M PI) as [Hleft | Hright].
  - apply newtonLoop_residual_half; [exact Hecc | lra].
  - (* reflect into the left half *)
    pose proof (newtonLoop_residual_half (2 * PI - M) ecc Hecc ltac:(lra))
      as Hhalf.
    replace (if Rltb (8 / 10) ecc then PI else M)
      with (2 * PI - (if Rltb (8 / 10) ecc then PI else 2 * PI - M))
      by (destruct (Rltb (8 / 10) ecc); ring).
    replace M with (2 * PI - (2 * PI - M)) at 1 2 by ring.
    rewrite newtonLoop_reflect, keplerResidual_reflect, Rabs_Ropp.
    exact Hhalf.
Qed.

(** C6.  For an eccentricity [0 <= e < 1] (in particular below 0.99) and a
    mean anomaly [M] in [[0, 2π)], the eccentric anomaly [E] that
    [solveKeplerEquation] returns gives back [M]: [E - e sin E] differs from
    [M] by less than the solver tolerance. *)
Theorem kepler_round_trip (M ecc : R) :
  0 <= ecc < 1 -> 0 <= M < 2 * PI ->
  let E := solveKeplerEquation M ecc in
  Rabs (E - ecc * sin E - M) < KEPLER_TOLERANCE.
Proof.
  intros Hecc HM E. exact (solveKeplerEquation_residual M ecc Hecc HM).
Qed.

Lemma kepler_round_trip_witness :
  let E := solveKeplerEquation 1 (1 / 2) in
  Rabs (E - 1 / 2 * sin E - 1) < KEPLER_TOLERANCE.
Proof.
  apply (kepler_round_trip 1 (1 / 2)); [lra|].
  pose proof PI2_3_2. lra.
Defined.

End KeplerRoundTrip.

(** ** Elements to state vector and back *)

Section RoundTripSetup.

Import Utils Constants Orbital.

Section ElementsRoundTrip.

Lemma getVelocityAtTime_eq (orbit : OrbitalElements) (t : R) :
  getVelocityAtTime orbit t
  = getVelocityFromTrueAnomaly orbit (getTrueAnomalyAtTime orbit t).
Proof. reflexivity. Qed.

Lemma getPositionAtTime_eq (orbit : OrbitalElements) (t : R) :
  getPositionAtTime orbit t
  = getPositionFromTrueAnomaly orbit (getTrueAnomalyAtTime orbit t).
Proof. reflexivity. Qed.

Lemma computeOrbit_pieces (r : Position) (v : Velocity) :
  computeOrbitFromStateVectors r v
  = if Rleb 0 (orbitalEnergy r v) then None
    else
      let '(ex, ey) := eccentricityVector r v in
      Some {| a := - MU / (2 * orbitalEnergy r v);
              e := magnitude ex ey;
              omega := argumentOfPeriapsis ex ey;
              M0 := meanAnomalyOf (magnitude ex ey) (trueAnomalyOf r v) |}.
Proof. reflexivity. Qed.


(** The algebra of a state vector on the ellipse, in terms of the focal
    distance [r], the speed scale [k = μ/h] and the sines and cosines of
    the true anomaly and of the argument of periapsis. *)
Lemma ellipse_algebra (r k ecc c s cw sw mu : R) :
  s * s + c * c = 1 -> sw * sw + cw * cw = 1 ->
  k * k * (r * (1 + ecc * c)) = mu ->
  let vxo := k * ecc * s * c - k * (1 + ecc * c) * s in
  let vyo := k * ecc * s * s + k * (1 + ecc * c) * c in
  let px := r * c * cw - r * s * sw in
  let py := r * c * sw + r * s * cw in
  let vx := vxo * cw - vyo * sw in
  let vy := vxo * sw + vyo * cw in
  let V := vx * vx + vy * vy in
  let d := px * vx + py * vy in
  px * px + py * py = r * r
  /\ V = k * k * (1 + ecc * ecc + 2 * ecc * c)
  /\ d = r * k * ecc * s
  /\ (V * r - mu) * px - r * d * vx = mu * r * (ecc * cw)
  /\ (V * r - mu) * py - r * d * vy = mu * r * (ecc * sw)
  /\ px * cw + py * sw = r * c
  /\ py * cw - px * sw = r * s.
Proof. intros Hsc Hw Hk. cbv zeta. repeat split; nsatz. Qed.

Section OnTheEllipse.

Variable orbit : OrbitalElements.
Variable theta : R.
Hypothesis Ha : 0 < a orbit.
Hypothesis He : 0 <= e orbit < 1.

Let pos := getPositionFromTrueAnomaly orbit theta.
Let vel := getVelocityFromTrueAnomaly orbit theta.
Let focal := a orbit * (1 - e orbit * e orbit) / (1 + e orbit * cos theta).
Let scale := MU / sqrt (MU * (a orbit * (1 - e orbit * e orbit))).

Lemma semiLatus_pos : 0 < a orbit * (1 - e orbit * e orbit).
Proof.
  assert (0 < 1 - e orbit * e orbit) by nra.
  now apply Rmult_lt_0_compat.
Qed.

Lemma denominator_pos : 0 < 1 + e orbit * cos theta.
Proof.
  pose proof (COS_bound theta) as Hc.
  assert (0 <= e orbit * (1 + cos theta)) by (apply Rmult_le_pos; lra).
  lra.
Qed.

Lemma focal_pos : 0 < focal.
Proof.
  unfold focal. apply Rdiv_lt_0_compat;
    [apply semiLatus_pos | apply denominator_pos].
Qed.

Lemma scale_sqr :
  scale * scale * (focal * (1 + e orbit * cos theta)) = MU.
Proof.
  unfold scale, focal. pose proof denominator_pos as HD.
  pose proof semiLatus_pos as Hp.
  set (p := a orbit * (1 - e orbit * e orbit)) in *.
  set (D := 1 + e orbit * cos theta) in *.
  assert (Hmu : 0 < MU) by (unfold MU; lra).
  assert (Hmp : 0 < MU * p) by now apply Rmult_lt_0_compat.
  assert (Hh : 0 < sqrt (MU * p)) by now apply sqrt_lt_R0.
  assert (Hhh : sqrt (MU * p) * sqrt (MU * p) = MU * p)
    by (apply sqrt_sqrt; lra).
  set (h := sqrt (MU * p)) in *.
  replace (MU / h * (MU / h) * (p / D * D))
    with (MU * (MU * p) / (h * h)) by (field; split; lra).
  rewrite Hhh. field. split; lra.
Qed.

Lemma state_on_ellipse :
  magnitude (x pos) (y pos) = focal
  /\ orbitalEnergy pos vel = - MU / (2 * a orbit)
  /\ eccentricityVector pos vel
     = (e orbit * cos (omega orbit), e orbit * sin (omega orbit))
  /\ dot (x pos) (y pos) (vx vel) (vy vel)
     = focal * scale * e orbit * sin theta
  /\ x pos * cos (omega orbit) + y pos * sin (omega orbit)
     = focal * cos theta
  /\ y pos * cos (omega orbit) - x pos * sin (omega orbit)
     = focal * sin theta.
Proof.
  pose proof focal_pos as Hr. pose proof scale_sqr as Hk.
  pose proof (sin2_cos2 theta) as Hsc. unfold Rsqr in Hsc.
  pose proof (sin2_cos2 (omega orbit)) as Hw. unfold Rsqr in Hw.
  pose proof denominator_pos as HD. pose proof semiLatus_pos as Hp.
  destruct (ellipse_algebra focal scale (e orbit) (cos theta) (sin theta)
              (cos (omega orbit)) (sin (omega orbit)) MU Hsc Hw Hk)
    as (Hrr & HV & Hd & Hex & Hey & Hpc & Hps).
  assert (Hmag : magnitude (x pos) (y pos) = focal).
  { unfold magnitude, pos, getPositionFromTrueAnomaly. cbn [x y].
    fold focal. rewrite Hrr. apply sqrt_square. lra. }
  assert (Hvv : magnitude (vx vel) (vy vel) * magnitude (vx vel) (vy vel)
                = scale * scale
                  * (1 + e orbit * e orbit + 2 * e orbit * cos theta)).
  { rewrite magnitude_sqr. unfold vel, getVelocityFromTrueAnomaly.
    cbn [vx vy]. fold scale. exact HV. }
  assert (Hdot : dot (x pos) (y pos) (vx vel) (vy vel)
                 = focal * scale * e orbit * sin theta).
  { unfold dot, pos, vel, getPositionFromTrueAnomaly,
      getVelocityFromTrueAnomaly. cbn [x y vx vy].
    fold focal. fold scale. exact Hd. }
  assert (Hkk : scale * scale
                = MU / (focal * (1 + e orbit * cos theta))).
  { rewrite <- Hk. field. split; lra. }
  split; [exact Hmag | split; [|split; [|split; [exact Hdot | split]]]].
  - unfold orbitalEnergy. cbv zeta. rewrite Hvv, Hmag, Hkk.
    unfold focal. field.
    assert (1 - e orbit * e orbit <> 0) by nra.
    assert (e orbit * cos theta + 1 <> 0) by lra.
    repeat split; try assumption; lra.
  - unfold eccentricityVector. cbv zeta. rewrite Hvv, Hmag, Hdot.
    assert (Hmu : MU <> 0) by (unfold MU; lra).
    f_equal.
    + apply Rmult_eq_reg_l with (MU * focal); [|nra].
      rewrite <- Hex.
      unfold pos, vel, getPositionFromTrueAnomaly,
        getVelocityFromTrueAnomaly. cbn [x y vx vy].
      fold focal. fold scale. rewrite HV, Hd. field. split; lra.
    + apply Rmult_eq_reg_l with (MU * focal); [|nra].
      rewrite <- Hey.
      unfold pos, vel, getPositionFromTrueAnomaly,
        getVelocityFromTrueAnomaly. cbn [x y vx vy].
      fold focal. fold scale. rewrite HV, Hd. field. split; lra.
  - unfold pos, getPositionFromTrueAnomaly. cbn [x y]. fold focal. exact Hpc.
  - unfold pos, getPositionFromTrueAnomaly. cbn [x y]. fold focal. exact Hps.
Qed.

End OnTheEllipse.

End ElementsRoundTrip.

Section Angles.

(** A whole number of turns strictly between -1 and 1 is none. *)
Lemma no_turn (k : Z) (u v : R) :
  u = v + IZR k * (2 * PI) -> - (2 * PI) < u - v < 2 * PI -> u = v.
Proof.
  intros Heq Hnear. pose proof PI_RGT_0 as Hpi.
  assert (Hk : -1 < IZR k < 1).
  { split; apply Rmult_lt_reg_r with (2 * PI); lra. }
  assert (k = 0%Z) as ->.
  { destruct Hk as [Hlo Hhi].
    apply lt_IZR in Hlo. apply lt_IZR in Hhi. lia. }
  lra.
Qed.

(** Angles with the same cosine and sine differ by whole turns. *)
Lemma same_direction (u v : R) :
  cos u = cos v -> sin u = sin v ->
  exists k : Z, u = v + IZR k * (2 * PI).
Proof.
  intros Hc Hs.
  assert (Hone : cos (u - v) = 1).
  { rewrite cos_minus, Hc, Hs.
    pose proof (sin2_cos2 v) as H. unfold Rsqr in H. lra. }
  replace (u - v) with (2 * ((u - v) / 2)) in Hone by field.
  rewrite cos_2a_sin in Hone.
  assert (Hzero : sin ((u - v) / 2) = 0).
  { assert (sin ((u - v) / 2) * sin ((u - v) / 2) = 0) by lra.
    now apply Rsqr_0_uniq. }
  destruct (sin_eq_0_0 _ Hzero) as [k Hk].
  exists k. lra.
Qed.

Lemma shift_direction (u : R) (k : Z) :
  cos (u + IZR k * (2 * PI)) = cos u /\ sin (u + IZR k * (2 * PI)) = sin u.
Proof.
  assert (Hnat : forall n : nat,
             cos (u + INR n * (2 * PI)) = cos u
             /\ sin (u + INR n * (2 * PI)) = sin u).
  { intros n. replace (INR n * (2 * PI)) with (2 * INR n * PI) by ring.
    split; [apply cos_period | apply sin_period]. }
  assert (Hneg : forall n : nat,
             cos (u - INR n * (2 * PI)) = cos u
             /\ sin (u - INR n * (2 * PI)) = sin u).
  { intros n.
    pose proof (cos_period (u - INR n * (2 * PI)) n) as Hc.
    pose proof (sin_period (u - INR n * (2 * PI)) n) as Hs.
    replace (u - INR n * (2 * PI) + 2 * INR n * PI) with u in Hc, Hs by ring.
    split; congruence. }
  destruct k as [|p|p].
  - replace (u + 0 * (2 * PI)) with u by ring. split; reflexivity.
  - rewrite <- positive_nat_Z, <- INR_IZR_INZ. apply Hnat.
  - change (Z.neg p) with (- Z.pos p)%Z.
    rewrite opp_IZR, <- positive_nat_Z, <- INR_IZR_INZ.
    replace (u + - INR (Pos.to_nat p) * (2 * PI))
      with (u - INR (Pos.to_nat p) * (2 * PI)) by ring.
    apply Hneg.
Qed.

Lemma normalizeAngle_shift (u : R) (k : Z) :
  normalizeAngle (u + IZR k * (2 * PI)) = normalizeAngle u.
Proof.
  destruct (normalizeAngle_range (u + IZR k * (2 * PI)))
    as (Hin1 & k1 & Hk1).
  destruct (normalizeAngle_range u) as (Hin2 & k2 & Hk2).
  apply (no_turn (k + k1 - k2)); [|lra].
  rewrite Hk1, Hk2, minus_IZR, plus_IZR. ring.
Qed.


(** Two angles in [(-π, π]] with the same cosine and sine are equal. *)
Lemma direction_unique (u v : R) :
  - PI < u <= PI -> - PI < v <= PI ->
  cos u = cos v -> sin u = sin v -> u = v.
Proof.
  intros Hu Hv Hc Hs. destruct (same_direction u v Hc Hs) as [k Hk].
  destruct (Req_dec (u - v) (2 * PI)) as [Hfull | Hnot];
    [lra|].
  apply (no_turn k); [exact Hk | lra].
Qed.

(** The arctangent of a quotient, in polar form. *)
Lemma atan_polar (px py : R) :
  px <> 0 ->
  let rho := sqrt (px * px + py * py) in
  rho * cos (atan (py / px)) = Rabs px
  /\ rho * sin (atan (py / px)) = py / px * Rabs px.
Proof.
  intros Hx rho.
  pose proof (atan_bound (py / px)) as Hb.
  pose proof (tan_atan (py / px)) as Ht.
  set (psi := atan (py / px)) in *.
  assert (Hcos : 0 < cos psi) by (apply cos_gt_0; lra).
  assert (Hsin : sin psi = py / px * cos psi).
  { unfold tan in Ht. rewrite <- Ht. field. lra. }
  pose proof (sin2_cos2 psi) as Hsc. unfold Rsqr in Hsc.
  assert (Hsum : 0 < px * px + py * py) by nra.
  assert (Hrho : 0 < rho) by (now apply sqrt_lt_R0).
  assert (Hrr : rho * rho = px * px + py * py) by (apply sqrt_sqrt; lra).
  assert (Hcc : cos psi * cos psi * (px * px + py * py) = px * px).
  { rewrite Hsin in Hsc.
    replace (px * px + py * py)
      with (px * px * (py / px * cos psi * (py / px * cos psi)
                       + cos psi * cos psi) / (cos psi * cos psi))
      by (field; split; lra).
    rewrite Hsc. field. lra. }
  assert (Habs : rho * cos psi = Rabs px).
  { apply Rsqr_inj; [nra | apply Rabs_pos|].
    rewrite <- Rsqr_abs. unfold Rsqr. nra. }
  split; [exact Habs|].
  rewrite Hsin, <- Habs. ring.
Qed.

(** [Math.atan2(y, x)] is the direction of [(x, y)], in [(-π, π]]. *)
Lemma atan2_direction (py px : R) :
  px <> 0 \/ py <> 0 ->
  let rho := sqrt (px * px + py * py) in
  rho * cos (JsMath.atan2 py px) = px
  /\ rho * sin (JsMath.atan2 py px) = py
  /\ - PI < JsMath.atan2 py px <= PI.
Proof.
  intros Hnz rho. pose proof PI_RGT_0 as Hpi.
  unfold JsMath.atan2.
  destruct (Rltb_spec 0 px) as [Hpos | Hnpos].
  - destruct (atan_polar px py ltac:(lra)) as [Hc Hs].
    pose proof (atan_bound (py / px)).
    fold rho in Hc, Hs. rewrite Rabs_pos_eq in Hc, Hs by lra.
    split; [exact Hc | split; [|lra]]. rewrite Hs. field. lra.
  - destruct (Rltb_spec px 0) as [Hneg | Hzero].
    + destruct (atan_polar px py ltac:(lra)) as [Hc Hs].
      pose proof (atan_bound (py / px)) as Hb.
      fold rho in Hc, Hs. rewrite Rabs_left in Hc, Hs by lra.
      assert (Hs' : rho * sin (atan (py / px)) = - py)
        by (rewrite Hs; field; lra).
      assert (Hsign : 0 <= py -> atan (py / px) <= 0).
      { intros Hy. destruct (Rle_dec (atan (py / px)) 0); [assumption|].
        exfalso.
        assert (0 < tan (atan (py / px))) by (apply tan_gt_0; lra).
        rewrite tan_atan in *.
        assert (py / px <= 0); [|lra].
        unfold Rdiv. assert (/ px < 0) by now apply Rinv_lt_0_compat. nra. }
      assert (Hsign' : py < 0 -> 0 < atan (py / px)).
      { intros Hy. destruct (Rlt_dec 0 (atan (py / px))); [assumption|].
        exfalso.
        assert (Hle : tan (atan (py / px)) <= 0).
        { destruct (Req_dec (atan (py / px)) 0) as [-> | Hne];
            [rewrite tan_0; lra|].
          apply Rlt_le, tan_lt_0; lra. }
        rewrite tan_atan in Hle.
        assert (0 < py / px); [|lra].
        unfold Rdiv. assert (/ px < 0) by now apply Rinv_lt_0_compat. nra. }
      destruct (Rleb_spec 0 py) as [Hy | Hy].
      * rewrite neg_cos, neg_sin. specialize (Hsign Hy).
        split; [lra | split; lra].
      * replace (atan (py / px) - PI) with (- (PI - atan (py / px))) by ring.
        rewrite cos_neg, sin_neg.
        replace (PI - atan (py / px)) with (- atan (py / px) + PI) by ring.
        rewrite neg_cos, neg_sin, cos_neg, sin_neg.
        specialize (Hsign' ltac:(lra)).
        split; [lra | split; lra].
    + assert (px = 0) as -> by lra.
      assert (Hy : py <> 0) by (destruct Hnz; [lra | assumption]).
      unfold rho. replace (0 * 0 + py * py) with (py * py) by ring.
      destruct (Rltb_spec 0 py) as [Hypos | Hyneg].
      * rewrite cos_PI2, sin_PI2, sqrt_square by lra.
        split; [ring | split; [ring | lra]].
      * rewrite Rltb_true by lra.
        rewrite cos_neg, sin_neg, cos_PI2, sin_PI2.
        replace (py * py) with (- py * - py) by ring.
        rewrite sqrt_square by lra.
        split; [ring | split; [ring | lra]].
Qed.

(** The argument of periapsis is recovered from the eccentricity vector. *)
Lemma argumentOfPeriapsis_polar (ecc w : R) :
  0 < ecc -> 0 <= w < 2 * PI ->
  argumentOfPeriapsis (ecc * cos w) (ecc * sin w) = w.
Proof.
  intros He Hw. unfold argumentOfPeriapsis. cbv zeta.
  destruct (atan2_direction (ecc * sin w) (ecc * cos w))
    as (Hc & Hs & Hrange).
  { destruct (cos_sin_0_var w) as [H | H]; [left | right]; nra. }
  cbv zeta in Hc, Hs.
  assert (Hnorm : ecc * cos w * (ecc * cos w) + ecc * sin w * (ecc * sin w)
                  = ecc * ecc).
  { pose proof (sin2_cos2 w) as H. unfold Rsqr in H.
    replace (ecc * ecc) with (ecc * ecc * (sin w * sin w + cos w * cos w))
      by (rewrite H; ring).
    ring. }
  rewrite Hnorm, sqrt_square in Hc, Hs by lra.
  set (psi := JsMath.atan2 (ecc * sin w) (ecc * cos w)) in *.
  assert (Hcos : cos psi = cos w) by (apply Rmult_eq_reg_l with ecc; lra).
  assert (Hsin : sin psi = sin w) by (apply Rmult_eq_reg_l with ecc; lra).
  destruct (Rle_dec w PI) as [Hlow | Hhigh].
  - assert (psi = w) as -> by (apply direction_unique; lra).
    now rewrite Rltb_false by lra.
  - destruct (shift_direction w (-1)) as [Hc1 Hs1].
    assert (psi = w + -1 * (2 * PI)) as ->.
    { apply direction_unique; [lra | lra | congruence | congruence]. }
    rewrite Rltb_true by lra. ring.
Qed.

Lemma argumentOfPeriapsis_zero : argumentOfPeriapsis 0 0 = 0.
Proof.
  unfold argumentOfPeriapsis, JsMath.atan2.
  now rewrite !(Rltb_false 0 0) by lra.
Qed.

End Angles.

Section MeanAnomaly.

Lemma half_angle (u : R) :
  1 + cos u = 2 * (cos (u / 2) * cos (u / 2))
  /\ sin u = 2 * sin (u / 2) * cos (u / 2).
Proof.
  pose proof (cos_2a_cos (u / 2)) as Hc. pose proof (sin_2a (u / 2)) as Hs.
  replace (2 * (u / 2)) with u in Hc, Hs by field.
  rewrite Hc, Hs. split; ring.
Qed.

Lemma tan_half (u : R) :
  1 + cos u <> 0 -> tan (u / 2) = sin u / (1 + cos u).
Proof.
  intros Hnz. destruct (half_angle u) as [Hc Hs].
  assert (Hhalf : cos (u / 2) <> 0).
  { intros Hz. rewrite Hz in Hc. lra. }
  unfold tan. rewrite Hc, Hs. field. exact Hhalf.
Qed.

(** [2 atan (tan (E / 2))] is [E] up to whole turns. *)
Lemma atan_tan_half (E : R) :
  cos (E / 2) <> 0 ->
  exists k : Z, 2 * atan (tan (E / 2)) = E + IZR k * (2 * PI).
Proof.
  intros Hnz.
  pose proof (atan_bound (tan (E / 2))) as Hb.
  pose proof (tan_atan (tan (E / 2))) as Ht.
  set (y := atan (tan (E / 2))) in *.
  assert (Hcy : 0 < cos y) by (apply cos_gt_0; lra).
  assert (Hzero : sin (E / 2 - y) = 0).
  { rewrite sin_minus. unfold tan in Ht.
    assert (sin y * cos (E / 2) = sin (E / 2) * cos y); [|lra].
    apply Rmult_eq_reg_r with (/ (cos y * cos (E / 2)));
      [|apply Rinv_neq_0_compat; nra].
    transitivity (sin y / cos y); [field; split; lra|].
    rewrite Ht. field. split; lra. }
  destruct (sin_eq_0_0 _ Hzero) as [k Hk].
  exists (- k)%Z. rewrite opp_IZR. lra.
Qed.

(** The angle that [normalizeAngle] returns for half a turn either way. *)
Lemma normalizeAngle_half_turn (positive : bool) :
  normalizeAngle (2 * (if positive then PI / 2 else - (PI / 2))) = PI.
Proof.
  pose proof PI_RGT_0 as Hpi.
  destruct positive.
  - replace (2 * (PI / 2)) with PI by field.
    apply normalizeAngle_fixed. lra.
  - replace (2 * - (PI / 2)) with (PI + IZR (-1) * (2 * PI)) by (simpl; field).
    rewrite normalizeAngle_shift. apply normalizeAngle_fixed. lra.
Qed.

(** At a pole of the half-angle tangent the mean anomaly is half a turn. *)
Lemma meanAnomalyOf_pole (ecc theta' : R) :
  0 <= ecc < 1 -> cos (theta' / 2) = 0 -> meanAnomalyOf ecc theta' = PI.
Proof.
  intros Hecc Hpole. unfold meanAnomalyOf, JsMath.tan. cbv zeta.
  destruct (Reqb_spec (cos (theta' / 2)) 0) as [_ | Hn]; [|contradiction].
  assert (Hratio : 0 < sqrt ((1 - ecc) / (1 + ecc))).
  { apply sqrt_lt_R0. apply Rdiv_lt_0_compat; lra. }
  unfold JsMath.times.
  destruct (Reqb_spec (sqrt ((1 - ecc) / (1 + ecc))) 0) as [Hz | _]; [lra|].
  rewrite (Rltb_true 0 _ Hratio).
  set (positive := Rltb 0 (sin (theta' / 2))).
  assert (Hsin : sin (2 * JsMath.atan (JsMath.Pole positive)) = 0).
  { destruct positive; cbn [JsMath.atan].
    - replace (2 * (PI / 2)) with PI by field. apply sin_PI.
    - replace (2 * - (PI / 2)) with (- PI) by field.
      rewrite sin_neg, sin_PI. ring. }
  rewrite Hsin, Rmult_0_r, Rminus_0_r.
  destruct positive; cbn [JsMath.atan].
  - apply (normalizeAngle_half_turn true).
  - apply (normalizeAngle_half_turn false).
Qed.

(** The mean anomaly that [computeOrbitFromStateVectors] derives from a
    true anomaly pointing the way of the one made from [E]. *)
Lemma meanAnomalyOf_recovered (ecc E theta' : R) :
  0 <= ecc < 1 ->
  cos theta' = cos (trueAnomalyFromEccentric E ecc) ->
  sin theta' = sin (trueAnomalyFromEccentric E ecc) ->
  meanAnomalyOf ecc theta' = normalizeAngle (E - ecc * sin E).
Proof.
  intros Hecc Hcos Hsin.
  unfold trueAnomalyFromEccentric in Hcos, Hsin. cbv zeta in Hcos, Hsin.
  assert (Hp : 0 < sqrt (1 + ecc)) by (apply sqrt_lt_R0; lra).
  assert (Hm : 0 < sqrt (1 - ecc)) by (apply sqrt_lt_R0; lra).
  set (A := sqrt (1 + ecc) * sin (E / 2)) in *.
  set (B := sqrt (1 - ecc) * cos (E / 2)) in *.
  pose proof (sin2_cos2 (E / 2)) as Hunit. unfold Rsqr in Hunit.
  destruct (half_angle (2 * JsMath.atan2 A B)) as [Hc2 Hs2].
  replace (2 * JsMath.atan2 A B / 2) with (JsMath.atan2 A B) in Hc2, Hs2
    by field.
  destruct (Req_dec (cos (E / 2)) 0) as [Hpole | Hnz].
  - (* the apoapsis: [E] is half a turn, up to whole turns *)
    assert (HA : A <> 0).
    { unfold A. rewrite Hpole in Hunit.
      apply Rmult_integral_contrapositive_currified; [lra|].
      intros Hz. rewrite Hz in Hunit. lra. }
    assert (HB : B = 0) by (unfold B; rewrite Hpole; ring).
    destruct (atan2_direction A B (or_intror HA)) as (HcB & _ & _).
    cbv zeta in HcB.
    assert (Hrho : 0 < sqrt (B * B + A * A)) by (apply sqrt_lt_R0; nra).
    assert (Hcpsi : cos (JsMath.atan2 A B) = 0).
    { assert (Hz : sqrt (B * B + A * A) * cos (JsMath.atan2 A B) = 0)
        by (rewrite HcB; exact HB).
      apply Rmult_integral in Hz. destruct Hz; [lra | assumption]. }
    rewrite Hcpsi in Hc2, Hs2.
    assert (Hhalf : cos (theta' / 2) = 0).
    { destruct (half_angle theta') as [Hc _]. rewrite Hcos in Hc. nra. }
    rewrite (meanAnomalyOf_pole ecc theta' Hecc Hhalf).
    destruct (cos_eq_0_0 _ Hpole) as [k Hk].
    assert (HE : E = PI + IZR k * (2 * PI)) by lra.
    destruct (shift_direction PI k) as [_ Hs]. rewrite <- HE in Hs.
    rewrite Hs, sin_PI, Rmult_0_r, Rminus_0_r, HE, normalizeAngle_shift.
    symmetry. apply normalizeAngle_fixed. pose proof PI_RGT_0. lra.
  - assert (HB : B <> 0) by (unfold B; nra).
    destruct (atan2_direction A B (or_introl HB)) as (HcB & HsA & _).
    cbv zeta in HcB, HsA.
    set (psi := JsMath.atan2 A B) in *.
    set (rho := sqrt (B * B + A * A)) in *.
    assert (Hrho : 0 < rho) by (apply sqrt_lt_R0; nra).
    assert (Hcpsi : cos psi <> 0) by (intros Hz; rewrite Hz in HcB; lra).
    assert (Hden : 1 + cos theta' <> 0).
    { rewrite Hcos, Hc2. nra. }
    assert (Hhalf : cos (theta' / 2) <> 0).
    { intros Hz. destruct (half_angle theta') as [Hc _].
      rewrite Hz in Hc. lra. }
    assert (Htan : tan (theta' / 2) = A / B).
    { rewrite (tan_half theta' Hden), Hcos, Hsin, Hc2, Hs2.
      rewrite <- HcB, <- HsA. field. split; first [assumption | lra]. }
    unfold meanAnomalyOf, JsMath.tan. cbv zeta.
    destruct (Reqb_spec (cos (theta' / 2)) 0) as [Hz | _]; [contradiction|].
    cbn [JsMath.times JsMath.atan]. rewrite Htan.
    assert (Hratio : sqrt ((1 - ecc) / (1 + ecc)) * (A / B) = tan (E / 2)).
    { rewrite sqrt_div by lra. unfold A, B, tan. field.
      repeat split; lra. }
    rewrite Hratio.
    destruct (atan_tan_half E Hnz) as [k Hk]. rewrite Hk.
    destruct (shift_direction E k) as [_ Hs]. rewrite Hs.
    replace (E + IZR k * (2 * PI) - ecc * sin E)
      with (E - ecc * sin E + IZR k * (2 * PI)) by ring.
    apply normalizeAngle_shift.
Qed.

End MeanAnomaly.

Section RoundTrip.

Variable orbit : OrbitalElements.
Variable theta : R.
Hypothesis Ha : 0 < a orbit.
Hypothesis He : 0 <= e orbit < 1.

Let pos := getPositionFromTrueAnomaly orbit theta.
Let vel := getVelocityFromTrueAnomaly orbit theta.

Lemma scale_pos :
  0 < MU / sqrt (MU * (a orbit * (1 - e orbit * e orbit))).
Proof.
  pose proof (semiLatus_pos orbit Ha He) as Hp.
  apply Rdiv_lt_0_compat; [unfold MU; lra|].
  apply sqrt_lt_R0. apply Rmult_lt_0_compat; [unfold MU; lra | exact Hp].
Qed.

Lemma eccentricity_recovered :
  magnitude (e orbit * cos (omega orbit)) (e orbit * sin (omega orbit))
  = e orbit.
Proof.
  unfold magnitude.
  pose proof (sin2_cos2 (omega orbit)) as H. unfold Rsqr in H.
  replace (e orbit * cos (omega orbit) * (e orbit * cos (omega orbit))
           + e orbit * sin (omega orbit) * (e orbit * sin (omega orbit)))
    with (e orbit * e orbit
          * (sin (omega orbit) * sin (omega orbit)
             + cos (omega orbit) * cos (omega orbit))) by ring.
  rewrite H, Rmult_1_r. apply sqrt_square. lra.
Qed.

(** The true anomaly that the conversion derives points the way of the
    one the state vector was made from. *)
Lemma trueAnomalyOf_direction :
  0 < e orbit -> 0 <= omega orbit < 2 * PI ->
  cos (trueAnomalyOf pos vel) = cos theta
  /\ sin (trueAnomalyOf pos vel) = sin theta.
Proof.
  intros Hpos Hw.
  destruct (state_on_ellipse orbit theta Ha He)
    as (Hmag & _ & Hvec & Hdot & Hpc & Hps).
  pose proof (focal_pos orbit theta Ha He) as Hr.
  pose proof scale_pos as Hk.
  fold pos in Hmag, Hvec, Hdot, Hpc, Hps.
  fold vel in Hvec, Hdot.
  set (r := a orbit * (1 - e orbit * e orbit) / (1 + e orbit * cos theta))
    in *.
  set (k := MU / sqrt (MU * (a orbit * (1 - e orbit * e orbit)))) in *.
  unfold trueAnomalyOf. rewrite Hvec, eccentricity_recovered, Hmag, Hdot.
  destruct (Rltb (e orbit) (/ 10000000000)).
  - (* the branch of the near-circular orbit *)
    rewrite argumentOfPeriapsis_polar by assumption.
    destruct (atan2_direction (y pos) (x pos)) as (Hc & Hs & _).
    { destruct (Req_dec (x pos) 0) as [Hx0 | Hx0]; [|now left].
      right. intros Hy0. unfold magnitude in Hmag.
      rewrite Hx0, Hy0, Rmult_0_l, Rplus_0_l, sqrt_0 in Hmag. lra. }
    cbv zeta in Hc, Hs. fold (magnitude (x pos) (y pos)) in Hc, Hs.
    rewrite Hmag in Hc, Hs.
    remember (JsMath.atan2 (y pos) (x pos)) as psi eqn:Epsi. clear Epsi.
    rewrite cos_minus, sin_minus. split.
    + apply Rmult_eq_reg_l with r; [|lra].
      replace (r * (cos psi * cos (omega orbit) + sin psi * sin (omega orbit)))
        with (r * cos psi * cos (omega orbit)
              + r * sin psi * sin (omega orbit)) by ring.
      rewrite Hc, Hs. exact Hpc.
    + apply Rmult_eq_reg_l with r; [|lra].
      replace (r * (sin psi * cos (omega orbit) - cos psi * sin (omega orbit)))
        with (r * sin psi * cos (omega orbit)
              - r * cos psi * sin (omega orbit)) by ring.
      rewrite Hc, Hs. exact Hps.
  - pose proof (COS_bound theta) as Hcb.
    assert (Hcos : dot (e orbit * cos (omega orbit))
                     (e orbit * sin (omega orbit)) (x pos) (y pos)
                   / (e orbit * r) = cos theta).
    { unfold dot.
      replace (e orbit * cos (omega orbit) * x pos
               + e orbit * sin (omega orbit) * y pos)
        with (e orbit * (x pos * cos (omega orbit)
                         + y pos * sin (omega orbit))) by ring.
      rewrite Hpc. field. split; lra. }
    rewrite Hcos.
    assert (Hclamp : JsMath.max (-1) (JsMath.min 1 (cos theta)) = cos theta).
    { unfold JsMath.max, JsMath.min.
      destruct (Rleb_spec 1 (cos theta)).
      - rewrite Rleb_true by lra. lra.
      - now rewrite Rleb_true by lra. }
    rewrite Hclamp.
    pose proof (sin2_cos2 theta) as Hsc. unfold Rsqr in Hsc.
    assert (Hroot : sqrt (1 - (cos theta)²) = Rabs (sin theta)).
    { unfold Rsqr. replace (1 - cos theta * cos theta)
        with (sin theta * sin theta) by lra.
      apply sqrt_Rsqr_abs. }
    destruct (Rltb_spec (r * k * e orbit * sin theta) 0) as [Hin | Hout].
    + assert (Hneg : sin theta < 0).
      { destruct (Rlt_dec (sin theta) 0); [assumption|]. exfalso.
        assert (0 < r * k * e orbit)
          by (apply Rmult_lt_0_compat; [apply Rmult_lt_0_compat|];
              assumption).
        nra. }
      replace (2 * PI - acos (cos theta))
        with (- acos (cos theta) + 2 * 1 * PI) by ring.
      change 1 with (INR 1).
      rewrite cos_period, sin_period, cos_neg, sin_neg.
      rewrite cos_acos, sin_acos, Hroot by assumption.
      rewrite Rabs_left by assumption. split; ring.
    + assert (Hnonneg : 0 <= sin theta).
      { destruct (Rle_dec 0 (sin theta)); [assumption|]. exfalso.
        assert (0 < r * k * e orbit)
          by (apply Rmult_lt_0_compat; [apply Rmult_lt_0_compat|];
              assumption).
        nra. }
      rewrite cos_acos, sin_acos, Hroot by assumption.
      rewrite Rabs_pos_eq by assumption. split; reflexivity.
Qed.

(** What the conversion returns for a state vector on the ellipse. *)
Lemma computeOrbit_on_ellipse :
  exists el : OrbitalElements,
    computeOrbitFromStateVectors pos vel = Some el
    /\ a el = a orbit
    /\ e el = e orbit
    /\ omega el
       = argumentOfPeriapsis (e orbit * cos (omega orbit))
           (e orbit * sin (omega orbit))
    /\ M0 el = meanAnomalyOf (e orbit) (trueAnomalyOf pos vel).
Proof.
  destruct (state_on_ellipse orbit theta Ha He)
    as (_ & Henergy & Hvec & _).
  fold pos in Henergy, Hvec. fold vel in Henergy, Hvec.
  rewrite computeOrbit_pieces, Henergy, Hvec.
  assert (Hneg : - MU / (2 * a orbit) < 0).
  { unfold Rdiv. assert (0 < / (2 * a orbit))
      by (apply Rinv_0_lt_compat; lra).
    unfold MU. nra. }
  rewrite Rleb_false by exact Hneg.
  eexists. split; [reflexivity|]. cbn [a e omega M0].
  rewrite eccentricity_recovered.
  split; [|split; [reflexivity | split; reflexivity]].
  unfold MU. field. lra.
Qed.

End RoundTrip.

Section ElementsRoundTripTheorem.

(** The round trip through [getPositionAtTime], [getVelocityAtTime] and
    [computeOrbitFromStateVectors]. *)
Lemma round_trip (orbit : OrbitalElements) (t : R) :
  0 < a orbit -> 0 <= e orbit < 1 ->
  let E := solveKeplerEquation (meanAnomalyAtTime orbit t) (e orbit) in
  exists el : OrbitalElements,
    computeOrbitFromStateVectors
      (getPositionAtTime orbit t) (getVelocityAtTime orbit t) = Some el
    /\ a el = a orbit
    /\ e el = e orbit
    /\ (e orbit = 0 -> omega el = 0)
    /\ (0 < e orbit -> 0 <= omega orbit < 2 * PI ->
        omega el = omega orbit
        /\ M0 el = normalizeAngle (E - e orbit * sin E)).
Proof.
  intros Ha He E.
  rewrite getPositionAtTime_eq, getVelocityAtTime_eq.
  destruct (computeOrbit_on_ellipse orbit (getTrueAnomalyAtTime orbit t)
              Ha He) as (el & Hsome & Hael & Heel & Hwel & HMel).
  exists el. split; [exact Hsome | split; [exact Hael | split; [exact Heel|]]].
  split.
  - intros Hzero. rewrite Hwel, Hzero, !Rmult_0_l.
    apply argumentOfPeriapsis_zero.
  - intros Hpos Hw. split.
    + rewrite Hwel. now apply argumentOfPeriapsis_polar.
    + rewrite HMel.
      destruct (trueAnomalyOf_direction orbit (getTrueAnomalyAtTime orbit t)
                  Ha He Hpos Hw) as [Hc Hs].
      now apply meanAnomalyOf_recovered.
Qed.

End ElementsRoundTripTheorem.

Section ElementsRoundTripClaim.


End ElementsRoundTripClaim.

End RoundTripSetup.

(** * Further properties of the code *)

(** ** js/utils.js *)

Section UtilsFacts.

Import Utils Constants.

Lemma clamp_cases (value lo hi : R) :
  clamp value lo hi
  = if Rleb hi value then (if Rleb lo hi then hi else lo)
    else if Rleb lo value then value else lo.
Proof.
  unfold clamp, JsMath.max, JsMath.min.
  destruct (Rleb_spec hi value); reflexivity.
Qed.

(** [clamp] returns a value within the limits when the limits are in
    order. *)
Lemma clamp_between (value lo hi : R) :
  lo <= hi -> lo <= clamp value lo hi <= hi.
Proof.
  intros Hle. rewrite clamp_cases.
  destruct (Rleb_spec hi value); destruct (Rleb_spec lo hi);
    try destruct (Rleb_spec lo value); lra.
Qed.

(** With the limits out of order [clamp] returns the lower one. *)
Lemma clamp_disordered (value lo hi : R) :
  hi < lo -> clamp value lo hi = lo.
Proof.
  intros Hlt. rewrite clamp_cases.
  destruct (Rleb_spec hi value); destruct (Rleb_spec lo hi);
    try destruct (Rleb_spec lo value); lra.
Qed.

Lemma magnitude_zero (p q : R) : magnitude p q = 0 <-> p = 0 /\ q = 0.
Proof.
  unfold magnitude. split.
  - intros Hz.
    assert (Hs : p * p + q * q = 0).
    { apply sqrt_eq_0; [nra | exact Hz]. }
    split; nra.
  - intros [-> ->]. replace (0 * 0 + 0 * 0) with 0 by ring. apply sqrt_0.
Qed.

Lemma magnitude_pos (p q : R) : p <> 0 \/ q <> 0 -> 0 < magnitude p q.
Proof.
  intros Hnz. destruct (magnitude_nonneg p q) as [Hlt|Heq]; [exact Hlt|].
  exfalso. symmetry in Heq. apply magnitude_zero in Heq.
  destruct Heq; destruct Hnz; contradiction.
Qed.

Lemma magnitude_opp (p q : R) : magnitude (- p) (- q) = magnitude p q.
Proof. unfold magnitude. f_equal. ring. Qed.

Lemma magnitude_axis (p : R) : 0 <= p -> magnitude p 0 = p /\ magnitude 0 p = p.
Proof.
  intros Hp. unfold magnitude.
  replace (p * p + 0 * 0) with (p * p) by ring.
  replace (0 * 0 + p * p) with (p * p) by ring.
  split; apply sqrt_square, Hp.
Qed.

Lemma component_below_magnitude (p q : R) :
  Rabs p <= magnitude p q /\ Rabs q <= magnitude p q.
Proof.
  pose proof (magnitude_nonneg p q) as Hge.
  pose proof (magnitude_sqr p q) as Hsq.
  split; apply Rabs_le; split; nra.
Qed.

(** [normalize] returns the zero vector for the zero vector, and otherwise
    the vector of length 1 along its argument. *)
Lemma normalize_unit (p q : R) :
  let n := normalize p q in
  (p = 0 /\ q = 0 -> n = (0, 0))
  /\ (p <> 0 \/ q <> 0 ->
      magnitude (fst n) (snd n) = 1
      /\ fst n * magnitude p q = p /\ snd n * magnitude p q = q).
Proof.
  cbv zeta. unfold normalize. split.
  - intros Hz. destruct (Reqb_spec (magnitude p q) 0) as [_|Hn]; [reflexivity|].
    exfalso. apply Hn, magnitude_zero, Hz.
  - intros Hnz.
    destruct (Reqb_spec (magnitude p q) 0) as [Hz|Hn].
    { apply magnitude_zero in Hz. destruct Hz; destruct Hnz; contradiction. }
    cbn [fst snd].
    pose proof (magnitude_nonneg p q) as Hge.
    pose proof (magnitude_sqr p q) as Hsq.
    split; [|split; field; exact Hn].
    unfold magnitude at 1.
    replace (p / magnitude p q * (p / magnitude p q)
             + q / magnitude p q * (q / magnitude p q))
      with ((p * p + q * q) / (magnitude p q * magnitude p q))
      by (field; exact Hn).
    rewrite Hsq. replace ((p * p + q * q) / (p * p + q * q)) with 1.
    + apply sqrt_1.
    + field. rewrite <- Hsq. nra.
Qed.

(** [rotate] keeps lengths, composes by adding the angles, and is undone by
    the opposite angle. *)
Lemma rotate_isometry (p q alpha beta : R) :
  let r := rotate p q alpha in
  magnitude (fst r) (snd r) = magnitude p q
  /\ rotate (fst r) (snd r) beta = rotate p q (alpha + beta)
  /\ rotate (fst r) (snd r) (- alpha) = (p, q).
Proof.
  cbv zeta. unfold rotate. cbn [fst snd].
  pose proof (sin2_cos2 alpha) as Hsc. unfold Rsqr in Hsc.
  split; [|split].
  - unfold magnitude. f_equal. nsatz.
  - rewrite cos_plus, sin_plus. f_equal; ring.
  - rewrite cos_neg, sin_neg. f_equal; nsatz.
Qed.

(** [distance] is the Euclidean metric. *)
Lemma distance_metric (x1 y1 x2 y2 x3 y3 : R) :
  0 <= distance x1 y1 x2 y2
  /\ (distance x1 y1 x2 y2 = 0 <-> x1 = x2 /\ y1 = y2)
  /\ distance x1 y1 x2 y2 = distance x2 y2 x1 y1
  /\ distance x1 y1 x3 y3 <= distance x1 y1 x2 y2 + distance x2 y2 x3 y3.
Proof.
  assert (Hd : forall a b c d : R, distance a b c d = dist_euc c d a b)
    by reflexivity.
  split; [apply sqrt_pos|].
  split.
  { change (distance x1 y1 x2 y2) with (magnitude (x2 - x1) (y2 - y1)).
    rewrite magnitude_zero. split; intros [? ?]; split; lra. }
  split.
  { rewrite !Hd. apply distance_symm. }
  rewrite !Hd.
  rewrite (distance_symm x3 y3 x1 y1), (distance_symm x2 y2 x1 y1),
    (distance_symm x3 y3 x2 y2).
  apply triangle.
Qed.

Lemma degrees_inverse (v : R) :
  radToDeg (degToRad v) = v /\ degToRad (radToDeg v) = v.
Proof.
  pose proof PI_RGT_0 as Hpi.
  unfold radToDeg, degToRad. split; field; lra.
Qed.

Lemma randomRange_between (rnd lo hi : R) :
  0 <= rnd < 1 -> lo < hi -> lo <= randomRange rnd lo hi < hi.
Proof. intros Hr Hlt. unfold randomRange. nra. Qed.

Lemma randomPowerLaw_between (rnd lo hi : R) (power : nat) :
  0 <= rnd < 1 -> lo < hi -> (1 <= power)%nat ->
  lo <= randomPowerLaw rnd lo hi power < hi.
Proof.
  intros Hr Hlt Hp. unfold randomPowerLaw.
  assert (H0 : 0 <= rnd ^ power) by (apply pow_le; lra).
  assert (H1 : rnd ^ power < 1).
  { destruct power as [|n]; [lia|].
    apply Rle_lt_trans with (rnd * 1); [|lra].
    simpl. apply Rmult_le_compat_l; [lra|].
    rewrite <- (pow1 n). apply pow_incr. lra. }
  nra.
Qed.

Lemma last_cons {X : Type} (l : list X) :
  forall a d : X, last (a :: l) d = last l a.
Proof.
  induction l as [|b l IH]; intros a d; [reflexivity|].
  change (last (a :: b :: l) d) with (last (b :: l) d).
  rewrite (IH b d), (IH b a). reflexivity.
Qed.

End UtilsFacts.

(** ** [normalizeAngle] as a function of the angle *)

Section Turns.

Import Utils.

(** In exact arithmetic the two loops of [normalizeAngle] end for every
    angle, and the result is the one angle of [[0, 2π)] that differs from
    the argument by whole turns: it has the same cosine and the same sine,
    angles that differ by whole turns give the same result, and a result is
    left as it is.  (In binary64 the loops do not end for every angle.) *)
Lemma normalizeAngle_canonical (angle : R) :
  0 <= normalizeAngle angle < 2 * PI
  /\ (exists k : Z, normalizeAngle angle = angle + IZR k * (2 * PI))
  /\ (forall k : Z,
        normalizeAngle (angle + IZR k * (2 * PI)) = normalizeAngle angle)
  /\ normalizeAngle (normalizeAngle angle) = normalizeAngle angle
  /\ cos (normalizeAngle angle) = cos angle
  /\ sin (normalizeAngle angle) = sin angle.
Proof.
  destruct (normalizeAngle_range angle) as [Hin [k Hk]].
  split; [exact Hin|].
  split; [exists k; exact Hk|].
  split; [intros j; apply normalizeAngle_shift|].
  split; [apply normalizeAngle_fixed, Hin|].
  rewrite Hk. apply shift_direction.
Qed.

End Turns.

(** ** js/orbital.js: the motion along an orbit *)

Section OrbitFacts.

Import Utils Constants Orbital.

Lemma MU_pos : 0 < MU.
Proof. unfold MU. lra. Qed.

Lemma mean_motion_period (sma : R) :
  0 < sma -> sqrt (MU / sma ^ 3) * orbitalPeriod sma = 2 * PI.
Proof.
  intros Ha. unfold orbitalPeriod.
  pose proof MU_pos as Hmu.
  assert (H3 : 0 < sma ^ 3) by (apply pow_lt; exact Ha).
  replace (sqrt (MU / sma ^ 3) * (2 * PI * sqrt (sma ^ 3 / MU)))
    with (2 * PI * (sqrt (MU / sma ^ 3) * sqrt (sma ^ 3 / MU))) by ring.
  rewrite <- sqrt_mult_alt.
  - replace (MU / sma ^ 3 * (sma ^ 3 / MU)) with 1 by (field; lra).
    rewrite sqrt_1. ring.
  - apply Rlt_le, Rdiv_lt_0_compat; assumption.
Qed.

Lemma meanAnomaly_periodic (orbit : OrbitalElements) (t : R) :
  0 < a orbit ->
  meanAnomalyAtTime orbit (t + orbitalPeriod (a orbit))
  = meanAnomalyAtTime orbit t.
Proof.
  intros Ha. unfold meanAnomalyAtTime.
  replace (M0 orbit + sqrt (MU / a orbit ^ 3) * (t + orbitalPeriod (a orbit)))
    with (M0 orbit + sqrt (MU / a orbit ^ 3) * t + IZR 1 * (2 * PI)).
  - apply normalizeAngle_shift.
  - rewrite <- (mean_motion_period (a orbit) Ha). ring.
Qed.

(** X2.  On an orbit with [a > 0] the mean motion times [orbitalPeriod(a)] is
    one turn, so the mean anomaly, the position and the velocity at
    [t + orbitalPeriod(a)] are those at [t]. *)
Theorem orbit_repeats_after_period (orbit : OrbitalElements) (t : R) :
  0 < a orbit ->
  let T := orbitalPeriod (a orbit) in
  sqrt (MU / a orbit ^ 3) * T = 2 * PI
  /\ meanAnomalyAtTime orbit (t + T) = meanAnomalyAtTime orbit t
  /\ getPositionAtTime orbit (t + T) = getPositionAtTime orbit t
  /\ getVelocityAtTime orbit (t + T) = getVelocityAtTime orbit t.
Proof.
  intros Ha. cbv zeta.
  split; [apply mean_motion_period, Ha|].
  split; [apply meanAnomaly_periodic, Ha|].
  unfold getPositionAtTime, getVelocityAtTime.
  rewrite (meanAnomaly_periodic orbit t Ha). split; reflexivity.
Qed.

Lemma orbit_repeats_after_period_witness :
  let orbit := {| a := 500; e := 1 / 2; omega := 1; M0 := 0 |} in
  let T := orbitalPeriod 500 in
  sqrt (MU / 500 ^ 3) * T = 2 * PI
  /\ meanAnomalyAtTime orbit (0 + T) = meanAnomalyAtTime orbit 0
  /\ getPositionAtTime orbit (0 + T) = getPositionAtTime orbit 0
  /\ getVelocityAtTime orbit (0 + T) = getVelocityAtTime orbit 0.
Proof.
  intros orbit.
  apply (orbit_repeats_after_period orbit 0). simpl. lra.
Defined.

Lemma focal_between (sma ecc theta : R) :
  0 < sma -> 0 <= ecc < 1 ->
  sma * (1 - ecc) <= sma * (1 - ecc * ecc) / (1 + ecc * cos theta)
    <= sma * (1 + ecc).
Proof.
  intros Ha He.
  pose proof (COS_bound theta) as [Hc1 Hc2].
  assert (Hd : 0 < 1 + ecc * cos theta) by nra.
  split.
  - apply Rmult_le_reg_r with (1 + ecc * cos theta); [exact Hd|].
    replace (sma * (1 - ecc * ecc) / (1 + ecc * cos theta)
             * (1 + ecc * cos theta))
      with (sma * (1 - ecc * ecc)) by (field; lra).
    assert (0 <= sma * (1 - ecc) * (ecc * (1 - cos theta))).
    { apply Rmult_le_pos; [apply Rmult_le_pos; lra|apply Rmult_le_pos; lra]. }
    nra.
  - apply Rmult_le_reg_r with (1 + ecc * cos theta); [exact Hd|].
    replace (sma * (1 - ecc * ecc) / (1 + ecc * cos theta)
             * (1 + ecc * cos theta))
      with (sma * (1 - ecc * ecc)) by (field; lra).
    assert (0 <= sma * (1 + ecc) * (ecc * (1 + cos theta))).
    { apply Rmult_le_pos; [apply Rmult_le_pos; lra|apply Rmult_le_pos; lra]. }
    nra.
Qed.

Lemma position_on_ellipse (orbit : OrbitalElements) (theta : R) :
  0 < a orbit -> 0 <= e orbit < 1 ->
  let p := getPositionFromTrueAnomaly orbit theta in
  let f := - (2 * a orbit * e orbit) in
  magnitude (x p) (y p)
  + distance (x p) (y p) (f * cos (omega orbit)) (f * sin (omega orbit))
  = 2 * a orbit
  /\ a orbit * (1 - e orbit) <= magnitude (x p) (y p)
       <= a orbit * (1 + e orbit).
Proof.
  intros Ha He. cbv zeta.
  destruct (state_on_ellipse orbit theta Ha He)
    as (Hmag & _ & _ & _ & Hc & Hs).
  pose proof (focal_between (a orbit) (e orbit) theta Ha He) as Hb.
  set (p := getPositionFromTrueAnomaly orbit theta) in *.
  set (r := a orbit * (1 - e orbit * e orbit) / (1 + e orbit * cos theta)) in *.
  rewrite Hmag. split; [|exact Hb].
  assert (Hr : r * (1 + e orbit * cos theta) = a orbit * (1 - e orbit * e orbit)).
  { unfold r. field.
    pose proof (COS_bound theta) as [Hc1 Hc2]. nra. }
  pose proof (magnitude_sqr (x p) (y p)) as Hsq. rewrite Hmag in Hsq.
  pose proof (sin2_cos2 (omega orbit)) as Hw. unfold Rsqr in Hw.
  assert (Hd : distance (x p) (y p)
                 (- (2 * a orbit * e orbit) * cos (omega orbit))
                 (- (2 * a orbit * e orbit) * sin (omega orbit))
               = 2 * a orbit - r).
  { unfold distance. cbv zeta. apply sqrt_lem_1.
    - apply Rplus_le_le_0_compat; apply Rle_0_sqr.
    - assert (a orbit * e orbit <= a orbit * 1)
        by (apply Rmult_le_compat_l; lra).
      lra.
    - unfold Rsqr. set (cw := cos (omega orbit)) in *. set (sw := sin (omega orbit)) in *.
      set (A := a orbit) in *. set (ecc := e orbit) in *.
      set (px := x p) in *. set (py := y p) in *.
      set (c := cos theta) in *. set (s := sin theta) in *.
      clearbody cw sw A ecc px py c s r. clear - Hr Hsq Hw Hc Hs.
      nsatz. }
  rewrite Hd. ring.
Qed.

(** X3.  For [a > 0], [0 <= e < 1] and at least one segment, every sample of
    [generateOrbitPath] lies on the ellipse whose foci are the origin and the
    point at distance [2ae] opposite the periapsis: its distances to the two
    foci add up to [2a].  Its distance to the origin lies between [a(1 - e)]
    and [a(1 + e)], and the first sample is the periapsis, at distance
    [a(1 - e)] in the direction [omega]. *)
Theorem orbitPath_on_ellipse (orbit : OrbitalElements) (numPoints : nat)
    (d : Position) :
  0 < a orbit -> 0 <= e orbit < 1 -> (1 <= numPoints)%nat ->
  let f := - (2 * a orbit * e orbit) in
  Forall
    (fun p : Position =>
       magnitude (x p) (y p)
       + distance (x p) (y p) (f * cos (omega orbit)) (f * sin (omega orbit))
       = 2 * a orbit
       /\ a orbit * (1 - e orbit) <= magnitude (x p) (y p)
            <= a orbit * (1 + e orbit))
    (generateOrbitPath orbit numPoints)
  /\ hd d (generateOrbitPath orbit numPoints)
     = {| x := a orbit * (1 - e orbit) * cos (omega orbit);
          y := a orbit * (1 - e orbit) * sin (omega orbit) |}.
Proof.
  intros Ha He Hn. cbv zeta. split.
  - unfold generateOrbitPath. apply Forall_forall. intros p Hp.
    apply in_map_iff in Hp. destruct Hp as (i & <- & _).
    apply (position_on_ellipse orbit _ Ha He).
  - unfold generateOrbitPath. cbn [seq map hd].
    unfold getPositionFromTrueAnomaly. cbv zeta.
    replace (INR 0 / INR numPoints * 2 * PI) with 0
      by (cbn [INR]; unfold Rdiv; ring).
    rewrite cos_0, sin_0. f_equal; field; lra.
Qed.

Lemma orbitPath_on_ellipse_witness :
  let orbit := {| a := 500; e := 1 / 2; omega := 0; M0 := 0 |} in
  let d := {| x := 0; y := 0 |} in
  let f := - (2 * 500 * (1 / 2)) in
  Forall
    (fun p : Position =>
       magnitude (x p) (y p)
       + distance (x p) (y p) (f * cos 0) (f * sin 0)
       = 2 * 500
       /\ 500 * (1 - 1 / 2) <= magnitude (x p) (y p) <= 500 * (1 + 1 / 2))
    (generateOrbitPath orbit 100)
  /\ hd d (generateOrbitPath orbit 100)
     = {| x := 500 * (1 - 1 / 2) * cos 0; y := 500 * (1 - 1 / 2) * sin 0 |}.
Proof.
  intros orbit d.
  apply (orbitPath_on_ellipse orbit 100 d); simpl; [lra | lra | lia].
Defined.

Lemma angular_momentum_algebra (r k ecc c s cw sw : R) :
  s * s + c * c = 1 -> sw * sw + cw * cw = 1 ->
  let vxo := k * ecc * s * c - k * (1 + ecc * c) * s in
  let vyo := k * ecc * s * s + k * (1 + ecc * c) * c in
  let px := r * c * cw - r * s * sw in
  let py := r * c * sw + r * s * cw in
  let vx := vxo * cw - vyo * sw in
  let vy := vxo * sw + vyo * cw in
  px * vy - py * vx = r * k * (1 + ecc * c).
Proof. intros Hsc Hw. cbv zeta. nsatz. Qed.

Lemma state_momentum (orbit : OrbitalElements) (theta : R) :
  0 < a orbit -> 0 <= e orbit < 1 ->
  let pos := getPositionFromTrueAnomaly orbit theta in
  let vel := getVelocityFromTrueAnomaly orbit theta in
  cross (x pos) (y pos) (vx vel) (vy vel)
  = sqrt (MU * (a orbit * (1 - e orbit * e orbit)))
  /\ magnitude (vx vel) (vy vel)
     = sqrt (MU * (2 / magnitude (x pos) (y pos) - 1 / a orbit))
  /\ orbitalEnergy pos vel = - MU / (2 * a orbit).
Proof.
  intros Ha He. cbv zeta.
  destruct (state_on_ellipse orbit theta Ha He) as (Hmag & Hen & _).
  pose proof (semiLatus_pos orbit Ha He) as Hp.
  pose proof (denominator_pos orbit theta He) as HD.
  pose proof (focal_pos orbit theta Ha He) as Hr.
  pose proof MU_pos as Hmu.
  pose proof (sin2_cos2 theta) as Hsc. unfold Rsqr in Hsc.
  pose proof (sin2_cos2 (omega orbit)) as Hw. unfold Rsqr in Hw.
  split; [|split; [|exact Hen]].
  - unfold cross, getPositionFromTrueAnomaly, getVelocityFromTrueAnomaly.
    cbn [x y vx vy].
    rewrite (angular_momentum_algebra _ _ _ _ _ _ _ Hsc Hw).
    set (p := a orbit * (1 - e orbit * e orbit)) in *.
    assert (Hmp : 0 < MU * p) by now apply Rmult_lt_0_compat.
    assert (Hh : 0 < sqrt (MU * p)) by now apply sqrt_lt_R0.
    assert (Hhh : sqrt (MU * p) * sqrt (MU * p) = MU * p)
      by (apply sqrt_sqrt; lra).
    set (h := sqrt (MU * p)) in *.
    apply Rmult_eq_reg_r with h; [|lra].
    rewrite Hhh. field. split; lra.
  - symmetry. apply sqrt_lem_1.
    + rewrite Hmag.
      set (r := a orbit * (1 - e orbit * e orbit) / (1 + e orbit * cos theta))
        in *.
      pose proof (focal_between (a orbit) (e orbit) theta Ha He) as Hb.
      fold r in Hb.
      apply Rmult_le_pos; [lra|].
      apply Rmult_le_reg_r with (r * a orbit);
        [apply Rmult_lt_0_compat; assumption|].
      replace ((2 / r - 1 / a orbit) * (r * a orbit))
        with (2 * a orbit - r) by (field; split; lra).
      assert (a orbit * e orbit <= a orbit * 1)
        by (apply Rmult_le_compat_l; lra).
      lra.
    + apply magnitude_nonneg.
    + unfold orbitalEnergy in Hen. cbv zeta in Hen.
      set (V := magnitude (vx (getVelocityFromTrueAnomaly orbit theta))
                  (vy (getVelocityFromTrueAnomaly orbit theta))) in *.
      set (rho := magnitude (x (getPositionFromTrueAnomaly orbit theta))
                    (y (getPositionFromTrueAnomaly orbit theta))) in *.
      assert (Hrho : rho <> 0) by (rewrite Hmag; lra).
      assert (HV : V * V = 2 * (- MU / (2 * a orbit) + MU / rho)).
      { rewrite <- Hen. field. exact Hrho. }
      rewrite HV. field. split; lra.
Qed.

(** X4.  For [a > 0] and [0 <= e < 1] the position and the velocity that
    [getPositionAtTime] and [getVelocityAtTime] return at any time have the
    angular momentum [sqrt(MU a (1 - e²))] and the specific energy
    [- MU / (2a)], whatever the time; the speed is the one of the vis-viva
    equation, [sqrt(MU (2/r - 1/a))], which [getVelocityAtTime] computes as
    [vMag] and does not use. *)
Theorem motion_conserves_momentum_and_energy (orbit : OrbitalElements)
    (t : R) :
  0 < a orbit -> 0 <= e orbit < 1 ->
  let r := getPositionAtTime orbit t in
  let v := getVelocityAtTime orbit t in
  cross (x r) (y r) (vx v) (vy v)
  = sqrt (MU * (a orbit * (1 - e orbit * e orbit)))
  /\ orbitalEnergy r v = - MU / (2 * a orbit)
  /\ magnitude (vx v) (vy v)
     = sqrt (MU * (2 / magnitude (x r) (y r) - 1 / a orbit)).
Proof.
  intros Ha He. cbv zeta.
  rewrite getPositionAtTime_eq, getVelocityAtTime_eq.
  destruct (state_momentum orbit (getTrueAnomalyAtTime orbit t) Ha He)
    as (Hh & Hv & Hen).
  split; [exact Hh | split; [exact Hen | exact Hv]].
Qed.

Lemma motion_conserves_momentum_and_energy_witness :
  let orbit := {| a := 500; e := 1 / 2; omega := 1; M0 := 0 |} in
  let r := getPositionAtTime orbit 0 in
  let v := getVelocityAtTime orbit 0 in
  cross (x r) (y r) (vx v) (vy v)
  = sqrt (MU * (500 * (1 - 1 / 2 * (1 / 2))))
  /\ orbitalEnergy r v = - MU / (2 * 500)
  /\ magnitude (vx v) (vy v)
     = sqrt (MU * (2 / magnitude (x r) (y r) - 1 / 500)).
Proof.
  intros orbit.
  apply (motion_conserves_momentum_and_energy orbit 0); simpl; lra.
Defined.

Lemma double_angle (u : R) :
  cos (2 * u) = cos u * cos u - sin u * sin u
  /\ sin (2 * u) = 2 * sin u * cos u.
Proof. split; [apply cos_2a | apply sin_2a]. Qed.

(** The true anomaly in terms of the eccentric anomaly. *)
Lemma trueAnomaly_of_eccentric (E ecc : R) :
  0 <= ecc < 1 ->
  let theta := trueAnomalyFromEccentric E ecc in
  (1 - ecc * cos E) * cos theta = cos E - ecc
  /\ (1 - ecc * cos E) * sin theta = sqrt (1 - ecc * ecc) * sin E.
Proof.
  intros He. cbv zeta. unfold trueAnomalyFromEccentric. cbv zeta.
  set (s := sin (E / 2)). set (c := cos (E / 2)).
  assert (Hp : 0 < sqrt (1 + ecc)) by (apply sqrt_lt_R0; lra).
  assert (Hm : 0 < sqrt (1 - ecc)) by (apply sqrt_lt_R0; lra).
  assert (Hpp : sqrt (1 + ecc) * sqrt (1 + ecc) = 1 + ecc)
    by (apply sqrt_sqrt; lra).
  assert (Hmm : sqrt (1 - ecc) * sqrt (1 - ecc) = 1 - ecc)
    by (apply sqrt_sqrt; lra).
  assert (Hpm : sqrt (1 + ecc) * sqrt (1 - ecc) = sqrt (1 - ecc * ecc)).
  { rewrite <- sqrt_mult by lra. f_equal. ring. }
  pose proof (sin2_cos2 (E / 2)) as Hsc. unfold Rsqr in Hsc.
  fold s c in Hsc.
  destruct (half_angle E) as [Hc Hs]. fold s c in Hc, Hs.
  assert (Hnz : sqrt (1 - ecc) * c <> 0 \/ sqrt (1 + ecc) * s <> 0).
  { destruct (Req_dec c 0) as [Hc0|Hc0].
    - right. assert (s <> 0) by (intros Hs0; rewrite Hc0, Hs0 in Hsc; lra).
      apply Rmult_integral_contrapositive_currified; lra.
    - left. apply Rmult_integral_contrapositive_currified; lra. }
  destruct (atan2_direction (sqrt (1 + ecc) * s) (sqrt (1 - ecc) * c) Hnz)
    as (Hx & Hy & _).
  set (psi := JsMath.atan2 (sqrt (1 + ecc) * s) (sqrt (1 - ecc) * c)) in *.
  set (rho := sqrt (sqrt (1 - ecc) * c * (sqrt (1 - ecc) * c)
                    + sqrt (1 + ecc) * s * (sqrt (1 + ecc) * s))) in *.
  assert (Hrho : rho * rho = 1 - ecc * cos E).
  { unfold rho. rewrite sqrt_sqrt.
    - replace (sqrt (1 - ecc) * c * (sqrt (1 - ecc) * c)
               + sqrt (1 + ecc) * s * (sqrt (1 + ecc) * s))
        with (sqrt (1 - ecc) * sqrt (1 - ecc) * (c * c)
              + sqrt (1 + ecc) * sqrt (1 + ecc) * (s * s)) by ring.
      rewrite Hpp, Hmm. nra.
    - apply Rplus_le_le_0_compat; apply Rle_0_sqr. }
  destruct (double_angle psi) as [Hc2 Hs2]. rewrite Hc2, Hs2.
  rewrite <- Hrho. split.
  - replace (rho * rho * (cos psi * cos psi - sin psi * sin psi))
      with (rho * cos psi * (rho * cos psi) - rho * sin psi * (rho * sin psi))
      by ring.
    rewrite Hx, Hy.
    replace (sqrt (1 - ecc) * c * (sqrt (1 - ecc) * c)
             - sqrt (1 + ecc) * s * (sqrt (1 + ecc) * s))
      with (sqrt (1 - ecc) * sqrt (1 - ecc) * (c * c)
            - sqrt (1 + ecc) * sqrt (1 + ecc) * (s * s)) by ring.
    rewrite Hpp, Hmm. nra.
  - replace (rho * rho * (2 * sin psi * cos psi))
      with (2 * (rho * sin psi) * (rho * cos psi)) by ring.
    rewrite Hx, Hy. rewrite <- Hpm, Hs. ring.
Qed.

Lemma slope_positive (E ecc : R) : 0 <= ecc < 1 -> 0 < 1 - ecc * cos E.
Proof. intros He. pose proof (COS_bound E) as [H1 H2]. nra. Qed.

Lemma position_by_eccentric (orbit : OrbitalElements) (E : R) :
  0 < a orbit -> 0 <= e orbit < 1 ->
  let p := getPositionFromTrueAnomaly orbit
             (trueAnomalyFromEccentric E (e orbit)) in
  magnitude (x p) (y p) = a orbit * (1 - e orbit * cos E)
  /\ x p * cos (omega orbit) + y p * sin (omega orbit)
     = a orbit * (cos E - e orbit)
  /\ y p * cos (omega orbit) - x p * sin (omega orbit)
     = a orbit * (sqrt (1 - e orbit * e orbit) * sin E).
Proof.
  intros Ha He. cbv zeta.
  set (theta := trueAnomalyFromEccentric E (e orbit)).
  destruct (state_on_ellipse orbit theta Ha He)
    as (Hmag & _ & _ & _ & Hc & Hs).
  destruct (trueAnomaly_of_eccentric E (e orbit) He) as [Hct Hst].
  fold theta in Hct, Hst.
  pose proof (slope_positive E (e orbit) He) as Hk.
  pose proof (denominator_pos orbit theta He) as HD.
  assert (Hr : a orbit * (1 - e orbit * e orbit) / (1 + e orbit * cos theta)
               = a orbit * (1 - e orbit * cos E)).
  { apply Rmult_eq_reg_r with (1 + e orbit * cos theta); [|lra].
    replace (a orbit * (1 - e orbit * e orbit) / (1 + e orbit * cos theta)
             * (1 + e orbit * cos theta))
      with (a orbit * (1 - e orbit * e orbit)) by (field; lra).
    replace (a orbit * (1 - e orbit * cos E) * (1 + e orbit * cos theta))
      with (a orbit * ((1 - e orbit * cos E)
                       + e orbit * ((1 - e orbit * cos E) * cos theta)))
      by ring.
    rewrite Hct. ring. }
  rewrite Hmag, Hc, Hs, Hr.
  split; [reflexivity|].
  split.
  - replace (a orbit * (1 - e orbit * cos E) * cos theta)
      with (a orbit * ((1 - e orbit * cos E) * cos theta)) by ring.
    rewrite Hct. reflexivity.
  - replace (a orbit * (1 - e orbit * cos E) * sin theta)
      with (a orbit * ((1 - e orbit * cos E) * sin theta)) by ring.
    rewrite Hst. reflexivity.
Qed.

(** X5.  For [a > 0] and [0 <= e < 1] the position at time [t] is the point
    of the ellipse at the eccentric anomaly [E] that [solveKeplerEquation]
    returns: its distance to the origin is [a (1 - e cos E)], and its
    coordinates along and across the direction [omega] of the periapsis are
    [a (cos E - e)] and [a sqrt(1 - e²) sin E]. *)
Theorem position_follows_eccentric_anomaly (orbit : OrbitalElements) (t : R) :
  0 < a orbit -> 0 <= e orbit < 1 ->
  let E := solveKeplerEquation (meanAnomalyAtTime orbit t) (e orbit) in
  let p := getPositionAtTime orbit t in
  magnitude (x p) (y p) = a orbit * (1 - e orbit * cos E)
  /\ x p * cos (omega orbit) + y p * sin (omega orbit)
     = a orbit * (cos E - e orbit)
  /\ y p * cos (omega orbit) - x p * sin (omega orbit)
     = a orbit * (sqrt (1 - e orbit * e orbit) * sin E).
Proof.
  intros Ha He. cbv zeta.
  apply (position_by_eccentric orbit _ Ha He).
Qed.

Lemma position_follows_eccentric_anomaly_witness :
  let orbit := {| a := 500; e := 1 / 2; omega := 1; M0 := 0 |} in
  let E := solveKeplerEquation (meanAnomalyAtTime orbit 0) (1 / 2) in
  let p := getPositionAtTime orbit 0 in
  magnitude (x p) (y p) = 500 * (1 - 1 / 2 * cos E)
  /\ x p * cos 1 + y p * sin 1 = 500 * (cos E - 1 / 2)
  /\ y p * cos 1 - x p * sin 1
     = 500 * (sqrt (1 - 1 / 2 * (1 / 2)) * sin E).
Proof.
  intros orbit.
  apply (position_follows_eccentric_anomaly orbit 0); simpl; lra.
Defined.

Lemma solveKepler_circular (M : R) :
  solveKeplerEquation M 0 = normalizeAngle M.
Proof.
  unfold solveKeplerEquation. cbv zeta.
  rewrite (Rltb_false (8 / 10) 0) by lra.
  change KEPLER_MAX_ITERATIONS with (S 49).
  rewrite newtonLoop_S.
  assert (Hstep : newtonStep (normalizeAngle M) 0 (normalizeAngle M) = 0).
  { unfold newtonStep. field. }
  rewrite Hstep, Rabs_R0.
  rewrite Rltb_true by (unfold KEPLER_TOLERANCE; lra).
  ring.
Qed.

(** X6.  On a circular orbit ([e = 0], [a > 0]) [solveKeplerEquation]
    returns the mean anomaly itself, after its first round; the body is at
    distance [a] in the direction [omega + M0 + n t], and its speed is
    [sqrt(MU / a)] at all times. *)
Theorem circular_orbit_is_uniform (orbit : OrbitalElements) (t : R) :
  0 < a orbit -> e orbit = 0 ->
  let phase := omega orbit + (M0 orbit + sqrt (MU / a orbit ^ 3) * t) in
  solveKeplerEquation (meanAnomalyAtTime orbit t) (e orbit)
  = meanAnomalyAtTime orbit t
  /\ getPositionAtTime orbit t
     = {| x := a orbit * cos phase; y := a orbit * sin phase |}
  /\ magnitude (vx (getVelocityAtTime orbit t)) (vy (getVelocityAtTime orbit t))
     = sqrt (MU / a orbit).
Proof.
  intros Ha He0. cbv zeta.
  assert (He : 0 <= e orbit < 1) by (rewrite He0; lra).
  assert (HE : solveKeplerEquation (meanAnomalyAtTime orbit t) (e orbit)
               = meanAnomalyAtTime orbit t).
  { rewrite He0, solveKepler_circular. unfold meanAnomalyAtTime.
    apply normalizeAngle_fixed, normalizeAngle_range. }
  split; [exact HE|].
  split.
  - destruct (position_by_eccentric orbit
                (solveKeplerEquation (meanAnomalyAtTime orbit t) (e orbit))
                Ha He) as (_ & Hc & Hs).
    fold (getPositionAtTime orbit t) in Hc, Hs.
    rewrite HE in Hc, Hs. rewrite He0 in Hc, Hs.
    replace (1 - 0 * 0) with 1 in Hs by ring. rewrite sqrt_1 in Hs.
    destruct (normalizeAngle_range (M0 orbit + sqrt (MU / a orbit ^ 3) * t))
      as [_ [k Hk]].
    fold (meanAnomalyAtTime orbit t) in Hk.
    destruct (shift_direction (M0 orbit + sqrt (MU / a orbit ^ 3) * t) k)
      as [HcM HsM].
    rewrite <- Hk in HcM, HsM. rewrite HcM in Hc. rewrite HsM in Hs.
    set (m := M0 orbit + sqrt (MU / a orbit ^ 3) * t) in *.
    pose proof (sin2_cos2 (omega orbit)) as Hw. unfold Rsqr in Hw.
    destruct (getPositionAtTime orbit t) as [px py]. cbn [x y] in *.
    rewrite cos_plus, sin_plus.
    set (cw := cos (omega orbit)) in *. set (sw := sin (omega orbit)) in *.
    set (cm := cos m) in *. set (sm := sin m) in *. set (A := a orbit) in *.
    clearbody cw sw cm sm A. clear - Hc Hs Hw.
    f_equal; nsatz.
  - destruct (state_momentum orbit (getTrueAnomalyAtTime orbit t) Ha He)
      as (_ & Hv & _).
    rewrite <- getVelocityAtTime_eq, <- getPositionAtTime_eq in Hv.
    rewrite Hv. f_equal.
    destruct (position_by_eccentric orbit
                (solveKeplerEquation (meanAnomalyAtTime orbit t) (e orbit))
                Ha He) as (Hmag & _).
    fold (getPositionAtTime orbit t) in Hmag.
    rewrite Hmag, He0. field. lra.
Qed.

Lemma circular_orbit_is_uniform_witness :
  let orbit := {| a := 500; e := 0; omega := 1; M0 := 2 |} in
  let phase := 1 + (2 + sqrt (MU / 500 ^ 3) * 3) in
  solveKeplerEquation (meanAnomalyAtTime orbit 3) 0
  = meanAnomalyAtTime orbit 3
  /\ getPositionAtTime orbit 3
     = {| x := 500 * cos phase; y := 500 * sin phase |}
  /\ magnitude (vx (getVelocityAtTime orbit 3)) (vy (getVelocityAtTime orbit 3))
     = sqrt (MU / 500).
Proof.
  intros orbit.
  apply (circular_orbit_is_uniform orbit 3); simpl; [lra | reflexivity].
Defined.

Lemma atan2_range (py px : R) : - PI < JsMath.atan2 py px <= PI.
Proof.
  destruct (Req_dec px 0) as [Hx|Hx].
  - destruct (Req_dec py 0) as [Hy|Hy].
    + subst. unfold JsMath.atan2.
      rewrite !(Rltb_false 0 0) by lra. pose proof PI_RGT_0. lra.
    + apply (atan2_direction py px). right. exact Hy.
  - apply (atan2_direction py px). left. exact Hx.
Qed.

Lemma argumentOfPeriapsis_range (ex ey : R) :
  0 <= argumentOfPeriapsis ex ey < 2 * PI.
Proof.
  unfold argumentOfPeriapsis. cbv zeta.
  pose proof (atan2_range ey ex) as Hr.
  destruct (Rltb_spec (JsMath.atan2 ey ex) 0); lra.
Qed.

End OrbitFacts.

(** ** js/orbital.js: the round trip for every closed orbit *)

Section ElementsRoundTripAnyOrbit.

Import Utils Constants Orbital.







End ElementsRoundTripAnyOrbit.

(** ** js/asteroid.js and js/main.js: the belt *)

Section BeltFacts.

Import Utils Constants Selection Asteroid.

Lemma constructor_inBelt (generateAsteroidColor : nat -> string) (id0 : nat)
    (rnd : Draws) :
  validDraws rnd -> inBelt (constructor generateAsteroidColor id0 rnd).
Proof.
  intros (HA & HE & HO & HM & HR). unfold inBelt, constructor.
  cbn [orbit radius Orbital.a Orbital.e Orbital.omega Orbital.M0].
  pose proof PI_RGT_0 as Hpi.
  pose proof (randomRange_between (rndA rnd) BELT_INNER_RADIUS
                BELT_OUTER_RADIUS HA) as H1.
  pose proof (randomRange_between (rndE rnd) MIN_ECCENTRICITY
                MAX_ECCENTRICITY HE) as H2.
  pose proof (randomRange_between (rndOmega rnd) 0 (2 * PI) HO) as H3.
  pose proof (randomRange_between (rndM0 rnd) 0 (2 * PI) HM) as H4.
  pose proof (randomPowerLaw_between (rndRadius rnd) MIN_ASTEROID_RADIUS
                MAX_ASTEROID_RADIUS 3 HR) as H5.
  unfold BELT_INNER_RADIUS, BELT_OUTER_RADIUS, MIN_ECCENTRICITY,
    MAX_ECCENTRICITY, MIN_ASTEROID_RADIUS, MAX_ASTEROID_RADIUS,
    AU_TO_PIXELS in *.
  specialize (H1 ltac:(lra)). specialize (H2 ltac:(lra)).
  specialize (H3 ltac:(lra)). specialize (H4 ltac:(lra)).
  specialize (H5 ltac:(lra) ltac:(lia)).
  repeat split; lra.
Qed.

Lemma generated_inBelt (generateAsteroidColor : nat -> string)
    (rnd : nat -> Draws) :
  (forall i : nat, validDraws (rnd i)) ->
  Forall inBelt (Simulation.generateAsteroids generateAsteroidColor rnd).
Proof.
  intros Hrnd. unfold Simulation.generateAsteroids.
  apply Forall_forall. intros b Hb. apply in_map_iff in Hb.
  destruct Hb as (i & <- & _). apply constructor_inBelt, Hrnd.
Qed.

Lemma spreadDraws_valid (i : nat) : validDraws (Samples.spreadDraws i).
Proof.
  unfold validDraws, Samples.spreadDraws. cbn [rndA rndE rndOmega rndM0 rndRadius].
  pose proof (pos_INR i) as Hi.
  assert (0 < / (INR i + 2) < 1).
  { split; [apply Rinv_0_lt_compat; lra|].
    apply Rlt_le_trans with (/ 1);
      [apply Rinv_lt_contravar; lra | rewrite Rinv_1; lra]. }
  repeat split; lra.
Qed.

(** X8.  When every result of [Math.random()] lies in [[0, 1)],
    [generateAsteroids] returns [ASTEROID_COUNT] asteroids whose ids are
    [0, 1, ...] in order; each has its semi-major axis between the belt radii
    (in pixels), its eccentricity between [MIN_ECCENTRICITY] and
    [MAX_ECCENTRICITY], [omega] and [M0] between 0 and 2π, its radius
    between [MIN_ASTEROID_RADIUS] and [MAX_ASTEROID_RADIUS], the ends of
    each range included, and its cached path and period are those of its
    orbit. *)
Theorem generateAsteroids_in_belt (generateAsteroidColor : nat -> string)
    (rnd : nat -> Draws) :
  (forall i : nat, validDraws (rnd i)) ->
  let asteroids := Simulation.generateAsteroids generateAsteroidColor rnd in
  List.length asteroids = ASTEROID_COUNT
  /\ map id asteroids = seq 0 ASTEROID_COUNT
  /\ Forall inBelt asteroids
  /\ Forall cachesConsistent asteroids.
Proof.
  intros Hrnd. cbv zeta.
  split; [|split; [|split]].
  - unfold Simulation.generateAsteroids.
    rewrite length_map, length_seq. reflexivity.
  - unfold Simulation.generateAsteroids.
    rewrite map_map. cbn [constructor id]. apply map_id.
  - apply generated_inBelt, Hrnd.
  - unfold Simulation.generateAsteroids.
    apply Forall_forall. intros b Hb. apply in_map_iff in Hb.
    destruct Hb as (i & <- & _).
    apply (create_consistent generateAsteroidColor (New i (rnd i))).
Qed.

Lemma generateAsteroids_in_belt_witness :
  let color := fun _ : nat => EmptyString in
  let rnd := Samples.spreadDraws in
  let asteroids := Simulation.generateAsteroids color rnd in
  List.length asteroids = ASTEROID_COUNT
  /\ map id asteroids = seq 0 ASTEROID_COUNT
  /\ Forall inBelt asteroids
  /\ Forall cachesConsistent asteroids.
Proof.
  intros color rnd.
  apply (generateAsteroids_in_belt color rnd).
  intros i. apply spreadDraws_valid.
Defined.

Lemma update_within_apoapsis (this : Asteroid.Asteroid) (t : R) :
  0 < Orbital.a this.(orbit) -> 0 <= Orbital.e this.(orbit) < 1 ->
  let limit := Orbital.a this.(orbit) * (1 + Orbital.e this.(orbit)) in
  Rabs (x (update this t)) <= limit /\ Rabs (y (update this t)) <= limit.
Proof.
  intros Ha He. cbv zeta. unfold update. cbn [x y].
  rewrite getPositionAtTime_eq.
  destruct (position_on_ellipse this.(orbit)
              (Orbital.getTrueAnomalyAtTime this.(orbit) t) Ha He)
    as (_ & _ & Hup).
  set (p := Orbital.getPositionFromTrueAnomaly _ _) in *.
  destruct (component_below_magnitude (Orbital.x p) (Orbital.y p)).
  split; lra.
Qed.

Lemma update_inside_world (this : Asteroid.Asteroid) (t : R) :
  inBelt this -> inside (worldBounds Simulation.world) (update this t).
Proof.
  intros (Ha & He & _).
  unfold BELT_INNER_RADIUS, BELT_OUTER_RADIUS, AU_TO_PIXELS,
    MIN_ECCENTRICITY, MAX_ECCENTRICITY in Ha, He.
  assert (Ha' : 0 < Orbital.a this.(orbit)) by lra.
  assert (He' : 0 <= Orbital.e this.(orbit) < 1) by lra.
  destruct (update_within_apoapsis this t Ha' He') as [Hx Hy].
  assert (Hlim : Orbital.a this.(orbit) * (1 + Orbital.e this.(orbit)) < 1050)
    by nra.
  apply inside_iff.
  unfold Simulation.world, Simulation.worldRadius, worldBounds,
    BELT_OUTER_RADIUS, AU_TO_PIXELS.
  cbn [Selection.x Selection.y width height minX minY worldWidth worldHeight
       objX objY asteroidCircular].
  apply Rabs_between in Hx. apply Rabs_between in Hy.
  repeat split; lra.
Qed.

Lemma updated_belt_indexed (asteroids : list Asteroid.Asteroid) (time : R) :
  Forall inBelt asteroids ->
  let updated := map (fun asteroid => update asteroid time) asteroids in
  (forall fuel : nat, fst (Simulation.update fuel asteroids time) = updated)
  /\ Forall (inside (worldBounds Simulation.world)) updated
  /\ (forall (fuel : nat) (tree : QuadTree Asteroid.Asteroid),
        snd (Simulation.update fuel asteroids time) = Some tree ->
        forall p, In p (elements tree) -> In p updated).
Proof.
  intros Hbelt. cbv zeta.
  set (updated := map (fun asteroid => update asteroid time) asteroids).
  assert (Hin : Forall (inside (worldBounds Simulation.world)) updated).
  { apply Forall_forall. intros b Hb. apply in_map_iff in Hb.
    destruct Hb as (b0 & <- & Hb0).
    apply update_inside_world.
    rewrite Forall_forall in Hbelt. apply Hbelt, Hb0. }
  split; [intros fuel; reflexivity|].
  split; [exact Hin|].
  intros fuel tree Htree p Hp. unfold Simulation.update in Htree.
  cbn [snd] in Htree. fold updated in Htree.
  unfold rebuildQuadtree in Htree.
  destruct (insertAll_sound 8 fuel updated _ tree
              (create_wellFormed _ 8) Htree) as (_ & _ & Hperm).
  cbn [elements Selection.create app bounds] in Hperm.
  apply (Permutation_in _ Hperm) in Hp.
  apply filter_In in Hp. exact (proj1 Hp).
Qed.

(** X9.  When every result of [Math.random()] lies in [[0, 1)], then at every
    simulation time every generated asteroid, once [update()] has moved it,
    lies within the world bounds that [update()] hands to [rebuildQuadtree]:
    an apoapsis is at most [525 * 1.3] pixels from the sun and the bounds
    reach 1050 pixels.  So the root of the quadtree turns no asteroid away;
    and a rebuilt tree holds updated asteroids only. *)
Theorem belt_stays_inside_world (generateAsteroidColor : nat -> string)
    (rnd : nat -> Draws) (time : R) :
  (forall i : nat, validDraws (rnd i)) ->
  let asteroids := Simulation.generateAsteroids generateAsteroidColor rnd in
  let updated := map (fun asteroid => update asteroid time) asteroids in
  (forall fuel : nat, fst (Simulation.update fuel asteroids time) = updated)
  /\ Forall (inside (worldBounds Simulation.world)) updated
  /\ (forall (fuel : nat) (tree : QuadTree Asteroid.Asteroid),
        snd (Simulation.update fuel asteroids time) = Some tree ->
        forall p, In p (elements tree) -> In p updated).
Proof.
  intros Hrnd.
  apply (updated_belt_indexed
           (Simulation.generateAsteroids generateAsteroidColor rnd) time).
  apply (generated_inBelt generateAsteroidColor rnd Hrnd).
Qed.

Lemma belt_stays_inside_world_witness :
  let color := fun _ : nat => EmptyString in
  let rnd := Samples.spreadDraws in
  let asteroids := Simulation.generateAsteroids color rnd in
  let updated := map (fun asteroid => update asteroid 0) asteroids in
  (forall fuel : nat, fst (Simulation.update fuel asteroids 0) = updated)
  /\ Forall (inside (worldBounds Simulation.world)) updated
  /\ (forall (fuel : nat) (tree : QuadTree Asteroid.Asteroid),
        snd (Simulation.update fuel asteroids 0) = Some tree ->
        forall p, In p (elements tree) -> In p updated).
Proof.
  intros color rnd.
  apply (belt_stays_inside_world color rnd 0).
  intros i. apply spreadDraws_valid.
Defined.

End BeltFacts.

(** ** js/asteroid.js: burns and hit tests *)

Section BodyFacts.

Import Utils Constants Selection Asteroid.

Lemma position_eta (p : Orbital.Position) :
  {| Orbital.x := Orbital.x p; Orbital.y := Orbital.y p |} = p.
Proof. destruct p. reflexivity. Qed.

Lemma velocity_eta (v : Orbital.Velocity) :
  {| Orbital.vx := Orbital.vx v; Orbital.vy := Orbital.vy v |} = v.
Proof. destruct v. reflexivity. Qed.

(** X10.  A body on an orbit with [a > 0], [0 < e < 1] and [omega] in
    [[0, 2π)] is moved by [update(t)] and then given [applyDeltaV(0, 0, t)]:
    the call returns [true], the orbit it stores has the same [a], [e] and
    [omega], the period is the one of [a], and the position and the velocity
    are left as [update] set them. *)
Theorem null_burn_keeps_ellipse (this : Asteroid.Asteroid) (t : R) :
  0 < Orbital.a this.(orbit) -> 0 < Orbital.e this.(orbit) < 1 ->
  0 <= Orbital.omega this.(orbit) < 2 * PI ->
  let moved := update this t in
  exists after : Asteroid.Asteroid,
    applyDeltaV moved 0 0 t = (after, true)
    /\ Orbital.a after.(orbit) = Orbital.a this.(orbit)
    /\ Orbital.e after.(orbit) = Orbital.e this.(orbit)
    /\ Orbital.omega after.(orbit) = Orbital.omega this.(orbit)
    /\ after.(period) = Orbital.orbitalPeriod (Orbital.a this.(orbit))
    /\ after.(x) = moved.(x) /\ after.(y) = moved.(y)
    /\ after.(vx) = moved.(vx) /\ after.(vy) = moved.(vy).
Proof.
  intros Ha He Hw. cbv zeta.
  assert (He' : 0 <= Orbital.e this.(orbit) < 1) by lra.
  destruct (round_trip this.(orbit) t Ha He')
    as (el & Hel & Hael & Heel & _ & Hwel).
  destruct (Hwel (proj1 He) Hw) as [Hwel' _]. clear Hwel.
  unfold applyDeltaV, update. cbn [x y vx vy orbit id radius color].
  rewrite !Rplus_0_r, position_eta, velocity_eta, Hel.
  eexists. split; [reflexivity|].
  cbn [orbit period x y vx vy].
  rewrite Hael. repeat split; assumption.
Qed.

Lemma null_burn_keeps_ellipse_witness :
  let this :=
    {| id := 1;
       orbit := {| Orbital.a := 500; Orbital.e := 1 / 2; Orbital.omega := 1;
                   Orbital.M0 := 0 |};
       radius := 5; color := EmptyString; orbitPath := [];
       x := 0; y := 0; vx := 0; vy := 0; period := 0 |} in
  let moved := update this 0 in
  exists after : Asteroid.Asteroid,
    applyDeltaV moved 0 0 0 = (after, true)
    /\ Orbital.a after.(orbit) = 500
    /\ Orbital.e after.(orbit) = 1 / 2
    /\ Orbital.omega after.(orbit) = 1
    /\ after.(period) = Orbital.orbitalPeriod 500
    /\ after.(x) = moved.(x) /\ after.(y) = moved.(y)
    /\ after.(vx) = moved.(vx) /\ after.(vy) = moved.(vy).
Proof.
  intros this.
  apply (null_burn_keeps_ellipse this 0); simpl; try lra.
  pose proof PI2_3_2. lra.
Defined.

(** X11.  [containsPoint] holds exactly for the points whose distance to
    the body's centre is at most [|radius + tolerance|], the centre always
    among them.  The test [dist <= hitRadius] of [findAsteroidAt] agrees with
    it when [radius + tolerance >= 0] and fails for every point when
    [radius + tolerance < 0]. *)
Theorem containsPoint_is_distance_test (this : Asteroid.Asteroid)
    (wx wy tolerance : R) :
  (containsPoint this wx wy tolerance = true
   <-> distance wx wy this.(x) this.(y) <= Rabs (this.(radius) + tolerance))
  /\ (hits wx wy tolerance this
      <-> containsPoint this wx wy tolerance = true
          /\ 0 <= this.(radius) + tolerance)
  /\ containsPoint this this.(x) this.(y) tolerance = true.
Proof.
  assert (Hsq : forall d h : R, 0 <= d -> (d * d <= h * h <-> d <= Rabs h)).
  { intros d h Hd. split.
    - intros Hle. unfold Rabs. destruct (Rcase_abs h); nra.
    - intros Hle. unfold Rabs in Hle. destruct (Rcase_abs h); nra. }
  assert (Hd : forall dx dy : R,
             sqrt (dx * dx + dy * dy) * sqrt (dx * dx + dy * dy)
             = dx * dx + dy * dy).
  { intros dx dy. apply sqrt_sqrt. nra. }
  unfold containsPoint, hits, distanceTo, distance. cbv zeta.
  cbn [objX objY objRadius asteroidCircular].
  set (h := this.(radius) + tolerance).
  split; [|split].
  - replace ((this.(x) - wx) * (this.(x) - wx)
             + (this.(y) - wy) * (this.(y) - wy))
      with ((wx - this.(x)) * (wx - this.(x))
            + (wy - this.(y)) * (wy - this.(y))) by ring.
    rewrite <- (Hsq _ h (sqrt_pos _)), Hd.
    destruct (Rleb_spec ((wx - this.(x)) * (wx - this.(x))
                         + (wy - this.(y)) * (wy - this.(y))) (h * h));
      split; intros; try assumption; try reflexivity; try discriminate.
    contradiction.
  - pose proof (sqrt_pos ((wx - this.(x)) * (wx - this.(x))
                          + (wy - this.(y)) * (wy - this.(y)))) as Hpos.
    pose proof (Hd (wx - this.(x)) (wy - this.(y))) as Hdd.
    set (d := sqrt _) in *.
    destruct (Rleb_spec ((wx - this.(x)) * (wx - this.(x))
                         + (wy - this.(y)) * (wy - this.(y))) (h * h))
      as [Hle|Hgt].
    + split.
      * intros Hh. split; [reflexivity | lra].
      * intros [_ Hh]. rewrite <- Hdd in Hle. nra.
    + split.
      * intros Hh. exfalso. apply Hgt. rewrite <- Hdd. nra.
      * intros [Hf _]. discriminate.
  - apply Rleb_true.
    replace ((this.(x) - this.(x)) * (this.(x) - this.(x))
             + (this.(y) - this.(y)) * (this.(y) - this.(y))) with 0 by ring.
    nra.
Qed.

End BodyFacts.

(** ** js/selection.js: queries of the quadtree *)

Section QueryFacts.

Import Selection.

Context {A : Type} `{Circular A}.

Lemma Permutation_filter (f : A -> bool) (l l' : list A) :
  Permutation l l' -> Permutation (filter f l) (filter f l').
Proof.
  induction 1 as [|a l l' _ IH|a b l|l l' l'' _ IH1 _ IH2]; cbn [filter].
  - constructor.
  - destruct (f a); [constructor|]; exact IH.
  - destruct (f a), (f b); try apply Permutation_refl.
    constructor.
  - eapply Permutation_trans; eassumption.
Qed.

Lemma filter_filter (f g : A -> bool) (l : list A) :
  filter f (filter g l) = filter (fun p => g p && f p) l.
Proof.
  induction l as [|a l IH]; cbn [filter]; [reflexivity|].
  destruct (g a); cbn [filter andb]; [|exact IH].
  destruct (f a); rewrite IH; reflexivity.
Qed.

(** X12.  In a quadtree in the state that [insert] leaves one in, where
    every node holds objects within its bounds only, [queryCircle] with any
    circle appends to [found], in the order of the nodes, the objects of
    the tree whose centre is within the circle ([dx² + dy² <= radius²]),
    each as often as the tree holds it, and nothing else: the test
    [intersectsCircle] skips no node that holds such an object. *)
Theorem queryCircle_exact (c : nat) (tree : QuadTree A) (cx cy radius : R)
    (found : list A) :
  wellFormed c tree ->
  queryCircle tree cx cy radius found
  = found ++ queryCircle tree cx cy radius []
  /\ queryCircle tree cx cy radius []
     = filter (inCircle cx cy radius) (elements tree)
  /\ (forall p : A,
        In p (queryCircle tree cx cy radius [])
        <-> In p (elements tree) /\ inCircle cx cy radius p = true).
Proof.
  intros Hwf.
  pose proof (queryCircle_filter c cx cy radius tree Hwf) as Hq.
  split; [rewrite (Hq found), (Hq []); reflexivity|].
  split; [exact (Hq [])|].
  intros p. rewrite (Hq []). cbn [app]. apply filter_In.
Qed.

(** X15.  For bounds of width and height at least 0, [intersectsCircle]
    holds exactly when some point of the closed rectangle is within the
    circle. *)
Theorem intersectsCircle_exact (b : Bounds) (cx cy radius : R) :
  0 <= b.(width) -> 0 <= b.(height) ->
  intersectsCircle b cx cy radius = true
  <-> exists px py : R,
        b.(x) <= px <= b.(x) + b.(width)
        /\ b.(y) <= py <= b.(y) + b.(height)
        /\ (px - cx) * (px - cx) + (py - cy) * (py - cy) <= radius * radius.
Proof.
  intros Hw Hh. unfold intersectsCircle. cbv zeta.
  set (qx := JsMath.max b.(x) (JsMath.min cx (b.(x) + b.(width)))).
  set (qy := JsMath.max b.(y) (JsMath.min cy (b.(y) + b.(height)))).
  assert (Hqx : b.(x) <= qx <= b.(x) + b.(width)).
  { unfold qx, JsMath.max, JsMath.min.
    destruct (Rleb_spec cx (b.(x) + b.(width)));
      [destruct (Rleb_spec b.(x) cx) | destruct (Rleb_spec b.(x) (b.(x) + b.(width)))];
      lra. }
  assert (Hqy : b.(y) <= qy <= b.(y) + b.(height)).
  { unfold qy, JsMath.max, JsMath.min.
    destruct (Rleb_spec cy (b.(y) + b.(height)));
      [destruct (Rleb_spec b.(y) cy) | destruct (Rleb_spec b.(y) (b.(y) + b.(height)))];
      lra. }
  split.
  - intros Hint. exists qx, qy.
    split; [exact Hqx | split; [exact Hqy|]].
    destruct (Rleb_spec ((cx - qx) * (cx - qx) + (cy - qy) * (cy - qy))
                (radius * radius)) as [Hle|]; [|discriminate].
    replace ((qx - cx) * (qx - cx) + (qy - cy) * (qy - cy))
      with ((cx - qx) * (cx - qx) + (cy - qy) * (cy - qy)) by ring.
    exact Hle.
  - intros (px & py & Hpx & Hpy & Hin).
    apply Rleb_true.
    pose proof (clamp_nearest b.(x) b.(width) cx px Hpx) as H1.
    pose proof (clamp_nearest b.(y) b.(height) cy py Hpy) as H2.
    cbv zeta in H1, H2. fold qx in H1. fold qy in H2. lra.
Qed.

End QueryFacts.

Section QueryInstances.
Import Selection Samples.

Lemma restingBody_inside : inside (worldBounds world) restingBody.
Proof. apply inside_iff. cbn. lra. Qed.

(** Decide every test [containsPoint] on given numbers. *)
Ltac settle_contains :=
  repeat match goal with
  | |- context [containsPoint ?b ?px ?py] =>
      first
        [ replace (containsPoint b px py) with true
            by (symmetry; apply containsPoint_true; cbn; lra)
        | replace (containsPoint b px py) with false
            by (symmetry; apply not_true_is_false; intros E;
                apply containsPoint_true in E; cbn in E; lra) ]
  end.

(** [dividedTree] is the tree that [insert] builds from [twoBodies]. *)
Lemma twoBodies_tree :
  insertAll 2 (create (worldBounds world) 1) twoBodies = Some dividedTree.
Proof.
  unfold insertAll, twoBodies, dividedTree, create. cbn [fold_left bind].
  rewrite insert_leaf_room by (cbn; lia).
  cbn [objX objY asteroidCircular bodyAt Asteroid.x Asteroid.y].
  settle_contains. cbn [bind].
  rewrite insert_unfold. cbn [bounds].
  cbn [objX objY asteroidCircular bodyAt Asteroid.x Asteroid.y].
  settle_contains. cbn [negb List.length Nat.ltb Nat.leb app].
  rewrite redistribute_cons. unfold subdivide, create. cbv zeta.
  unfold insertIntoChildren at 1.
  rewrite !insert_leaf_room by (cbn; lia).
  cbn [objX objY asteroidCircular bodyAt Asteroid.x Asteroid.y].
  settle_contains. cbn [bind redistribute fold_left].
  unfold insertIntoChildren.
  rewrite !insert_leaf_room by (cbn; lia).
  cbn [objX objY asteroidCircular bodyAt Asteroid.x Asteroid.y].
  settle_contains. cbn [bind app bounds].
  rewrite insert_unfold. cbn [bounds].
  cbn [objX objY asteroidCircular bodyAt Asteroid.x Asteroid.y].
  settle_contains. cbn [negb bind].
  rewrite insert_leaf_room by (cbn; lia).
  cbn [objX objY asteroidCircular bodyAt Asteroid.x Asteroid.y].
  settle_contains. cbn [bind app bounds].
  reflexivity.
Qed.
Lemma dividedTree_wellFormed : wellFormed 1 dividedTree.
Proof.
  unfold dividedTree. cbn.
  repeat split; try reflexivity; try lia;
    constructor; try constructor; apply inside_iff; cbn; lra.
Qed.

(** A subdivided tree with a body in each of two children, and a circle
    that holds one of the two. *)
Lemma queryCircle_exact_witness :
  queryCircle dividedTree 0 0 20 [restingBody]
  = [restingBody] ++ queryCircle dividedTree 0 0 20 []
  /\ queryCircle dividedTree 0 0 20 []
     = filter (inCircle 0 0 20) (elements dividedTree)
  /\ (forall p : Asteroid.Asteroid,
        In p (queryCircle dividedTree 0 0 20 [])
        <-> In p (elements dividedTree) /\ inCircle 0 0 20 p = true).
Proof.
  apply (queryCircle_exact 1 dividedTree 0 0 20 [restingBody]).
  exact dividedTree_wellFormed.
Defined.

Lemma intersectsCircle_exact_witness :
  intersectsCircle (worldBounds world) 0 0 10 = true
  <-> exists px py : R,
        -100 <= px <= -100 + 200
        /\ -100 <= py <= -100 + 200
        /\ (px - 0) * (px - 0) + (py - 0) * (py - 0) <= 10 * 10.
Proof.
  apply (intersectsCircle_exact (worldBounds world) 0 0 10); cbn; lra.
Defined.

End QueryInstances.

(** ** js/selection.js: the selection and its callback *)

Section ManagerFacts.

Import Selection SelectionManager.

Context {A : Type} `{Circular A}.

Variable same : forall p q : option A, {p = q} + {p <> q}.

Lemma changes_snoc (previous : option A) (calls : list (option A))
    (call : option A) :
  changes previous calls -> call <> last calls previous ->
  changes previous (calls ++ [call]).
Proof.
  revert previous. induction calls as [|c calls IH]; intros previous Hch Hne.
  - cbn in *. split; [exact Hne | exact I].
  - cbn [app changes] in *. destruct Hch as [Hc Hch].
    split; [exact Hc|]. apply IH; [exact Hch|].
    rewrite last_cons in Hne. exact Hne.
Qed.

Lemma select_tracked (this : SelectionManager A) (asteroid : option A) :
  tracked this -> tracked (select same this asteroid).
Proof.
  intros (Hcb & Hlast & Hch). unfold tracked, select.
  cbn [onSelectionChange notified selectedAsteroid].
  rewrite Hcb.
  destruct (same this.(selectedAsteroid) asteroid) as [Heq|Hne]; cbn [andb].
  - split; [reflexivity|]. split; [congruence | exact Hch].
  - split; [reflexivity|]. split.
    + apply last_last.
    + apply changes_snoc; [exact Hch|]. rewrite Hlast. congruence.
Qed.

Lemma perform_tracked (this this' : SelectionManager A) (action : Action A) :
  tracked this -> perform same this action = Some this' -> tracked this'.
Proof.
  intros Ht. destruct action as [fuel asteroids world|asteroid| |sx sy cv cam];
    cbn [perform].
  - unfold rebuildQuadtree.
    destruct (Selection.rebuildQuadtree fuel asteroids world); [|discriminate].
    intros Heq. injection Heq as <-. exact Ht.
  - intros Heq. injection Heq as <-. apply select_tracked, Ht.
  - intros Heq. injection Heq as <-. apply select_tracked, Ht.
  - intros Heq. injection Heq as <-. apply select_tracked, Ht.
Qed.

Lemma perform_stops (this : SelectionManager A) (action : Action A) :
  perform same this action = None ->
  exists fuel asteroids world, action = Rebuild fuel asteroids world.
Proof.
  destruct action as [fuel asteroids world|asteroid| |sx sy cv cam];
    cbn [perform]; try discriminate.
  intros _. exists fuel, asteroids, world. reflexivity.
Qed.

Lemma lifetime_stopped (l : list (Action A)) :
  fold_left
    (fun this action =>
       match this with
       | Some this => perform same this action
       | None => None
       end) l None = None.
Proof. induction l as [|action l IH]; [reflexivity | exact IH]. Qed.

(** X16.  Once main.js has set the callback, whatever the manager is asked
    to do ([rebuildQuadtree], [select], [deselect], [handleClick]), the
    callback is called exactly on changes of the selection: no call repeats
    the value of the call before it, the first call does not pass [null],
    and the value of the last call is what [getSelected] returns.  Only a
    call of [rebuildQuadtree] that does not return ends a run. *)
Theorem notifications_track_selection (actions : list (Action A)) :
  match lifetime same actions with
  | Some this =>
      last this.(notified) None = getSelected this
      /\ changes None this.(notified)
  | None =>
      exists fuel asteroids world, In (Rebuild fuel asteroids world) actions
  end.
Proof.
  unfold lifetime.
  assert (Hgen : forall (l : list (Action A)) (start : option (SelectionManager A)),
             match start with Some s => tracked s | None => True end ->
             match
               fold_left
                 (fun this action =>
                    match this with
                    | Some this => perform same this action
                    | None => None
                    end) l start
             with
             | Some this => tracked this
             | None =>
                 start = None
                 \/ exists fuel asteroids world,
                      In (Rebuild fuel asteroids world) l
             end).
  { induction l as [|action l IH]; intros start Hstart; cbn [fold_left].
    - destruct start; [exact Hstart | left; reflexivity].
    - destruct start as [s|].
      + destruct (perform same s action) as [s'|] eqn:Hp.
        * specialize (IH (Some s') (perform_tracked s s' action Hstart Hp)).
          destruct (fold_left _ l (Some s')); [exact IH|].
          destruct IH as [Hf|(fuel & asteroids & world & Hin)];
            [discriminate|].
          right. exists fuel, asteroids, world. right. exact Hin.
        * destruct (perform_stops s action Hp) as (fuel & asteroids & world & ->).
          rewrite lifetime_stopped.
          right. exists fuel, asteroids, world. left. reflexivity.
      + rewrite lifetime_stopped. left. reflexivity. }
  specialize (Hgen actions (Some (setOnSelectionChange constructor))).
  cbv beta in Hgen.
  destruct (fold_left _ actions (Some (setOnSelectionChange constructor))).
  - destruct Hgen as (_ & Hlast & Hch).
    + cbn. repeat split.
    + split; [exact Hlast | exact Hch].
  - destruct Hgen as [Hf|Hex].
    + cbn. repeat split.
    + discriminate.
    + exact Hex.
Qed.

End ManagerFacts.

(** ** js/camera.js *)

Section CameraFacts.

Import Utils Constants Camera.

Lemma zoom_limits : 0 < MIN_ZOOM <= MAX_ZOOM.
Proof. unfold MIN_ZOOM, MAX_ZOOM. lra. Qed.

(** X17.  For a zoom other than 0, [screenToWorld] and [worldToScreen] are
    inverse to each other, whatever the size of the canvas and the place of
    the camera. *)
Theorem screen_world_round_trip (canvas : Canvas) (this : Camera)
    (px py : R) :
  this.(zoom) <> 0 ->
  let screen := worldToScreen canvas this px py in
  let world := screenToWorld canvas this px py in
  screenToWorld canvas this (fst screen) (snd screen) = (px, py)
  /\ worldToScreen canvas this (fst world) (snd world) = (px, py).
Proof.
  intros Hz. cbv zeta. unfold worldToScreen, screenToWorld. cbn [fst snd].
  split; f_equal; field; exact Hz.
Qed.

Lemma screen_world_round_trip_witness :
  let canvas := Samples.canvas in
  let this := constructor in
  let screen := worldToScreen canvas this 3 4 in
  let world := screenToWorld canvas this 3 4 in
  screenToWorld canvas this (fst screen) (snd screen) = (3, 4)
  /\ worldToScreen canvas this (fst world) (snd world) = (3, 4).
Proof.
  intros canvas this.
  apply (screen_world_round_trip canvas this 3 4). simpl. lra.
Defined.

Lemma perform_zoom_range (canvas : Canvas) (this : Camera) (action : Action) :
  MIN_ZOOM <= this.(zoom) <= MAX_ZOOM ->
  MIN_ZOOM <= (perform canvas this action).(zoom) <= MAX_ZOOM.
Proof.
  intros Hin. pose proof zoom_limits as Hlim.
  destruct action as [e|e| |e|wx wy| |z]; cbn [perform].
  - unfold onWheel, handleZoom. cbn [zoom].
    apply clamp_between. lra.
  - unfold onMouseDown. destruct (button e =? 0)%Z; cbn [zoom]; exact Hin.
  - exact Hin.
  - unfold onMouseMove. destruct this.(isPanning); [|exact Hin].
    cbv zeta.
    destruct (Rltb 3 (Rabs (e.(clientX) - this.(lastMouseX)))
              || Rltb 3 (Rabs (e.(clientY) - this.(lastMouseY))));
      cbn [handlePan zoom]; exact Hin.
  - exact Hin.
  - cbn [reset zoom]. unfold MIN_ZOOM, MAX_ZOOM. lra.
  - cbn [setZoom zoom]. apply clamp_between. lra.
Qed.

(** X18.  From its construction on, whatever happens to the camera (wheel,
    mouse down, up and move, [centerOn], [reset], [setZoom], on a canvas of
    any size), its zoom stays within [[MIN_ZOOM, MAX_ZOOM]]; in particular
    it is positive, so the divisions by the zoom divide by a positive
    number. *)
Theorem zoom_stays_in_range (actions : list (Canvas * Action)) :
  let this := lifetime actions in
  MIN_ZOOM <= this.(zoom) <= MAX_ZOOM /\ 0 < this.(zoom).
Proof.
  cbv zeta.
  assert (Hgen : forall (l : list (Canvas * Action)) (start : Camera),
             MIN_ZOOM <= start.(zoom) <= MAX_ZOOM ->
             MIN_ZOOM
             <= (fold_left
                   (fun this '(canvas, action) => perform canvas this action)
                   l start).(zoom)
             <= MAX_ZOOM).
  { induction l as [|[canvas action] l IH]; intros start Hstart;
      cbn [fold_left]; [exact Hstart|].
    apply IH, perform_zoom_range, Hstart. }
  assert (Hin : MIN_ZOOM <= (lifetime actions).(zoom) <= MAX_ZOOM).
  { apply Hgen. cbn [constructor zoom]. unfold MIN_ZOOM, MAX_ZOOM. lra. }
  split; [exact Hin|]. pose proof zoom_limits. lra.
Qed.

(** X19.  [handleZoom] sets the zoom to the old zoom times
    [1 - deltaY * ZOOM_SPEED], clamped to [[MIN_ZOOM, MAX_ZOOM]], and moves
    the camera so that the world point under the mouse before the zoom is
    under the mouse after it. *)
Theorem zoom_keeps_point_under_cursor (canvas : Canvas) (this : Camera)
    (e : MouseEvent) :
  this.(zoom) <> 0 ->
  let mouseX := e.(clientX) - canvas.(left) in
  let mouseY := e.(clientY) - canvas.(top) in
  let after := handleZoom canvas this e in
  screenToWorld canvas after mouseX mouseY
  = screenToWorld canvas this mouseX mouseY
  /\ after.(zoom)
     = clamp (this.(zoom) * (1 - e.(deltaY) * ZOOM_SPEED)) MIN_ZOOM MAX_ZOOM
  /\ MIN_ZOOM <= after.(zoom) <= MAX_ZOOM.
Proof.
  intros Hz. cbv zeta. pose proof zoom_limits as Hlim.
  unfold handleZoom. cbv zeta. cbn [zoom x y].
  replace (1 + - e.(deltaY) * ZOOM_SPEED) with (1 - e.(deltaY) * ZOOM_SPEED)
    by ring.
  pose proof (clamp_between (this.(zoom) * (1 - e.(deltaY) * ZOOM_SPEED))
                MIN_ZOOM MAX_ZOOM (proj2 Hlim)) as Hc.
  set (z' := clamp (this.(zoom) * (1 - e.(deltaY) * ZOOM_SPEED))
               MIN_ZOOM MAX_ZOOM) in *.
  split; [|split; [reflexivity | exact Hc]].
  unfold screenToWorld. cbn [fst snd x y zoom].
  f_equal; field; split; lra.
Qed.

Lemma zoom_keeps_point_under_cursor_witness :
  let canvas := Samples.canvas in
  let this := constructor in
  let e := {| button := 0; clientX := 100; clientY := 50; deltaY := -100 |} in
  let mouseX := 100 - 0 in
  let mouseY := 50 - 0 in
  let after := handleZoom canvas this e in
  screenToWorld canvas after mouseX mouseY
  = screenToWorld canvas this mouseX mouseY
  /\ after.(zoom) = clamp (1 * (1 - -100 * ZOOM_SPEED)) MIN_ZOOM MAX_ZOOM
  /\ MIN_ZOOM <= after.(zoom) <= MAX_ZOOM.
Proof.
  intros canvas this e.
  apply (zoom_keeps_point_under_cursor canvas this e). simpl. lra.
Defined.

Lemma onMouseMove_panning (this : Camera) (mx my : R) :
  this.(isPanning) = true ->
  let e := {| button := 0; clientX := mx; clientY := my; deltaY := 0 |} in
  let after := onMouseMove this e in
  after.(x) = this.(x) - (mx - this.(lastMouseX)) / this.(zoom)
  /\ after.(y) = this.(y) - (my - this.(lastMouseY)) / this.(zoom)
  /\ after.(zoom) = this.(zoom)
  /\ after.(isPanning) = true
  /\ after.(lastMouseX) = mx /\ after.(lastMouseY) = my
  /\ (after.(hasDragged) = true
      <-> this.(hasDragged) = true
          \/ bigStep (this.(lastMouseX), this.(lastMouseY)) (mx, my)).
Proof.
  intros Hpan. cbv zeta. unfold onMouseMove. rewrite Hpan.
  cbn [clientX clientY]. unfold bigStep. cbn [fst snd].
  destruct (Rltb_spec 3 (Rabs (mx - this.(lastMouseX)))) as [Hx|Hx];
    destruct (Rltb_spec 3 (Rabs (my - this.(lastMouseY)))) as [Hy|Hy];
    cbn [orb handlePan x y zoom isPanning hasDragged lastMouseX lastMouseY
         clientX clientY];
    rewrite ?Hpan;
    repeat (split; [reflexivity|]);
    try (split; [intros _; right; auto | reflexivity]).
  split; [intros Hd; left; exact Hd|].
  intros [Hd|[Hb|Hb]]; [exact Hd | lra | lra].
Qed.

Lemma drag_from (positions : list (R * R)) :
  forall this : Camera,
    this.(isPanning) = true -> this.(zoom) <> 0 ->
    let start := (this.(lastMouseX), this.(lastMouseY)) in
    let after := drag this positions in
    let final := last positions start in
    after.(x) = this.(x) - (fst final - fst start) / this.(zoom)
    /\ after.(y) = this.(y) - (snd final - snd start) / this.(zoom)
    /\ after.(zoom) = this.(zoom)
    /\ (after.(hasDragged) = true
        <-> this.(hasDragged) = true
            \/ Exists (fun s => bigStep (fst s) (snd s))
                 (steps start positions)).
Proof.
  induction positions as [|[mx my] rest IH]; intros this Hpan Hz; cbv zeta.
  - cbn [drag fold_left last steps fst snd].
    split; [field; exact Hz | split; [field; exact Hz | split; [reflexivity|]]].
    split; [intros Hd; left; exact Hd|].
    intros [Hd|Hex]; [exact Hd | inversion Hex].
  - destruct (onMouseMove_panning this mx my Hpan)
      as (Hx & Hy & Hzoom & Hpan' & Hlx & Hly & Hdrag).
    cbv zeta in Hx, Hy, Hzoom, Hpan', Hlx, Hly, Hdrag.
    unfold drag. cbn [fold_left steps].
    set (next := onMouseMove this
                   {| button := 0; clientX := mx; clientY := my;
                      deltaY := 0 |}) in *.
    assert (Hz' : next.(zoom) <> 0) by (rewrite Hzoom; exact Hz).
    destruct (IH next Hpan' Hz') as (Hx' & Hy' & Hzoom' & Hdrag').
    cbv zeta in Hx', Hy', Hzoom', Hdrag'. unfold drag in Hx', Hy', Hzoom', Hdrag'.
    rewrite Hlx, Hly in Hx', Hy', Hdrag'.
    rewrite last_cons. cbn [fst snd].
    rewrite Hx', Hy', Hzoom', Hx, Hy, Hzoom. cbn [fst snd].
    split; [field; exact Hz | split; [field; exact Hz | split; [reflexivity|]]].
    rewrite Hdrag', Hdrag. cbn [fst snd]. split.
    + intros [[Hd|Hb]|Hex];
        [left; exact Hd
        | right; apply Exists_cons; left; exact Hb
        | right; apply Exists_cons; right; exact Hex].
    + intros [Hd|Hex]; [left; left; exact Hd|].
      apply Exists_cons in Hex. destruct Hex as [Hb|Hex'];
        [left; right; exact Hb | right; exact Hex'].
Qed.

(** X20.  A press of the left button followed by moves of the mouse pans
    the camera by the whole displacement of the mouse divided by the zoom,
    against the direction of the drag, and leaves the zoom alone.
    [hasDragged] ends up [true] exactly when one single move was longer than
    3 pixels along an axis: a drag made of shorter moves, however far it
    goes, leaves it [false], and the click that ends it selects. *)
Theorem drag_pans_with_mouse (this : Camera) (down : MouseEvent)
    (positions : list (R * R)) :
  down.(button) = 0%Z -> this.(zoom) <> 0 ->
  let start := (down.(clientX), down.(clientY)) in
  let after := drag (onMouseDown this down) positions in
  let final := last positions start in
  after.(x) = this.(x) - (fst final - fst start) / this.(zoom)
  /\ after.(y) = this.(y) - (snd final - snd start) / this.(zoom)
  /\ after.(zoom) = this.(zoom)
  /\ (after.(hasDragged) = true
      <-> Exists (fun s => bigStep (fst s) (snd s)) (steps start positions)).
Proof.
  intros Hb Hz. cbv zeta.
  assert (Hdown : onMouseDown this down
                  = {| x := this.(x); y := this.(y); zoom := this.(zoom);
                       isPanning := true; hasDragged := false;
                       lastMouseX := down.(clientX);
                       lastMouseY := down.(clientY) |}).
  { unfold onMouseDown. rewrite Hb. reflexivity. }
  rewrite Hdown.
  set (held := {| x := this.(x); y := this.(y); zoom := this.(zoom);
                  isPanning := true; hasDragged := false;
                  lastMouseX := down.(clientX);
                  lastMouseY := down.(clientY) |}).
  destruct (drag_from positions held eq_refl Hz) as (Hx & Hy & Hzoom & Hdrag).
  cbv zeta in Hx, Hy, Hzoom, Hdrag.
  cbn [held x y zoom lastMouseX lastMouseY hasDragged] in Hx, Hy, Hzoom, Hdrag.
  split; [exact Hx | split; [exact Hy | split; [exact Hzoom|]]].
  rewrite Hdrag. split; [intros [Hf|Hex]; [discriminate | exact Hex]|].
  intros Hex. right. exact Hex.
Qed.

Lemma drag_pans_with_mouse_witness :
  let this := constructor in
  let down := {| button := 0; clientX := 10; clientY := 10; deltaY := 0 |} in
  let positions := [(12, 11); (14, 12); (16, 13)] in
  let start := (10, 10) in
  let after := drag (onMouseDown this down) positions in
  let final := last positions start in
  after.(x) = 0 - (fst final - fst start) / 1
  /\ after.(y) = 0 - (snd final - snd start) / 1
  /\ after.(zoom) = 1
  /\ (after.(hasDragged) = true
      <-> Exists (fun s => bigStep (fst s) (snd s)) (steps start positions)).
Proof.
  intros this down positions.
  apply (drag_pans_with_mouse this down positions);
    [reflexivity | simpl; lra].
Defined.

Lemma on_screen_axis (p c z h : R) :
  0 < z ->
  (- 0 <= (p - c) * z + h / 2 /\ (p - c) * z + h / 2 <= h + 0)
  <-> (0 - h / 2) / z + c <= p <= (h - h / 2) / z + c.
Proof.
  intros Hz.
  assert (Hl : (0 - h / 2) / z + c = c - h / 2 / z) by (field; lra).
  assert (Hr : (h - h / 2) / z + c = c + h / 2 / z) by (field; lra).
  rewrite Hl, Hr.
  assert (Hd : h / 2 / z * z = h / 2) by (field; lra).
  set (d := h / 2 / z) in *.
  replace (h + 0) with (h / 2 + h / 2) by field.
  rewrite <- Hd.
  split.
  - intros [H1 H2]. split.
    + apply Rmult_le_reg_r with z; [exact Hz|]. nra.
    + apply Rmult_le_reg_r with z; [exact Hz|]. nra.
  - intros [H1 H2]. split.
    + assert (0 <= (p - (c - d)) * z) by (apply Rmult_le_pos; lra). nra.
    + assert (0 <= (c + d - p) * z) by (apply Rmult_le_pos; lra). nra.
Qed.

(** X21.  For a positive zoom, a world point is within the bounds that
    [getVisibleBounds] returns exactly when [isVisible] holds of its screen
    position with margin 0; the bounds are as wide and as high as the canvas
    divided by the zoom, and the camera is at their centre. *)
Theorem visible_bounds_are_the_screen (canvas : Canvas) (this : Camera)
    (px py : R) :
  0 < this.(zoom) ->
  let bounds := getVisibleBounds canvas this in
  let screen := worldToScreen canvas this px py in
  (isVisible canvas (fst screen) (snd screen) 0 = true
   <-> bounds.(minX) <= px <= bounds.(maxX)
       /\ bounds.(minY) <= py <= bounds.(maxY))
  /\ bounds.(visibleWidth) = canvas.(width) / this.(zoom)
  /\ bounds.(visibleHeight) = canvas.(height) / this.(zoom)
  /\ bounds.(minX) + bounds.(visibleWidth) / 2 = this.(x)
  /\ bounds.(minY) + bounds.(visibleHeight) / 2 = this.(y).
Proof.
  intros Hz. cbv zeta.
  unfold getVisibleBounds, screenToWorld, worldToScreen, isVisible.
  cbn [fst snd minX minY maxX maxY visibleWidth visibleHeight].
  split; [|repeat split; field; lra].
  rewrite <- (on_screen_axis px this.(x) this.(zoom) canvas.(width) Hz).
  rewrite <- (on_screen_axis py this.(y) this.(zoom) canvas.(height) Hz).
  rewrite !andb_true_iff.
  split.
  - intros [[[H1 H2] H3] H4].
    destruct (Rleb_spec (- 0) ((px - this.(x)) * this.(zoom) + canvas.(width) / 2));
      [|discriminate].
    destruct (Rleb_spec ((px - this.(x)) * this.(zoom) + canvas.(width) / 2)
                (canvas.(width) + 0)); [|discriminate].
    destruct (Rleb_spec (- 0) ((py - this.(y)) * this.(zoom) + canvas.(height) / 2));
      [|discriminate].
    destruct (Rleb_spec ((py - this.(y)) * this.(zoom) + canvas.(height) / 2)
                (canvas.(height) + 0)); [|discriminate].
    repeat split; assumption.
  - intros [[H1 H2] [H3 H4]].
    repeat split; apply Rleb_true; assumption.
Qed.

Lemma visible_bounds_are_the_screen_witness :
  let canvas := Samples.canvas in
  let this := constructor in
  let bounds := getVisibleBounds canvas this in
  let screen := worldToScreen canvas this 3 4 in
  (isVisible canvas (fst screen) (snd screen) 0 = true
   <-> bounds.(minX) <= 3 <= bounds.(maxX)
       /\ bounds.(minY) <= 4 <= bounds.(maxY))
  /\ bounds.(visibleWidth) = 800 / 1
  /\ bounds.(visibleHeight) = 600 / 1
  /\ bounds.(minX) + bounds.(visibleWidth) / 2 = 0
  /\ bounds.(minY) + bounds.(visibleHeight) / 2 = 0.
Proof.
  intros canvas this.
  apply (visible_bounds_are_the_screen canvas this 3 4). simpl. lra.
Defined.

End CameraFacts.

(** ** js/minimap.js *)

Section MinimapFacts.

Import Constants Minimap.

Lemma minimap_scale : constructor.(scale) = 10 / 63 /\ constructor.(centerX) = 100
                      /\ constructor.(centerY) = 100.
Proof.
  unfold constructor. cbn [scale centerX centerY].
  unfold MINIMAP_SIZE, BELT_OUTER_RADIUS, AU_TO_PIXELS.
  repeat split; field.
Qed.

(** X22.  A click on the minimap centres the main camera on the world
    point that the minimap shows at the place of the click, and leaves the
    zoom alone: [worldToMinimap] of the new centre is the place of the click,
    and a click at [worldToMinimap] of a world point centres the camera on
    that point. *)
Theorem minimap_click_centres_camera (canvas : Camera.Canvas)
    (e : Camera.MouseEvent) (mainCamera : Camera.Camera) (wx wy : R) :
  let this := constructor in
  let camera := handleClick this canvas e mainCamera in
  worldToMinimap this (Camera.x camera) (Camera.y camera)
  = (Camera.clientX e - Camera.left canvas,
     Camera.clientY e - Camera.top canvas)
  /\ Camera.zoom camera = Camera.zoom mainCamera
  /\ (let at_ :=
        {| Camera.button := 0;
           Camera.clientX := fst (worldToMinimap this wx wy)
                             + Camera.left canvas;
           Camera.clientY := snd (worldToMinimap this wx wy)
                             + Camera.top canvas;
           Camera.deltaY := 0 |} in
      Camera.x (handleClick this canvas at_ mainCamera) = wx
      /\ Camera.y (handleClick this canvas at_ mainCamera) = wy).
Proof.
  cbv zeta. destruct minimap_scale as (Hs & Hcx & Hcy).
  unfold handleClick, worldToMinimap, Camera.centerOn.
  cbn [Camera.x Camera.y Camera.zoom Camera.clientX Camera.clientY fst snd].
  rewrite Hs, Hcx, Hcy.
  split; [f_equal; field|].
  split; [reflexivity|].
  split; field.
Qed.

(** X23.  Whatever the camera and the canvas, the rectangle that
    [renderViewport] strokes lies within the minimap and is at least 2 pixels
    wide and high: [0 <= x <= MINIMAP_SIZE - 2], [2 <= w],
    [x + w <= MINIMAP_SIZE], and the same for [y] and [h]. *)
Theorem minimap_viewport_stays_inside (this : Minimap)
    (mainCanvas : Camera.Canvas) (mainCamera : Camera.Camera) :
  let '(x, y, w, h) := renderViewport this mainCanvas mainCamera in
  0 <= x <= MINIMAP_SIZE - 2 /\ 0 <= y <= MINIMAP_SIZE - 2
  /\ 2 <= w /\ 2 <= h
  /\ x + w <= MINIMAP_SIZE /\ y + h <= MINIMAP_SIZE.
Proof.
  unfold renderViewport. cbv zeta. unfold MINIMAP_SIZE.
  set (tx := fst (worldToMinimap this _ _)).
  set (ty := snd (worldToMinimap this _ _)).
  set (wd := fst (worldToMinimap this _ _) - tx).
  set (ht := snd (worldToMinimap this _ _) - ty).
  clearbody tx ty wd ht.
  unfold JsMath.max, JsMath.min.
  destruct (Rleb_spec (200 - 2) tx); destruct (Rleb_spec (200 - 2) ty);
    repeat match goal with
      | |- context [Rleb ?a ?b] => destruct (Rleb_spec a b)
      end; repeat split; lra.
Qed.

End MinimapFacts.

(** ** js/renderer.js *)

Section RendererFacts.

Import Selection Renderer.

Context {A : Type} `{Circular A}.

Variable same : forall p q : option A, {p = q} + {p <> q}.

Lemma insertByRadius_perm (a : A) (l : list A) :
  Permutation (insertByRadius a l) (a :: l).
Proof.
  induction l as [|b l IH]; cbn [insertByRadius]; [apply Permutation_refl|].
  destruct (Rleb (objRadius a - objRadius b) 0); [apply Permutation_refl|].
  eapply Permutation_trans; [apply perm_skip, IH | apply perm_swap].
Qed.

Lemma sortByRadius_perm (l : list A) : Permutation (sortByRadius l) l.
Proof.
  induction l as [|a l IH]; cbn [sortByRadius fold_right]; [constructor|].
  eapply Permutation_trans; [apply insertByRadius_perm|].
  apply perm_skip, IH.
Qed.

Lemma insertByRadius_sorted (a : A) (l : list A) :
  StronglySorted smallerFirst l ->
  StronglySorted smallerFirst (insertByRadius a l).
Proof.
  induction 1 as [|b l Hs IH Hb]; cbn [insertByRadius].
  - repeat constructor.
  - destruct (Rleb_spec (objRadius a - objRadius b) 0) as [Hle|Hgt].
    + constructor; [constructor; assumption|].
      constructor; [unfold smallerFirst; lra|].
      eapply Forall_impl; [|exact Hb].
      unfold smallerFirst. intros c Hc. lra.
    + constructor; [exact IH|].
      apply (Permutation_Forall (Permutation_sym (insertByRadius_perm a l))).
      constructor; [unfold smallerFirst; lra | exact Hb].
Qed.

Lemma sortByRadius_sorted (l : list A) :
  StronglySorted smallerFirst (sortByRadius l).
Proof.
  induction l as [|a l IH]; cbn [sortByRadius fold_right]; [constructor|].
  apply insertByRadius_sorted, IH.
Qed.

Lemma filter_sorted (f : A -> bool) (l : list A) :
  StronglySorted smallerFirst l -> StronglySorted smallerFirst (filter f l).
Proof.
  induction 1 as [|b l Hs IH Hb]; cbn [filter]; [constructor|].
  destruct (f b); [|exact IH].
  constructor; [exact IH|].
  apply Forall_forall. intros c Hc. apply filter_In in Hc.
  rewrite Forall_forall in Hb. apply Hb, Hc.
Qed.

(** X24.  [renderAsteroids] first renders, unselected, each asteroid other
    than the selected one that passes its visibility test, once, in the order
    of increasing radius; then it renders the selected asteroid, selected,
    last of all and so on top, whether or not that one passes the
    visibility test.  The selected asteroid is never rendered
    unselected. *)
Theorem selected_is_rendered_last (canvas : Camera.Canvas)
    (camera : Camera.Camera) (asteroids : list A) (selectedAsteroid : option A) :
  let bounds := Camera.getVisibleBounds canvas camera in
  exists others : list A,
    renderAsteroids same canvas camera asteroids selectedAsteroid
    = map (fun asteroid => (asteroid, false)) others
      ++ match selectedAsteroid with
         | Some selected => [(selected, true)]
         | None => []
         end
    /\ Permutation others
         (filter (fun a => inView bounds a
                           && if same (Some a) selectedAsteroid
                              then false else true) asteroids)
    /\ StronglySorted smallerFirst others
    /\ ~ In selectedAsteroid (map Some others).
Proof.
  cbv zeta. unfold renderAsteroids. cbv zeta.
  set (bounds := Camera.getVisibleBounds canvas camera).
  set (notSelected :=
         fun asteroid : A =>
           if same (Some asteroid) selectedAsteroid then false else true).
  exists (filter notSelected (sortByRadius (filter (inView bounds) asteroids))).
  split; [reflexivity|].
  split; [|split].
  - rewrite <- (filter_filter notSelected (inView bounds) asteroids).
    apply Permutation_filter, sortByRadius_perm.
  - apply filter_sorted, sortByRadius_sorted.
  - intros Hin. apply in_map_iff in Hin. destruct Hin as (a & Ha & Hin).
    apply filter_In in Hin. destruct Hin as [_ Hns]. unfold notSelected in Hns.
    destruct (same (Some a) selectedAsteroid); [discriminate | contradiction].
Qed.

End RendererFacts.

Section PathFacts.

Import Orbital Renderer.

Lemma generateOrbitPath_split (orbit : OrbitalElements) (numPoints : nat) :
  (1 <= numPoints)%nat ->
  generateOrbitPath orbit numPoints
  = getPositionFromTrueAnomaly orbit 0
    :: map (fun i : nat =>
              getPositionFromTrueAnomaly orbit
                (INR i / INR numPoints * 2 * PI))
         (seq 1 (numPoints - 1))
    ++ [getPositionFromTrueAnomaly orbit (2 * PI)].
Proof.
  intros Hn. unfold generateOrbitPath.
  replace (S numPoints) with (S (numPoints - 1) + 1)%nat by lia.
  rewrite seq_app. cbn [seq map Nat.add].
  rewrite map_app. cbn [map].
  replace (INR 0 / INR numPoints * 2 * PI) with 0
    by (cbn [INR]; unfold Rdiv; ring).
  replace (S (numPoints - 1)) with numPoints by lia.
  assert (Hnz : INR numPoints <> 0) by (apply not_0_INR; lia).
  replace (INR numPoints / INR numPoints * 2 * PI) with (2 * PI)
    by (field; exact Hnz).
  reflexivity.
Qed.

(** X25.  For a path that [generateOrbitPath] made with [numPoints >= 1],
    [renderOrbitPath] moves to the screen position of the first sample, the
    periapsis, and then draws [numPoints] lines, one to the screen position
    of each further sample in the order of the path; the last line ends at
    the screen position of the sample at true anomaly 2π. *)
Theorem rendered_orbit_follows_samples (canvas : Camera.Canvas)
    (camera : Camera.Camera) (orbit : OrbitalElements) (numPoints : nat) :
  (1 <= numPoints)%nat ->
  let path := generateOrbitPath orbit numPoints in
  let screen := fun p : Position =>
    Camera.worldToScreen canvas camera (x p) (y p) in
  let lineTo := fun p : Position => LineTo (fst (screen p)) (snd (screen p)) in
  let periapsis := getPositionFromTrueAnomaly orbit 0 in
  let full := getPositionFromTrueAnomaly orbit (2 * PI) in
  renderOrbitPath canvas camera (Some path)
  = MoveTo (fst (screen periapsis)) (snd (screen periapsis))
    :: map lineTo (tl path)
  /\ List.length (tl path) = numPoints
  /\ last (map lineTo (tl path)) (MoveTo 0 0) = lineTo full.
Proof.
  intros Hn. cbv zeta.
  pose proof (generateOrbitPath_length orbit numPoints) as Hlen.
  rewrite (generateOrbitPath_split orbit numPoints Hn) in *.
  set (mid := map _ (seq 1 (numPoints - 1))) in *.
  unfold renderOrbitPath.
  assert (Hlt : (List.length
                   (getPositionFromTrueAnomaly orbit 0
                    :: mid ++ [getPositionFromTrueAnomaly orbit (2 * PI)])
                 <? 2)%nat = false).
  { apply Nat.ltb_ge. rewrite Hlen. lia. }
  rewrite Hlt. cbn [tl].
  split; [reflexivity|].
  split; [cbn [List.length] in Hlen; lia|].
  rewrite map_app. cbn [map]. apply last_last.
Qed.

Lemma rendered_orbit_follows_samples_witness :
  let canvas := Samples.canvas in
  let camera := Camera.constructor in
  let orbit := {| a := 500; e := 1 / 2; omega := 0; M0 := 0 |} in
  let path := generateOrbitPath orbit 100 in
  let screen := fun p : Position =>
    Camera.worldToScreen canvas camera (x p) (y p) in
  let lineTo := fun p : Position => LineTo (fst (screen p)) (snd (screen p)) in
  let periapsis := getPositionFromTrueAnomaly orbit 0 in
  let full := getPositionFromTrueAnomaly orbit (2 * PI) in
  renderOrbitPath canvas camera (Some path)
  = MoveTo (fst (screen periapsis)) (snd (screen periapsis))
    :: map lineTo (tl path)
  /\ List.length (tl path) = 100%nat
  /\ last (map lineTo (tl path)) (MoveTo 0 0) = lineTo full.
Proof.
  intros canvas camera orbit.
  apply (rendered_orbit_follows_samples canvas camera orbit 100). lia.
Defined.

End PathFacts.

(** ** js/main.js: the clock of the game loop *)

Section ClockFacts.

Import Constants Simulation.

Lemma frames_elapse (timestamps : list R) :
  forall this : Clock,
    this.(paused) = false ->
    let after :=
      fold_left (fun c timestamp => tick c (Frame timestamp)) timestamps this in
    after.(time)
    = this.(time)
      + (last timestamps this.(lastFrameTime) - this.(lastFrameTime))
        * TIME_SCALE
    /\ after.(lastFrameTime) = last timestamps this.(lastFrameTime)
    /\ after.(paused) = false.
Proof.
  induction timestamps as [|ts rest IH]; intros this Hp; cbv zeta.
  - cbn [fold_left last]. split; [ring | split; [reflexivity | exact Hp]].
  - cbn [fold_left]. rewrite last_cons.
    set (next := tick this (Frame ts)).
    assert (Hnext : next.(time)
                    = this.(time) + (ts - this.(lastFrameTime)) * TIME_SCALE
                    /\ next.(lastFrameTime) = ts /\ next.(paused) = false).
    { unfold next. cbn [tick gameLoop time lastFrameTime paused].
      rewrite Hp. cbn [negb]. repeat split. }
    destruct Hnext as (Ht & Hl & Hp').
    destruct (IH next Hp') as (Ht' & Hl' & Hp'').
    cbv zeta in Ht', Hl', Hp''. rewrite Hl in Ht', Hl'.
    rewrite Ht', Hl', Ht. split; [ring | split; [reflexivity | exact Hp'']].
Qed.

Lemma frames_halted (timestamps : list R) :
  forall this : Clock,
    this.(paused) = true ->
    let after :=
      fold_left (fun c timestamp => tick c (Frame timestamp)) timestamps this in
    after.(time) = this.(time)
    /\ after.(lastFrameTime) = last timestamps this.(lastFrameTime)
    /\ after.(paused) = true.
Proof.
  induction timestamps as [|ts rest IH]; intros this Hp; cbv zeta.
  - cbn [fold_left last]. repeat split. exact Hp.
  - cbn [fold_left]. rewrite last_cons.
    destruct (IH (tick this (Frame ts))) as (H1 & H2 & H3).
    + cbn [tick gameLoop paused]. exact Hp.
    + cbv zeta in H1, H2, H3. rewrite H1, H2, H3.
      cbn [tick gameLoop time lastFrameTime]. rewrite Hp. cbn [negb].
      repeat split.
Qed.

(** X26.  While the simulation runs, its time after any number of frames
    is [TIME_SCALE] times the time elapsed between [start()] and the latest
    frame, however many frames there were in between.  After the space key
    has paused it, the time stays what it was through any number of frames,
    while [lastFrameTime] goes on following the frames; so the first frame
    after a second press of the space key adds the time since the latest
    frame only, not the time spent paused. *)
Theorem clock_is_frame_rate_independent (now resume : R)
    (timestamps held : list R) :
  let running :=
    fold_left (fun c timestamp => tick c (Frame timestamp)) timestamps
      (start now) in
  let halted :=
    fold_left (fun c timestamp => tick c (Frame timestamp)) held
      (tick running Space) in
  let resumed := tick (tick halted Space) (Frame resume) in
  running.(time) = (last timestamps now - now) * TIME_SCALE
  /\ halted.(time) = running.(time)
  /\ halted.(lastFrameTime) = last held (last timestamps now)
  /\ resumed.(time)
     = running.(time)
       + (resume - last held (last timestamps now)) * TIME_SCALE.
Proof.
  cbv zeta.
  destruct (frames_elapse timestamps (start now) eq_refl) as (Ht & Hl & Hp).
  cbv zeta in Ht, Hl, Hp. cbn [start time lastFrameTime] in Ht, Hl.
  split; [rewrite Ht; ring|].
  set (running := fold_left _ timestamps (start now)) in *.
  destruct (frames_halted held (tick running Space)) as (H1 & H2 & H3).
  { cbn [tick togglePause paused]. rewrite Hp. reflexivity. }
  cbv zeta in H1, H2, H3.
  set (halted := fold_left _ held (tick running Space)) in *.
  cbn [tick togglePause time lastFrameTime] in H1, H2.
  rewrite Hl in H2.
  split; [exact H1 | split; [exact H2|]].
  cbn [tick togglePause gameLoop time lastFrameTime paused].
  rewrite H3, H1, H2. cbn [negb]. reflexivity.
Qed.

End ClockFacts.

(** ** js/orbital.js: bound states *)

Section BoundOrbits.

Import Utils Constants Orbital.

(** A bound state with angular momentum is on an ellipse. *)
Lemma computeOrbit_ellipse (r : Position) (v : Velocity)
    (el : OrbitalElements) :
  x r <> 0 \/ y r <> 0 ->
  computeOrbitFromStateVectors r v = Some el ->
  0 < a el
  /\ (cross (x r) (y r) (vx v) (vy v) <> 0 -> e el < 1)
  /\ (cross (x r) (y r) (vx v) (vy v) = 0 -> e el = 1).
Proof.
  intros Hr Hsome.
  destruct (computeOrbit_some r v el Hsome) as (Hneg & Ha & He).
  cbv zeta in He.
  pose proof (magnitude_pos (x r) (y r) Hr) as Hrho.
  set (rho := magnitude (x r) (y r)) in *.
  assert (Hrho2 : rho * rho = x r * x r + y r * y r) by apply magnitude_sqr.
  assert (Hinv : rho * / rho = 1) by (apply Rinv_r; lra).
  pose proof (eccentricity_identity (x r) (y r) (vx v) (vy v) rho (/ rho)
                Hrho2 Hinv) as Hid.
  cbv zeta in Hid.
  unfold orbitalEnergy in Hneg, Ha. cbv zeta in Hneg. fold rho in Hneg, Ha.
  rewrite magnitude_sqr in Hneg, Ha, He.
  set (h := cross (x r) (y r) (vx v) (vy v)) in *.
  set (eps := (vx v * vx v + vy v * vy v) / 2 - MU / rho) in *.
  change ((vx v * vx v + vy v * vy v) / 2 - MU * / rho) with eps in Hid.
  unfold magnitude in He.
  match type of He with
  | _ = sqrt ?s =>
      set (sq := s) in *;
      change (sq = 1 + 2 * (h * h) * eps / (MU * MU)) in Hid
  end.
  assert (Hmu : 0 < / (MU * MU)) by (apply Rinv_0_lt_compat; unfold MU; lra).
  assert (Hsq0 : 0 <= sq).
  { unfold sq. apply Rplus_le_le_0_compat; apply Rle_0_sqr. }
  split; [|split].
  - rewrite Ha. unfold Rdiv.
    assert (/ (2 * eps) < 0) by (apply Rinv_lt_0_compat; lra).
    unfold MU. nra.
  - intros Hnz. rewrite He, <- sqrt_1. apply sqrt_lt_1_alt.
    split; [exact Hsq0|].
    rewrite Hid. unfold Rdiv.
    assert (0 < h * h)
      by (destruct (Rtotal_order h 0) as [?|[?|?]]; [nra|contradiction|nra]).
    assert (Hnum : 2 * (h * h) * eps < 0) by nra.
    pose proof (Rmult_lt_compat_r (/ (MU * MU)) _ 0 Hmu Hnum). lra.
  - intros Hz. rewrite He, Hid, Hz.
    replace (1 + 2 * (0 * 0) * eps / (MU * MU)) with 1
      by (unfold Rdiv; ring).
    apply sqrt_1.
Qed.

Lemma computeOrbit_bound (r : Position) (v : Velocity) :
  orbitalEnergy r v < 0 ->
  exists el : OrbitalElements, computeOrbitFromStateVectors r v = Some el.
Proof.
  intros Hneg. rewrite computeOrbit_pieces.
  rewrite Rleb_false by exact Hneg.
  destruct (eccentricityVector r v) as [ex ey]. eexists. reflexivity.
Qed.

Lemma computeOrbit_escapes (r : Position) (v : Velocity) :
  0 <= orbitalEnergy r v -> computeOrbitFromStateVectors r v = None.
Proof.
  intros Hpos. rewrite computeOrbit_pieces.
  rewrite Rleb_true by exact Hpos. reflexivity.
Qed.

Lemma higher_energy_wider (r : Position) (v v' : Velocity)
    (o o' : OrbitalElements) :
  computeOrbitFromStateVectors r v = Some o ->
  computeOrbitFromStateVectors r v' = Some o' ->
  orbitalEnergy r v < orbitalEnergy r v' -> a o < a o'.
Proof.
  intros Ho Ho' Hlt.
  destruct (computeOrbit_some r v o Ho) as (Hneg & Ha & _).
  destruct (computeOrbit_some r v' o' Ho') as (Hneg' & Ha' & _).
  rewrite Ha, Ha'.
  set (eps := orbitalEnergy r v) in *. set (eps' := orbitalEnergy r v') in *.
  pose proof MU_pos as Hmu.
  assert (H1 : - MU / (2 * eps) = MU * / (2 * - eps)) by (field; lra).
  assert (H2 : - MU / (2 * eps') = MU * / (2 * - eps')) by (field; lra).
  rewrite H1, H2. apply Rmult_lt_compat_l; [exact Hmu|].
  apply Rinv_lt_contravar; [nra | lra].
Qed.

Lemma scaled_energy (r : Position) (px py s : R) :
  orbitalEnergy r {| vx := s * px; vy := s * py |}
  - orbitalEnergy r {| vx := px; vy := py |}
  = (s * s - 1) * (magnitude px py * magnitude px py) / 2.
Proof.
  unfold orbitalEnergy. cbv zeta. cbn [vx vy].
  rewrite !magnitude_sqr. unfold Rdiv. ring.
Qed.

Lemma atan2_unit (py px : R) :
  px <> 0 \/ py <> 0 ->
  cos (JsMath.atan2 py px) = px / magnitude px py
  /\ sin (JsMath.atan2 py px) = py / magnitude px py.
Proof.
  intros Hnz. destruct (atan2_direction py px Hnz) as (Hc & Hs & _).
  cbv zeta in Hc, Hs. fold (magnitude px py) in Hc, Hs.
  pose proof (magnitude_pos px py Hnz) as Hpos.
  split.
  - rewrite <- Hc at 2. field. lra.
  - rewrite <- Hs at 2. field. lra.
Qed.

End BoundOrbits.

(** ** js/deltav-panel.js *)

Section PanelFacts.

Import Utils Constants DeltaVPanel.

Context {Ref : Type}.

Lemma updateProjection_consistent (heap : Ref -> Asteroid.Asteroid)
    (this : DeltaVPanel Ref) :
  consistent (updateProjection heap this).
Proof.
  unfold updateProjection.
  destruct this.(asteroid) as [ref|] eqn:Href.
  - destruct (Reqb_spec this.(magnitude) 0) as [Hm|Hm].
    + unfold consistent. cbn. rewrite last_last. repeat split. left. reflexivity.
    + cbv zeta.
      destruct (Orbital.computeOrbitFromStateVectors _ _) as [orbit|].
      * destruct (Rltb_spec 0 (Orbital.a orbit)) as [Ha|Ha];
          destruct (Rltb_spec (Orbital.e orbit) 1) as [He|He]; cbn [andb];
          unfold consistent; cbn; rewrite last_last;
          try (repeat split; right; reflexivity).
        repeat split; try assumption.
        rewrite Href. discriminate.
      * unfold consistent. cbn. rewrite last_last. repeat split.
        right. reflexivity.
  - unfold consistent. cbn. rewrite last_last. repeat split. left. reflexivity.
Qed.

Lemma reset_consistent (this : DeltaVPanel Ref) : consistent (reset this).
Proof.
  unfold consistent, reset. cbn. rewrite last_last. repeat split.
  left. reflexivity.
Qed.

Lemma perform_consistent_panel (heap : Ref -> Asteroid.Asteroid)
    (this : DeltaVPanel Ref) (action : Action Ref) :
  consistent this -> consistent (perform heap this action).
Proof.
  intros Hc.
  destruct action as [v|v| | | | | |ref| |]; cbn [perform].
  - apply updateProjection_consistent.
  - apply updateProjection_consistent.
  - unfold setPrograde. destruct this.(asteroid);
      [apply updateProjection_consistent | exact Hc].
  - unfold setRetrograde. destruct this.(asteroid);
      [apply updateProjection_consistent | exact Hc].
  - unfold setRadialIn. destruct this.(asteroid);
      [apply updateProjection_consistent | exact Hc].
  - unfold setRadialOut. destruct this.(asteroid);
      [apply updateProjection_consistent | exact Hc].
  - unfold onApplyClick.
    destruct this.(asteroid); [|exact Hc].
    destruct this.(projectedOrbit); [|exact Hc].
    cbn [fst]. apply reset_consistent.
  - unfold show. cbv zeta. unfold setPrograde.
    cbn [asteroid reset setAsteroid setMagnitude setProjection
         updateProjectedInfo onProjectionChange].
    apply updateProjection_consistent.
  - apply reset_consistent.
  - apply reset_consistent.
Qed.

Lemma run_consistent (actions : list ((Ref -> Asteroid.Asteroid) * Action Ref)) :
  forall this : DeltaVPanel Ref,
    consistent this -> consistent (run this actions).
Proof.
  induction actions as [|[heap action] actions IH]; intros this Hc;
    [exact Hc|].
  unfold run. cbn [fold_left]. apply IH, perform_consistent_panel, Hc.
Qed.

(** X27.  From a call of [reset()] on (and so from [show] or [hide] on),
    whatever the user and the simulation do to the panel, and whatever
    happens to the asteroids in between: the projected path is the path of
    the projected orbit, and it is what [onProjectionChange] was last called
    with; the apply button is enabled exactly when there is a projected
    orbit; a projected orbit has [a > 0] and [e < 1], and it was projected
    for a selected asteroid and a magnitude other than 0.  A click on the
    apply button calls [onApply] exactly when the button is enabled, with
    the selected asteroid and that orbit; otherwise it changes nothing. *)
Theorem apply_is_offered_for_ellipses_only (this : DeltaVPanel Ref)
    (actions : list ((Ref -> Asteroid.Asteroid) * Action Ref)) :
  let panel := run (reset this) actions in
  consistent panel
  /\ match snd (onApplyClick panel) with
     | Some (ref, orbit) =>
         panel.(applyDisabled) = false
         /\ panel.(asteroid) = Some ref
         /\ panel.(projectedOrbit) = Some orbit
         /\ 0 < Orbital.a orbit /\ Orbital.e orbit < 1
     | None =>
         panel.(applyDisabled) = true
         /\ fst (onApplyClick panel) = panel
     end.
Proof.
  cbv zeta.
  pose proof (run_consistent actions (reset this) (reset_consistent this))
    as Hc.
  split; [exact Hc|].
  set (panel := run (reset this) actions) in *.
  destruct Hc as (_ & _ & Hc). unfold onApplyClick.
  destruct panel.(projectedOrbit) as [orbit|].
  - destruct Hc as (Hd & _ & Ha & He & _ & Hast).
    destruct panel.(asteroid) as [ref|]; [|contradiction].
    cbn [snd]. repeat split; assumption.
  - destruct Hc as (Hd & _).
    destruct panel.(asteroid); cbn [snd fst]; split; auto.
Qed.

Lemma updateProjection_cases (heap : Ref -> Asteroid.Asteroid)
    (this : DeltaVPanel Ref) (ref : Ref) :
  this.(asteroid) = Some ref ->
  this.(magnitude) <> 0 ->
  Asteroid.x (heap ref) <> 0 \/ Asteroid.y (heap ref) <> 0 ->
  let dv := this.(magnitude) * DELTA_V_SCALE in
  let r :=
    {| Orbital.x := Asteroid.x (heap ref);
       Orbital.y := Asteroid.y (heap ref) |} in
  let v :=
    {| Orbital.vx := Asteroid.vx (heap ref) + dv * cos this.(direction);
       Orbital.vy := Asteroid.vy (heap ref) + dv * sin this.(direction) |} in
  let h := cross (Orbital.x r) (Orbital.y r) (Orbital.vx v) (Orbital.vy v) in
  let panel := updateProjection heap this in
  (Orbital.orbitalEnergy r v < 0 /\ h <> 0 ->
   exists orbit : Orbital.OrbitalElements,
     Orbital.computeOrbitFromStateVectors r v = Some orbit
     /\ panel.(projectedOrbit) = Some orbit
     /\ panel.(projectedInfo) = OrbitInfo orbit
     /\ panel.(applyDisabled) = false)
  /\ (0 <= Orbital.orbitalEnergy r v \/ h = 0 ->
      panel.(projectedOrbit) = None
      /\ panel.(projectedPath) = None
      /\ panel.(projectedInfo) = EscapeInfo
      /\ panel.(applyDisabled) = true).
Proof.
  intros Href Hm Hr. cbv zeta.
  unfold updateProjection. rewrite Href.
  destruct (Reqb_spec this.(magnitude) 0) as [Hz|_]; [contradiction|].
  cbv zeta.
  set (r := {| Orbital.x := Asteroid.x (heap ref);
               Orbital.y := Asteroid.y (heap ref) |}).
  set (v := {| Orbital.vx := _; Orbital.vy := _ |}).
  split.
  - intros [Hneg Hh].
    destruct (computeOrbit_bound r v Hneg) as [orbit Horbit].
    exists orbit. split; [exact Horbit|]. rewrite Horbit.
    destruct (computeOrbit_ellipse r v orbit Hr Horbit) as (Ha & He & _).
    rewrite (Rltb_true 0 (Orbital.a orbit) Ha).
    rewrite (Rltb_true (Orbital.e orbit) 1 (He Hh)).
    cbn. repeat split.
  - intros [Hpos|Hh].
    + rewrite (computeOrbit_escapes r v Hpos). cbn. repeat split.
    + destruct (Orbital.computeOrbitFromStateVectors r v) as [orbit|] eqn:Horbit;
        [|cbn; repeat split].
      destruct (computeOrbit_ellipse r v orbit Hr Horbit) as (_ & _ & He).
      rewrite (Rltb_false (Orbital.e orbit) 1) by (rewrite (He Hh); lra).
      rewrite andb_false_r. cbn. repeat split.
Qed.

Lemma updateProjection_keeps (heap : Ref -> Asteroid.Asteroid)
    (this : DeltaVPanel Ref) :
  (updateProjection heap this).(asteroid) = this.(asteroid)
  /\ (updateProjection heap this).(direction) = this.(direction)
  /\ (updateProjection heap this).(magnitude) = this.(magnitude).
Proof.
  unfold updateProjection.
  destruct this.(asteroid) as [ref|] eqn:Href;
    [|cbn; rewrite ?Href; repeat split].
  destruct (Reqb this.(magnitude) 0); [cbn; rewrite ?Href; repeat split|].
  cbv zeta.
  match goal with
  | |- context [Orbital.computeOrbitFromStateVectors ?p ?q] =>
      destruct (Orbital.computeOrbitFromStateVectors p q) as [o|]
  end; [|cbn; rewrite ?Href; repeat split].
  destruct (Rltb 0 (Orbital.a o) && Rltb (Orbital.e o) 1);
    cbn; rewrite ?Href; repeat split.
Qed.

(** The panel that [updateProjection] starts from after a direction button
    and an input of the magnitude slider. *)
Lemma burn_projection (heap : Ref -> Asteroid.Asteroid)
    (this : DeltaVPanel Ref) (ref : Ref) (angle value : R) :
  this.(asteroid) = Some ref ->
  let aimed :=
    updateProjection heap
      (updateDirectionDisplay (setDirection this angle)) in
  let fired := setMagnitude aimed value in
  onMagnitudeInput heap aimed value = updateProjection heap fired
  /\ fired.(asteroid) = Some ref
  /\ fired.(direction) = angle
  /\ fired.(magnitude) = value.
Proof.
  intros Href. cbv zeta. split; [reflexivity|].
  destruct (updateProjection_keeps heap
              (updateDirectionDisplay (setDirection this angle)))
    as (Ha & Hd & _).
  cbn [setMagnitude asteroid direction magnitude].
  rewrite Ha, Hd. cbn. split; [exact Href | split; reflexivity].
Qed.


(** What a burn along or against the velocity projects: the velocity
    scaled by [s]. *)
Lemma scaled_burn (heap : Ref -> Asteroid.Asteroid) (fired : DeltaVPanel Ref)
    (ref : Ref) (s : R) (before : Orbital.OrbitalElements) :
  let body := heap ref in
  let r := {| Orbital.x := Asteroid.x body; Orbital.y := Asteroid.y body |} in
  let v := {| Orbital.vx := Asteroid.vx body; Orbital.vy := Asteroid.vy body |} in
  let scaled :=
    {| Orbital.vx := s * Asteroid.vx body;
       Orbital.vy := s * Asteroid.vy body |} in
  fired.(asteroid) = Some ref ->
  fired.(magnitude) <> 0 ->
  Asteroid.vx body + fired.(magnitude) * DELTA_V_SCALE * cos fired.(direction)
  = s * Asteroid.vx body ->
  Asteroid.vy body + fired.(magnitude) * DELTA_V_SCALE * sin fired.(direction)
  = s * Asteroid.vy body ->
  cross (Asteroid.x body) (Asteroid.y body) (Asteroid.vx body)
    (Asteroid.vy body) <> 0 ->
  s <> 0 ->
  Orbital.computeOrbitFromStateVectors r v = Some before ->
  (Orbital.orbitalEnergy r scaled < 0 ->
   exists after : Orbital.OrbitalElements,
     (updateProjection heap fired).(projectedOrbit) = Some after
     /\ (1 < s * s -> Orbital.a before < Orbital.a after)
     /\ (s * s < 1 -> Orbital.a after < Orbital.a before))
  /\ (0 <= Orbital.orbitalEnergy r scaled ->
      (updateProjection heap fired).(projectedOrbit) = None
      /\ (updateProjection heap fired).(projectedInfo) = EscapeInfo).
Proof.
  cbv zeta. intros Href Hm Hvx Hvy Hh Hs Hbefore.
  assert (Hr : Asteroid.x (heap ref) <> 0 \/ Asteroid.y (heap ref) <> 0).
  { destruct (Req_dec (Asteroid.x (heap ref)) 0) as [Hx|Hx]; [|left; exact Hx].
    destruct (Req_dec (Asteroid.y (heap ref)) 0) as [Hy|Hy]; [|right; exact Hy].
    exfalso. apply Hh. unfold cross. rewrite Hx, Hy. ring. }
  assert (Hv : Asteroid.vx (heap ref) <> 0 \/ Asteroid.vy (heap ref) <> 0).
  { destruct (Req_dec (Asteroid.vx (heap ref)) 0) as [Hx|Hx]; [|left; exact Hx].
    destruct (Req_dec (Asteroid.vy (heap ref)) 0) as [Hy|Hy]; [|right; exact Hy].
    exfalso. apply Hh. unfold cross. rewrite Hx, Hy. ring. }
  pose proof (magnitude_pos _ _ Hv) as Hspeed.
  destruct (updateProjection_cases heap fired ref Href Hm Hr)
    as [Hyes Hno].
  cbv zeta in Hyes, Hno. cbn [Orbital.x Orbital.y Orbital.vx Orbital.vy] in Hyes, Hno.
  rewrite Hvx, Hvy in Hyes, Hno.
  assert (Hcross : cross (Asteroid.x (heap ref)) (Asteroid.y (heap ref))
                     (s * Asteroid.vx (heap ref)) (s * Asteroid.vy (heap ref))
                   <> 0).
  { unfold cross in *. intros Hz. apply Hh.
    apply Rmult_eq_reg_l with s; [|exact Hs]. rewrite Rmult_0_r.
    rewrite <- Hz. ring. }
  pose proof (scaled_energy
                {| Orbital.x := Asteroid.x (heap ref);
                   Orbital.y := Asteroid.y (heap ref) |}
                (Asteroid.vx (heap ref)) (Asteroid.vy (heap ref)) s) as Hen.
  set (r := {| Orbital.x := Asteroid.x (heap ref);
               Orbital.y := Asteroid.y (heap ref) |}) in *.
  set (v := {| Orbital.vx := Asteroid.vx (heap ref);
               Orbital.vy := Asteroid.vy (heap ref) |}) in *.
  set (scaled := {| Orbital.vx := s * Asteroid.vx (heap ref);
                    Orbital.vy := s * Asteroid.vy (heap ref) |}) in *.
  assert (Hsq : 0 < Utils.magnitude (Asteroid.vx (heap ref)) (Asteroid.vy (heap ref))
                    * Utils.magnitude (Asteroid.vx (heap ref)) (Asteroid.vy (heap ref)))
    by (apply Rmult_lt_0_compat; exact Hspeed).
  split.
  - intros Hneg.
    destruct (Hyes (conj Hneg Hcross)) as (after & Hafter & Hproj & _).
    exists after. split; [exact Hproj|]. split.
    + intros Hbig. apply (higher_energy_wider r v scaled); try assumption.
      apply Rlt_0_minus. rewrite Hen.
      apply Rdiv_lt_0_compat; [|lra].
      apply Rmult_lt_0_compat; [lra | exact Hsq].
    + intros Hsmall. apply (higher_energy_wider r scaled v); try assumption.
      apply Rlt_0_minus.
      replace (Orbital.orbitalEnergy r v - Orbital.orbitalEnergy r scaled)
        with (- (Orbital.orbitalEnergy r scaled - Orbital.orbitalEnergy r v))
        by ring.
      rewrite Hen.
      replace (- ((s * s - 1)
                  * (Utils.magnitude (Asteroid.vx (heap ref)) (Asteroid.vy (heap ref))
                     * Utils.magnitude (Asteroid.vx (heap ref)) (Asteroid.vy (heap ref)))
                  / 2))
        with ((1 - s * s)
              * (Utils.magnitude (Asteroid.vx (heap ref)) (Asteroid.vy (heap ref))
                 * Utils.magnitude (Asteroid.vx (heap ref)) (Asteroid.vy (heap ref)))
              / 2) by (unfold Rdiv; ring).
      apply Rdiv_lt_0_compat; [|lra].
      apply Rmult_lt_0_compat; [lra | exact Hsq].
  - intros Hpos. destruct (Hno (or_introl Hpos)) as (H1 & _ & H3 & _).
    split; assumption.
Qed.

(** X29.  An asteroid is selected whose position and velocity are those of
    a bound orbit with angular momentum.  After the prograde button and an
    input [value > 0] of the magnitude slider, the delta-v is along the
    velocity: the panel projects the orbit of the velocity scaled by
    [1 + dv / speed], whose semi-major axis is larger than that of the
    present orbit, as long as the energy stays negative, and shows the escape
    notice once it does not.  After the retrograde button and an input with
    [dv < speed], it projects an orbit whose semi-major axis is smaller. *)
Theorem prograde_raises_retrograde_lowers (heap : Ref -> Asteroid.Asteroid)
    (this : DeltaVPanel Ref) (ref : Ref) (value : R) :
  let body := heap ref in
  let r := {| Orbital.x := Asteroid.x body; Orbital.y := Asteroid.y body |} in
  let v := {| Orbital.vx := Asteroid.vx body; Orbital.vy := Asteroid.vy body |} in
  let speed := Utils.magnitude (Asteroid.vx body) (Asteroid.vy body) in
  let dv := value * DELTA_V_SCALE in
  let faster :=
    {| Orbital.vx := (1 + dv / speed) * Asteroid.vx body;
       Orbital.vy := (1 + dv / speed) * Asteroid.vy body |} in
  let pro := onMagnitudeInput heap (setPrograde heap this) value in
  let retro := onMagnitudeInput heap (setRetrograde heap this) value in
  this.(asteroid) = Some ref ->
  cross (Asteroid.x body) (Asteroid.y body) (Asteroid.vx body)
    (Asteroid.vy body) <> 0 ->
  Orbital.orbitalEnergy r v < 0 ->
  0 < value ->
  exists before : Orbital.OrbitalElements,
    Orbital.computeOrbitFromStateVectors r v = Some before
    /\ (Orbital.orbitalEnergy r faster < 0 ->
        exists after : Orbital.OrbitalElements,
          pro.(projectedOrbit) = Some after
          /\ Orbital.a before < Orbital.a after)
    /\ (0 <= Orbital.orbitalEnergy r faster ->
        pro.(projectedOrbit) = None /\ pro.(projectedInfo) = EscapeInfo)
    /\ (dv < speed ->
        exists after : Orbital.OrbitalElements,
          retro.(projectedOrbit) = Some after
          /\ Orbital.a after < Orbital.a before).
Proof.
  cbv zeta. intros Href Hh Hneg Hvalue.
  assert (Hv : Asteroid.vx (heap ref) <> 0 \/ Asteroid.vy (heap ref) <> 0).
  { destruct (Req_dec (Asteroid.vx (heap ref)) 0) as [Hx|Hx]; [|left; exact Hx].
    destruct (Req_dec (Asteroid.vy (heap ref)) 0) as [Hy|Hy]; [|right; exact Hy].
    exfalso. apply Hh. unfold cross. rewrite Hx, Hy. ring. }
  assert (Hv' : - Asteroid.vx (heap ref) <> 0 \/ - Asteroid.vy (heap ref) <> 0)
    by (destruct Hv; [left | right]; lra).
  pose proof (magnitude_pos _ _ Hv) as Hspeed.
  destruct (atan2_unit _ _ Hv) as [Hcp Hsp].
  destruct (atan2_unit _ _ Hv') as [Hcr Hsr].
  rewrite magnitude_opp in Hcr, Hsr.
  set (speed := Utils.magnitude (Asteroid.vx (heap ref))
                  (Asteroid.vy (heap ref))) in *.
  assert (Hscale : 0 < value * DELTA_V_SCALE) by (unfold DELTA_V_SCALE; lra).
  assert (Hk : 0 < value * DELTA_V_SCALE / speed)
    by (apply Rdiv_lt_0_compat; assumption).
  destruct (computeOrbit_bound _ _ Hneg) as [before Hbefore].
  exists before. split; [exact Hbefore|].
  unfold setPrograde, setRetrograde. rewrite Href.
  destruct (burn_projection heap this ref
              (JsMath.atan2 (Asteroid.vy (heap ref)) (Asteroid.vx (heap ref)))
              value Href) as (Hpro & Hpa & Hpd & Hpm).
  destruct (burn_projection heap this ref
              (JsMath.atan2 (- Asteroid.vy (heap ref))
                 (- Asteroid.vx (heap ref)))
              value Href) as (Hretro & Hra & Hrd & Hrm).
  cbv zeta in Hpro, Hpa, Hpd, Hpm, Hretro, Hra, Hrd, Hrm.
  rewrite Hpro, Hretro.
  destruct (scaled_burn heap _ ref (1 + value * DELTA_V_SCALE / speed) before
              Hpa) as [Hfast Hesc]; try assumption.
  { rewrite Hpm. lra. }
  { rewrite Hpm, Hpd, Hcp. fold speed. field. lra. }
  { rewrite Hpm, Hpd, Hsp. fold speed. field. lra. }
  { lra. }
  split; [|split].
  - intros Hbound. destruct (Hfast Hbound) as (after & Hafter & Hup & _).
    exists after. split; [exact Hafter|]. apply Hup. nra.
  - exact Hesc.
  - intros Hsmall.
    assert (Hk1 : value * DELTA_V_SCALE / speed < 1).
    { apply Rmult_lt_reg_r with speed; [exact Hspeed|].
      replace (value * DELTA_V_SCALE / speed * speed)
        with (value * DELTA_V_SCALE) by (field; lra).
      lra. }
    destruct (scaled_burn heap _ ref (1 - value * DELTA_V_SCALE / speed) before
                Hra) as [Hslow _]; try assumption.
    { rewrite Hrm. lra. }
    { rewrite Hrm, Hrd, Hcr. field. lra. }
    { rewrite Hrm, Hrd, Hsr. field. lra. }
    { lra. }
    destruct Hslow as (after & Hafter & _ & Hdown).
    + pose proof (scaled_energy
                    {| Orbital.x := Asteroid.x (heap ref);
                       Orbital.y := Asteroid.y (heap ref) |}
                    (Asteroid.vx (heap ref)) (Asteroid.vy (heap ref))
                    (1 - value * DELTA_V_SCALE / speed)) as Hen.
      fold speed in Hen.
      assert (Hsq : 0 < speed * speed) by (apply Rmult_lt_0_compat; assumption).
      assert (Hlow : (1 - value * DELTA_V_SCALE / speed)
                     * (1 - value * DELTA_V_SCALE / speed) - 1 < 0) by nra.
      assert (((1 - value * DELTA_V_SCALE / speed)
               * (1 - value * DELTA_V_SCALE / speed) - 1)
              * (speed * speed) / 2 < 0).
      { unfold Rdiv at 3.
        assert (((1 - value * DELTA_V_SCALE / speed)
                 * (1 - value * DELTA_V_SCALE / speed) - 1)
                * (speed * speed) < 0) by nra.
        lra. }
      lra.
    + exists after. split; [exact Hafter|]. apply Hdown. nra.
Qed.

Lemma trunc_spec (q : R) :
  (0 <= q -> 0 <= q - IZR (JsMath.trunc q) < 1)
  /\ (q < 0 -> -1 < q - IZR (JsMath.trunc q) <= 0).
Proof.
  unfold JsMath.trunc. split; intros Hq.
  - rewrite Rleb_true by exact Hq.
    destruct (base_Int_part q) as [H1 H2]. lra.
  - rewrite Rleb_false by exact Hq.
    destruct (base_Int_part (- q)) as [H1 H2].
    rewrite opp_IZR. lra.
Qed.

Lemma rem_spec (v m : R) :
  0 < m ->
  - m < JsMath.rem v m < m
  /\ (0 <= v -> 0 <= JsMath.rem v m)
  /\ (exists k : Z, JsMath.rem v m = v + IZR k * m).
Proof.
  intros Hm. unfold JsMath.rem.
  assert (Hq : v = m * (v / m)) by (field; lra).
  set (q := v / m) in *.
  assert (Hrem : v - m * IZR (JsMath.trunc q) = m * (q - IZR (JsMath.trunc q)))
    by (rewrite Hq at 1; ring).
  rewrite Hrem.
  destruct (trunc_spec q) as [Hpos Hneg].
  split; [|split].
  - destruct (Rle_or_lt 0 q) as [H0|H0]; [specialize (Hpos H0) | specialize (Hneg H0)]; nra.
  - intros Hv. assert (H0 : 0 <= q).
    { unfold q. apply Rmult_le_pos; [exact Hv|].
      apply Rlt_le, Rinv_0_lt_compat, Hm. }
    specialize (Hpos H0). nra.
  - exists (- JsMath.trunc q)%Z. rewrite opp_IZR, <- Hrem. ring.
Qed.

Lemma normalized_degrees (degrees : R) :
  let shown := JsMath.rem (JsMath.rem degrees 360 + 360) 360 in
  0 <= shown < 360
  /\ (exists k : Z, shown = degrees + IZR k * 360)
  /\ (0 <= degrees < 360 -> shown = degrees).
Proof.
  cbv zeta.
  destruct (rem_spec degrees 360 ltac:(lra)) as (H1 & _ & (k1 & Hk1)).
  set (r1 := JsMath.rem degrees 360) in *.
  destruct (rem_spec (r1 + 360) 360 ltac:(lra)) as (H2 & H3 & (k2 & Hk2)).
  specialize (H3 ltac:(lra)).
  set (r2 := JsMath.rem (r1 + 360) 360) in *.
  assert (Hk : r2 = degrees + IZR (k1 + k2 + 1) * 360).
  { rewrite !plus_IZR. rewrite Hk2, Hk1. ring. }
  split; [lra|]. split; [exists (k1 + k2 + 1)%Z; exact Hk|].
  intros Hd.
  assert (Hz : (k1 + k2 + 1 = 0)%Z).
  { apply eq_IZR.
    assert (- 1 < IZR (k1 + k2 + 1) < 1) by (split; nra).
    destruct (Z.eq_dec (k1 + k2 + 1) 0) as [Hz|Hz]; [rewrite Hz; reflexivity|].
    exfalso.
    assert (Hc : (k1 + k2 + 1 <= -1 \/ 1 <= k1 + k2 + 1)%Z) by lia.
    destruct Hc as [Hc|Hc]; apply IZR_le in Hc; lra. }
  rewrite Hk, Hz. ring.
Qed.

Lemma updateDirectionDisplay_slider (this : DeltaVPanel Ref) :
  (updateDirectionDisplay this).(sliderDirection)
  = JsMath.rem (JsMath.rem (radToDeg this.(direction)) 360 + 360) 360.
Proof. reflexivity. Qed.

(** X30.  [updateDirectionDisplay] sets the direction slider to the angle
    of [[0, 360)] degrees that differs from the direction by whole turns: it
    stands for the same direction.  An input of the direction slider between
    0 and 360 comes back as it was when the display is updated from the
    direction that the input set. *)
Theorem direction_display_is_normalized (heap : Ref -> Asteroid.Asteroid)
    (this : DeltaVPanel Ref) (value : R) :
  let shown := (updateDirectionDisplay this).(sliderDirection) in
  let typed :=
    (updateDirectionDisplay (onDirectionInput heap this value))
      .(sliderDirection) in
  0 <= shown < 360
  /\ (exists k : Z, shown = radToDeg this.(direction) + IZR k * 360)
  /\ cos (degToRad shown) = cos this.(direction)
  /\ sin (degToRad shown) = sin this.(direction)
  /\ (0 <= value < 360 -> typed = value).
Proof.
  cbv zeta. rewrite !updateDirectionDisplay_slider.
  destruct (normalized_degrees (radToDeg this.(direction)))
    as (Hin & (k & Hk) & _).
  cbv zeta in Hin, Hk.
  split; [exact Hin|]. split; [exists k; exact Hk|].
  assert (Hrad : degToRad (JsMath.rem (JsMath.rem (radToDeg this.(direction)) 360
                                       + 360) 360)
                 = this.(direction) + IZR k * (2 * PI)).
  { rewrite Hk. unfold degToRad, radToDeg. field. apply PI_neq0. }
  split; [rewrite Hrad; apply shift_direction|].
  split; [rewrite Hrad; apply shift_direction|].
  intros Hv.
  destruct (updateProjection_keeps heap (setDirection this (degToRad value)))
    as (_ & Hd & _).
  unfold onDirectionInput. rewrite Hd. cbn [setDirection direction].
  destruct (degrees_inverse value) as [Hinv _]. rewrite Hinv.
  apply normalized_degrees, Hv.
Qed.

End PanelFacts.

Section PanelInstances.

Import Utils Constants DeltaVPanel Samples.

Lemma movingBody_bound :
  Orbital.orbitalEnergy {| Orbital.x := 100; Orbital.y := 0 |}
    {| Orbital.vx := 0; Orbital.vy := 3 |} < 0.
Proof.
  unfold Orbital.orbitalEnergy. cbv zeta. cbn [Orbital.x Orbital.y Orbital.vx Orbital.vy].
  rewrite magnitude_sqr.
  destruct (magnitude_axis 100 ltac:(lra)) as [H100 _]. rewrite H100.
  unfold MU. lra.
Qed.


Lemma prograde_raises_retrograde_lowers_witness :
  let heap := fun _ : nat => movingBody in
  let this := panelOn 0 in
  let r := {| Orbital.x := 100; Orbital.y := 0 |} in
  let v := {| Orbital.vx := 0; Orbital.vy := 3 |} in
  let speed := Utils.magnitude 0 3 in
  let dv := 1 * DELTA_V_SCALE in
  let faster :=
    {| Orbital.vx := (1 + dv / speed) * 0;
       Orbital.vy := (1 + dv / speed) * 3 |} in
  let pro := onMagnitudeInput heap (setPrograde heap this) 1 in
  let retro := onMagnitudeInput heap (setRetrograde heap this) 1 in
  exists before : Orbital.OrbitalElements,
    Orbital.computeOrbitFromStateVectors r v = Some before
    /\ (Orbital.orbitalEnergy r faster < 0 ->
        exists after : Orbital.OrbitalElements,
          pro.(projectedOrbit) = Some after
          /\ Orbital.a before < Orbital.a after)
    /\ (0 <= Orbital.orbitalEnergy r faster ->
        pro.(projectedOrbit) = None /\ pro.(projectedInfo) = EscapeInfo)
    /\ (dv < speed ->
        exists after : Orbital.OrbitalElements,
          retro.(projectedOrbit) = Some after
          /\ Orbital.a after < Orbital.a before).
Proof.
  intros heap this.
  apply (prograde_raises_retrograde_lowers heap this 0%nat 1).
  - reflexivity.
  - unfold cross. simpl. lra.
  - exact movingBody_bound.
  - lra.
Defined.

End PanelInstances.

(** * The code in binary64 *)

(** ** js/utils.js *)

Section Binary64Utils.

Import Binary64.JsMath Binary64.Utils.

Local Open Scope float_scope.

Lemma lowerLoop_stuck (angle : float) :
  (2 * PI <=? angle) = true -> angle - 2 * PI = angle ->
  forall fuel : nat, lowerLoop fuel angle = None.
Proof.
  intros Habove Hsame. induction fuel as [|fuel IH]; [reflexivity|].
  cbn [lowerLoop]. rewrite Habove, Hsame. exact IH.
Qed.

Lemma raiseLoop_stuck (angle : float) :
  (angle <? 0) = true -> angle + 2 * PI = angle ->
  forall fuel : nat, raiseLoop fuel angle = None.
Proof.
  intros Hbelow Hsame. induction fuel as [|fuel IH]; [reflexivity|].
  cbn [raiseLoop]. rewrite Hbelow, Hsame. exact IH.
Qed.

Lemma lowerLoop_below (fuel : nat) :
  forall angle result : float,
    lowerLoop fuel angle = Some result -> (2 * PI <=? result) = false.
Proof.
  induction fuel as [|fuel IH]; intros angle result; [discriminate|].
  cbn [lowerLoop]. destruct (2 * PI <=? angle) eqn:E; [apply IH|].
  now intros [= <-].
Qed.

(** X1.  [normalizeAngle] in binary64.  An angle that already passes both
    tests is returned as it is.  A result is never at or above
    [2 * Math.PI].  The call does not return for every angle: from an angle
    at or above [2 * Math.PI] that the subtraction of [2 * Math.PI] leaves
    unchanged the second loop never leaves, and from a negative angle that
    the addition leaves unchanged the first loop never leaves; [1e17] and
    [-1e17] are such angles. *)
Theorem normalizeAngle_may_not_return :
  (forall (fuel : nat) (angle : float),
     (angle <? 0) = false -> (2 * PI <=? angle) = false ->
     normalizeAngle (S fuel) angle = Some angle)
  /\ (forall (fuel : nat) (angle result : float),
        normalizeAngle fuel angle = Some result ->
        (2 * PI <=? result) = false)
  /\ (forall angle : float,
        (angle <? 0) = false -> (2 * PI <=? angle) = true ->
        angle - 2 * PI = angle ->
        forall fuel : nat, normalizeAngle fuel angle = None)
  /\ (forall angle : float,
        (angle <? 0) = true -> angle + 2 * PI = angle ->
        forall fuel : nat, normalizeAngle fuel angle = None)
  /\ (forall fuel : nat, normalizeAngle fuel 1e17 = None)
  /\ (forall fuel : nat, normalizeAngle fuel (-1e17) = None).
Proof.
  assert (Hup : forall angle : float,
            (angle <? 0) = false -> (2 * PI <=? angle) = true ->
            angle - 2 * PI = angle ->
            forall fuel : nat, normalizeAngle fuel angle = None).
  { intros angle Hpos Habove Hsame fuel. unfold normalizeAngle.
    destruct fuel as [|fuel]; [reflexivity|].
    cbn [raiseLoop]. rewrite Hpos. cbn [bind].
    now apply lowerLoop_stuck. }
  assert (Hdown : forall angle : float,
            (angle <? 0) = true -> angle + 2 * PI = angle ->
            forall fuel : nat, normalizeAngle fuel angle = None).
  { intros angle Hneg Hsame fuel. unfold normalizeAngle.
    now rewrite raiseLoop_stuck. }
  split; [|split; [|split; [exact Hup | split; [exact Hdown | split]]]].
  - intros fuel angle Hpos Hbelow. unfold normalizeAngle.
    cbn [raiseLoop]. rewrite Hpos. cbn [bind lowerLoop]. now rewrite Hbelow.
  - intros fuel angle result. unfold normalizeAngle.
    destruct (raiseLoop fuel angle) as [raised|]; [|discriminate].
    cbn [bind]. apply lowerLoop_below.
  - apply Hup; vm_compute; reflexivity.
  - apply Hdown; vm_compute; reflexivity.
Qed.

(** The draw [1 - 2^-53], the largest that [Math.random()] can return,
    makes [randomRange(2.0, 3.5)] return 3.5 itself. *)
Lemma randomRange_reaches_max :
  let rnd := 0x1.fffffffffffffp-1 in
  (rnd <? 1) = true /\ randomRange rnd 2 3.5 = 3.5.
Proof. vm_compute. split; reflexivity. Qed.

End Binary64Utils.

(** ** js/orbital.js *)

Section Binary64Orbital.

Import Binary64.JsMath Binary64.Utils Binary64.Orbital Binary64.Samples.

Local Open Scope float_scope.



(** C7, as stated, fails in binary64.  With the values of [Math.sin] and
    [Math.cos] at 0 and at [2 * Math.PI], the path of the circular orbit of
    radius 500 that is sampled at these two angles starts at [(500, 0)] and
    ends at [(500, -1.2246467991473532e-13)]; so do the first and the last
    of the 101 samples of the path that the program draws.  The two points
    differ in [y]. *)
Lemma generateOrbitPath_open_in_binary64 :
  let first := {| x := 500; y := 0 |} in
  let last := {| x := 500; y := -1.2246467991473532e-13 |} in
  generateOrbitPath math circularOrbit 1 = [first; last]
  /\ (let path :=
        generateOrbitPath math circularOrbit Binary64.Constants.ORBIT_PATH_POINTS in
      List.length path = 101%nat
      /\ hd last path = first
      /\ List.last path first = last)
  /\ (y first =? y last) = false.
Proof. vm_compute. repeat split. Qed.

End Binary64Orbital.

(** ** js/selection.js *)

Section Binary64QuadTree.

Import Binary64.Selection.

Local Open Scope float_scope.

Context {A : Type} `{Circular A}.

Lemma redistribute_none64
    (ins : QuadTree A -> A -> option (QuadTree A * bool)) (objs : list A) :
  redistribute ins objs None = None.
Proof. induction objs as [|o objs IH]; [reflexivity | exact IH]. Qed.

Lemma redistribute_cons64
    (ins : QuadTree A -> A -> option (QuadTree A * bool)) (o : A)
    (objs : list A) (kids : Children A) :
  redistribute ins (o :: objs) (Some kids)
  = redistribute ins objs
      (bind (insertIntoChildren ins kids o) (fun '(kids, _) => Some kids)).
Proof. reflexivity. Qed.

Lemma insertIntoChildren_mono64
    (ins ins' : QuadTree A -> A -> option (QuadTree A * bool))
    (kids : Children A) (obj : A) (r : Children A * bool) :
  (forall t o r, ins t o = Some r -> ins' t o = Some r) ->
  insertIntoChildren ins kids obj = Some r ->
  insertIntoChildren ins' kids obj = Some r.
Proof.
  intros Hext. destruct kids as [[[ne nw] se] sw].
  unfold insertIntoChildren, bind.
  destruct (ins ne obj) as [[ne' ok1]|] eqn:E1; [|discriminate].
  rewrite (Hext _ _ _ E1). destruct ok1; [trivial|].
  destruct (ins nw obj) as [[nw' ok2]|] eqn:E2; [|discriminate].
  rewrite (Hext _ _ _ E2). destruct ok2; [trivial|].
  destruct (ins se obj) as [[se' ok3]|] eqn:E3; [|discriminate].
  rewrite (Hext _ _ _ E3). destruct ok3; [trivial|].
  destruct (ins sw obj) as [[sw' ok4]|] eqn:E4; [|discriminate].
  rewrite (Hext _ _ _ E4). trivial.
Qed.

Lemma redistribute_mono64
    (ins ins' : QuadTree A -> A -> option (QuadTree A * bool)) :
  (forall t o r, ins t o = Some r -> ins' t o = Some r) ->
  forall (objs : list A) (kids : option (Children A)) (r : Children A),
    redistribute ins objs kids = Some r ->
    redistribute ins' objs kids = Some r.
Proof.
  intros Hext. induction objs as [|o objs IH]; intros kids r; [trivial|].
  destruct kids as [kids|]; [|now rewrite redistribute_none64].
  rewrite !redistribute_cons64.
  destruct (insertIntoChildren ins kids o) as [[kids1 ok]|] eqn:E;
    cbn [bind]; [|now rewrite redistribute_none64].
  rewrite (insertIntoChildren_mono64 _ _ _ _ _ Hext E). cbn [bind]. apply IH.
Qed.

(** More fuel changes nothing of a call of [insert] that returned. *)
Lemma insert_mono64 (fuel : nat) :
  forall (fuel' : nat) (t : QuadTree A) (obj : A) (r : QuadTree A * bool),
    (fuel <= fuel')%nat ->
    insert fuel t obj = Some r -> insert fuel' t obj = Some r.
Proof.
  induction fuel as [|fuel IH]; intros fuel' t obj r Hle; [discriminate|].
  destruct fuel' as [|fuel']; [lia|].
  assert (Hext : forall t o r, insert fuel t o = Some r ->
                               insert fuel' t o = Some r)
    by (intros; apply (IH fuel'); [lia | assumption]).
  cbn [insert].
  destruct (negb (containsPoint (bounds t) (objX obj) (objY obj))); [trivial|].
  destruct t as [b c objs | b c objs ne nw se sw].
  - destruct (List.length objs <? c)%nat; [trivial|].
    destruct (redistribute (insert fuel) objs (Some (subdivide b c)))
      as [kids1|] eqn:E1; [|discriminate].
    rewrite (redistribute_mono64 _ _ Hext _ _ _ E1). cbn [bind].
    destruct (insertIntoChildren (insert fuel) kids1 obj) as [r2|] eqn:E2;
      [|discriminate].
    now rewrite (insertIntoChildren_mono64 _ _ _ _ _ Hext E2).
  - destruct (insertIntoChildren (insert fuel) (ne, nw, se, sw) obj)
      as [r2|] eqn:E2; [|discriminate].
    now rewrite (insertIntoChildren_mono64 _ _ _ _ _ Hext E2).
Qed.

Lemma insertEach_mono64 (fuel fuel' : nat) :
  (fuel <= fuel')%nat ->
  forall (objs : list A) (t : QuadTree A) (r : QuadTree A * list bool),
    insertEach fuel t objs = Some r -> insertEach fuel' t objs = Some r.
Proof.
  intros Hle. induction objs as [|o objs IH]; intros t r; [trivial|].
  cbn [insertEach].
  destruct (insert fuel t o) as [[t1 ok]|] eqn:E; [|discriminate].
  rewrite (insert_mono64 fuel fuel' t o _ Hle E). cbn [bind].
  destruct (insertEach fuel t1 objs) as [[t2 oks]|] eqn:E2; [|discriminate].
  now rewrite (IH _ _ E2).
Qed.

(** *** What a tree and a query can hold *)

Lemma Contained_refl (l : list A) : Contained l l.
Proof. exists []. now rewrite app_nil_r. Qed.

Lemma Contained_nil (l : list A) : Contained [] l.
Proof. now exists l. Qed.

Lemma Contained_perm (l l1 l2 : list A) :
  Contained l l1 -> Permutation l1 l2 -> Contained l l2.
Proof. intros [rest Hp] H12. exists rest. now rewrite Hp. Qed.

Lemma Contained_trans (l1 l2 l3 : list A) :
  Contained l1 l2 -> Contained l2 l3 -> Contained l1 l3.
Proof.
  intros [r1 H1] [r2 H2]. exists (r1 ++ r2).
  rewrite app_assoc, H1. exact H2.
Qed.

Lemma Contained_app (l1 l1' l2 l2' : list A) :
  Contained l1 l1' -> Contained l2 l2' -> Contained (l1 ++ l2) (l1' ++ l2').
Proof.
  intros [r1 H1] [r2 H2]. exists (r1 ++ r2).
  rewrite <- H1, <- H2, <- !app_assoc.
  apply Permutation_app_head.
  rewrite !app_assoc. apply Permutation_app_tail, Permutation_app_comm.
Qed.

Lemma Contained_cons_r (x : A) (l l' : list A) :
  Contained l l' -> Contained l (x :: l').
Proof.
  intros [rest Hp]. exists (x :: rest).
  rewrite <- Hp. symmetry. apply Permutation_middle.
Qed.

Lemma Contained_app_r (l l1 l2 : list A) :
  Contained l l2 -> Contained l (l1 ++ l2).
Proof.
  intros Hl. induction l1 as [|x l1 IH]; [exact Hl|].
  cbn [app]. now apply Contained_cons_r.
Qed.

Lemma Contained_app_l (l l1 l2 : list A) :
  Contained l l1 -> Contained l (l1 ++ l2).
Proof.
  intros Hl. apply Contained_perm with (l2 ++ l1);
    [now apply Contained_app_r | apply Permutation_app_comm].
Qed.

Lemma Contained_filter (f : A -> bool) (l l' : list A) :
  Contained l l' -> Contained (filter f l) (filter f l').
Proof.
  intros [rest Hp]. exists (filter f rest).
  rewrite <- filter_app. now apply Permutation_filter.
Qed.

Lemma Contained_in (l l' : list A) (x : A) :
  Contained l l' -> In x l -> In x l'.
Proof.
  intros [rest Hp] Hin. apply (Permutation_in _ Hp), in_or_app. now left.
Qed.

Lemma Contained_nil_r (l : list A) : Contained l [] -> l = [].
Proof.
  intros [rest Hp]. apply Permutation_sym, Permutation_nil in Hp.
  now apply app_eq_nil in Hp.
Qed.

Lemma Contained_NoDup (l l' : list A) :
  Contained l l' -> NoDup l' -> NoDup l.
Proof.
  intros [rest Hp] Hnd.
  apply (Permutation_NoDup (Permutation_sym Hp)) in Hnd.
  now apply NoDup_app_remove_r in Hnd.
Qed.

Lemma Contained_insert_later (x : A) (l1 l1' l2 l2' : list A) :
  Contained l1' l1 -> Contained l2' (x :: l2) ->
  Contained (l1' ++ l2') (x :: l1 ++ l2).
Proof.
  intros H1 H2.
  apply Contained_perm with (l1 ++ x :: l2);
    [now apply Contained_app | symmetry; apply Permutation_middle].
Qed.

Lemma insertIntoChildren_keeps
    (ins : QuadTree A -> A -> option (QuadTree A * bool))
    (kids kids' : Children A) (obj : A) (ok : bool) :
  Keeps ins ->
  insertIntoChildren ins kids obj = Some (kids', ok) ->
  Contained (kidsElements kids')
    (if ok then obj :: kidsElements kids else kidsElements kids).
Proof.
  intros Hins. destruct kids as [[[ne nw] se] sw].
  unfold insertIntoChildren, bind.
  destruct (ins ne obj) as [[ne' ok1]|] eqn:E1; [|discriminate].
  pose proof (Hins _ _ _ _ E1) as H1.
  destruct ok1.
  { intros [= <- <-]. cbn [kidsElements].
    change (obj :: elements ne ++ elements nw ++ elements se ++ elements sw)
      with ((obj :: elements ne) ++ elements nw ++ elements se ++ elements sw).
    apply Contained_app; [exact H1 | apply Contained_refl]. }
  destruct (ins nw obj) as [[nw' ok2]|] eqn:E2; [|discriminate].
  pose proof (Hins _ _ _ _ E2) as H2.
  destruct ok2.
  { intros [= <- <-]. cbn [kidsElements].
    apply Contained_insert_later; [exact H1|].
    change (obj :: elements nw ++ elements se ++ elements sw)
      with ((obj :: elements nw) ++ elements se ++ elements sw).
    apply Contained_app; [exact H2 | apply Contained_refl]. }
  destruct (ins se obj) as [[se' ok3]|] eqn:E3; [|discriminate].
  pose proof (Hins _ _ _ _ E3) as H3.
  destruct ok3.
  { intros [= <- <-]. cbn [kidsElements].
    apply Contained_insert_later; [exact H1|].
    apply Contained_insert_later; [exact H2|].
    change (obj :: elements se ++ elements sw)
      with ((obj :: elements se) ++ elements sw).
    apply Contained_app; [exact H3 | apply Contained_refl]. }
  destruct (ins sw obj) as [[sw' ok4]|] eqn:E4; [|discriminate].
  pose proof (Hins _ _ _ _ E4) as H4.
  intros [= <- <-]. cbn [kidsElements].
  destruct ok4.
  - apply Contained_insert_later; [exact H1|].
    apply Contained_insert_later; [exact H2|].
    apply Contained_insert_later; [exact H3 | exact H4].
  - repeat (apply Contained_app; [assumption|]). exact H4.
Qed.

Lemma Contained_drop_flag (x : A) (l l' : list A) (ok : bool) :
  Contained l (if ok then x :: l' else l') -> Contained l (x :: l').
Proof. destruct ok; [trivial | apply Contained_cons_r]. Qed.

Lemma redistribute_keeps
    (ins : QuadTree A -> A -> option (QuadTree A * bool)) :
  Keeps ins ->
  forall (objs : list A) (kids kids' : Children A),
    redistribute ins objs (Some kids) = Some kids' ->
    Contained (kidsElements kids') (objs ++ kidsElements kids).
Proof.
  intros Hins. induction objs as [|o objs IH]; intros kids kids'.
  - intros [= <-]. apply Contained_refl.
  - rewrite redistribute_cons64.
    destruct (insertIntoChildren ins kids o) as [[kids1 ok]|] eqn:E;
      cbn [bind]; [|now rewrite redistribute_none64].
    intros Hrest. specialize (IH _ _ Hrest).
    apply insertIntoChildren_keeps in E; [|exact Hins].
    apply Contained_drop_flag in E.
    apply Contained_trans with (objs ++ kidsElements kids1); [exact IH|].
    apply Contained_perm with (objs ++ o :: kidsElements kids);
      [apply Contained_app; [apply Contained_refl | exact E]|].
    symmetry. apply Permutation_middle.
Qed.

Lemma insert_keeps (fuel : nat) : Keeps (insert fuel).
Proof.
  induction fuel as [|fuel IH]; intros t obj t' ok; [discriminate|].
  cbn [insert].
  destruct (negb (containsPoint (bounds t) (objX obj) (objY obj))).
  { intros [= <- <-]. apply Contained_refl. }
  destruct t as [b c objs | b c objs ne nw se sw].
  - destruct (List.length objs <? c)%nat.
    { intros [= <- <-]. cbn [elements].
      apply Contained_perm with (objs ++ [obj]);
        [apply Contained_refl|].
      symmetry. apply Permutation_cons_append. }
    destruct (redistribute (insert fuel) objs (Some (subdivide b c)))
      as [kids1|] eqn:E1; [|discriminate].
    cbn [bind].
    destruct (insertIntoChildren (insert fuel) kids1 obj)
      as [[kids2 ok2]|] eqn:E2; [|discriminate].
    cbn [bind]. destruct kids2 as [[[ne2 nw2] se2] sw2].
    intros [= <- <-]. cbn [elements app].
    apply redistribute_keeps in E1; [|exact IH].
    cbn [subdivide create kidsElements elements app] in E1.
    rewrite app_nil_r in E1.
    apply insertIntoChildren_keeps in E2; [|exact IH].
    cbn [kidsElements] in E2.
    destruct ok2.
    + apply Contained_trans with (obj :: kidsElements kids1); [exact E2|].
      change (obj :: kidsElements kids1) with ([obj] ++ kidsElements kids1).
      change (obj :: objs) with ([obj] ++ objs).
      apply Contained_app; [apply Contained_refl | exact E1].
    + apply Contained_trans with (kidsElements kids1); assumption.
  - destruct (insertIntoChildren (insert fuel) (ne, nw, se, sw) obj)
      as [[kids2 ok2]|] eqn:E2; [|discriminate].
    cbn [bind]. destruct kids2 as [[[ne2 nw2] se2] sw2].
    intros [= <- <-]. cbn [elements].
    apply insertIntoChildren_keeps in E2; [|exact IH].
    cbn [kidsElements] in E2.
    destruct ok2.
    + apply Contained_insert_later; [apply Contained_refl | exact E2].
    + apply Contained_app; [apply Contained_refl | exact E2].
Qed.

Lemma insertEach_keeps (fuel : nat) :
  forall (objs : list A) (t t' : QuadTree A) (oks : list bool),
    insertEach fuel t objs = Some (t', oks) ->
    Contained (elements t') (objs ++ elements t).
Proof.
  induction objs as [|o objs IH]; intros t t' oks.
  - intros [= <- <-]. apply Contained_refl.
  - cbn [insertEach].
    destruct (insert fuel t o) as [[t1 ok]|] eqn:E1; [|discriminate].
    cbn [bind].
    destruct (insertEach fuel t1 objs) as [[t2 oks2]|] eqn:E2;
      [|discriminate].
    cbn [bind]. intros [= <- <-].
    specialize (IH _ _ _ E2).
    apply insert_keeps, Contained_drop_flag in E1.
    apply Contained_trans with (objs ++ elements t1); [exact IH|].
    apply Contained_perm with (objs ++ o :: elements t);
      [apply Contained_app; [apply Contained_refl | exact E1]|].
    symmetry. apply Permutation_middle.
Qed.

Lemma pushed_filter (cx cy radius : float) (objs found : list A) :
  fold_left
    (fun found obj =>
       if inCircle cx cy radius obj then found ++ [obj] else found)
    objs found
  = found ++ filter (inCircle cx cy radius) objs.
Proof.
  revert found. induction objs as [|o objs IH]; intros found;
    cbn [fold_left filter]; [now rewrite app_nil_r|].
  rewrite IH. destruct (inCircle cx cy radius o); [|reflexivity].
  now rewrite <- app_assoc.
Qed.

(** [queryCircle] appends objects of the tree that pass the test of the
    circle, each at most as often as the tree holds it. *)
Lemma queryCircle_picks (cx cy radius : float) (t : QuadTree A) :
  forall found : list A,
  exists picked : list A,
    queryCircle t cx cy radius found = found ++ picked
    /\ Contained picked (filter (inCircle cx cy radius) (elements t)).
Proof.
  induction t as [b c objs | b c objs ne IHne nw IHnw se IHse sw IHsw];
    intros found; cbn [queryCircle bounds objects elements].
  - destruct (intersectsCircle b cx cy radius); cbn [negb].
    + exists (filter (inCircle cx cy radius) objs).
      split; [apply pushed_filter | apply Contained_refl].
    + exists []. split; [now rewrite app_nil_r | apply Contained_nil].
  - destruct (intersectsCircle b cx cy radius); cbn [negb].
    2:{ exists []. split; [now rewrite app_nil_r | apply Contained_nil]. }
    rewrite pushed_filter.
    destruct (IHne (found ++ filter (inCircle cx cy radius) objs))
      as (p1 & -> & H1).
    destruct (IHnw ((found ++ filter (inCircle cx cy radius) objs) ++ p1))
      as (p2 & -> & H2).
    destruct (IHse (((found ++ filter (inCircle cx cy radius) objs) ++ p1)
                    ++ p2)) as (p3 & -> & H3).
    destruct (IHsw ((((found ++ filter (inCircle cx cy radius) objs) ++ p1)
                     ++ p2) ++ p3)) as (p4 & -> & H4).
    exists (filter (inCircle cx cy radius) objs ++ p1 ++ p2 ++ p3 ++ p4).
    split; [now rewrite <- !app_assoc|].
    rewrite !filter_app.
    repeat (apply Contained_app; [first [apply Contained_refl | assumption]|]).
    assumption.
Qed.

(** X13.  In binary64, whatever [insert] keeps and whatever it drops: after
    the objects [objs] have been inserted one after the other into a fresh
    quadtree, the tree holds inserted objects only, each at most as often
    as it was inserted; [queryCircle] returns objects of the tree whose
    centre passes the test of the circle, each at most as often as the tree
    holds it, hence nothing when no inserted object passes the test, and no
    object twice when no object was inserted twice. *)
Theorem queryCircle_returns_inserted_only (fuel : nat) (b : Bounds) (c : nat)
    (objs : list A) (tree : QuadTree A) (oks : list bool)
    (cx cy radius : float) :
  insertEach fuel (create b c) objs = Some (tree, oks) ->
  Contained (elements tree) objs
  /\ Contained (queryCircle tree cx cy radius [])
       (filter (inCircle cx cy radius) (elements tree))
  /\ Contained (queryCircle tree cx cy radius [])
       (filter (inCircle cx cy radius) objs)
  /\ (Forall (fun obj => inCircle cx cy radius obj = false) objs ->
      queryCircle tree cx cy radius [] = [])
  /\ (NoDup objs -> NoDup (queryCircle tree cx cy radius [])).
Proof.
  intros Hrun.
  assert (Hheld : Contained (elements tree) objs).
  { pose proof (insertEach_keeps fuel objs _ _ _ Hrun) as Hk.
    cbn [create elements] in Hk. now rewrite app_nil_r in Hk. }
  destruct (queryCircle_picks cx cy radius tree []) as (picked & Hq & Hp).
  cbn [app] in Hq. rewrite Hq.
  assert (Hall : Contained picked (filter (inCircle cx cy radius) objs)).
  { apply Contained_trans with (1 := Hp). now apply Contained_filter. }
  split; [exact Hheld | split; [exact Hp | split; [exact Hall | split]]].
  - intros Hnone. apply Contained_nil_r.
    replace (filter (inCircle cx cy radius) objs) with (@nil A) in Hall;
      [exact Hall|].
    symmetry. clear - Hnone.
    induction Hnone as [|o l Ho _ IH]; cbn [filter]; [reflexivity|].
    now rewrite Ho.
  - intros Hnd. apply (Contained_NoDup _ _ Hall).
    now apply NoDup_filter.
Qed.

End Binary64QuadTree.

Section Binary64Instances.

Import Binary64.Selection Binary64.Samples.

Local Open Scope float_scope.

(** C8 fails in binary64.  [leftBody] and [rightBody] are at different
    positions, both within the bounds [square] and both within the query
    circle of radius 1000 about the origin, which covers [square].  They
    are inserted into a fresh quadtree of capacity 1.  The first call of
    [insert] returns [true], the second returns [false], and afterwards the
    tree holds neither body: the query returns nothing.  (The second call
    subdivides 56 times.  The two bodies stay in one cell, and at that
    depth the cell is lower than the spacing of the doubles at [y = 45.6]:
    for its children [y + h] is [y] again, so that no child contains a
    point.  The loop that moves the objects of the node into the children
    drops the first body, and the disjunction over the children is
    [false] for the second.)  The same happens to the nine bodies of
    [column] in the world and with the capacity of [rebuildQuadtree]: the
    ninth call returns [false] and the rebuilt tree is empty. *)
Theorem quadtree_loses_close_bodies :
  ((objX leftBody <? objX rightBody) = true
   /\ containsPoint square (objX leftBody) (objY leftBody) = true
   /\ containsPoint square (objX rightBody) (objY rightBody) = true
   /\ inCircle 0 0 1000 leftBody = true
   /\ inCircle 0 0 1000 rightBody = true
   /\ exists tree : QuadTree Body,
        (forall fuel : nat, (58 <= fuel)%nat ->
           insertEach fuel (create square 1) [leftBody; rightBody]
           = Some (tree, [true; false]))
        /\ elements tree = []
        /\ queryCircle tree 0 0 1000 [] = [])
  /\ (forall p : Body, In p column ->
        containsPoint (worldBounds world) (objX p) (objY p) = true
        /\ inCircle 0 0 2000 p = true)
  /\ map objY column
     = [10; 10.000000000000002; 10.000000000000004; 10.000000000000005;
        10.000000000000007; 10.000000000000009; 10.000000000000011;
        10.000000000000012; 10.000000000000014]
  /\ exists tree : QuadTree Body,
       (forall fuel : nat, (58 <= fuel)%nat ->
          insertEach fuel (create (worldBounds world) 8) column
          = Some (tree,
                  [true; true; true; true; true; true; true; true; false])
          /\ rebuildQuadtree fuel column world = Some tree)
       /\ elements tree = []
       /\ queryCircle tree 0 0 2000 [] = [].
Proof.
  split; [|split; [|split]].
  - repeat (split; [vm_compute; reflexivity|]).
    remember (insertEach 58 (create square 1) [leftBody; rightBody]) as run
      eqn:Erun.
    vm_compute in Erun.
    match type of Erun with
    | _ = Some (?t, _) => exists t
    end.
    split; [|split; vm_compute; reflexivity].
    intros fuel Hfuel.
    apply (insertEach_mono64 58 fuel Hfuel). vm_compute. reflexivity.
  - intros p Hp. unfold column in Hp. cbn [seq map In] in Hp.
    repeat (destruct Hp as [<- | Hp]; [vm_compute; split; reflexivity|]).
    destruct Hp.
  - vm_compute. reflexivity.
  - remember (insertEach 58 (create (worldBounds world) 8) column) as run
      eqn:Erun.
    vm_compute in Erun.
    match type of Erun with
    | _ = Some (?t, _) => exists t
    end.
    split; [|split; vm_compute; reflexivity].
    intros fuel Hfuel.
    match goal with
    | |- ?run = _ /\ _ =>
        assert (Hrun : run
                       = Some (_, [true; true; true; true; true; true; true;
                                   true; false]))
          by (apply (insertEach_mono64 58 fuel Hfuel); vm_compute;
              reflexivity)
    end.
    split; [exact Hrun|].
    unfold rebuildQuadtree. rewrite Hrun. reflexivity.
Qed.

(** X14.  In binary64 the children that [subdivide] makes do not always
    cover their parent.  The node of width and height [200 / 2^55] whose
    corner is the position of [leftBody] contains that position, and none
    of its four children does: their height is less than half the spacing
    of the doubles at [y = 45.6], so that for them [y + height] is [y]
    again. *)
Theorem subdivide_leaves_gaps :
  let parent :=
    {| x := 12.3; y := 45.6; width := 0x1.9p-48; height := 0x1.9p-48 |} in
  let px := objX leftBody in
  let py := objY leftBody in
  let '(ne, nw, se, sw) := subdivide (A:=Body) parent 1 in
  containsPoint parent px py = true
  /\ map (fun kid => containsPoint (bounds kid) px py) [ne; nw; se; sw]
     = [false; false; false; false]
  /\ map (fun kid => (bounds kid).(y) + (bounds kid).(height) =? (bounds kid).(y))
       [ne; nw; se; sw]
     = [true; true; true; true].
Proof. vm_compute. repeat split. Qed.

Lemma queryCircle_returns_inserted_only_witness :
  exists tree : QuadTree Body,
    insertEach 3 (create square 1) [leftBody; awayBody]
    = Some (tree, [true; true])
    /\ (Contained (elements tree) [leftBody; awayBody]
        /\ Contained (queryCircle tree 12 45 10 [])
             (filter (inCircle 12 45 10) (elements tree))
        /\ Contained (queryCircle tree 12 45 10 [])
             (filter (inCircle 12 45 10) [leftBody; awayBody])
        /\ (Forall (fun obj => inCircle 12 45 10 obj = false)
                   [leftBody; awayBody] ->
            queryCircle tree 12 45 10 [] = [])
        /\ (NoDup [leftBody; awayBody] ->
            NoDup (queryCircle tree 12 45 10 [])))
    /\ queryCircle tree 12 45 10 [] = [leftBody].
Proof.
  eexists. split; [vm_compute; reflexivity|].
  split; [|vm_compute; reflexivity].
  apply (queryCircle_returns_inserted_only 3 square 1 [leftBody; awayBody]
           _ [true; true] 12 45 10).
  vm_compute; reflexivity.
Defined.

End Binary64Instances.
